(** * TV library consolidator: a shallow embedding of [tvconsolidator.py]

    The development follows the script top-down: configuration constants,
    name normalisation, the episode pattern, the platform (a directory tree
    with the [os]/[shutil] primitives the script calls), the action functions
    ([safe_move], [force_move], [safe_delete], [cleanup_folder_tree]), the
    scanner ([scan_library]) and the consolidation pass
    ([process_consolidation]).

    Conventions.
    - A file or folder name is a Python [str]; in the tree and the inventory
      it is modelled as a Rocq [string] whose characters are the code points
      0..255 (Latin-1).  The character classes used by [str.strip],
      [str.lower] and the regular expressions ([\s], [\d], [(?i)]) are the
      ones CPython uses on that range.  Above U+00FF they are no longer maps
      on characters; the module [Unicode] gives [normalize_name] and the
      pattern on every code point, and [Below256] shows that on the range of
      [Names] the two agree.
    - A path is a list of components; [os.path.join] is list append and
      [os.path.basename] is the last component.
    - A root is the literal command-line string; [resolve] turns it into a
      path ([os.path.abspath]). *)

From Stdlib Require Import ZArith NArith String Ascii List Lia.
From stdpp Require Import base tactics option list sorting strings gmap sets.

Set Warnings "-register-all,-clear-no-such-hyp".

Open Scope string_scope.
Open Scope Z_scope.
Open Scope list_scope.

(* ===================================================================== *)
(** * Configuration *)
(* ===================================================================== *)

Definition MIN_FREE_BUFFER : Z := 100 * 1024 * 1024 * 1024.
Definition MIN_VIDEO_SIZE : Z := 50 * 1024 * 1024.
Definition JUNK_FILES : gset string :=
  {[ ".plexmatch"; ".ds_store"; "thumbs.db"; "desktop.ini" ]}.

(* ===================================================================== *)
(** * Characters and names *)
(* ===================================================================== *)

Module Names.

Definition code (c : ascii) : N := N_of_ascii c.

(** [str.isspace] / [\s] on code points below 256. *)
Definition is_space (c : ascii) : bool :=
  let n := code c in
  ((9 <=? n) && (n <=? 13) || (28 <=? n) && (n <=? 32)
   || (n =? 133) || (n =? 160))%N.

(** [str.lower] on code points below 256 (one character to one). *)
Definition lower_char (c : ascii) : ascii :=
  let n := code c in
  if ((65 <=? n) && (n <=? 90)
      || (192 <=? n) && (n <=? 222) && negb (n =? 215))%N
  then ascii_of_N (n + 32) else c.

(** The replacement of [re.sub(r'[._]', ' ', name)] on one character. *)
Definition sep_to_space (c : ascii) : ascii :=
  if ((code c =? 46) || (code c =? 95))%N then " "%char else c.

Fixpoint lstrip (l : list ascii) : list ascii :=
  match l with
  | [] => []
  | c :: l' => if is_space c then lstrip l' else l
  end.

Fixpoint rstrip (l : list ascii) : list ascii :=
  match l with
  | [] => []
  | c :: l' =>
      match rstrip l' with
      | [] => if is_space c then [] else [c]
      | r => c :: r
      end
  end.

Definition strip (l : list ascii) : list ascii := rstrip (lstrip l).

(** [re.sub(r'\s+', ' ', s)]: every maximal run of whitespace becomes one
    space.  [in_run] says that the previous character was whitespace. *)
Fixpoint collapse (in_run : bool) (l : list ascii) : list ascii :=
  match l with
  | [] => []
  | c :: l' =>
      if is_space c
      then (if in_run then collapse true l' else " "%char :: collapse true l')
      else c :: collapse false l'
  end.

Definition lower (l : list ascii) : list ascii := map lower_char l.

Definition normalize_chars (l : list ascii) : list ascii :=
  let clean := lower (strip (map sep_to_space l)) in
  collapse false clean.

Definition normalize_name (name : string) : string :=
  string_of_list_ascii (normalize_chars (list_ascii_of_string name)).

(** Two names that differ only by letter case, by a separator ([.], [_] or
    a space) standing for another, or by surrounding whitespace. *)
Inductive char_variant : ascii -> ascii -> Prop :=
| cv_case a b : lower_char a = lower_char b -> char_variant a b
| cv_sep a b :
    a ∈ ["."%char; "_"%char; " "%char] ->
    b ∈ ["."%char; "_"%char; " "%char] -> char_variant a b.

Definition all_space (l : list ascii) : Prop := Forall (fun c => is_space c = true) l.

Definition name_variant (x y : string) : Prop :=
  exists l1 c1 r1 l2 c2 r2,
    list_ascii_of_string x = l1 ++ c1 ++ r1 /\
    list_ascii_of_string y = l2 ++ c2 ++ r2 /\
    all_space l1 /\ all_space r1 /\ all_space l2 /\ all_space r2 /\
    Forall2 char_variant c1 c2.

End Names.

Export Names.

(* ===================================================================== *)
(** * The episode pattern [(?i)S(\d+)E(\d+)] *)
(* ===================================================================== *)

Module Pattern.

Definition is_digit (c : ascii) : bool := ((48 <=? code c) && (code c <=? 57))%N.
Definition is_S (c : ascii) : bool := ((code c =? 83) || (code c =? 115))%N.
Definition is_E (c : ascii) : bool := ((code c =? 69) || (code c =? 101))%N.

(** The longest run of digits at the head, and what follows: greedy [\d+]. *)
Fixpoint span_digits (l : list ascii) : list ascii * list ascii :=
  match l with
  | [] => ([], [])
  | c :: l' =>
      if is_digit c
      then let '(d, r) := span_digits l' in (c :: d, r)
      else ([], l)
  end.

(** [int(match.group(i))] *)
Definition int_of_digits (d : list ascii) : N :=
  fold_left (fun acc c => acc * 10 + (code c - 48))%N d 0%N.

(** A match starting at the first character: season, episode and length.
    A shorter digit run never helps, because the character after a maximal
    run is not a digit, so the greedy match is the only candidate. *)
Definition match_here (l : list ascii) : option (N * N * nat) :=
  match l with
  | [] => None
  | s :: l1 =>
      if is_S s then
        match span_digits l1 with
        | ((_ :: _) as d1, e :: l2) =>
            if is_E e then
              match span_digits l2 with
              | ((_ :: _) as d2, _) =>
                  Some (int_of_digits d1, int_of_digits d2,
                        (2 + length d1 + length d2)%nat)
              | _ => None
              end
            else None
        | _ => None
        end
      else None
  end.

(** [PATTERN.search]: the leftmost match; the third component is
    [match.end()]. *)
Fixpoint search_from (off : nat) (l : list ascii) : option (N * N * nat) :=
  match match_here l with
  | Some (s, e, len) => Some (s, e, (off + len)%nat)
  | None =>
      match l with
      | [] => None
      | _ :: l' => search_from (S off) l'
      end
  end.

Definition search (f : string) : option (N * N * nat) :=
  search_from 0 (list_ascii_of_string f).

End Pattern.

(** [f.lower()] *)
Definition string_lower (f : string) : string :=
  string_of_list_ascii (lower (list_ascii_of_string f)).

Definition is_junk (f : string) : bool :=
  bool_decide (string_lower f ∈ JUNK_FILES).

(* ===================================================================== *)
(** * Names beyond U+00FF *)
(* ===================================================================== *)

(** [Names] and [Pattern] read a name as code points below 256.  A Python
    [str] holds any code point, and above U+00FF [str.lower] is no longer a
    map on characters: U+0130 becomes two characters, and U+03A3 becomes
    U+03C2 or U+03C3 according to its place in the word.  This module gives
    [normalize_name] and [PATTERN.search] on a name as the list of its code
    points, with the tables of the Unicode database of CPython 3.11
    (version 14.0): [White_Space] is [str.isspace] and [\s],
    [Lowercase_Mapping] and [Cased] and [Case_Ignorable] are what
    [str.lower] reads, [Decimal_Zero] lists the zeros of the decimal digits
    that [\d] matches and [int] reads. *)
Module Unicode.
Local Open Scope N_scope.

Definition in_ranges (ranges : list (N * N)) (c : N) : bool :=
  existsb (fun r : N * N => (r.1 <=? c) && (c <=? r.2)) ranges.

Definition White_Space : list (N * N) :=
  [(0x9, 0xD); (0x1C, 0x20); (0x85, 0x85); (0xA0, 0xA0); (0x1680, 0x1680);
   (0x2000, 0x200A); (0x2028, 0x2029); (0x202F, 0x202F); (0x205F, 0x205F);
   (0x3000, 0x3000)].

Definition Lowercase_Mapping : list (N * N * N * N) :=
  [(0x41, 0x5A, 1, 0x61); (0xC0, 0xD6, 1, 0xE0); (0xD8, 0xDE, 1, 0xF8);
   (0x100, 0x12E, 2, 0x101); (0x132, 0x136, 2, 0x133);
   (0x139, 0x147, 2, 0x13A); (0x14A, 0x176, 2, 0x14B);
   (0x178, 0x178, 1, 0xFF); (0x179, 0x17D, 2, 0x17A);
   (0x181, 0x181, 1, 0x253); (0x182, 0x184, 2, 0x183);
   (0x186, 0x186, 1, 0x254); (0x187, 0x187, 1, 0x188);
   (0x189, 0x18A, 1, 0x256); (0x18B, 0x18B, 1, 0x18C);
   (0x18E, 0x18E, 1, 0x1DD); (0x18F, 0x18F, 1, 0x259);
   (0x190, 0x190, 1, 0x25B); (0x191, 0x191, 1, 0x192);
   (0x193, 0x193, 1, 0x260); (0x194, 0x194, 1, 0x263);
   (0x196, 0x196, 1, 0x269); (0x197, 0x197, 1, 0x268);
   (0x198, 0x198, 1, 0x199); (0x19C, 0x19C, 1, 0x26F);
   (0x19D, 0x19D, 1, 0x272); (0x19F, 0x19F, 1, 0x275);
   (0x1A0, 0x1A4, 2, 0x1A1); (0x1A6, 0x1A6, 1, 0x280);
   (0x1A7, 0x1A7, 1, 0x1A8); (0x1A9, 0x1A9, 1, 0x283);
   (0x1AC, 0x1AC, 1, 0x1AD); (0x1AE, 0x1AE, 1, 0x288);
   (0x1AF, 0x1AF, 1, 0x1B0); (0x1B1, 0x1B2, 1, 0x28A);
   (0x1B3, 0x1B5, 2, 0x1B4); (0x1B7, 0x1B7, 1, 0x292);
   (0x1B8, 0x1B8, 1, 0x1B9); (0x1BC, 0x1BC, 1, 0x1BD);
   (0x1C4, 0x1C4, 1, 0x1C6); (0x1C5, 0x1C5, 1, 0x1C6);
   (0x1C7, 0x1C7, 1, 0x1C9); (0x1C8, 0x1C8, 1, 0x1C9);
   (0x1CA, 0x1CA, 1, 0x1CC); (0x1CB, 0x1DB, 2, 0x1CC);
   (0x1DE, 0x1EE, 2, 0x1DF); (0x1F1, 0x1F1, 1, 0x1F3);
   (0x1F2, 0x1F4, 2, 0x1F3); (0x1F6, 0x1F6, 1, 0x195);
   (0x1F7, 0x1F7, 1, 0x1BF); (0x1F8, 0x21E, 2, 0x1F9);
   (0x220, 0x220, 1, 0x19E); (0x222, 0x232, 2, 0x223);
   (0x23A, 0x23A, 1, 0x2C65); (0x23B, 0x23B, 1, 0x23C);
   (0x23D, 0x23D, 1, 0x19A); (0x23E, 0x23E, 1, 0x2C66);
   (0x241, 0x241, 1, 0x242); (0x243, 0x243, 1, 0x180);
   (0x244, 0x244, 1, 0x289); (0x245, 0x245, 1, 0x28C);
   (0x246, 0x24E, 2, 0x247); (0x370, 0x372, 2, 0x371);
   (0x376, 0x376, 1, 0x377); (0x37F, 0x37F, 1, 0x3F3);
   (0x386, 0x386, 1, 0x3AC); (0x388, 0x38A, 1, 0x3AD);
   (0x38C, 0x38C, 1, 0x3CC); (0x38E, 0x38F, 1, 0x3CD);
   (0x391, 0x3A1, 1, 0x3B1); (0x3A3, 0x3AB, 1, 0x3C3);
   (0x3CF, 0x3CF, 1, 0x3D7); (0x3D8, 0x3EE, 2, 0x3D9);
   (0x3F4, 0x3F4, 1, 0x3B8); (0x3F7, 0x3F7, 1, 0x3F8);
   (0x3F9, 0x3F9, 1, 0x3F2); (0x3FA, 0x3FA, 1, 0x3FB);
   (0x3FD, 0x3FF, 1, 0x37B); (0x400, 0x40F, 1, 0x450);
   (0x410, 0x42F, 1, 0x430); (0x460, 0x480, 2, 0x461);
   (0x48A, 0x4BE, 2, 0x48B); (0x4C0, 0x4C0, 1, 0x4CF);
   (0x4C1, 0x4CD, 2, 0x4C2); (0x4D0, 0x52E, 2, 0x4D1);
   (0x531, 0x556, 1, 0x561); (0x10A0, 0x10C5, 1, 0x2D00);
   (0x10C7, 0x10C7, 1, 0x2D27); (0x10CD, 0x10CD, 1, 0x2D2D);
   (0x13A0, 0x13EF, 1, 0xAB70); (0x13F0, 0x13F5, 1, 0x13F8);
   (0x1C90, 0x1CBA, 1, 0x10D0); (0x1CBD, 0x1CBF, 1, 0x10FD);
   (0x1E00, 0x1E94, 2, 0x1E01); (0x1E9E, 0x1E9E, 1, 0xDF);
   (0x1EA0, 0x1EFE, 2, 0x1EA1); (0x1F08, 0x1F0F, 1, 0x1F00);
   (0x1F18, 0x1F1D, 1, 0x1F10); (0x1F28, 0x1F2F, 1, 0x1F20);
   (0x1F38, 0x1F3F, 1, 0x1F30); (0x1F48, 0x1F4D, 1, 0x1F40);
   (0x1F59, 0x1F5F, 2, 0x1F51); (0x1F68, 0x1F6F, 1, 0x1F60);
   (0x1F88, 0x1F8F, 1, 0x1F80); (0x1F98, 0x1F9F, 1, 0x1F90);
   (0x1FA8, 0x1FAF, 1, 0x1FA0); (0x1FB8, 0x1FB9, 1, 0x1FB0);
   (0x1FBA, 0x1FBB, 1, 0x1F70); (0x1FBC, 0x1FBC, 1, 0x1FB3);
   (0x1FC8, 0x1FCB, 1, 0x1F72); (0x1FCC, 0x1FCC, 1, 0x1FC3);
   (0x1FD8, 0x1FD9, 1, 0x1FD0); (0x1FDA, 0x1FDB, 1, 0x1F76);
   (0x1FE8, 0x1FE9, 1, 0x1FE0); (0x1FEA, 0x1FEB, 1, 0x1F7A);
   (0x1FEC, 0x1FEC, 1, 0x1FE5); (0x1FF8, 0x1FF9, 1, 0x1F78);
   (0x1FFA, 0x1FFB, 1, 0x1F7C); (0x1FFC, 0x1FFC, 1, 0x1FF3);
   (0x2126, 0x2126, 1, 0x3C9); (0x212A, 0x212A, 1, 0x6B);
   (0x212B, 0x212B, 1, 0xE5); (0x2132, 0x2132, 1, 0x214E);
   (0x2160, 0x216F, 1, 0x2170); (0x2183, 0x2183, 1, 0x2184);
   (0x24B6, 0x24CF, 1, 0x24D0); (0x2C00, 0x2C2F, 1, 0x2C30);
   (0x2C60, 0x2C60, 1, 0x2C61); (0x2C62, 0x2C62, 1, 0x26B);
   (0x2C63, 0x2C63, 1, 0x1D7D); (0x2C64, 0x2C64, 1, 0x27D);
   (0x2C67, 0x2C6B, 2, 0x2C68); (0x2C6D, 0x2C6D, 1, 0x251);
   (0x2C6E, 0x2C6E, 1, 0x271); (0x2C6F, 0x2C6F, 1, 0x250);
   (0x2C70, 0x2C70, 1, 0x252); (0x2C72, 0x2C72, 1, 0x2C73);
   (0x2C75, 0x2C75, 1, 0x2C76); (0x2C7E, 0x2C7F, 1, 0x23F);
   (0x2C80, 0x2CE2, 2, 0x2C81); (0x2CEB, 0x2CED, 2, 0x2CEC);
   (0x2CF2, 0x2CF2, 1, 0x2CF3); (0xA640, 0xA66C, 2, 0xA641);
   (0xA680, 0xA69A, 2, 0xA681); (0xA722, 0xA72E, 2, 0xA723);
   (0xA732, 0xA76E, 2, 0xA733); (0xA779, 0xA77B, 2, 0xA77A);
   (0xA77D, 0xA77D, 1, 0x1D79); (0xA77E, 0xA786, 2, 0xA77F);
   (0xA78B, 0xA78B, 1, 0xA78C); (0xA78D, 0xA78D, 1, 0x265);
   (0xA790, 0xA792, 2, 0xA791); (0xA796, 0xA7A8, 2, 0xA797);
   (0xA7AA, 0xA7AA, 1, 0x266); (0xA7AB, 0xA7AB, 1, 0x25C);
   (0xA7AC, 0xA7AC, 1, 0x261); (0xA7AD, 0xA7AD, 1, 0x26C);
   (0xA7AE, 0xA7AE, 1, 0x26A); (0xA7B0, 0xA7B0, 1, 0x29E);
   (0xA7B1, 0xA7B1, 1, 0x287); (0xA7B2, 0xA7B2, 1, 0x29D);
   (0xA7B3, 0xA7B3, 1, 0xAB53); (0xA7B4, 0xA7C2, 2, 0xA7B5);
   (0xA7C4, 0xA7C4, 1, 0xA794); (0xA7C5, 0xA7C5, 1, 0x282);
   (0xA7C6, 0xA7C6, 1, 0x1D8E); (0xA7C7, 0xA7C9, 2, 0xA7C8);
   (0xA7D0, 0xA7D0, 1, 0xA7D1); (0xA7D6, 0xA7D8, 2, 0xA7D7);
   (0xA7F5, 0xA7F5, 1, 0xA7F6); (0xFF21, 0xFF3A, 1, 0xFF41);
   (0x10400, 0x10427, 1, 0x10428); (0x104B0, 0x104D3, 1, 0x104D8);
   (0x10570, 0x1057A, 1, 0x10597); (0x1057C, 0x1058A, 1, 0x105A3);
   (0x1058C, 0x10592, 1, 0x105B3); (0x10594, 0x10595, 1, 0x105BB);
   (0x10C80, 0x10CB2, 1, 0x10CC0); (0x118A0, 0x118BF, 1, 0x118C0);
   (0x16E40, 0x16E5F, 1, 0x16E60); (0x1E900, 0x1E921, 1, 0x1E922)].

Definition Cased : list (N * N) :=
  [(0x41, 0x5A); (0x61, 0x7A); (0xAA, 0xAA); (0xB5, 0xB5); (0xBA, 0xBA);
   (0xC0, 0xD6); (0xD8, 0xF6); (0xF8, 0x1BA); (0x1BC, 0x1BF); (0x1C4, 0x293);
   (0x295, 0x2B8); (0x2C0, 0x2C1); (0x2E0, 0x2E4); (0x345, 0x345);
   (0x370, 0x373); (0x376, 0x377); (0x37A, 0x37D); (0x37F, 0x37F);
   (0x386, 0x386); (0x388, 0x38A); (0x38C, 0x38C); (0x38E, 0x3A1);
   (0x3A3, 0x3F5); (0x3F7, 0x481); (0x48A, 0x52F); (0x531, 0x556);
   (0x560, 0x588); (0x10A0, 0x10C5); (0x10C7, 0x10C7); (0x10CD, 0x10CD);
   (0x10D0, 0x10FA); (0x10FD, 0x10FF); (0x13A0, 0x13F5); (0x13F8, 0x13FD);
   (0x1C80, 0x1C88); (0x1C90, 0x1CBA); (0x1CBD, 0x1CBF); (0x1D00, 0x1DBF);
   (0x1E00, 0x1F15); (0x1F18, 0x1F1D); (0x1F20, 0x1F45); (0x1F48, 0x1F4D);
   (0x1F50, 0x1F57); (0x1F59, 0x1F59); (0x1F5B, 0x1F5B); (0x1F5D, 0x1F5D);
   (0x1F5F, 0x1F7D); (0x1F80, 0x1FB4); (0x1FB6, 0x1FBC); (0x1FBE, 0x1FBE);
   (0x1FC2, 0x1FC4); (0x1FC6, 0x1FCC); (0x1FD0, 0x1FD3); (0x1FD6, 0x1FDB);
   (0x1FE0, 0x1FEC); (0x1FF2, 0x1FF4); (0x1FF6, 0x1FFC); (0x2071, 0x2071);
   (0x207F, 0x207F); (0x2090, 0x209C); (0x2102, 0x2102); (0x2107, 0x2107);
   (0x210A, 0x2113); (0x2115, 0x2115); (0x2119, 0x211D); (0x2124, 0x2124);
   (0x2126, 0x2126); (0x2128, 0x2128); (0x212A, 0x212D); (0x212F, 0x2134);
   (0x2139, 0x2139); (0x213C, 0x213F); (0x2145, 0x2149); (0x214E, 0x214E);
   (0x2160, 0x217F); (0x2183, 0x2184); (0x24B6, 0x24E9); (0x2C00, 0x2CE4);
   (0x2CEB, 0x2CEE); (0x2CF2, 0x2CF3); (0x2D00, 0x2D25); (0x2D27, 0x2D27);
   (0x2D2D, 0x2D2D); (0xA640, 0xA66D); (0xA680, 0xA69D); (0xA722, 0xA787);
   (0xA78B, 0xA78E); (0xA790, 0xA7CA); (0xA7D0, 0xA7D1); (0xA7D3, 0xA7D3);
   (0xA7D5, 0xA7D9); (0xA7F5, 0xA7F6); (0xA7F8, 0xA7FA); (0xAB30, 0xAB5A);
   (0xAB5C, 0xAB68); (0xAB70, 0xABBF); (0xFB00, 0xFB06); (0xFB13, 0xFB17);
   (0xFF21, 0xFF3A); (0xFF41, 0xFF5A); (0x10400, 0x1044F);
   (0x104B0, 0x104D3); (0x104D8, 0x104FB); (0x10570, 0x1057A);
   (0x1057C, 0x1058A); (0x1058C, 0x10592); (0x10594, 0x10595);
   (0x10597, 0x105A1); (0x105A3, 0x105B1); (0x105B3, 0x105B9);
   (0x105BB, 0x105BC); (0x10780, 0x10780); (0x10783, 0x10785);
   (0x10787, 0x107B0); (0x107B2, 0x107BA); (0x10C80, 0x10CB2);
   (0x10CC0, 0x10CF2); (0x118A0, 0x118DF); (0x16E40, 0x16E7F);
   (0x1D400, 0x1D454); (0x1D456, 0x1D49C); (0x1D49E, 0x1D49F);
   (0x1D4A2, 0x1D4A2); (0x1D4A5, 0x1D4A6); (0x1D4A9, 0x1D4AC);
   (0x1D4AE, 0x1D4B9); (0x1D4BB, 0x1D4BB); (0x1D4BD, 0x1D4C3);
   (0x1D4C5, 0x1D505); (0x1D507, 0x1D50A); (0x1D50D, 0x1D514);
   (0x1D516, 0x1D51C); (0x1D51E, 0x1D539); (0x1D53B, 0x1D53E);
   (0x1D540, 0x1D544); (0x1D546, 0x1D546); (0x1D54A, 0x1D550);
   (0x1D552, 0x1D6A5); (0x1D6A8, 0x1D6C0); (0x1D6C2, 0x1D6DA);
   (0x1D6DC, 0x1D6FA); (0x1D6FC, 0x1D714); (0x1D716, 0x1D734);
   (0x1D736, 0x1D74E); (0x1D750, 0x1D76E); (0x1D770, 0x1D788);
   (0x1D78A, 0x1D7A8); (0x1D7AA, 0x1D7C2); (0x1D7C4, 0x1D7CB);
   (0x1DF00, 0x1DF09); (0x1DF0B, 0x1DF1E); (0x1E900, 0x1E943);
   (0x1F130, 0x1F149); (0x1F150, 0x1F169); (0x1F170, 0x1F189)].

Definition Case_Ignorable : list (N * N) :=
  [(0x27, 0x27); (0x2E, 0x2E); (0x3A, 0x3A); (0x5E, 0x5E); (0x60, 0x60);
   (0xA8, 0xA8); (0xAD, 0xAD); (0xAF, 0xAF); (0xB4, 0xB4); (0xB7, 0xB8);
   (0x2B0, 0x36F); (0x374, 0x375); (0x37A, 0x37A); (0x384, 0x385);
   (0x387, 0x387); (0x483, 0x489); (0x559, 0x559); (0x55F, 0x55F);
   (0x591, 0x5BD); (0x5BF, 0x5BF); (0x5C1, 0x5C2); (0x5C4, 0x5C5);
   (0x5C7, 0x5C7); (0x5F4, 0x5F4); (0x600, 0x605); (0x610, 0x61A);
   (0x61C, 0x61C); (0x640, 0x640); (0x64B, 0x65F); (0x670, 0x670);
   (0x6D6, 0x6DD); (0x6DF, 0x6E8); (0x6EA, 0x6ED); (0x70F, 0x70F);
   (0x711, 0x711); (0x730, 0x74A); (0x7A6, 0x7B0); (0x7EB, 0x7F5);
   (0x7FA, 0x7FA); (0x7FD, 0x7FD); (0x816, 0x82D); (0x859, 0x85B);
   (0x888, 0x888); (0x890, 0x891); (0x898, 0x89F); (0x8C9, 0x902);
   (0x93A, 0x93A); (0x93C, 0x93C); (0x941, 0x948); (0x94D, 0x94D);
   (0x951, 0x957); (0x962, 0x963); (0x971, 0x971); (0x981, 0x981);
   (0x9BC, 0x9BC); (0x9C1, 0x9C4); (0x9CD, 0x9CD); (0x9E2, 0x9E3);
   (0x9FE, 0x9FE); (0xA01, 0xA02); (0xA3C, 0xA3C); (0xA41, 0xA42);
   (0xA47, 0xA48); (0xA4B, 0xA4D); (0xA51, 0xA51); (0xA70, 0xA71);
   (0xA75, 0xA75); (0xA81, 0xA82); (0xABC, 0xABC); (0xAC1, 0xAC5);
   (0xAC7, 0xAC8); (0xACD, 0xACD); (0xAE2, 0xAE3); (0xAFA, 0xAFF);
   (0xB01, 0xB01); (0xB3C, 0xB3C); (0xB3F, 0xB3F); (0xB41, 0xB44);
   (0xB4D, 0xB4D); (0xB55, 0xB56); (0xB62, 0xB63); (0xB82, 0xB82);
   (0xBC0, 0xBC0); (0xBCD, 0xBCD); (0xC00, 0xC00); (0xC04, 0xC04);
   (0xC3C, 0xC3C); (0xC3E, 0xC40); (0xC46, 0xC48); (0xC4A, 0xC4D);
   (0xC55, 0xC56); (0xC62, 0xC63); (0xC81, 0xC81); (0xCBC, 0xCBC);
   (0xCBF, 0xCBF); (0xCC6, 0xCC6); (0xCCC, 0xCCD); (0xCE2, 0xCE3);
   (0xD00, 0xD01); (0xD3B, 0xD3C); (0xD41, 0xD44); (0xD4D, 0xD4D);
   (0xD62, 0xD63); (0xD81, 0xD81); (0xDCA, 0xDCA); (0xDD2, 0xDD4);
   (0xDD6, 0xDD6); (0xE31, 0xE31); (0xE34, 0xE3A); (0xE46, 0xE4E);
   (0xEB1, 0xEB1); (0xEB4, 0xEBC); (0xEC6, 0xEC6); (0xEC8, 0xECD);
   (0xF18, 0xF19); (0xF35, 0xF35); (0xF37, 0xF37); (0xF39, 0xF39);
   (0xF71, 0xF7E); (0xF80, 0xF84); (0xF86, 0xF87); (0xF8D, 0xF97);
   (0xF99, 0xFBC); (0xFC6, 0xFC6); (0x102D, 0x1030); (0x1032, 0x1037);
   (0x1039, 0x103A); (0x103D, 0x103E); (0x1058, 0x1059); (0x105E, 0x1060);
   (0x1071, 0x1074); (0x1082, 0x1082); (0x1085, 0x1086); (0x108D, 0x108D);
   (0x109D, 0x109D); (0x10FC, 0x10FC); (0x135D, 0x135F); (0x1712, 0x1714);
   (0x1732, 0x1733); (0x1752, 0x1753); (0x1772, 0x1773); (0x17B4, 0x17B5);
   (0x17B7, 0x17BD); (0x17C6, 0x17C6); (0x17C9, 0x17D3); (0x17D7, 0x17D7);
   (0x17DD, 0x17DD); (0x180B, 0x180F); (0x1843, 0x1843); (0x1885, 0x1886);
   (0x18A9, 0x18A9); (0x1920, 0x1922); (0x1927, 0x1928); (0x1932, 0x1932);
   (0x1939, 0x193B); (0x1A17, 0x1A18); (0x1A1B, 0x1A1B); (0x1A56, 0x1A56);
   (0x1A58, 0x1A5E); (0x1A60, 0x1A60); (0x1A62, 0x1A62); (0x1A65, 0x1A6C);
   (0x1A73, 0x1A7C); (0x1A7F, 0x1A7F); (0x1AA7, 0x1AA7); (0x1AB0, 0x1ACE);
   (0x1B00, 0x1B03); (0x1B34, 0x1B34); (0x1B36, 0x1B3A); (0x1B3C, 0x1B3C);
   (0x1B42, 0x1B42); (0x1B6B, 0x1B73); (0x1B80, 0x1B81); (0x1BA2, 0x1BA5);
   (0x1BA8, 0x1BA9); (0x1BAB, 0x1BAD); (0x1BE6, 0x1BE6); (0x1BE8, 0x1BE9);
   (0x1BED, 0x1BED); (0x1BEF, 0x1BF1); (0x1C2C, 0x1C33); (0x1C36, 0x1C37);
   (0x1C78, 0x1C7D); (0x1CD0, 0x1CD2); (0x1CD4, 0x1CE0); (0x1CE2, 0x1CE8);
   (0x1CED, 0x1CED); (0x1CF4, 0x1CF4); (0x1CF8, 0x1CF9); (0x1D2C, 0x1D6A);
   (0x1D78, 0x1D78); (0x1D9B, 0x1DFF); (0x1FBD, 0x1FBD); (0x1FBF, 0x1FC1);
   (0x1FCD, 0x1FCF); (0x1FDD, 0x1FDF); (0x1FED, 0x1FEF); (0x1FFD, 0x1FFE);
   (0x200B, 0x200F); (0x2018, 0x2019); (0x2024, 0x2024); (0x2027, 0x2027);
   (0x202A, 0x202E); (0x2060, 0x2064); (0x2066, 0x206F); (0x2071, 0x2071);
   (0x207F, 0x207F); (0x2090, 0x209C); (0x20D0, 0x20F0); (0x2C7C, 0x2C7D);
   (0x2CEF, 0x2CF1); (0x2D6F, 0x2D6F); (0x2D7F, 0x2D7F); (0x2DE0, 0x2DFF);
   (0x2E2F, 0x2E2F); (0x3005, 0x3005); (0x302A, 0x302D); (0x3031, 0x3035);
   (0x303B, 0x303B); (0x3099, 0x309E); (0x30FC, 0x30FE); (0xA015, 0xA015);
   (0xA4F8, 0xA4FD); (0xA60C, 0xA60C); (0xA66F, 0xA672); (0xA674, 0xA67D);
   (0xA67F, 0xA67F); (0xA69C, 0xA69F); (0xA6F0, 0xA6F1); (0xA700, 0xA721);
   (0xA770, 0xA770); (0xA788, 0xA78A); (0xA7F2, 0xA7F4); (0xA7F8, 0xA7F9);
   (0xA802, 0xA802); (0xA806, 0xA806); (0xA80B, 0xA80B); (0xA825, 0xA826);
   (0xA82C, 0xA82C); (0xA8C4, 0xA8C5); (0xA8E0, 0xA8F1); (0xA8FF, 0xA8FF);
   (0xA926, 0xA92D); (0xA947, 0xA951); (0xA980, 0xA982); (0xA9B3, 0xA9B3);
   (0xA9B6, 0xA9B9); (0xA9BC, 0xA9BD); (0xA9CF, 0xA9CF); (0xA9E5, 0xA9E6);
   (0xAA29, 0xAA2E); (0xAA31, 0xAA32); (0xAA35, 0xAA36); (0xAA43, 0xAA43);
   (0xAA4C, 0xAA4C); (0xAA70, 0xAA70); (0xAA7C, 0xAA7C); (0xAAB0, 0xAAB0);
   (0xAAB2, 0xAAB4); (0xAAB7, 0xAAB8); (0xAABE, 0xAABF); (0xAAC1, 0xAAC1);
   (0xAADD, 0xAADD); (0xAAEC, 0xAAED); (0xAAF3, 0xAAF4); (0xAAF6, 0xAAF6);
   (0xAB5B, 0xAB5F); (0xAB69, 0xAB6B); (0xABE5, 0xABE5); (0xABE8, 0xABE8);
   (0xABED, 0xABED); (0xFB1E, 0xFB1E); (0xFBB2, 0xFBC2); (0xFE00, 0xFE0F);
   (0xFE13, 0xFE13); (0xFE20, 0xFE2F); (0xFE52, 0xFE52); (0xFE55, 0xFE55);
   (0xFEFF, 0xFEFF); (0xFF07, 0xFF07); (0xFF0E, 0xFF0E); (0xFF1A, 0xFF1A);
   (0xFF3E, 0xFF3E); (0xFF40, 0xFF40); (0xFF70, 0xFF70); (0xFF9E, 0xFF9F);
   (0xFFE3, 0xFFE3); (0xFFF9, 0xFFFB); (0x101FD, 0x101FD);
   (0x102E0, 0x102E0); (0x10376, 0x1037A); (0x10780, 0x10785);
   (0x10787, 0x107B0); (0x107B2, 0x107BA); (0x10A01, 0x10A03);
   (0x10A05, 0x10A06); (0x10A0C, 0x10A0F); (0x10A38, 0x10A3A);
   (0x10A3F, 0x10A3F); (0x10AE5, 0x10AE6); (0x10D24, 0x10D27);
   (0x10EAB, 0x10EAC); (0x10F46, 0x10F50); (0x10F82, 0x10F85);
   (0x11001, 0x11001); (0x11038, 0x11046); (0x11070, 0x11070);
   (0x11073, 0x11074); (0x1107F, 0x11081); (0x110B3, 0x110B6);
   (0x110B9, 0x110BA); (0x110BD, 0x110BD); (0x110C2, 0x110C2);
   (0x110CD, 0x110CD); (0x11100, 0x11102); (0x11127, 0x1112B);
   (0x1112D, 0x11134); (0x11173, 0x11173); (0x11180, 0x11181);
   (0x111B6, 0x111BE); (0x111C9, 0x111CC); (0x111CF, 0x111CF);
   (0x1122F, 0x11231); (0x11234, 0x11234); (0x11236, 0x11237);
   (0x1123E, 0x1123E); (0x112DF, 0x112DF); (0x112E3, 0x112EA);
   (0x11300, 0x11301); (0x1133B, 0x1133C); (0x11340, 0x11340);
   (0x11366, 0x1136C); (0x11370, 0x11374); (0x11438, 0x1143F);
   (0x11442, 0x11444); (0x11446, 0x11446); (0x1145E, 0x1145E);
   (0x114B3, 0x114B8); (0x114BA, 0x114BA); (0x114BF, 0x114C0);
   (0x114C2, 0x114C3); (0x115B2, 0x115B5); (0x115BC, 0x115BD);
   (0x115BF, 0x115C0); (0x115DC, 0x115DD); (0x11633, 0x1163A);
   (0x1163D, 0x1163D); (0x1163F, 0x11640); (0x116AB, 0x116AB);
   (0x116AD, 0x116AD); (0x116B0, 0x116B5); (0x116B7, 0x116B7);
   (0x1171D, 0x1171F); (0x11722, 0x11725); (0x11727, 0x1172B);
   (0x1182F, 0x11837); (0x11839, 0x1183A); (0x1193B, 0x1193C);
   (0x1193E, 0x1193E); (0x11943, 0x11943); (0x119D4, 0x119D7);
   (0x119DA, 0x119DB); (0x119E0, 0x119E0); (0x11A01, 0x11A0A);
   (0x11A33, 0x11A38); (0x11A3B, 0x11A3E); (0x11A47, 0x11A47);
   (0x11A51, 0x11A56); (0x11A59, 0x11A5B); (0x11A8A, 0x11A96);
   (0x11A98, 0x11A99); (0x11C30, 0x11C36); (0x11C38, 0x11C3D);
   (0x11C3F, 0x11C3F); (0x11C92, 0x11CA7); (0x11CAA, 0x11CB0);
   (0x11CB2, 0x11CB3); (0x11CB5, 0x11CB6); (0x11D31, 0x11D36);
   (0x11D3A, 0x11D3A); (0x11D3C, 0x11D3D); (0x11D3F, 0x11D45);
   (0x11D47, 0x11D47); (0x11D90, 0x11D91); (0x11D95, 0x11D95);
   (0x11D97, 0x11D97); (0x11EF3, 0x11EF4); (0x13430, 0x13438);
   (0x16AF0, 0x16AF4); (0x16B30, 0x16B36); (0x16B40, 0x16B43);
   (0x16F4F, 0x16F4F); (0x16F8F, 0x16F9F); (0x16FE0, 0x16FE1);
   (0x16FE3, 0x16FE4); (0x1AFF0, 0x1AFF3); (0x1AFF5, 0x1AFFB);
   (0x1AFFD, 0x1AFFE); (0x1BC9D, 0x1BC9E); (0x1BCA0, 0x1BCA3);
   (0x1CF00, 0x1CF2D); (0x1CF30, 0x1CF46); (0x1D167, 0x1D169);
   (0x1D173, 0x1D182); (0x1D185, 0x1D18B); (0x1D1AA, 0x1D1AD);
   (0x1D242, 0x1D244); (0x1DA00, 0x1DA36); (0x1DA3B, 0x1DA6C);
   (0x1DA75, 0x1DA75); (0x1DA84, 0x1DA84); (0x1DA9B, 0x1DA9F);
   (0x1DAA1, 0x1DAAF); (0x1E000, 0x1E006); (0x1E008, 0x1E018);
   (0x1E01B, 0x1E021); (0x1E023, 0x1E024); (0x1E026, 0x1E02A);
   (0x1E130, 0x1E13D); (0x1E2AE, 0x1E2AE); (0x1E2EC, 0x1E2EF);
   (0x1E8D0, 0x1E8D6); (0x1E944, 0x1E94B); (0x1F3FB, 0x1F3FF);
   (0xE0001, 0xE0001); (0xE0020, 0xE007F); (0xE0100, 0xE01EF)].

Definition Decimal_Zero : list N :=
  [0x30; 0x660; 0x6F0; 0x7C0; 0x966; 0x9E6; 0xA66; 0xAE6; 0xB66; 0xBE6;
   0xC66; 0xCE6; 0xD66; 0xDE6; 0xE50; 0xED0; 0xF20; 0x1040; 0x1090; 0x17E0;
   0x1810; 0x1946; 0x19D0; 0x1A80; 0x1A90; 0x1B50; 0x1BB0; 0x1C40; 0x1C50;
   0xA620; 0xA8D0; 0xA900; 0xA9D0; 0xA9F0; 0xAA50; 0xABF0; 0xFF10; 0x104A0;
   0x10D30; 0x11066; 0x110F0; 0x11136; 0x111D0; 0x112F0; 0x11450; 0x114D0;
   0x11650; 0x116C0; 0x11730; 0x118E0; 0x11950; 0x11C50; 0x11D50; 0x11DA0;
   0x16A60; 0x16AC0; 0x16B50; 0x1D7CE; 0x1D7D8; 0x1D7E2; 0x1D7EC; 0x1D7F6;
   0x1E140; 0x1E2F0; 0x1E950; 0x1FBF0].

Definition is_space (c : N) : bool := in_ranges White_Space c.
Definition is_cased (c : N) : bool := in_ranges Cased c.
Definition is_case_ignorable (c : N) : bool := in_ranges Case_Ignorable c.

(** An entry [(first, last, step, to)] of [Lowercase_Mapping] sends
    [first], [first + step], ... up to [last] to [to], [to + step], ... *)
Definition expand (r : N * N * N * N) : list (N * list N) :=
  let '(first, last, step, to) := r in
  map (fun k => let d := N.of_nat k * step in (first + d, [to + d]))
    (seq 0 (S (N.to_nat ((last - first) / step)))).

(** The characters that [str.lower] changes, each with what it becomes;
    U+0130 is the one that becomes two. *)
Definition lower_table : list (N * list N) :=
  (0x130, [0x69; 0x307]) :: flat_map expand Lowercase_Mapping.

Fixpoint find (c : N) (table : list (N * list N)) : option (list N) :=
  match table with
  | [] => None
  | (k, v) :: table' => if k =? c then Some v else find c table'
  end.

Definition to_lower_full (c : N) : list N :=
  match find c lower_table with
  | Some v => v
  | None => [c]
  end.

Fixpoint skip_ignorable (l : list N) : list N :=
  match l with
  | [] => []
  | c :: l' => if is_case_ignorable c then skip_ignorable l' else l
  end.

(** Whether a U+03A3 ends a word: [before] holds the characters before
    it, the nearest first, [after] the characters after it. *)
Definition final_sigma (before after : list N) : bool :=
  match skip_ignorable before with
  | [] => false
  | c :: _ =>
      is_cased c &&
      match skip_ignorable after with
      | [] => true
      | c' :: _ => negb (is_cased c')
      end
  end.

Fixpoint lower_from (before : list N) (l : list N) : list N :=
  match l with
  | [] => []
  | c :: l' =>
      (if c =? 0x3A3
       then [if final_sigma before l' then 0x3C2 else 0x3C3]
       else to_lower_full c)
      ++ lower_from (c :: before) l'
  end.

(** [str.lower] *)
Definition lower (l : list N) : list N := lower_from [] l.

Definition sep_to_space (c : N) : N :=
  if (c =? 0x2E) || (c =? 0x5F) then 0x20 else c.

Fixpoint lstrip (l : list N) : list N :=
  match l with
  | [] => []
  | c :: l' => if is_space c then lstrip l' else l
  end.

Fixpoint rstrip (l : list N) : list N :=
  match l with
  | [] => []
  | c :: l' =>
      match rstrip l' with
      | [] => if is_space c then [] else [c]
      | r => c :: r
      end
  end.

Definition strip (l : list N) : list N := rstrip (lstrip l).

Fixpoint collapse (in_run : bool) (l : list N) : list N :=
  match l with
  | [] => []
  | c :: l' =>
      if is_space c
      then (if in_run then collapse true l' else 0x20 :: collapse true l')
      else c :: collapse false l'
  end.

Definition normalize_name (name : list N) : list N :=
  let clean := lower (strip (map sep_to_space name)) in
  collapse false clean.

(** The pattern: with [(?i)] the letter [S] also matches U+017F, and
    [\d] matches the decimal digits of every script. *)
Definition is_S (c : N) : bool := (c =? 0x53) || (c =? 0x73) || (c =? 0x17F).
Definition is_E (c : N) : bool := (c =? 0x45) || (c =? 0x65).

Fixpoint digit_in (zeros : list N) (c : N) : option N :=
  match zeros with
  | [] => None
  | z :: zeros' =>
      if (z <=? c) && (c <=? z + 9) then Some (c - z) else digit_in zeros' c
  end.

Definition digit_value (c : N) : option N := digit_in Decimal_Zero c.

Definition is_digit (c : N) : bool :=
  match digit_value c with
  | Some _ => true
  | None => false
  end.

Fixpoint span_digits (l : list N) : list N * list N :=
  match l with
  | [] => ([], [])
  | c :: l' =>
      if is_digit c
      then let '(d, r) := span_digits l' in (c :: d, r)
      else ([], l)
  end.

(** [int(match.group(i))], which reads the digits of every script; it
    refuses a run of more than 4300 digits, longer than any file name. *)
Definition int_of_digits (d : list N) : N :=
  fold_left (fun acc c => acc * 10 + default 0 (digit_value c)) d 0.

Definition match_here (l : list N) : option (N * N * nat) :=
  match l with
  | [] => None
  | s :: l1 =>
      if is_S s then
        match span_digits l1 with
        | ((_ :: _) as d1, e :: l2) =>
            if is_E e then
              match span_digits l2 with
              | ((_ :: _) as d2, _) =>
                  Some (int_of_digits d1, int_of_digits d2,
                        (2 + length d1 + length d2)%nat)
              | _ => None
              end
            else None
        | _ => None
        end
      else None
  end.

Fixpoint search_from (off : nat) (l : list N) : option (N * N * nat) :=
  match match_here l with
  | Some (s, e, len) => Some (s, e, (off + len)%nat)
  | None =>
      match l with
      | [] => None
      | _ :: l' => search_from (S off) l'
      end
  end.

Definition search (f : list N) : option (N * N * nat) := search_from 0 f.

(** The code points of a name of [Names]. *)
Definition of_string (s : string) : list N := map code (list_ascii_of_string s).

(** ** Notions used to state properties of these functions *)

Definition is_sep (c : N) : bool := (c =? 0x2E) || (c =? 0x5F).

(** A character that [str.lower] leaves alone wherever it stands. *)
Definition unchanged (c : N) : Prop := find c lower_table = None.

(** What one character of a string becomes in [str.lower]. *)
Definition piece_ok (c : N) (p : list N) : Prop :=
  (c = 0x3A3 /\ (p = [0x3C2] \/ p = [0x3C3])) \/ (c <> 0x3A3 /\ p = to_lower_full c).

(** What holds of every entry of [lower_table]: the character is neither
    whitespace, a separator nor a digit; what it becomes is not empty and
    holds no whitespace, separator, digit or U+03A3 and nothing that the
    table changes again; it becomes one character unless it is U+0130, and
    that one is an [S] or an [E] of the pattern exactly when it is itself. *)
Definition out_ok (d : N) : bool :=
  negb (is_space d) && negb (is_sep d) && negb (d =? 0x3A3) && negb (is_digit d)
  && match find d lower_table with None => true | Some _ => false end.

Definition entry_ok (kv : N * list N) : bool :=
  let '(k, v) := kv in
  negb (is_space k) && negb (is_sep k) && negb (is_digit k)
  && match v with [] => false | _ => true end
  && forallb out_ok v
  && match v with
     | [d] => Bool.eqb (is_S k) (is_S d) && Bool.eqb (is_E k) (is_E d)
     | _ => k =? 0x130
     end.

Definition trimmed (l : list N) : Prop := lstrip l = l /\ rstrip l = l.

(** Two names that differ only by letter case, by a separator ([.], [_] or
    a space) standing for another, or by surrounding whitespace. *)
Inductive char_variant : N -> N -> Prop :=
| cv_case a b : to_lower_full a = to_lower_full b -> char_variant a b
| cv_sep a b :
    a ∈ [0x2E; 0x5F; 0x20] -> b ∈ [0x2E; 0x5F; 0x20] -> char_variant a b.

Definition all_space (l : list N) : Prop := Forall (fun c => is_space c = true) l.

Definition name_variant (x y : list N) : Prop :=
  exists l1 c1 r1 l2 c2 r2,
    x = l1 ++ c1 ++ r1 /\ y = l2 ++ c2 ++ r2 /\
    all_space l1 /\ all_space r1 /\ all_space l2 /\ all_space r2 /\
    Forall2 char_variant c1 c2.

(** Two names that differ only by a separator standing for another or by
    surrounding whitespace. *)
Definition sep_variant (x y : list N) : Prop :=
  exists l1 c1 r1 l2 c2 r2,
    x = l1 ++ c1 ++ r1 /\ y = l2 ++ c2 ++ r2 /\
    all_space l1 /\ all_space r1 /\ all_space l2 /\ all_space r2 /\
    Forall2 (fun a b => a = b \/
                        (a ∈ [0x2E; 0x5F; 0x20] /\ b ∈ [0x2E; 0x5F; 0x20])) c1 c2.

(** Two characters that the pattern reads alike. *)
Definition same_class (c d : N) : Prop :=
  is_S d = is_S c /\ is_E d = is_E c /\ digit_value d = digit_value c.

(** The list starts with a token of the episode pattern. *)
Definition token_at_head (l : list N) : Prop :=
  exists c1 d1 c2 d2 rest,
    l = c1 :: d1 ++ c2 :: d2 ++ rest /\
    is_S c1 = true /\ is_E c2 = true /\
    d1 <> [] /\ Forall (fun c => is_digit c = true) d1 /\
    d2 <> [] /\ Forall (fun c => is_digit c = true) d2.

End Unicode.

(* ===================================================================== *)
(** * Ordered dictionaries and stable sorting *)
(* ===================================================================== *)

(** Python dictionaries iterate in insertion order, and the script relies on
    it (candidate enumeration, order of the episode loop), so they are
    association lists: an update keeps the position, a new key goes last. *)
Module OD.
Section OD.
Context {K V : Type} `{EqDecision K}.

Fixpoint get (k : K) (d : list (K * V)) : option V :=
  match d with
  | [] => None
  | (k', v) :: d' => if decide (k' = k) then Some v else get k d'
  end.

(** [d[k] = f(d[k])] on a [defaultdict] with default [dflt]. *)
Fixpoint upd (k : K) (f : V -> V) (dflt : V) (d : list (K * V)) : list (K * V) :=
  match d with
  | [] => [(k, f dflt)]
  | (k', v) :: d' =>
      if decide (k' = k) then (k', f v) :: d' else (k', v) :: upd k f dflt d'
  end.

Definition keys (d : list (K * V)) : list K := map fst d.

End OD.
End OD.

Section Sorting.
Context {A : Type} (le : A -> A -> bool).

Fixpoint insert_sorted (x : A) (l : list A) : list A :=
  match l with
  | [] => [x]
  | y :: l' => if le x y then x :: l else y :: insert_sorted x l'
  end.

(** A stable sort: among elements that compare equal both ways, the order of
    the input is kept, as [sorted] and [list.sort] do. *)
Definition sorted_by (l : list A) : list A := foldr insert_sorted [] l.

End Sorting.

(** [sorted(l, key=key, reverse=True)] *)
Definition sort_desc {A} (key : A -> Z) (l : list A) : list A :=
  sorted_by (fun x y => key y <=? key x) l.

(** [sorted(keys)] on strings: code point order. *)
Definition sort_strings (l : list string) : list string :=
  sorted_by String.leb l.

(* ===================================================================== *)
(** * The platform: a directory tree and the primitives the script calls *)
(* ===================================================================== *)

(** The filesystem is one tree of directories and regular files (no links,
    no permissions); a file carries its size.  The order of a directory's
    entries is the order in which [os.listdir] and [os.walk] report them. *)

Definition path : Type := list string.

Inductive node : Type :=
| File (size : Z)
| Dir (entries : list (string * node)).

Module FS.

Definition entries_of (t : node) : option (list (string * node)) :=
  match t with
  | File _ => None
  | Dir es => Some es
  end.

Definition is_dir_node (t : node) : bool :=
  match t with
  | File _ => false
  | Dir _ => true
  end.

Fixpoint assoc (name : string) (es : list (string * node)) : option node :=
  match es with
  | [] => None
  | (k, v) :: es' => if decide (k = name) then Some v else assoc name es'
  end.

(** Replace the entry [name] in place, or add it at the end. *)
Fixpoint put (name : string) (n : node) (es : list (string * node))
  : list (string * node) :=
  match es with
  | [] => [(name, n)]
  | (k, v) :: es' =>
      if decide (k = name) then (k, n) :: es' else (k, v) :: put name n es'
  end.

Definition del (name : string) (es : list (string * node)) : list (string * node) :=
  filter (fun e => e.1 <> name) es.

Fixpoint lookup (t : node) (p : path) {struct p} : option node :=
  match p with
  | [] => Some t
  | x :: p' =>
      match t with
      | File _ => None
      | Dir es =>
          match assoc x es with
          | None => None
          | Some c => lookup c p'
          end
      end
  end.

(** [os.path.exists], [os.path.isdir] *)
Definition exists_ (t : node) (p : path) : bool :=
  match lookup t p with
  | Some _ => true
  | None => false
  end.

Definition isdir (t : node) (p : path) : bool :=
  match lookup t p with
  | Some (Dir _) => true
  | _ => false
  end.

(** [os.listdir]; [None] is [OSError]. *)
Definition listdir (t : node) (p : path) : option (list string) :=
  match lookup t p with
  | Some (Dir es) => Some (map fst es)
  | _ => None
  end.

(** [os.path.getsize]; [None] is [OSError].  The size of a directory inode
    is platform-specific and never consulted by the script on a listed
    file; it is 0 here.  In a tree without links a listed name always has
    a size: the [-1] of [get_file_info] is met on an absent path only. *)
Definition getsize (t : node) (p : path) : option Z :=
  match lookup t p with
  | Some (File sz) => Some sz
  | Some (Dir _) => Some 0
  | None => None
  end.

(** [os.path.basename] as a relative path: the last component, or nothing
    for the root. *)
Definition basename (p : path) : path :=
  match last p with
  | Some x => [x]
  | None => []
  end.

(** [p = dirname p ++ [name]] *)
Definition split_last (p : path) : option (path * string) :=
  match last p with
  | Some x => Some (removelast p, x)
  | None => None
  end.

(** Run [k] on the entries of the directory at [p]; fails when [p] is not
    a directory or [k] fails. *)
Fixpoint with_dir (p : path)
    (k : list (string * node) -> option (list (string * node)))
    (t : node) {struct p} : option node :=
  match t with
  | File _ => None
  | Dir es =>
      match p with
      | [] => es' ← k es; Some (Dir es')
      | x :: p' =>
          c ← assoc x es;
          c' ← with_dir p' k c;
          Some (Dir (put x c' es))
      end
  end.

(** [os.remove]: the path must name a file. *)
Definition remove (t : node) (p : path) : option node :=
  '(d, name) ← split_last p;
  with_dir d (fun es =>
    match assoc name es with
    | Some (File _) => Some (del name es)
    | _ => None
    end) t.

(** [os.rmdir]: the path must name an empty directory. *)
Definition rmdir (t : node) (p : path) : option node :=
  '(d, name) ← split_last p;
  with_dir d (fun es =>
    match assoc name es with
    | Some (Dir []) => Some (del name es)
    | _ => None
    end) t.

(** [os.makedirs(p, exist_ok=True)]: fails when a component is a file. *)
Fixpoint makedirs (p : path) (t : node) {struct p} : option node :=
  match t with
  | File _ => None
  | Dir es =>
      match p with
      | [] => Some t
      | x :: p' =>
          c' ← makedirs p' (default (Dir []) (assoc x es));
          Some (Dir (put x c' es))
      end
  end.

Definition unlink_entry (p : path) (t : node) : option node :=
  '(d, name) ← split_last p;
  with_dir d (fun es => Some (del name es)) t.

Definition link_entry (p : path) (n : node) (t : node) : option node :=
  '(d, name) ← split_last p;
  with_dir d (fun es => Some (put name n es)) t.

(** [shutil.move(src, dst)]: a destination that is a directory receives the
    source under its own name and must not hold that name yet; a file is
    renamed over an existing file; a directory is not moved onto a file or
    into itself. *)
Definition move (t : node) (src dst : path) : option node :=
  n ← lookup t src;
  let real_dst := if isdir t dst then dst ++ basename src else dst in
  if isdir t dst && exists_ t real_dst then None
  else if decide (src = real_dst) then Some t
  else if is_dir_node n && (exists_ t real_dst || bool_decide (src `prefix_of` real_dst))
  then None
  else t1 ← unlink_entry src t; link_entry real_dst n t1.

Definition dirnames (es : list (string * node)) : list string :=
  map fst (filter (fun e => is_dir_node e.2 = true) es).

Definition filenames (es : list (string * node)) : list string :=
  map fst (filter (fun e => is_dir_node e.2 = false) es).

(** [os.walk]: one triple [(dirpath, dirnames, filenames)] per directory,
    parents first ([topdown]) or children first. *)
Fixpoint walk_node (topdown : bool) (dirpath : path) (t : node)
  : list (path * list string * list string) :=
  match t with
  | File _ => []
  | Dir es =>
      let here := (dirpath, dirnames es, filenames es) in
      let below :=
        (fix go (l : list (string * node)) :=
           match l with
           | [] => []
           | (name, c) :: l' => walk_node topdown (dirpath ++ [name]) c ++ go l'
           end) es in
      if topdown then here :: below else below ++ [here]
  end.

Definition walk (t : node) (top : path) (topdown : bool)
  : list (path * list string * list string) :=
  match lookup t top with
  | Some n => walk_node topdown top n
  | None => []
  end.

(** [os.path.abspath] of a root given on the command line, with the current
    directory at the top of the tree: split at [/], drop empty and [.]
    components, [..] goes up. *)
Fixpoint components (cur : string) (l : list ascii) : list string :=
  match l with
  | [] => [cur]
  | c :: l' =>
      if Ascii.eqb c "/" then cur :: components "" l'
      else components (cur +:+ String c "") l'
  end.

Definition resolve (root_path : string) : path :=
  fold_left
    (fun acc c =>
       if decide (c = "") then acc
       else if decide (c = ".") then acc
       else if decide (c = "..") then removelast acc
       else acc ++ [c])
    (components "" (list_ascii_of_string root_path)) [].

End FS.

(** [os.path.join(root, name)] for a root given as a string. *)
Definition root_join (root_path : string) (name : string) : path :=
  FS.resolve root_path ++ [name].

(* ===================================================================== *)
(** * Output and the effect monad *)
(* ===================================================================== *)

(** One constructor per line the script prints while it consolidates, named
    after the tag of the line. *)
Inductive event : Type :=
| EvBanner (live : bool)
| EvProcessing (display : string) (ndisks : nat)
| EvSkipped (msg : string)
| EvConsolidating (target : string) (folder : string)
| EvCleaning (source : path)
| EvMoved (src dst : path)
| EvMerged (src dest_dir : path)
| EvDeleted (src : path)
| EvCleanup (dir : path)
| EvDryMv (src dest_dir : path)
| EvDryRmMv (dst src : path)
| EvDryRm (src : path)
| EvDryRmdir (dir : path)
| EvAbortCollision (dst : path)
| EvAbortMove (s e : N)
| EvErrSourceMissing (src : path)
| EvErrMoving (src : path)
| EvErrDeleting (src : path)
| EvCritical (src : path).

(** The lines that stand for a filesystem action, done or planned. *)
Definition is_action (e : event) : bool :=
  match e with
  | EvMoved _ _ | EvMerged _ _ | EvDeleted _ | EvCleanup _
  | EvDryMv _ _ | EvDryRmMv _ _ | EvDryRm _ | EvDryRmdir _ => true
  | _ => false
  end.

(** A computation reads and writes the tree and prints; a result [None] is
    an exception that nothing catches ([IndexError]), after which nothing
    more runs. *)
Definition M (A : Type) : Type := node -> option A * node * list event.

#[global] Instance M_ret : MRet M := fun A a t => (Some a, t, []).

#[global] Instance M_bind : MBind M := fun A B f m t =>
  match m t with
  | (Some a, t1, l1) =>
      match f a t1 with
      | (b, t2, l2) => (b, t2, l1 ++ l2)
      end
  | (None, t1, l1) => (None, t1, l1)
  end.

Definition print (e : event) : M unit := fun t => (Some tt, t, [e]).

Definition raise {A} : M A := fun t => (None, t, []).

Definition lift_option {A} (o : option A) : M A :=
  match o with
  | Some a => mret a
  | None => raise
  end.

Fixpoint for_each {A} (l : list A) (body : A -> M unit) : M unit :=
  match l with
  | [] => mret tt
  | x :: l' => body x;; for_each l' body
  end.

Definition result_of {A} (r : option A * node * list event) : option A := r.1.1.
Definition tree_of {A} (r : option A * node * list event) : node := r.1.2.
Definition log_of {A} (r : option A * node * list event) : list event := r.2.

(* ===================================================================== *)
(** * Action functions *)
(* ===================================================================== *)

Definition get_file_info (t : node) (p : path) : Z :=
  match FS.getsize t p with
  | Some sz => sz
  | None => -1
  end.

(** The [try] body of [safe_move] once both checks have passed in live
    mode; [None] is an exception, with the tree as the primitives left it. *)
Definition do_move (src dest_dir dst_path : path) (t : node) : option node * node :=
  match FS.makedirs dest_dir t with
  | None => (None, t)
  | Some t1 =>
      match FS.move t1 src dst_path with
      | None => (None, t1)
      | Some t2 => (Some t2, t2)
      end
  end.

Definition safe_move (src dest_dir : path) (dry_run : bool) : M bool := fun t =>
  if negb (FS.exists_ t src) then (Some false, t, [EvErrSourceMissing src])
  else
    let dst_path := dest_dir ++ FS.basename src in
    if FS.exists_ t dst_path then (Some false, t, [EvAbortCollision dst_path])
    else if negb dry_run then
      match do_move src dest_dir dst_path t with
      | (Some _, t') => (Some true, t', [EvMoved src dst_path])
      | (None, t') => (Some false, t', [EvCritical src])
      end
    else (Some true, t, [EvDryMv src dest_dir]).

(** The [try] body of [force_move] in live mode. *)
Definition do_merge (src dest_dir dst_path : path) (t : node) : option node * node :=
  match FS.makedirs dest_dir t with
  | None => (None, t)
  | Some t1 =>
      let cleared :=
        if FS.exists_ t1 dst_path then FS.remove t1 dst_path else Some t1 in
      match cleared with
      | None => (None, t1)
      | Some t2 =>
          match FS.move t2 src dst_path with
          | None => (None, t2)
          | Some t3 => (Some t3, t3)
          end
      end
  end.

Definition force_move (src dest_dir : path) (dry_run : bool) : M bool := fun t =>
  if negb (FS.exists_ t src) then (Some false, t, [])
  else
    let dst_path := dest_dir ++ FS.basename src in
    if negb dry_run then
      match do_merge src dest_dir dst_path t with
      | (Some _, t') => (Some true, t', [EvMerged src dest_dir])
      | (None, t') => (Some false, t', [EvErrMoving src])
      end
    else if FS.exists_ t dst_path then (Some true, t, [EvDryRmMv dst_path src])
    else (Some true, t, [EvDryMv src dest_dir]).

Definition safe_delete (src : path) (dry_run : bool) : M bool := fun t =>
  if negb dry_run then
    if FS.exists_ t src then
      match FS.remove t src with
      | Some t' => (Some true, t', [EvDeleted src])
      | None => (Some false, t, [EvErrDeleting src])
      end
    else (Some true, t, [])
  else (Some true, t, [EvDryRm src]).

(** The files of one walked directory: junk is deleted, anything else makes
    the directory non-empty.  Returns [is_empty]. *)
Fixpoint junk_pass (root : path) (files : list string) (dry_run : bool)
    (is_empty : bool) : M bool :=
  match files with
  | [] => mret is_empty
  | f :: files' =>
      if is_junk f then
        safe_delete (root ++ [f]) dry_run;;
        junk_pass root files' dry_run is_empty
      else junk_pass root files' dry_run false
  end.

(** The guarded [os.rmdir] of the live branch; an [OSError] is passed over. *)
Definition try_rmdir (root : path) : M unit := fun t =>
  match FS.listdir t root with
  | Some [] =>
      match FS.rmdir t root with
      | Some t' => (Some tt, t', [EvCleanup root])
      | None => (Some tt, t, [])
      end
  | _ => (Some tt, t, [])
  end.

(** The body of the loop over [os.walk(path, topdown=False)]. *)
Definition cleanup_dir (dry_run : bool) (root : path) (files : list string) : M unit :=
  junk_pass root files dry_run true ≫= fun is_empty : bool =>
  if is_empty then
    if negb dry_run then try_rmdir root
    else print (EvDryRmdir root)
  else mret tt.

(** [os.walk] reads a directory when it reaches it.  The loop body only
    touches the directory it was handed, after all of its subdirectories
    were handed out, so the triples are those of the tree at the start. *)
Definition cleanup_folder_tree (p : path) (dry_run : bool) : M unit := fun t =>
  if negb (FS.exists_ t p) then (Some tt, t, [])
  else for_each (FS.walk t p false)
         (fun w : path * list string * list string =>
            let '(root, _, files) := w in cleanup_dir dry_run root files) t.

(* ===================================================================== *)
(** * The inventory *)
(* ===================================================================== *)

Record Companion : Type := mkCompanion {
  comp_path : path;
  comp_size : Z
}.

Record EpisodeCopy : Type := mkEpisodeCopy {
  ep_path : path;
  ep_size : Z;
  ep_total_size : Z;
  ep_disk : string;
  ep_rel_dir : path;
  ep_companions : list Companion
}.

Record Artifact : Type := mkArtifact {
  art_path : path;
  art_disk : string;
  art_rel_dir : path;
  art_size : Z
}.

Record DiskStat : Type := mkDiskStat {
  real_folder : string;
  total_size : Z
}.

Definition slot : Type := (N * N)%type.

Record Series : Type := mkSeries {
  display_name : option string;
  disks : list (string * DiskStat);
  episodes : list (slot * list EpisodeCopy);
  artifacts : list Artifact
}.

Definition library : Type := list (string * Series).

Definition new_disk : DiskStat := mkDiskStat "" 0.
Definition new_series : Series := mkSeries None [] [] [].

(* ===================================================================== *)
(** * The scanner *)
(* ===================================================================== *)

(** An entry of [local_ep_groups]. *)
Record file_match : Type := mkFileMatch {
  fm_filename : string;
  fm_path : path;
  fm_size : Z;
  fm_match_end : nat
}.

Definition add_total (root_path : string) (n : Z) (s : Series) : Series :=
  mkSeries (display_name s)
    (OD.upd root_path (fun d => mkDiskStat (real_folder d) (total_size d + n))
       new_disk (disks s))
    (episodes s) (artifacts s).

Definition add_episode (k : slot) (entry : EpisodeCopy) (s : Series) : Series :=
  mkSeries (display_name s) (disks s)
    (OD.upd k (fun copies => copies ++ [entry]) [] (episodes s))
    (artifacts s).

Definition add_artifact (a : Artifact) (s : Series) : Series :=
  mkSeries (display_name s) (disks s) (episodes s) (artifacts s ++ [a]).

(** Step 1: group the matching files of one directory by slot. *)
Definition group_step (t : node) (dirpath : path)
    (st : list (slot * list file_match) * list string) (f : string)
  : list (slot * list file_match) * list string :=
  let '(local_ep_groups, unmatched_files) := st in
  match Pattern.search f with
  | Some (s_num, e_num, match_end) =>
      let f_path := dirpath ++ [f] in
      let size := get_file_info t f_path in
      (OD.upd (s_num, e_num)
         (fun g => g ++ [mkFileMatch f f_path size match_end]) []
         local_ep_groups,
       unmatched_files)
  | None => (local_ep_groups, unmatched_files ++ [f])
  end.

Definition group_files (t : node) (dirpath : path) (filenames : list string)
  : list (slot * list file_match) * list string :=
  fold_left (group_step t dirpath) filenames ([], []).

(** The smaller matches of a group become companions. *)
Definition claim_other (st : gset string * list Companion * Z) (other : file_match)
  : gset string * list Companion * Z :=
  let '(files_claimed, companions, total) := st in
  (files_claimed ∪ {[fm_filename other]},
   companions ++ [mkCompanion (fm_path other) (fm_size other)],
   total + fm_size other).

(** An unmatched file that starts with the candidate's name up to the end
    of the match becomes a companion. *)
Definition claim_unmatched (t : node) (dirpath : path) (prefix : string)
    (st : gset string * list Companion * Z) (um_f : string)
  : gset string * list Companion * Z :=
  let '(files_claimed, companions, total) := st in
  if decide (um_f ∈ files_claimed) then st
  else if String.prefix prefix um_f then
    let um_path := dirpath ++ [um_f] in
    let um_size := get_file_info t um_path in
    (files_claimed ∪ {[um_f]},
     companions ++ [mkCompanion um_path um_size],
     total + um_size)
  else st.

(** Step 2 for one group: the entry it contributes, if any, with the names
    claimed so far. *)
Definition process_group (t : node) (root_path : string) (dirpath rel_dir : path)
    (unmatched_files : list string) (files_claimed : gset string)
    (group : list file_match) : gset string * option EpisodeCopy :=
  match sort_desc fm_size group with
  | [] => (files_claimed, None)
  | candidate :: others =>
      if fm_size candidate >? MIN_VIDEO_SIZE then
        let st0 := (files_claimed ∪ {[fm_filename candidate]}, [], fm_size candidate) in
        let st1 := fold_left claim_other others st0 in
        let prefix := substring 0 (fm_match_end candidate) (fm_filename candidate) in
        let '(claimed, companions, total) :=
          fold_left (claim_unmatched t dirpath prefix) unmatched_files st1 in
        (claimed,
         Some (mkEpisodeCopy (fm_path candidate) (fm_size candidate) total
                 root_path rel_dir companions))
      else (files_claimed, None)
  end.

Definition groups_step (t : node) (root_path : string) (dirpath rel_dir : path)
    (unmatched_files : list string) (st : gset string * Series)
    (g : slot * list file_match) : gset string * Series :=
  let '(files_claimed, lib_entry) := st in
  match process_group t root_path dirpath rel_dir unmatched_files files_claimed g.2 with
  | (claimed, Some entry) =>
      (claimed,
       add_total root_path (ep_total_size entry) (add_episode g.1 entry lib_entry))
  | (claimed, None) => (claimed, lib_entry)
  end.

(** Step 3: what nobody claimed, hidden files apart. *)
Definition artifact_step (t : node) (root_path : string) (dirpath rel_dir : path)
    (files_claimed : gset string) (lib_entry : Series) (f : string) : Series :=
  if decide (f ∈ files_claimed) then lib_entry
  else if String.prefix "." f then lib_entry
  else
    let f_path := dirpath ++ [f] in
    let size := get_file_info t f_path in
    add_total root_path size
      (add_artifact (mkArtifact f_path root_path rel_dir size) lib_entry).

(** Steps 1 and 2 on one directory: the names claimed and the entry with
    the episodes added. *)
Definition claim_pass (t : node) (root_path : string) (dirpath rel_dir : path)
    (filenames : list string) (lib_entry : Series) : gset string * Series :=
  let '(local_ep_groups, unmatched_files) := group_files t dirpath filenames in
  fold_left (groups_step t root_path dirpath rel_dir unmatched_files)
    local_ep_groups (∅, lib_entry).

(** The body of the loop over [os.walk(series_path)]. *)
Definition scan_dir (t : node) (root_path : string) (dirpath rel_dir : path)
    (filenames : list string) (lib_entry : Series) : Series :=
  let '(files_claimed, lib_entry1) :=
    claim_pass t root_path dirpath rel_dir filenames lib_entry in
  fold_left (artifact_step t root_path dirpath rel_dir files_claimed)
    filenames lib_entry1.

(** [not lib_entry['display_name']] *)
Definition name_unset (d : option string) : bool :=
  match d with
  | None => true
  | Some s => bool_decide (s = "")
  end.

Definition scan_series (t : node) (root_path : string) (real_root : path)
    (folder_name : string) (lib_entry : Series) : Series :=
  let series_path := real_root ++ [folder_name] in
  let named :=
    if name_unset (display_name lib_entry) then Some folder_name
    else display_name lib_entry in
  let entry0 :=
    mkSeries named
      (OD.upd root_path (fun d => mkDiskStat folder_name (total_size d))
         new_disk (disks lib_entry))
      (episodes lib_entry) (artifacts lib_entry) in
  fold_left
    (fun entry (w : path * list string * list string) =>
       let '(dirpath, _, filenames) := w in
       let rel_dir := drop (length series_path) dirpath in
       scan_dir t root_path dirpath rel_dir filenames entry)
    (FS.walk t series_path true) entry0.

Definition scan_root (t : node) (lib : library) (root_path : string) : library :=
  let real_root := FS.resolve root_path in
  if negb (FS.exists_ t real_root) then lib
  else
    match FS.listdir t real_root with
    | None => lib
    | Some names =>
        let series_dirs :=
          filter (fun d => FS.isdir t (real_root ++ [d]) = true) names in
        fold_left
          (fun lib folder_name =>
             OD.upd (normalize_name folder_name)
               (scan_series t root_path real_root folder_name) new_series lib)
          series_dirs lib
    end.

Definition scan_library (roots : list string) (t : node) : library :=
  fold_left (scan_root t) roots [].

(* ===================================================================== *)
(** * Consolidation *)
(* ===================================================================== *)

(** What the loop body decided for one series. *)
Inductive outcome : Type :=
| Untouched
| Skipped (msg : string)
| Consolidated (target_disk : string) (target_series_folder_name : string).

Definition shown (display : option string) : string :=
  match display with
  | Some s => s
  | None => "None"
  end.

Definition conflict_msg (display : option string) : string :=
  "SKIPPED " +:+ shown display +:+ ": Conflicting duplicates (different sizes) found.".

Definition no_space_msg (display : option string) : string :=
  "SKIPPED " +:+ shown display +:+ ": No candidate disk has enough free space.".

(** [len(copies) > 1] and [len(set(c['size'] for c in copies)) > 1] *)
Definition bad_dupe (copies : list EpisodeCopy) : bool :=
  (1 <? length copies)%nat
  && (1 <? size (list_to_set (map ep_size copies) : gset Z))%nat.

Definition has_bad_dupe (eps : list (slot * list EpisodeCopy)) : bool :=
  existsb (fun kv => bad_dupe kv.2) eps.

Definition on_disk (d : string) (c : EpisodeCopy) : bool :=
  bool_decide (ep_disk c = d).

(** The contribution of one slot to [bytes_needed]; [copies[0]] of an empty
    list is an [IndexError]. *)
Definition episode_bytes (disk_path : string) (copies : list EpisodeCopy) : option Z :=
  if existsb (on_disk disk_path) copies then Some 0
  else
    match copies with
    | c0 :: _ => Some (ep_total_size c0)
    | [] => None
    end.

Definition artifact_bytes (disk_path : string) (art : Artifact) : Z :=
  if decide (art_disk art <> disk_path) then art_size art else 0.

Definition bytes_needed (eps : list (slot * list EpisodeCopy))
    (arts : list Artifact) (disk_path : string) : option Z :=
  e ← fold_left
        (fun acc kv => a ← acc; b ← episode_bytes disk_path kv.2; Some (a + b))
        eps (Some 0);
  Some (fold_left (fun acc art => acc + artifact_bytes disk_path art) arts e).

(** [sorted(data['disks'].items(), key=..., reverse=True)] *)
Definition candidates_of (data : Series) : list (string * DiskStat) :=
  sort_desc (fun x => total_size x.2) (disks data).

(** [not target_disk]: no target, or a target that is the empty string. *)
Definition no_target (target : option (string * string * Z)) : bool :=
  match target with
  | None => true
  | Some (target_disk, _, _) => bool_decide (target_disk = "")
  end.

Section Consolidation.

(** [shutil.disk_usage(path).free] as the platform reports it for the tree
    as it is now; [None] is [OSError]. *)
Variable disk_free : node -> path -> option Z.

Definition get_free_space (p : string) : M Z := fun t =>
  (Some (default 0 (disk_free t (FS.resolve p))), t, []).

(** The selection loop: the first candidate with room, with its folder
    name and [plan_import_size]. *)
Fixpoint select_target (data : Series) (candidates : list (string * DiskStat))
  : M (option (string * string * Z)) :=
  match candidates with
  | [] => mret None
  | (disk_path, meta) :: rest =>
      needed ← lift_option (bytes_needed (episodes data) (artifacts data) disk_path);
      free ← get_free_space disk_path;
      if free - needed >? MIN_FREE_BUFFER
      then mret (Some (disk_path, real_folder meta, needed))
      else select_target data rest
  end.

Definition delete_copy (dry_run : bool) (c : EpisodeCopy) : M unit :=
  safe_delete (ep_path c) dry_run;;
  for_each (ep_companions c) (fun comp => safe_delete (comp_path comp) dry_run;; mret tt).

(** The body of the episode loop. *)
Definition consolidate_episode (execute : bool) (target_disk : string)
    (target_root_full : path) (kv : slot * list EpisodeCopy) : M unit :=
  let copies := kv.2 in
  let on_target := filter (fun c => ep_disk c = target_disk) copies in
  let others := filter (fun c => ep_disk c <> target_disk) copies in
  match on_target with
  | _ :: _ => for_each others (delete_copy (negb execute))
  | [] =>
      match others with
      | [] => raise
      | src :: redundant =>
          let dest_dir := target_root_full ++ ep_rel_dir src in
          safe_move (ep_path src) dest_dir (negb execute) ≫= fun moved : bool =>
          if moved then
            for_each (ep_companions src)
              (fun comp => force_move (comp_path comp) dest_dir (negb execute);; mret tt);;
            for_each redundant (delete_copy (negb execute))
          else print (EvAbortMove kv.1.1 kv.1.2)
      end
  end.

Definition consolidate_artifact (execute : bool) (target_disk : string)
    (target_root_full : path) (art : Artifact) : M unit :=
  if decide (art_disk art <> target_disk) then
    force_move (art_path art) (target_root_full ++ art_rel_dir art) (negb execute);;
    mret tt
  else mret tt.

Definition clean_source (execute : bool) (data : Series) (target_disk : string)
    (disk_path : string) : M unit :=
  if decide (disk_path = target_disk) then mret tt
  else
    let source_folder_name :=
      real_folder (default new_disk (OD.get disk_path (disks data))) in
    let source_full_path := root_join disk_path source_folder_name in
    print (EvCleaning source_full_path);;
    cleanup_folder_tree source_full_path (negb execute).

(** The body of the loop of [process_consolidation] for one series. *)
Definition consolidate_series (execute : bool) (data : Series) : M outcome :=
  let involved_disks := OD.keys (disks data) in
  if (length involved_disks <=? 1)%nat then mret Untouched
  else
    print (EvProcessing (shown (display_name data)) (length involved_disks));;
    if has_bad_dupe (episodes data) then
      print (EvSkipped (conflict_msg (display_name data)));;
      mret (Skipped (conflict_msg (display_name data)))
    else
      select_target data (candidates_of data) ≫=
      fun target : option (string * string * Z) =>
      if no_target target then
        print (EvSkipped (no_space_msg (display_name data)));;
        mret (Skipped (no_space_msg (display_name data)))
      else
        match target with
        | None => mret Untouched
        | Some (target_disk, target_series_folder_name, _) =>
            print (EvConsolidating target_disk target_series_folder_name);;
            let target_root_full := root_join target_disk target_series_folder_name in
            for_each (episodes data)
              (consolidate_episode execute target_disk target_root_full);;
            for_each (artifacts data)
              (consolidate_artifact execute target_disk target_root_full);;
            for_each involved_disks (clean_source execute data target_disk);;
            mret (Consolidated target_disk target_series_folder_name)
        end.

Definition skipped_of (o : outcome) : list string :=
  match o with
  | Skipped msg => [msg]
  | _ => []
  end.

Fixpoint consolidate_all (execute : bool) (lib : library) (keys : list string)
    (skipped_log : list string) : M (list string) :=
  match keys with
  | [] => mret skipped_log
  | norm_key :: keys' =>
      o ← consolidate_series execute (default new_series (OD.get norm_key lib));
      consolidate_all execute lib keys' (skipped_log ++ skipped_of o)
  end.

Definition process_consolidation (lib : library) (execute : bool) : M (list string) :=
  print (EvBanner execute);;
  consolidate_all execute lib (sort_strings (OD.keys lib)) [].

(** [main] after argument parsing; the skipped-series report it prints last
    is the list returned here. *)
Definition main (roots : list string) (execute : bool) : M (list string) := fun t =>
  process_consolidation (scan_library roots t) execute t.

End Consolidation.

(* ===================================================================== *)
(** * Notions used in the statements *)
(* ===================================================================== *)

(** A list is trimmed when stripping leaves it alone. *)
Definition trimmed (l : list ascii) : Prop := lstrip l = l /\ rstrip l = l.

Definition sep_free (l : list ascii) : Prop := Forall (fun c => sep_to_space c = c) l.
Definition lowered (l : list ascii) : Prop := Forall (fun c => lower_char c = c) l.

(** Descending order of a key. *)
Definition key_ge {A} (key : A -> Z) (x y : A) : Prop := key y <= key x.

(** The aggregate size recorded for a slot: that of its first copy. *)
Definition slot_size (copies : list EpisodeCopy) : Z :=
  match copies with
  | c0 :: _ => ep_total_size c0
  | [] => 0
  end.

(** The bytes a root would have to take in: the aggregate size of every
    slot without a copy on the root, and every artifact that is not on it. *)
Definition sumZ {A} (f : A -> Z) (l : list A) : Z :=
  foldr (fun x acc => f x + acc) 0 l.

Definition import_size (data : Series) (d : string) : Z :=
  sumZ (fun kv : slot * list EpisodeCopy => slot_size kv.2)
    (filter (fun kv => Forall (fun c => ep_disk c <> d) kv.2) (episodes data))
  + sumZ art_size (filter (fun a => art_disk a <> d) (artifacts data)).

(** Every slot of the inventory has a copy, as in any scanned inventory. *)
Definition slots_filled (data : Series) : Prop :=
  Forall (fun kv : slot * list EpisodeCopy => kv.2 <> []) (episodes data).

Definition has_room (disk_free : node -> path -> option Z) (t : node)
    (data : Series) (d : string) : Prop :=
  default 0 (disk_free t (FS.resolve d)) - import_size data d > MIN_FREE_BUFFER.

(** The slot a file name matches, if any. *)
Definition slot_of (f : string) : option slot :=
  match Pattern.search f with
  | Some (s, e, _) => Some (s, e)
  | None => None
  end.

Definition match_end_of (f : string) : nat :=
  match Pattern.search f with
  | Some (_, _, m) => m
  | None => 0%nat
  end.

(** The files of a listing that match slot [k], as the scanner records them. *)
Definition file_record (t : node) (dirpath : path) (f : string) : file_match :=
  mkFileMatch f (dirpath ++ [f]) (get_file_info t (dirpath ++ [f])) (match_end_of f).

Definition matches_of (t : node) (dirpath : path) (k : slot) (filenames : list string)
  : list file_match :=
  map (file_record t dirpath) (filter (fun f => slot_of f = Some k) filenames).

(** The keys of the local groups are distinct and no group is empty. *)
Definition groups_ok (G : list (slot * list file_match)) : Prop :=
  NoDup (OD.keys G) /\ Forall (fun kg : slot * list file_match => kg.2 <> []) G.

Definition companion_of (m : file_match) : Companion :=
  mkCompanion (fm_path m) (fm_size m).

(** The copies recorded for a slot. *)
Definition copies_of (k : slot) (s : Series) : list EpisodeCopy :=
  default [] (OD.get k (episodes s)).

(** The total recorded for a root. *)
Definition total_on (root_path : string) (s : Series) : Z :=
  total_size (default new_disk (OD.get root_path (disks s))).

(** The artifact the scanner records for a file of a directory. *)
Definition artifact_of (t : node) (root_path : string) (dirpath rel_dir : path)
    (f : string) : Artifact :=
  mkArtifact (dirpath ++ [f]) root_path rel_dir (get_file_info t (dirpath ++ [f])).

(** What a group of matching files contributes when none of the unmatched
    names starts with the candidate's prefix. *)
Definition entry_of_group (root_path : string) (rel_dir : path)
    (group : list file_match) : option EpisodeCopy :=
  match sort_desc fm_size group with
  | candidate :: others =>
      if fm_size candidate >? MIN_VIDEO_SIZE then
        Some (mkEpisodeCopy (fm_path candidate) (fm_size candidate)
                (fm_size candidate + sumZ fm_size others)
                root_path rel_dir (map companion_of others))
      else None
  | [] => None
  end.

(** The names a group claims: all of them, or none. *)
Definition names_of_group (group : list file_match) : gset string :=
  match sort_desc fm_size group with
  | candidate :: others =>
      if fm_size candidate >? MIN_VIDEO_SIZE
      then list_to_set (map fm_filename group)
      else ∅
  | [] => ∅
  end.

(** The names claimed by the groups of a directory. *)
Definition names_of_groups (G : list (slot * list file_match)) : gset string :=
  ⋃ (map (fun kg : slot * list file_match => names_of_group kg.2) G).

(** The aggregate size a group adds to the root's total. *)
Definition total_of_group (root_path : string) (rel_dir : path)
    (group : list file_match) : Z :=
  match entry_of_group root_path rel_dir group with
  | Some e => ep_total_size e
  | None => 0
  end.

(** A file of a listing that becomes an artifact: unclaimed and not hidden. *)
Definition kept_files (claimed : gset string) (filenames : list string) : list string :=
  filter (fun f => (f ∉ claimed) /\ String.prefix "." f = false) filenames.

(** A computation that leaves the tree as it found it. *)
Definition readonly {A} (m : M A) : Prop := forall t, tree_of (m t) = t.

(** A computation that never ends in an uncaught exception. *)
Definition total {A} (m : M A) : Prop := forall t, is_Some (result_of (m t)).

(** A computation all of whose printed lines satisfy [P]. *)
Definition emits {A} (P : event -> Prop) (m : M A) : Prop :=
  forall t, Forall P (log_of (m t)).

(** The lines of an action that was carried out. *)
Definition is_done (e : event) : bool :=
  match e with
  | EvMoved _ _ | EvMerged _ _ | EvDeleted _ | EvCleanup _ => true
  | _ => false
  end.

(** The lines printed by the action functions and the cleaner. *)
Definition is_step (e : event) : bool :=
  match e with
  | EvBanner _ | EvProcessing _ _ | EvSkipped _ | EvConsolidating _ _ => false
  | _ => true
  end.

(** What the action functions print: step lines only, and in a dry run no
    line of an action carried out. *)
Definition step_line (dry_run : bool) (e : event) : Prop :=
  is_step e = true /\ (dry_run = true -> is_done e = false).

(** No directory of the tree lists a name twice. *)
Fixpoint unique_names (t : node) : bool :=
  match t with
  | File _ => true
  | Dir es =>
      bool_decide (NoDup (map fst es))
      && (fix all (l : list (string * node)) : bool :=
            match l with
            | [] => true
            | (_, c) :: l' => unique_names c && all l'
            end) es
  end.

(** A character that normalisation turns into whitespace. *)
Definition is_blank (c : ascii) : bool :=
  is_space c || bool_decide (c = "."%char) || bool_decide (c = "_"%char).

(** What the inventory of a series holds on a root: the aggregate sizes of
    the copies recorded there and the sizes of the artifacts recorded there. *)
Definition held_on (d : string) (s : Series) : Z :=
  sumZ (fun kv : slot * list EpisodeCopy =>
          sumZ ep_total_size (filter (fun c => ep_disk c = d) kv.2)) (episodes s)
  + sumZ art_size (filter (fun a => art_disk a = d) (artifacts s)).

(** The series folders of a root, as the scanner lists them. *)
Definition series_dirs (t : node) (root_path : string) : list string :=
  match FS.listdir t (FS.resolve root_path) with
  | Some names => filter (fun d => FS.isdir t (FS.resolve root_path ++ [d]) = true) names
  | None => []
  end.

(** The entry with which the walk of a series folder starts: the display
    name is set if none was, the folder name of the root is recorded. *)
Definition entry0 (root_path folder_name : string) (lib_entry : Series) : Series :=
  mkSeries
    (if name_unset (display_name lib_entry) then Some folder_name
     else display_name lib_entry)
    (OD.upd root_path (fun d => mkDiskStat folder_name (total_size d))
       new_disk (disks lib_entry))
    (episodes lib_entry) (artifacts lib_entry).

(** The totals of an inventory entry agree with what it holds. *)
Definition balanced (s : Series) : Prop := forall d, total_on d s = held_on d s.

(** The folder recorded for a root. *)
Definition folder_on (d : string) (s : Series) : string :=
  real_folder (default new_disk (OD.get d (disks s))).

(** The paths recorded for a copy: its own and those of its companions. *)
Definition paths_of (c : EpisodeCopy) : list path :=
  ep_path c :: map comp_path (ep_companions c).

(** A computation whose results, when it returns, satisfy [Q]. *)
Definition returns {A} (Q : A -> Prop) (m : M A) : Prop :=
  forall t a, result_of (m t) = Some a -> Q a.

(** The two messages with which a series can be skipped. *)
Definition skip_message (data : Series) (msg : string) : Prop :=
  msg = conflict_msg (display_name data) \/ msg = no_space_msg (display_name data).

(** The file at [q] is still there, or already gone. *)
Definition there_or_gone (q : path) (sz : Z) (t : node) : Prop :=
  FS.lookup t q = Some (File sz) \/ FS.lookup t q = None.

(** A directory below which every file has a junk name. *)
Fixpoint junk_only (t : node) : bool :=
  match t with
  | File _ => true
  | Dir es =>
      (fix all (l : list (string * node)) : bool :=
         match l with
         | [] => true
         | (name, c) :: l' =>
             match c with
             | File _ => is_junk name
             | Dir _ => junk_only c
             end && all l'
         end) es
  end.

(** The body of the loop of [cleanup_folder_tree]. *)
Definition cleanup_body (dry_run : bool) (w : path * list string * list string) : M unit :=
  let '(root, _, files) := w in cleanup_dir dry_run root files.

(** A computation that returns from [t] with the tree [t']. *)
Definition runs (m : M unit) (t t' : node) : Prop :=
  exists log, m t = (Some tt, t', log).

(** The directory at [p] with its entries replaced. *)
Definition set_entries (p : path) (es : list (string * node)) (t : node) : option node :=
  FS.with_dir p (fun _ => Some es) t.

(** What the simulated cleaner prints for one walked directory: a removal
    for each junk file, and the removal of the directory if it lists no
    other file. *)
Definition announced (w : path * list string * list string) : list event :=
  let '(root, _, files) := w in
  map (fun f => EvDryRm (root ++ [f])) (filter (fun f => is_junk f = true) files)
  ++ (if forallb is_junk files then [EvDryRmdir root] else []).

(** The lines that tell what was decided for a series: that it is looked
    at, that it is skipped and why, or its target. *)
Definition is_decision (e : event) : bool :=
  match e with
  | EvProcessing _ _ | EvSkipped _ | EvConsolidating _ _ => true
  | _ => false
  end.

Definition decisions (l : list event) : list event :=
  filter (fun e => is_decision e = true) l.

(** A list of lines up to and including the first target line. *)
Fixpoint upto_consolidating (l : list event) : list event :=
  match l with
  | [] => []
  | EvConsolidating d f :: _ => [EvConsolidating d f]
  | e :: l' => e :: upto_consolidating l'
  end.

(** What [consolidate_series] does once the target is printed. *)
Definition series_body (execute : bool) (data : Series) (target_disk : string)
    (target_series_folder_name : string) : M outcome :=
  let target_root_full := root_join target_disk target_series_folder_name in
  for_each (episodes data)
    (consolidate_episode execute target_disk target_root_full);;
  for_each (artifacts data)
    (consolidate_artifact execute target_disk target_root_full);;
  for_each (OD.keys (disks data)) (clean_source execute data target_disk);;
  mret (Consolidated target_disk target_series_folder_name).

(* ===================================================================== *)
(** * Sample trees *)
(* ===================================================================== *)

Definition MiB : Z := 1024 * 1024.
Definition GiB : Z := 1024 * MiB.

(** Every volume reports plenty of room. *)
Definition roomy (t : node) (p : path) : option Z := Some (500 * GiB).

(** The volume mounted at [/A] is full, the others have room. *)
Definition a_is_full (t : node) (p : path) : option Z :=
  if decide (p = ["A"]) then Some 0 else Some (500 * GiB).

(** One episode on both roots, with different sizes. *)
Definition bar_tree : node :=
  Dir [("A", Dir [("Bar", Dir [("Bar.S01E01.mkv", File (100 * MiB))])]);
       ("B", Dir [("bar", Dir [("bar.s01e01.mkv", File (90 * MiB))])])].

Definition bar_series : Series :=
  default new_series (OD.get "bar" (scan_library ["/A"; "/B"] bar_tree)).

(** One episode twice under the same root, in two season folders, with
    different sizes; the second root holds another episode. *)
Definition twice_tree : node :=
  Dir [("A", Dir [("Show", Dir
          [("S1", Dir [("x.S01E01.mkv", File (60 * MiB))]);
           ("S2", Dir [("x.S01E01.mkv", File (70 * MiB))])])]);
       ("B", Dir [("show", Dir [("x.S01E02.mkv", File (80 * MiB))])])].

Definition twice_series : Series :=
  default new_series (OD.get "show" (scan_library ["/A"; "/B"] twice_tree)).

(** A folder left behind on a source root: a marker file next to a note,
    and a season folder that holds only a marker file. *)
Definition leftover_tree : node :=
  Dir [("A", Dir [("Foo", Dir
          [("Thumbs.db", File 3);
           ("notes.txt", File 7);
           ("S1", Dir [(".DS_Store", File 1)])])])].

(** The spec's first scenario: one episode on both roots with the same
    size, a second episode on [/B] only. *)
Definition foo_tree : node :=
  Dir [("A", Dir [("Foo", Dir [("Foo.S01E01.mkv", File (100 * MiB))])]);
       ("B", Dir [("foo", Dir [("foo.s01e01.mkv", File (100 * MiB));
                               ("foo.S01E02.mkv", File (120 * MiB))])])].

(** An episode with a subtitle on [/A]; [/B] holds a subtitle of the same
    name and nothing else of the series. *)
Definition srt_tree : node :=
  Dir [("A", Dir [("Bar", Dir [("S1", Dir
          [("Bar.S01E01.mkv", File (100 * MiB));
           ("Bar.S01E01.srt", File 10)])])]);
       ("B", Dir [("bar", Dir [("S1", Dir [("Bar.S01E01.srt", File 20)])])])].

Definition srt_series : Series :=
  default new_series (OD.get "bar" (scan_library ["/A"; "/B"] srt_tree)).

(** The episode of [/A] is missing on [/B], where a file of its name is in
    the way; a second episode on [/A] is free to move. *)
Definition blocked_tree : node :=
  Dir [("A", Dir [("Baz", Dir
          [("Baz.S01E01.mkv", File (100 * MiB));
           ("Baz.S01E02.mkv", File (110 * MiB))])]);
       ("B", Dir [("Baz", Dir [("Baz.S01E01.mkv", File 5)])])].

Definition blocked_series : Series :=
  default new_series (OD.get "baz" (scan_library ["/A"; "/B"] blocked_tree)).

(** A series folder with an episode, a poster and a hidden file. *)
Definition hidden_tree : node :=
  Dir [("A", Dir [("Show", Dir
          [("x.S01E01.mkv", File (60 * MiB));
           (".nfo", File 5);
           ("poster.jpg", File 9)])])].

(** A series folder whose only match for the slot is a small sample. *)
Definition sample_tree : node :=
  Dir [("A", Dir [("Show", Dir [("x.S01E01.sample.mkv", File (10 * MiB))])])].

(** A series folder that holds nothing but marker files, in two levels,
    next to a folder with an episode. *)
Definition husk_tree : node :=
  Dir [("A", Dir [("Old", Dir [("Thumbs.db", File 3);
                               ("S1", Dir [(".DS_Store", File 1); ("desktop.ini", File 2)]);
                               ("S2", Dir [])]);
                  ("New", Dir [("New.S01E01.mkv", File (60 * MiB))])])].

(** One root with one series; the root is given twice below, once with a
    trailing slash. *)
Definition alias_tree : node :=
  Dir [("A", Dir [("Foo", Dir [("Foo.S01E01.mkv", File (100 * MiB));
                               ("poster.jpg", File 9)])])].

(** An episode on [/B]; on [/A] a small file of the same name, which the
    scanner takes for an artifact. *)
Definition stub_tree : node :=
  Dir [("A", Dir [("Show", Dir [("x.S01E01.mkv", File (10 * MiB))])]);
       ("B", Dir [("Show", Dir [("x.S01E01.mkv", File (100 * MiB))])])].

(** The inventory of the series of [foo_tree]. *)
Definition foo_series : Series :=
  default new_series (OD.get "foo" (scan_library ["/A"; "/B"] foo_tree)).

(** The bytes held below a node. *)
Fixpoint usage (t : node) : Z :=
  match t with
  | File size => size
  | Dir es =>
      (fix go (l : list (string * node)) : Z :=
         match l with
         | [] => 0
         | (_, c) :: l' => usage c + go l'
         end) es
  end.

(** Two series, each with one episode on [/A] and another on [/B]. *)
Definition two_series_tree : node :=
  Dir [("A", Dir [("Aaa", Dir [("Aaa.S01E01.mkv", File (60 * MiB))]);
                  ("Bbb", Dir [("Bbb.S01E01.mkv", File (60 * MiB))])]);
       ("B", Dir [("Aaa", Dir [("Aaa.S01E02.mkv", File (70 * MiB))]);
                  ("Bbb", Dir [("Bbb.S01E02.mkv", File (70 * MiB))])])].

(** Volumes that report what is left of their capacity: [/A] holds
    1 GiB more than is on it in [two_series_tree], [/B] 100 GiB and
    100 MiB more. *)
Definition metered (t : node) (p : path) : option Z :=
  n ← FS.lookup t p;
  let capacity :=
    if decide (p = ["A"]) then 1 * GiB + 120 * MiB
    else 100 * GiB + 240 * MiB in
  Some (capacity - usage n).

(* ===================================================================== *)
(** * Properties of name normalisation *)
(* ===================================================================== *)

Module NamesFacts.

Ltac by_cases_on_char c :=
  destruct c as [[] [] [] [] [] [] [] []]; vm_compute; try reflexivity; try discriminate.

Lemma lower_char_idem c : lower_char (lower_char c) = lower_char c.
Proof. by_cases_on_char c. Qed.

Lemma is_space_lower c : is_space (lower_char c) = is_space c.
Proof. by_cases_on_char c. Qed.

Lemma sep_to_space_idem c : sep_to_space (sep_to_space c) = sep_to_space c.
Proof. by_cases_on_char c. Qed.

Lemma sep_lower_comm c : sep_to_space (lower_char c) = lower_char (sep_to_space c).
Proof. by_cases_on_char c. Qed.

Lemma is_space_sep c : is_space c = true -> sep_to_space c = c.
Proof. by_cases_on_char c. Qed.

Lemma sep_space_fixed c : is_space c = true -> is_space (sep_to_space c) = true.
Proof. intros H. by rewrite is_space_sep. Qed.

Lemma sep_of_space : sep_to_space " " = " "%char.
Proof. reflexivity. Qed.

Lemma lower_of_space : lower_char " " = " "%char.
Proof. reflexivity. Qed.

(** ** Stripping *)

Lemma lstrip_app_space w l : all_space w -> lstrip (w ++ l) = lstrip l.
Proof. induction 1 as [|c w Hc _ IH]; simpl; [done|]. by rewrite Hc. Qed.

Lemma rstrip_all_space w : all_space w -> rstrip w = [].
Proof. induction 1 as [|c w Hc _ IH]; simpl; [done|]. by rewrite IH, Hc. Qed.

Lemma rstrip_app_space l w : all_space w -> rstrip (l ++ w) = rstrip l.
Proof.
  intros Hw. induction l as [|c l IH]; simpl.
  - by apply rstrip_all_space.
  - by rewrite IH.
Qed.

Lemma lstrip_suffix l : exists w, all_space w /\ l = w ++ lstrip l.
Proof.
  induction l as [|c l [w [Hw IH]]]; simpl.
  - exists []. split; [constructor | done].
  - destruct (is_space c) eqn:Hc.
    + exists (c :: w). split; [by constructor | simpl; congruence].
    + exists []. split; [constructor | done].
Qed.

Lemma strip_surrounded l w r :
  all_space l -> all_space r -> strip (l ++ w ++ r) = strip w.
Proof.
  intros Hl Hr. unfold strip. rewrite lstrip_app_space by done.
  destruct (lstrip_suffix w) as [u [Hu Hw]].
  destruct (decide (lstrip w = [])) as [E|NE].
  - rewrite E. rewrite Hw, E, app_nil_r.
    rewrite lstrip_app_space by done.
    pose proof (lstrip_app_space r [] Hr) as Hn. rewrite app_nil_r in Hn.
    by rewrite Hn.
  - assert (lstrip (w ++ r) = lstrip w ++ r) as ->.
    { rewrite Hw at 1. rewrite <- app_assoc, lstrip_app_space by done.
      destruct (lstrip w) as [|c l'] eqn:E; [done|].
      assert (is_space c = false) as Hc.
      { clear -E. induction w as [|a w IH]; simpl in E; [done|].
        destruct (is_space a) eqn:Ha; [auto|]. by inversion E; subst. }
      simpl. by rewrite Hc. }
    by apply rstrip_app_space.
Qed.

Lemma lstrip_map (f : ascii -> ascii) l :
  (forall c, is_space (f c) = is_space c) -> lstrip (map f l) = map f (lstrip l).
Proof.
  intros Hf. induction l as [|c l IH]; simpl; [done|].
  rewrite Hf. by destruct (is_space c).
Qed.

Lemma rstrip_map (f : ascii -> ascii) l :
  (forall c, is_space (f c) = is_space c) -> rstrip (map f l) = map f (rstrip l).
Proof.
  intros Hf. induction l as [|c l IH]; simpl; [done|].
  rewrite IH, Hf. destruct (rstrip l); simpl; [by destruct (is_space c)|done].
Qed.

Lemma strip_lower l : strip (lower l) = lower (strip l).
Proof.
  unfold strip, lower.
  rewrite lstrip_map by apply is_space_lower.
  by rewrite rstrip_map by apply is_space_lower.
Qed.

Lemma lstrip_head l : lstrip l = [] \/ exists c l', lstrip l = c :: l' /\ is_space c = false.
Proof.
  induction l as [|c l IH]; simpl; [by left|].
  destruct (is_space c) eqn:Hc; [done|]. right. eauto.
Qed.

Lemma lstrip_fixed c l : is_space c = false -> lstrip (c :: l) = c :: l.
Proof. intros Hc. simpl. by rewrite Hc. Qed.

Lemma rstrip_idem l : rstrip (rstrip l) = rstrip l.
Proof.
  induction l as [|c l IH]; simpl; [done|].
  destruct (rstrip l) as [|a r] eqn:E.
  - destruct (is_space c) eqn:Hc; simpl; [done|]. by rewrite Hc.
  - simpl in *. by rewrite IH.
Qed.

Lemma rstrip_cons_nonspace c l : is_space c = false -> rstrip (c :: l) = c :: rstrip l.
Proof. intros Hc. simpl. destruct (rstrip l); [by rewrite Hc|done]. Qed.

Lemma strip_trimmed l : trimmed (strip l).
Proof.
  unfold trimmed, strip. split; [|apply rstrip_idem].
  destruct (lstrip_head l) as [-> | (c & l' & -> & Hc)]; [done|].
  rewrite rstrip_cons_nonspace by done. by apply lstrip_fixed.
Qed.

Lemma trimmed_strip l : trimmed l -> strip l = l.
Proof. intros [H1 H2]. unfold strip. by rewrite H1. Qed.

Lemma trimmed_lower l : trimmed l -> trimmed (lower l).
Proof.
  intros [H1 H2]. unfold trimmed, lower.
  rewrite lstrip_map, rstrip_map by apply is_space_lower. by rewrite H1, H2.
Qed.

(** ** Collapsing runs of whitespace *)

Lemma collapse_idem l : forall b, collapse b (collapse b l) = collapse b l.
Proof.
  induction l as [|c l IH]; intros b; simpl; [done|].
  destruct (is_space c) eqn:Hc.
  - destruct b; [apply IH|]. simpl. by rewrite IH.
  - simpl. by rewrite Hc, IH.
Qed.

Lemma collapse_Forall (P : ascii -> Prop) l :
  P " "%char -> Forall P l -> forall b, Forall P (collapse b l).
Proof.
  intros Hsp. induction 1 as [|c l Hc _ IH]; intros b; simpl; [constructor|].
  destruct (is_space c); [destruct b|]; auto.
Qed.

Lemma collapse_lower l : forall b, lower (collapse b l) = collapse b (lower l).
Proof.
  induction l as [|c l IH]; intros b; simpl; [done|].
  rewrite is_space_lower. destruct (is_space c).
  - destruct b; simpl; by rewrite ?IH.
  - simpl. by rewrite IH.
Qed.

Lemma rstrip_fixed_nonempty l b : rstrip l = l -> l <> [] -> collapse b l <> [].
Proof.
  revert b. induction l as [|c l IH]; intros b Hr Hne; [done|].
  simpl in *. destruct (rstrip l) as [|a r] eqn:E.
  - destruct (is_space c) eqn:Hc; [done|]. inversion Hr; subst. simpl. done.
  - inversion Hr as [Hl]. rewrite Hl in *.
    destruct (is_space c); [destruct b|]; try done.
    apply IH; [done|]. by rewrite <- Hl.
Qed.

Lemma rstrip_collapse l : forall b, rstrip l = l -> rstrip (collapse b l) = collapse b l.
Proof.
  induction l as [|c l IH]; intros b Hr; [done|].
  assert (rstrip l = l /\ (is_space c = true -> l <> [])) as [Hl Hne].
  { simpl in Hr. destruct (rstrip l) as [|a r] eqn:E.
    - destruct (is_space c) eqn:Hc; [done|]. by inversion Hr.
    - inversion Hr as [Hl]. by subst l. }
  simpl. destruct (is_space c) eqn:Hc.
  - destruct b; [by apply IH|].
    simpl. rewrite IH by done.
    pose proof (rstrip_fixed_nonempty l true Hl (Hne eq_refl)) as Hn.
    by destruct (collapse true l).
  - rewrite rstrip_cons_nonspace by done. by rewrite IH.
Qed.

Lemma trimmed_collapse l : trimmed l -> trimmed (collapse false l).
Proof.
  intros [H1 H2]. split; [|by apply rstrip_collapse].
  destruct l as [|c l]; [done|].
  simpl in H1. destruct (is_space c) eqn:Hc.
  - exfalso. destruct (lstrip_suffix l) as [w [_ Hw]].
    rewrite H1 in Hw. apply (f_equal length) in Hw.
    rewrite length_app in Hw. simpl in Hw. lia.
  - simpl. rewrite Hc. by apply lstrip_fixed.
Qed.

(** ** The normal form *)

Lemma map_fixed {A} (f : A -> A) l : Forall (fun c => f c = c) l -> map f l = l.
Proof. induction 1 as [|c l Hc _ IH]; simpl; by rewrite ?Hc, ?IH. Qed.

Lemma Forall_lstrip (P : ascii -> Prop) l : Forall P l -> Forall P (lstrip l).
Proof. induction 1 as [|c l Hc Hl IH]; simpl; [done|]. destruct (is_space c); auto. Qed.

Lemma Forall_rstrip (P : ascii -> Prop) l : Forall P l -> Forall P (rstrip l).
Proof.
  induction 1 as [|c l Hc Hl IH]; simpl; [done|].
  destruct (rstrip l); [destruct (is_space c)|]; auto.
Qed.

Lemma normalize_chars_sep_free l : sep_free (normalize_chars l).
Proof.
  unfold normalize_chars. apply collapse_Forall; [done|].
  unfold lower. apply Forall_map, Forall_rstrip, Forall_lstrip, Forall_map.
  apply Forall_forall. intros c _. simpl.
  by rewrite sep_lower_comm, sep_to_space_idem.
Qed.

Lemma normalize_chars_lowered l : lowered (normalize_chars l).
Proof.
  unfold normalize_chars. apply collapse_Forall; [done|].
  unfold lower. apply Forall_map, Forall_forall. intros c _. simpl.
  apply lower_char_idem.
Qed.

Lemma normalize_chars_trimmed l : trimmed (normalize_chars l).
Proof. apply trimmed_collapse, trimmed_lower, strip_trimmed. Qed.

Lemma normalize_chars_idem l : normalize_chars (normalize_chars l) = normalize_chars l.
Proof.
  unfold normalize_chars at 1.
  rewrite (map_fixed sep_to_space) by apply normalize_chars_sep_free.
  rewrite trimmed_strip by apply normalize_chars_trimmed.
  unfold lower at 1. rewrite (map_fixed lower_char) by apply normalize_chars_lowered.
  apply collapse_idem.
Qed.

Lemma char_variant_clean a b :
  char_variant a b -> lower_char (sep_to_space a) = lower_char (sep_to_space b).
Proof.
  intros [a' b' H | a' b' Ha Hb].
  - by rewrite <- !sep_lower_comm, H.
  - set_unfold. by destruct Ha as [->|[->|[->|[]]]], Hb as [->|[->|[->|[]]]].
Qed.

Lemma clean_all_space w : all_space w -> all_space (lower (map sep_to_space w)).
Proof.
  intros H. unfold lower, all_space. apply Forall_map, Forall_map.
  eapply Forall_impl; [exact H|]. intros c Hc. simpl.
  by rewrite is_space_lower, is_space_sep.
Qed.

Lemma normalize_chars_alt l :
  normalize_chars l = collapse false (strip (lower (map sep_to_space l))).
Proof. unfold normalize_chars. by rewrite strip_lower. Qed.

End NamesFacts.

(* ===================================================================== *)
(** * Ordered dictionaries *)
(* ===================================================================== *)

Module ODFacts.
Section ODFacts.
Context {K V : Type} `{EqDecision K}.

Lemma get_upd_eq (k : K) (f : V -> V) (dflt : V) (d : list (K * V)) :
  OD.get k (OD.upd k f dflt d) = Some (f (default dflt (OD.get k d))).
Proof.
  induction d as [|[k' v] d IH]; simpl.
  - by rewrite decide_True.
  - destruct (decide (k' = k)); simpl.
    + by rewrite decide_True.
    + by rewrite decide_False.
Qed.

Lemma get_upd_ne (k k0 : K) (f : V -> V) (dflt : V) (d : list (K * V)) :
  k <> k0 -> OD.get k0 (OD.upd k f dflt d) = OD.get k0 d.
Proof.
  intros Hne. induction d as [|[k' v] d IH]; simpl.
  - by rewrite decide_False.
  - destruct (decide (k' = k)) as [->|]; simpl.
    + by rewrite !decide_False.
    + by rewrite IH.
Qed.

Lemma keys_upd_in (k : K) (f : V -> V) (dflt : V) (d : list (K * V)) :
  k ∈ OD.keys d -> OD.keys (OD.upd k f dflt d) = OD.keys d.
Proof.
  unfold OD.keys. induction d as [|[k' v] d IH]; simpl; intros Hin.
  - by apply elem_of_nil in Hin.
  - destruct (decide (k' = k)); simpl; [done|].
    f_equal. apply IH. apply elem_of_cons in Hin as [?|?]; [congruence|done].
Qed.

Lemma keys_upd_notin (k : K) (f : V -> V) (dflt : V) (d : list (K * V)) :
  k ∉ OD.keys d -> OD.keys (OD.upd k f dflt d) = OD.keys d ++ [k].
Proof.
  unfold OD.keys. induction d as [|[k' v] d IH]; simpl; intros Hin; [done|].
  apply not_elem_of_cons in Hin as [Hne Hin].
  rewrite decide_False by done. simpl. f_equal. by apply IH.
Qed.

Lemma get_Some_elem (k : K) (v : V) (d : list (K * V)) :
  OD.get k d = Some v -> (k, v) ∈ d.
Proof.
  induction d as [|[k' v'] d IH]; simpl; [done|].
  destruct (decide (k' = k)) as [->|]; intros H.
  - inversion H. by left.
  - right. by apply IH.
Qed.

Lemma get_None_keys (k : K) (d : list (K * V)) :
  OD.get k d = None <-> k ∉ OD.keys d.
Proof.
  unfold OD.keys. induction d as [|[k' v'] d IH]; simpl.
  - split; [intros _; apply not_elem_of_nil | done].
  - destruct (decide (k' = k)) as [->|Hne].
    + split; [done|]. intros H. exfalso. apply H. by left.
    + rewrite IH, not_elem_of_cons. intuition congruence.
Qed.

End ODFacts.
End ODFacts.

(* ===================================================================== *)
(** * Properties of the episode pattern *)
(* ===================================================================== *)

Module PatternFacts.
Import Pattern.

Lemma is_E_not_digit c : is_E c = true -> is_digit c = false.
Proof. NamesFacts.by_cases_on_char c. Qed.

Lemma span_digits_fst_app d rest :
  Forall (fun c => is_digit c = true) d ->
  (span_digits (d ++ rest)).1 = d ++ (span_digits rest).1.
Proof.
  induction 1 as [|c d Hc _ IH]; simpl; [done|].
  rewrite Hc. destruct (span_digits (d ++ rest)) as [d' r'] eqn:E. simpl in *.
  by rewrite IH.
Qed.

Lemma span_digits_stop d c r :
  Forall (fun c => is_digit c = true) d -> is_digit c = false ->
  span_digits (d ++ c :: r) = (d, c :: r).
Proof.
  intros Hd Hc. induction Hd as [|a d Ha _ IH]; simpl.
  - by rewrite Hc.
  - by rewrite Ha, IH.
Qed.

Lemma span_digits_spec l :
  l = (span_digits l).1 ++ (span_digits l).2 /\
  Forall (fun c => is_digit c = true) (span_digits l).1.
Proof.
  induction l as [|c l [IH1 IH2]]; simpl; [by split|].
  destruct (is_digit c) eqn:Hc; [|by split].
  destruct (span_digits l) as [d r]. simpl in *. split; [by f_equal | by constructor].
Qed.

(** The shape of a match at the head of a list. *)
Lemma match_here_shape l s e len :
  match_here l = Some (s, e, len) ->
  exists c1 d1 c2 d2 r,
    l = c1 :: d1 ++ c2 :: d2 ++ r /\
    is_S c1 = true /\ is_E c2 = true /\
    Forall (fun c => is_digit c = true) d1 /\ d1 <> [] /\
    Forall (fun c => is_digit c = true) d2 /\ d2 <> [] /\
    len = (2 + length d1 + length d2)%nat.
Proof.
  unfold match_here. destruct l as [|c1 l1]; [done|].
  destruct (is_S c1) eqn:HS; [|done].
  pose proof (span_digits_spec l1) as [Hl1 Hd1].
  destruct (span_digits l1) as [d1 r1]. simpl in *.
  destruct d1 as [|a d1]; [done|]. destruct r1 as [|c2 l2]; [done|].
  destruct (is_E c2) eqn:HE; [|done].
  pose proof (span_digits_spec l2) as [Hl2 Hd2].
  destruct (span_digits l2) as [d2 r2]. simpl in *.
  destruct d2 as [|b d2]; [done|].
  intros H. injection H as <- <- <-.
  exists c1, (a :: d1), c2, (b :: d2), r2.
  repeat split; try done. rewrite Hl1. simpl. do 2 f_equal. by rewrite Hl2.
Qed.

(** What follows a match does not undo it. *)
Lemma match_here_prefix l s e len rest :
  match_here l = Some (s, e, len) -> is_Some (match_here (take len l ++ rest)).
Proof.
  intros H. apply match_here_shape in H
    as (c1 & d1 & c2 & d2 & r & -> & HS & HE & Hd1 & Hn1 & Hd2 & Hn2 & ->).
  assert (take (2 + length d1 + length d2) (c1 :: d1 ++ c2 :: d2 ++ r)
          = c1 :: d1 ++ c2 :: d2) as ->.
  { simpl. f_equal. rewrite take_app_ge by lia.
    f_equal. replace (S (length d1 + length d2) - length d1)%nat with (S (length d2)) by lia.
    simpl. f_equal. by rewrite take_app_length. }
  simpl. rewrite HS. rewrite <- !app_assoc. simpl.
  rewrite span_digits_stop by auto using is_E_not_digit.
  destruct d1 as [|a d1]; [done|]. rewrite HE.
  pose proof (span_digits_fst_app d2 rest Hd2) as Hf.
  destruct (span_digits (d2 ++ rest)) as [d' r']. simpl in Hf. subst d'.
  destruct d2 as [|b d2]; [done|]. simpl. by eexists.
Qed.

Lemma match_here_length l s e len :
  match_here l = Some (s, e, len) -> (len <= length l)%nat.
Proof.
  intros H. apply match_here_shape in H
    as (c1 & d1 & c2 & d2 & r & -> & _ & _ & _ & _ & _ & _ & ->).
  simpl. rewrite !length_app. simpl. rewrite length_app. lia.
Qed.

Lemma search_from_cons off c l :
  search_from off (c :: l) =
  match match_here (c :: l) with
  | Some (s, e, len) => Some (s, e, (off + len)%nat)
  | None => search_from (S off) l
  end.
Proof. reflexivity. Qed.

Lemma search_from_Some l : forall off s e k,
  search_from off l = Some (s, e, k) ->
  exists i len,
    k = (off + i + len)%nat /\ match_here (drop i l) = Some (s, e, len) /\
    (i + len <= length l)%nat.
Proof.
  induction l as [|c l IH]; intros off s e k H.
  - done.
  - rewrite search_from_cons in H.
    destruct (match_here (c :: l)) as [[[s' e'] len]|] eqn:Hm.
    + injection H as <- <- <-. exists 0%nat, len. rewrite drop_0.
      split; [lia|]. split; [done|]. by apply match_here_length in Hm.
    + apply IH in H as (i & len & -> & Hm' & Hle).
      exists (S i), len. simpl. repeat split; [lia | done | lia].
Qed.

Lemma search_from_exists i : forall l off,
  is_Some (match_here (drop i l)) -> is_Some (search_from off l).
Proof.
  induction i as [|i IH]; intros l off [[[s e] len] Hm].
  - rewrite drop_0 in Hm. destruct l as [|c l]; [done|].
    rewrite search_from_cons, Hm. by eexists.
  - destruct l as [|c l]; [done|]. simpl in Hm.
    rewrite search_from_cons.
    destruct (match_here (c :: l)) as [[[s' e'] len']|]; [by eexists|].
    apply IH. by eexists.
Qed.

Lemma list_of_substring k : forall f,
  list_ascii_of_string (substring 0 k f) = take k (list_ascii_of_string f).
Proof.
  induction k as [|k IH]; intros f; destruct f as [|c f]; simpl; try done.
  by rewrite IH.
Qed.

Lemma prefix_list p : forall u,
  String.prefix p u = true ->
  exists rest, list_ascii_of_string u = list_ascii_of_string p ++ rest.
Proof.
  induction p as [|a p IH]; intros u H; simpl in *.
  - by eexists.
  - destruct u as [|b u]; [done|]. simpl in H.
    destruct (ascii_dec a b) as [->|]; [|done].
    destruct (IH u H) as [rest Hr]. exists rest. simpl. by rewrite Hr.
Qed.

(** A name that starts with a matching name cut at the end of its match
    matches the pattern itself. *)
Lemma prefix_of_match_matches f u s e k :
  search f = Some (s, e, k) ->
  String.prefix (substring 0 k f) u = true ->
  is_Some (search u).
Proof.
  unfold search. intros Hf Hp.
  apply prefix_list in Hp as [rest Hu]. rewrite list_of_substring in Hu.
  apply search_from_Some in Hf as (i & len & -> & Hm & Hle). simpl in Hu.
  apply (search_from_exists i). rewrite Hu.
  rewrite drop_app_le by (rewrite length_take; lia).
  rewrite <- take_drop_commute.
  by eapply match_here_prefix.
Qed.

End PatternFacts.

(* ===================================================================== *)
(** * Stable sorting *)
(* ===================================================================== *)

Section SortingFacts.
Context {A : Type} (key : A -> Z).

Lemma insert_desc_perm x l :
  insert_sorted (fun x y => key y <=? key x) x l ≡ₚ x :: l.
Proof.
  induction l as [|y l IH]; simpl; [done|].
  destruct (key y <=? key x); [done|].
  rewrite IH. apply Permutation_swap.
Qed.

Lemma sort_desc_perm l : sort_desc key l ≡ₚ l.
Proof.
  unfold sort_desc, sorted_by. induction l as [|x l IH]; simpl; [done|].
  by rewrite insert_desc_perm, IH.
Qed.

Lemma insert_desc_sorted x l :
  StronglySorted (key_ge key) l ->
  StronglySorted (key_ge key) (insert_sorted (fun x y => key y <=? key x) x l).
Proof.
  induction 1 as [|y l Hl IH Hy]; simpl.
  - repeat constructor.
  - destruct (key y <=? key x) eqn:E.
    + apply Z.leb_le in E. constructor; [by constructor|].
      constructor; [done|].
      eapply Forall_impl; [exact Hy|]. unfold key_ge. intros z Hz. simpl in Hz. lia.
    + apply Z.leb_gt in E. constructor; [done|].
      rewrite insert_desc_perm. constructor; [unfold key_ge; lia | done].
Qed.

Lemma sort_desc_sorted l : StronglySorted (key_ge key) (sort_desc key l).
Proof.
  unfold sort_desc, sorted_by. induction l as [|x l IH]; simpl; [constructor|].
  by apply insert_desc_sorted.
Qed.

Lemma insert_desc_stable v x l :
  filter (fun y => key y = v) (insert_sorted (fun x y => key y <=? key x) x l)
  = filter (fun y => key y = v) (x :: l).
Proof.
  induction l as [|y l IH]; simpl; [done|].
  destruct (key y <=? key x) eqn:E; [done|].
  apply Z.leb_gt in E.
  rewrite (filter_cons _ y), IH, !filter_cons.
  repeat case_decide; try done; lia.
Qed.

(** Elements with the same key leave the sort in the order they came in. *)
Lemma sort_desc_stable v l :
  filter (fun y => key y = v) (sort_desc key l) = filter (fun y => key y = v) l.
Proof.
  unfold sort_desc, sorted_by. induction l as [|x l IH]; simpl; [done|].
  rewrite insert_desc_stable, !filter_cons. by rewrite IH.
Qed.

End SortingFacts.

(* ===================================================================== *)
(** * The scanner: one directory *)
(* ===================================================================== *)

Module ScanFacts.

Lemma slot_of_search f k :
  slot_of f = Some k <-> Pattern.search f = Some (k.1, k.2, match_end_of f).
Proof.
  unfold slot_of, match_end_of. destruct (Pattern.search f) as [[[s e] m]|]; [|done].
  destruct k as [s' e']. simpl. split; intros H; by simplify_eq.
Qed.

Lemma slot_of_None f : slot_of f = None <-> Pattern.search f = None.
Proof. unfold slot_of. by destruct (Pattern.search f) as [[[s e] m]|]. Qed.

Section Directory.
Variables (t : node) (root_path : string) (dirpath rel_dir : path).

Lemma matches_of_cons k f fs :
  matches_of t dirpath k (f :: fs) =
  (if decide (slot_of f = Some k) then [file_record t dirpath f] else []) ++ matches_of t dirpath k fs.
Proof. unfold matches_of. rewrite filter_cons. by case_decide. Qed.

(** ** Step 1 *)

Lemma group_step_groups G U f k :
  default [] (OD.get k (group_step t dirpath (G, U) f).1)
  = default [] (OD.get k G) ++ (if decide (slot_of f = Some k) then [file_record t dirpath f] else []).
Proof.
  unfold group_step, slot_of, file_record, match_end_of.
  destruct (Pattern.search f) as [[[s e] m]|]; simpl.
  - destruct (decide ((s, e) = k)) as [<-|Hne].
    + rewrite ODFacts.get_upd_eq. simpl. by rewrite decide_True.
    + rewrite ODFacts.get_upd_ne by done. rewrite decide_False by congruence.
      by rewrite app_nil_r.
  - by rewrite app_nil_r.
Qed.

Lemma group_step_unmatched G U f :
  (group_step t dirpath (G, U) f).2
  = U ++ (if decide (Pattern.search f = None) then [f] else []).
Proof.
  unfold group_step. destruct (Pattern.search f) as [[[s e] m]|]; simpl; [|done].
  by rewrite app_nil_r.
Qed.

Lemma fold_group_step fs : forall G U k,
  default [] (OD.get k (fold_left (group_step t dirpath) fs (G, U)).1)
  = default [] (OD.get k G) ++ matches_of t dirpath k fs.
Proof.
  induction fs as [|f fs IH]; intros G U k; cbn [fold_left].
  - unfold matches_of. simpl. by rewrite app_nil_r.
  - destruct (group_step t dirpath (G, U) f) as [G1 U1] eqn:E.
    rewrite IH. rewrite matches_of_cons, app_assoc. f_equal.
    pose proof (group_step_groups G U f k) as H. by rewrite E in H.
Qed.

Lemma fold_group_step_unmatched fs : forall G U,
  (fold_left (group_step t dirpath) fs (G, U)).2
  = U ++ filter (fun f => Pattern.search f = None) fs.
Proof.
  induction fs as [|f fs IH]; intros G U; cbn [fold_left].
  - simpl. by rewrite app_nil_r.
  - destruct (group_step t dirpath (G, U) f) as [G1 U1] eqn:E.
    rewrite IH. rewrite filter_cons.
    pose proof (group_step_unmatched G U f) as H. rewrite E in H. simpl in H.
    rewrite H, <- app_assoc. f_equal. by case_decide.
Qed.

Lemma upd_groups_ok (G : list (slot * list file_match)) k m :
  groups_ok G -> groups_ok (OD.upd k (fun g => g ++ [m]) [] G).
Proof.
  intros [Hnd Hne]. split.
  - destruct (decide (k ∈ OD.keys G)) as [Hin|Hnin].
    + by rewrite ODFacts.keys_upd_in.
    + rewrite ODFacts.keys_upd_notin by done.
      apply NoDup_app. split; [done|]. split; [|apply NoDup_singleton].
      intros x Hx Hx'. apply list_elem_of_singleton in Hx'. by subst.
  - clear Hnd. induction G as [|[k' g] G IH]; simpl.
    + by repeat constructor.
    + apply Forall_cons in Hne as [Hg Hne]. case_decide.
      * constructor; [|done]. simpl. by destruct g.
      * constructor; [done|]. by apply IH.
Qed.

Lemma fold_group_step_ok fs : forall G U,
  groups_ok G -> groups_ok (fold_left (group_step t dirpath) fs (G, U)).1.
Proof.
  induction fs as [|f fs IH]; intros G U Hok; cbn [fold_left]; [done|].
  destruct (group_step t dirpath (G, U) f) as [G1 U1] eqn:E.
  apply IH. unfold group_step in E.
  destruct (Pattern.search f) as [[[s e] m]|]; simplify_eq; [|done].
  by apply upd_groups_ok.
Qed.

Lemma nodup_get {V} (G : list (slot * V)) k g :
  NoDup (OD.keys G) -> (k, g) ∈ G -> OD.get k G = Some g.
Proof.
  unfold OD.keys. induction G as [|[k' g'] G IH]; simpl; intros Hnd Hin.
  - by apply elem_of_nil in Hin.
  - apply NoDup_cons in Hnd as [Hk Hnd].
    apply elem_of_cons in Hin as [Heq|Hin].
    + simplify_eq. by rewrite decide_True.
    + rewrite decide_False; [by apply IH|].
      intros ->. apply Hk. apply list_elem_of_fmap. by exists (k, g).
Qed.

(** The groups of a listing: one per slot that occurs, holding the files
    that match the slot in listing order. *)
Lemma group_files_groups fs k g :
  (k, g) ∈ (group_files t dirpath fs).1 ->
  g = matches_of t dirpath k fs /\ g <> [] /\
  OD.get k (group_files t dirpath fs).1 = Some g.
Proof.
  intros Hin. unfold group_files in *.
  destruct (fold_group_step_ok fs [] []) as [Hnd Hne]; [split; constructor|].
  pose proof (nodup_get _ k g Hnd Hin) as Hget.
  pose proof (fold_group_step fs [] [] k) as Hk. rewrite Hget in Hk. simpl in Hk.
  split; [done|]. split; [|done].
  rewrite Forall_forall in Hne. by apply (Hne (k, g)).
Qed.

Lemma group_files_none fs k :
  OD.get k (group_files t dirpath fs).1 = None -> matches_of t dirpath k fs = [].
Proof.
  intros Hget. pose proof (fold_group_step fs [] [] k) as Hk.
  unfold group_files in Hget. by rewrite Hget in Hk.
Qed.

Lemma group_files_unmatched fs :
  (group_files t dirpath fs).2 = filter (fun f => Pattern.search f = None) fs.
Proof. unfold group_files. by rewrite fold_group_step_unmatched. Qed.

End Directory.
End ScanFacts.

Module GroupFacts.
Section Group.
Variables (t : node) (root_path : string) (dirpath rel_dir : path).

Lemma sumZ_app {A} (f : A -> Z) l1 l2 : sumZ f (l1 ++ l2) = sumZ f l1 + sumZ f l2.
Proof. induction l1 as [|x l1 IH]; simpl; lia. Qed.

Lemma sumZ_map {A B} (f : B -> Z) (g : A -> B) l : sumZ f (map g l) = sumZ (fun x => f (g x)) l.
Proof. induction l as [|x l IH]; simpl; lia. Qed.

Lemma fold_claim_other others : forall cl comps tot,
  fold_left claim_other others (cl, comps, tot)
  = (cl ∪ list_to_set (map fm_filename others),
     comps ++ map companion_of others,
     tot + sumZ fm_size others).
Proof.
  induction others as [|m others IH]; intros cl comps tot; simpl.
  - f_equal; [f_equal|]; [by rewrite union_empty_r_L | by rewrite app_nil_r | lia].
  - rewrite IH. f_equal; [f_equal|].
    + by rewrite (assoc_L (∪)).
    + by rewrite <- app_assoc.
    + lia.
Qed.

(** The loop over the unmatched names: it only adds, and it adds every
    name that is not yet claimed and starts with the prefix. *)
Lemma fold_claim_unmatched prefix unmatched : forall cl comps tot,
  exists cl' extra,
    fold_left (claim_unmatched t dirpath prefix) unmatched (cl, comps, tot)
    = (cl', comps ++ extra, tot + sumZ comp_size extra) /\
    (cl ⊆ cl') /\
    (forall um, um ∈ unmatched -> um ∉ cl -> String.prefix prefix um = true ->
       um ∈ cl' /\
       mkCompanion (dirpath ++ [um]) (get_file_info t (dirpath ++ [um])) ∈ extra) /\
    (forall c, c ∈ extra ->
       exists um, um ∈ unmatched /\ (um ∉ cl) /\ String.prefix prefix um = true /\
         c = mkCompanion (dirpath ++ [um]) (get_file_info t (dirpath ++ [um]))).
Proof.
  induction unmatched as [|um0 unmatched IH]; intros cl comps tot; cbn [fold_left].
  - exists cl, []. simpl. rewrite app_nil_r, Z.add_0_r.
    split; [done|]. split; [done|]. split.
    + intros um Hin. by apply elem_of_nil in Hin.
    + intros c Hin. by apply elem_of_nil in Hin.
  - unfold claim_unmatched at 2.
    destruct (decide (um0 ∈ cl)) as [Hin0|Hnin0].
    { destruct (IH cl comps tot) as (cl' & extra & Hf & Hsub & Hadd & Hex).
      exists cl', extra. split; [done|]. split; [done|]. split.
      - intros um Hin Hnin Hpre.
        apply elem_of_cons in Hin as [->|Hin]; [done|]. by apply Hadd.
      - intros c Hc. destruct (Hex c Hc) as (um & ? & ? & ? & ?).
        exists um. split; [by right|]. done. }
    destruct (String.prefix prefix um0) eqn:Hp.
    + destruct (IH (cl ∪ {[um0]})
                  (comps ++ [mkCompanion (dirpath ++ [um0]) (get_file_info t (dirpath ++ [um0]))])
                  (tot + get_file_info t (dirpath ++ [um0])))
        as (cl' & extra & Hf & Hsub & Hadd & Hex).
      exists cl', (mkCompanion (dirpath ++ [um0]) (get_file_info t (dirpath ++ [um0])) :: extra).
      split; [|split; [|split]].
      * rewrite Hf. f_equal; [f_equal|]; [by rewrite <- app_assoc | simpl; lia].
      * set_solver.
      * intros um Hin Hnin Hpre.
        destruct (decide (um = um0)) as [->|Hne].
        -- split; [set_solver | by left].
        -- apply elem_of_cons in Hin as [->|Hin]; [done|].
           destruct (Hadd um Hin) as [? ?]; [set_solver | done |].
           split; [done | by right].
      * intros c Hc. apply elem_of_cons in Hc as [->|Hc].
        -- exists um0. split; [by left|]. done.
        -- destruct (Hex c Hc) as (um & ? & ? & ? & ?).
           exists um. split; [by right|]. split; [set_solver|]. done.
    + destruct (IH cl comps tot) as (cl' & extra & Hf & Hsub & Hadd & Hex).
      exists cl', extra. split; [done|]. split; [done|]. split.
      * intros um Hin Hnin Hpre.
        apply elem_of_cons in Hin as [->|Hin]; [congruence|]. by apply Hadd.
      * intros c Hc. destruct (Hex c Hc) as (um & ? & ? & ? & ?).
        exists um. split; [by right|]. done.
Qed.

Lemma fold_claim_unmatched_dead prefix unmatched st :
  Forall (fun um => String.prefix prefix um = false) unmatched ->
  fold_left (claim_unmatched t dirpath prefix) unmatched st = st.
Proof.
  intros H. revert st. induction H as [|um unmatched Hum _ IH]; intros st; [done|].
  cbn [fold_left]. rewrite <- (IH st) at 2. f_equal.
  unfold claim_unmatched. destruct st as [[cl comps] tot].
  case_decide; [done|]. by rewrite Hum.
Qed.

(** The head of a descending sort is a largest element. *)
Lemma sort_desc_head {A} (key : A -> Z) l c others :
  sort_desc key l = c :: others -> forall m, m ∈ l -> key m <= key c.
Proof.
  intros Hs m Hm.
  pose proof (sort_desc_sorted key l) as Hsorted.
  pose proof (sort_desc_perm key l) as Hperm.
  rewrite <- Hperm, Hs in Hm. rewrite Hs in Hsorted.
  apply StronglySorted_inv in Hsorted as [_ Hall].
  apply elem_of_cons in Hm as [->|Hm]; [lia|].
  rewrite Forall_forall in Hall. by apply Hall.
Qed.

Lemma sort_desc_nonempty {A} (key : A -> Z) l :
  l <> [] -> exists c others, sort_desc key l = c :: others.
Proof.
  intros Hne. destruct (sort_desc key l) as [|c others] eqn:E; [|by eauto].
  pose proof (sort_desc_perm key l) as Hp. rewrite E in Hp.
  apply Permutation_nil_l in Hp. done.
Qed.

End Group.
End GroupFacts.

Module DirFacts.
Import ScanFacts GroupFacts.
Section Dir.
Variables (t : node) (root_path : string) (dirpath rel_dir : path).

Lemma copies_add_episode k k0 e s :
  copies_of k (add_episode k0 e s)
  = copies_of k s ++ (if decide (k0 = k) then [e] else []).
Proof.
  unfold copies_of, add_episode. simpl. case_decide as Hk.
  - subst. by rewrite ODFacts.get_upd_eq.
  - rewrite ODFacts.get_upd_ne by done. by rewrite app_nil_r.
Qed.

Lemma copies_add_total k r n s : copies_of k (add_total r n s) = copies_of k s.
Proof. done. Qed.

Lemma total_add_total r n s : total_on r (add_total r n s) = total_on r s + n.
Proof. unfold total_on, add_total. simpl. by rewrite ODFacts.get_upd_eq. Qed.

Lemma total_add_episode r k e s : total_on r (add_episode k e s) = total_on r s.
Proof. done. Qed.

Lemma total_add_artifact r a s : total_on r (add_artifact a s) = total_on r s.
Proof. done. Qed.

(** ** Step 2 on one group *)

(** With any list of unmatched names: the candidate is a largest match,
    nothing happens at or below the threshold, and above it the entry holds
    the other matches and the prefixed unmatched names as companions. *)
Lemma process_group_spec unmatched claimed group :
  group <> [] ->
  exists candidate others,
    sort_desc fm_size group = candidate :: others /\
    (forall m, m ∈ group -> fm_size m <= fm_size candidate) /\
    if fm_size candidate >? MIN_VIDEO_SIZE then
      exists cl' extra,
        process_group t root_path dirpath rel_dir unmatched claimed group
        = (cl',
           Some (mkEpisodeCopy (fm_path candidate) (fm_size candidate)
                   (fm_size candidate + sumZ fm_size others + sumZ comp_size extra)
                   root_path rel_dir (map companion_of others ++ extra))) /\
        (forall um,
            um ∈ unmatched ->
            um ∉ claimed ∪ list_to_set (map fm_filename group) ->
            String.prefix (substring 0 (fm_match_end candidate) (fm_filename candidate)) um
            = true ->
            mkCompanion (dirpath ++ [um]) (get_file_info t (dirpath ++ [um])) ∈ extra)
    else
      process_group t root_path dirpath rel_dir unmatched claimed group = (claimed, None).
Proof.
  intros Hne. destruct (sort_desc_nonempty fm_size group Hne) as (c & others & Hs).
  exists c, others. split; [done|]. split; [by eapply sort_desc_head|].
  unfold process_group. rewrite Hs.
  destruct (fm_size c >? MIN_VIDEO_SIZE); [|done].
  rewrite fold_claim_other. simpl.
  destruct (fold_claim_unmatched t dirpath
              (substring 0 (fm_match_end c) (fm_filename c)) unmatched
              (claimed ∪ {[fm_filename c]} ∪ list_to_set (map fm_filename others))
              (map companion_of others) (fm_size c + sumZ fm_size others))
    as (cl' & extra & Hf & _ & Hadd & _).
  rewrite Hf. exists cl', extra. split; [done|].
  intros um Hin Hnin Hpre. apply (Hadd um Hin); [|done].
  assert ((list_to_set (map fm_filename group) : gset string)
          = {[fm_filename c]} ∪ list_to_set (map fm_filename others)) as Hset.
  { rewrite <- (list_to_set_perm_L _ _ (fmap_Permutation fm_filename _ _
                                          (sort_desc_perm fm_size group))).
    by rewrite Hs. }
  rewrite Hset in Hnin. set_solver.
Qed.

(** With no unmatched name starting with a prefix of the group. *)
Lemma process_group_listed unmatched claimed group :
  (forall m, m ∈ group ->
     Forall (fun um => String.prefix (substring 0 (fm_match_end m) (fm_filename m)) um = false)
       unmatched) ->
  process_group t root_path dirpath rel_dir unmatched claimed group
  = (claimed ∪ names_of_group group, entry_of_group root_path rel_dir group).
Proof.
  intros Hdead. unfold process_group, names_of_group, entry_of_group.
  destruct (sort_desc fm_size group) as [|c others] eqn:Hs.
  { by rewrite union_empty_r_L. }
  destruct (fm_size c >? MIN_VIDEO_SIZE); [|by rewrite union_empty_r_L].
  rewrite fold_claim_other. simpl.
  rewrite fold_claim_unmatched_dead.
  - f_equal.
    rewrite <- (list_to_set_perm_L _ _ (fmap_Permutation fm_filename _ _
                                          (sort_desc_perm fm_size group))).
    rewrite Hs. simpl. by rewrite (assoc_L (∪)).
  - apply Hdead. rewrite <- (sort_desc_perm fm_size group), Hs. by left.
Qed.

(** In a listing the unmatched names never start with such a prefix. *)
Lemma listing_prefix_dead fs k m :
  m ∈ matches_of t dirpath k fs ->
  Forall (fun um => String.prefix (substring 0 (fm_match_end m) (fm_filename m)) um = false)
    (group_files t dirpath fs).2.
Proof.
  intros Hm. rewrite group_files_unmatched. apply Forall_forall. intros um Hum.
  apply list_elem_of_filter in Hum as [Hnone _].
  unfold matches_of in Hm. apply list_elem_of_fmap in Hm as (f & -> & Hf).
  apply list_elem_of_filter in Hf as [Hslot _]. simpl.
  apply slot_of_search in Hslot.
  destruct (String.prefix (substring 0 (match_end_of f) f) um) eqn:Hp; [|done].
  destruct (PatternFacts.prefix_of_match_matches f um _ _ _ Hslot Hp) as [x Hx].
  congruence.
Qed.

End Dir.
End DirFacts.

Module PassFacts.
Import ScanFacts GroupFacts DirFacts.
Section Pass.
Variables (t : node) (root_path : string) (dirpath rel_dir : path).

(** ** Step 2 over the groups of a listing *)

Lemma groups_step_listed unmatched cl lib k0 g0 :
  (forall m, m ∈ g0 ->
     Forall (fun um => String.prefix (substring 0 (fm_match_end m) (fm_filename m)) um = false)
       unmatched) ->
  groups_step t root_path dirpath rel_dir unmatched (cl, lib) (k0, g0)
  = (cl ∪ names_of_group g0,
     match entry_of_group root_path rel_dir g0 with
     | Some e => add_total root_path (ep_total_size e) (add_episode k0 e lib)
     | None => lib
     end).
Proof.
  intros Hdead. unfold groups_step. cbn [fst snd].
  rewrite (process_group_listed t root_path dirpath rel_dir) by done.
  by destruct (entry_of_group root_path rel_dir g0).
Qed.

Lemma fold_groups_step fs (G : list (slot * list file_match)) : forall cl lib,
  NoDup (OD.keys G) ->
  (forall k g, (k, g) ∈ G -> g = matches_of t dirpath k fs) ->
  let r := fold_left
             (groups_step t root_path dirpath rel_dir (group_files t dirpath fs).2)
             G (cl, lib) in
  r.1 = cl ∪ names_of_groups G /\
  (forall k, copies_of k r.2
             = copies_of k lib ++
               match OD.get k G with
               | Some g => option_list (entry_of_group root_path rel_dir g)
               | None => []
               end) /\
  artifacts r.2 = artifacts lib /\
  total_on root_path r.2
  = total_on root_path lib
    + sumZ (fun kg : slot * list file_match => total_of_group root_path rel_dir kg.2) G.
Proof.
  induction G as [|[k0 g0] G IH]; intros cl lib Hnd Hg; cbn zeta; cbn [fold_left].
  - simpl. unfold names_of_groups. simpl. rewrite union_empty_r_L.
    split; [done|]. split; [|split; [done|lia]].
    intros k. by rewrite app_nil_r.
  - apply NoDup_cons in Hnd as [Hk0 Hnd].
    assert (forall k g, (k, g) ∈ G -> g = matches_of t dirpath k fs) as Hg'.
    { intros k g Hin. apply Hg. by right. }
    rewrite groups_step_listed.
    2:{ intros m Hm. apply (listing_prefix_dead t dirpath fs k0).
        rewrite <- (Hg k0 g0); [done | by left]. }
    set (lib1 := match entry_of_group root_path rel_dir g0 with
                 | Some e => add_total root_path (ep_total_size e) (add_episode k0 e lib)
                 | None => lib
                 end).
    assert (forall k, copies_of k lib1
                      = copies_of k lib ++
                        (if decide (k0 = k)
                         then option_list (entry_of_group root_path rel_dir g0) else []))
      as Hc1.
    { intros k. subst lib1. destruct (entry_of_group root_path rel_dir g0) as [e|].
      - rewrite copies_add_total, copies_add_episode. by case_decide.
      - case_decide; by rewrite app_nil_r. }
    assert (artifacts lib1 = artifacts lib) as Ha1.
    { subst lib1. by destruct (entry_of_group root_path rel_dir g0). }
    assert (total_on root_path lib1
            = total_on root_path lib + total_of_group root_path rel_dir g0) as Ht1.
    { subst lib1. unfold total_of_group.
      destruct (entry_of_group root_path rel_dir g0) as [e|]; [|lia].
      by rewrite total_add_total, total_add_episode. }
    destruct (IH (cl ∪ names_of_group g0) lib1 Hnd Hg') as (H1 & H2 & H3 & H4).
    cbn zeta in *. split; [|split; [|split]].
    + rewrite H1. unfold names_of_groups. simpl. by rewrite (assoc_L (∪)).
    + intros k. rewrite H2, Hc1, <- app_assoc. f_equal. simpl.
      destruct (decide (k0 = k)) as [->|Hne]; [|done].
      assert (OD.get k G = None) as -> by (by apply ODFacts.get_None_keys).
      by rewrite app_nil_r.
    + by rewrite H3.
    + rewrite H4, Ht1. simpl. lia.
Qed.

Lemma entry_of_group_nil : entry_of_group root_path rel_dir [] = None.
Proof. done. Qed.

(** The claim pass on a listing. *)
Lemma claim_pass_spec fs lib :
  (claim_pass t root_path dirpath rel_dir fs lib).1
  = names_of_groups (group_files t dirpath fs).1 /\
  (forall k,
      copies_of k (claim_pass t root_path dirpath rel_dir fs lib).2
      = copies_of k lib
        ++ option_list (entry_of_group root_path rel_dir (matches_of t dirpath k fs))) /\
  artifacts (claim_pass t root_path dirpath rel_dir fs lib).2 = artifacts lib /\
  total_on root_path (claim_pass t root_path dirpath rel_dir fs lib).2
  = total_on root_path lib
    + sumZ (fun kg : slot * list file_match => total_of_group root_path rel_dir kg.2)
        (group_files t dirpath fs).1.
Proof.
  unfold claim_pass.
  destruct (fold_group_step_ok t dirpath fs [] []) as [Hnd _]; [split; constructor|].
  fold (group_files t dirpath fs) in Hnd.
  assert (forall k g, (k, g) ∈ (group_files t dirpath fs).1
                      -> g = matches_of t dirpath k fs) as Hg.
  { intros k g Hin. by apply group_files_groups in Hin as [? _]. }
  pose proof (fold_groups_step fs (group_files t dirpath fs).1 ∅ lib Hnd Hg) as H.
  cbn zeta in H. destruct H as (H1 & H2 & H3 & H4).
  destruct (group_files t dirpath fs) as [G U] eqn:EG. cbn [fst snd] in *.
  split; [|split; [|split]]; try done.
  - by rewrite H1, union_empty_l_L.
  - intros k. rewrite H2. f_equal.
    destruct (OD.get k G) as [g|] eqn:Hget.
    + apply ODFacts.get_Some_elem in Hget. by rewrite (Hg k g Hget).
    + pose proof (group_files_none t dirpath fs k) as Hn. rewrite EG in Hn.
      by rewrite (Hn Hget).
Qed.

(** ** Step 3 *)

Lemma artifact_step_kept claimed lib f :
  artifact_step t root_path dirpath rel_dir claimed lib f
  = if decide ((f ∉ claimed) /\ String.prefix "." f = false)
    then add_total root_path (get_file_info t (dirpath ++ [f]))
           (add_artifact (artifact_of t root_path dirpath rel_dir f) lib)
    else lib.
Proof.
  unfold artifact_step.
  destruct (decide (f ∈ claimed)) as [Hin|Hnin].
  { by rewrite decide_False by tauto. }
  destruct (String.prefix "." f) eqn:Hdot.
  { by rewrite decide_False by (intros [_ ?]; done). }
  by rewrite decide_True.
Qed.

Lemma fold_artifact_step claimed fs : forall lib,
  let out := fold_left (artifact_step t root_path dirpath rel_dir claimed) fs lib in
  artifacts out
  = artifacts lib ++ map (artifact_of t root_path dirpath rel_dir) (kept_files claimed fs) /\
  episodes out = episodes lib /\
  total_on root_path out
  = total_on root_path lib
    + sumZ art_size (map (artifact_of t root_path dirpath rel_dir) (kept_files claimed fs)).
Proof.
  induction fs as [|f fs IH]; intros lib; cbn zeta; cbn [fold_left].
  - simpl. rewrite app_nil_r. split; [done|]. split; [done|lia].
  - unfold kept_files. rewrite filter_cons. fold (kept_files claimed fs).
    rewrite artifact_step_kept.
    destruct (decide ((f ∉ claimed) /\ String.prefix "." f = false)) as [Hk|Hk].
    + destruct (IH (add_total root_path (get_file_info t (dirpath ++ [f]))
                      (add_artifact (artifact_of t root_path dirpath rel_dir f) lib)))
        as (H1 & H2 & H3).
      cbn zeta in *. split; [|split].
      * rewrite H1. simpl. by rewrite <- app_assoc.
      * by rewrite H2.
      * rewrite H3, total_add_total, total_add_artifact. simpl. lia.
    + apply IH.
Qed.

End Pass.
End PassFacts.

Module ClaimFacts.
Import ScanFacts GroupFacts DirFacts PassFacts.
Section Claims.
Variables (t : node) (root_path : string) (dirpath rel_dir : path).

Lemma matches_of_path k fs m :
  m ∈ matches_of t dirpath k fs -> fm_path m = dirpath ++ [fm_filename m].
Proof.
  unfold matches_of. intros Hm. by apply list_elem_of_fmap in Hm as (f & -> & _).
Qed.

Lemma snoc_inj (d : path) (f g : string) : d ++ [f] = d ++ [g] -> f = g.
Proof. intros H. apply app_inv_head in H. by injection H. Qed.

(** The names a group claims are the names of the copy it yields and of
    that copy's companions. *)
Lemma names_of_group_entry k fs f :
  f ∈ names_of_group (matches_of t dirpath k fs) <->
  exists e,
    entry_of_group root_path rel_dir (matches_of t dirpath k fs) = Some e /\
    (ep_path e = dirpath ++ [f] \/
     exists c, c ∈ ep_companions e /\ comp_path c = dirpath ++ [f]).
Proof.
  unfold names_of_group, entry_of_group.
  pose proof (sort_desc_perm fm_size (matches_of t dirpath k fs)) as Hperm.
  pose proof (matches_of_path k fs) as Hpath.
  destruct (sort_desc fm_size (matches_of t dirpath k fs)) as [|c others] eqn:Hs.
  { split; [set_solver | by intros (e & ? & _)]. }
  destruct (fm_size c >? MIN_VIDEO_SIZE).
  2:{ split; [set_solver | by intros (e & ? & _)]. }
  rewrite elem_of_list_to_set, <- Hperm, list_elem_of_fmap.
  split.
  - intros (m & -> & Hm). eexists. split; [done|]. simpl.
    apply elem_of_cons in Hm as [->|Hm].
    + left. apply Hpath. rewrite <- Hperm. by left.
    + right. exists (companion_of m). split; [by apply list_elem_of_fmap_2|].
      simpl. apply Hpath. rewrite <- Hperm. by right.
  - intros (e & He & Hor). injection He as <-. simpl in Hor.
    destruct Hor as [Hp | (comp & Hin & Hp)].
    + exists c. split; [|by left].
      rewrite Hpath in Hp by (rewrite <- Hperm; by left). by apply snoc_inj in Hp.
    + apply list_elem_of_fmap in Hin as (m & -> & Hm). simpl in Hp.
      exists m. split; [|by right].
      rewrite Hpath in Hp by (rewrite <- Hperm; by right). by apply snoc_inj in Hp.
Qed.

(** A name is claimed in a directory exactly when it is the name of a copy
    the pass yields there or of one of that copy's companions. *)
Lemma claimed_iff fs lib f :
  f ∈ (claim_pass t root_path dirpath rel_dir fs lib).1 <->
  exists k e,
    entry_of_group root_path rel_dir (matches_of t dirpath k fs) = Some e /\
    (ep_path e = dirpath ++ [f] \/
     exists c, c ∈ ep_companions e /\ comp_path c = dirpath ++ [f]).
Proof.
  destruct (claim_pass_spec t root_path dirpath rel_dir fs lib) as (-> & _).
  unfold names_of_groups. rewrite elem_of_union_list. split.
  - intros (X & HX & Hf). apply list_elem_of_fmap in HX as ([k g] & -> & Hin).
    simpl in Hf. apply group_files_groups in Hin as (-> & _ & _).
    exists k. by apply names_of_group_entry.
  - intros (k & e & He & Hor).
    destruct (OD.get k (group_files t dirpath fs).1) as [g|] eqn:Hget.
    + apply ODFacts.get_Some_elem in Hget.
      exists (names_of_group g). split.
      * apply list_elem_of_fmap. by exists (k, g).
      * apply group_files_groups in Hget as (-> & _ & _).
        apply names_of_group_entry. by exists e.
    + apply group_files_none in Hget. by rewrite Hget in He.
Qed.

Lemma artifact_of_inj f g :
  artifact_of t root_path dirpath rel_dir f = artifact_of t root_path dirpath rel_dir g ->
  f = g.
Proof. unfold artifact_of. intros H. injection H as H _. by apply snoc_inj in H. Qed.

End Claims.
End ClaimFacts.

(** C7, as stated, fails: a file whose name starts with a dot is claimed by
    nobody and yet is not recorded; the root's total does not count it. *)
Lemma hidden_file_is_not_recorded :
  Pattern.search ".nfo" = None /\
  scan_library ["/A"] hidden_tree =
    [("show",
      mkSeries (Some "Show") [("/A", mkDiskStat "Show" (60 * MiB + 9))]
        [((1%N, 1%N),
          [mkEpisodeCopy ["A"; "Show"; "x.S01E01.mkv"] (60 * MiB) (60 * MiB) "/A" [] []])]
        [mkArtifact ["A"; "Show"; "poster.jpg"] "/A" [] 9])].
Proof. split; vm_compute; reflexivity. Qed.

(** C7, amended.  In a scanned directory a name is claimed exactly when it is
    the name of a copy recorded there or of one of its companions.  Every
    file of the listing that is not claimed and whose name does not start
    with a dot is recorded, in listing order, as an artifact with its path,
    the root, the relative directory and its size, and the root's total
    grows by these sizes; a file whose name starts with a dot is not
    recorded. *)
Theorem unclaimed_visible_files_become_artifacts
    t root_path dirpath rel_dir filenames lib_entry :
  let pass := claim_pass t root_path dirpath rel_dir filenames lib_entry in
  let out := scan_dir t root_path dirpath rel_dir filenames lib_entry in
  let recorded :=
    map (fun f => mkArtifact (dirpath ++ [f]) root_path rel_dir
                    (get_file_info t (dirpath ++ [f])))
      (filter (fun f => (f ∉ pass.1) /\ String.prefix "." f = false) filenames) in
  (forall f,
      f ∈ pass.1 <->
      exists k e,
        entry_of_group root_path rel_dir (matches_of t dirpath k filenames) = Some e /\
        (ep_path e = dirpath ++ [f] \/
         exists c, c ∈ ep_companions e /\ comp_path c = dirpath ++ [f])) /\
  artifacts out = artifacts lib_entry ++ recorded /\
  total_on root_path out = total_on root_path pass.2 + sumZ art_size recorded /\
  (forall f,
      f ∈ filenames -> f ∉ pass.1 -> String.prefix "." f = false ->
      mkArtifact (dirpath ++ [f]) root_path rel_dir (get_file_info t (dirpath ++ [f]))
      ∈ artifacts out) /\
  (forall f,
      String.prefix "." f = true ->
      mkArtifact (dirpath ++ [f]) root_path rel_dir (get_file_info t (dirpath ++ [f]))
      ∉ recorded).
Proof.
  intros pass out recorded.
  assert (out = fold_left (artifact_step t root_path dirpath rel_dir pass.1)
                  filenames pass.2) as Hout.
  { subst out pass. unfold scan_dir.
    by destruct (claim_pass t root_path dirpath rel_dir filenames lib_entry). }
  destruct (PassFacts.fold_artifact_step t root_path dirpath rel_dir pass.1 filenames pass.2)
    as (Ha & _ & Ht).
  cbn zeta in Ha, Ht. rewrite <- Hout in Ha, Ht.
  destruct (PassFacts.claim_pass_spec t root_path dirpath rel_dir filenames lib_entry)
    as (_ & _ & Hart & _).
  fold pass in Hart.
  split; [|split; [|split; [|split]]].
  - intros f. apply ClaimFacts.claimed_iff.
  - by rewrite Ha, Hart.
  - exact Ht.
  - intros f Hin Hnc Hdot. rewrite Ha. apply elem_of_app. right.
    apply (list_elem_of_fmap_2 (artifact_of t root_path dirpath rel_dir)).
    unfold kept_files. by apply list_elem_of_filter.
  - intros f Hdot Hin. subst recorded.
    apply list_elem_of_fmap in Hin as (g & Heq & Hg).
    apply list_elem_of_filter in Hg as [[_ Hg] _].
    injection Heq as Heq _. apply ClaimFacts.snoc_inj in Heq. congruence.
Qed.

Lemma unclaimed_visible_files_become_artifacts_witness :
  "poster.jpg" ∈ ["x.S01E01.mkv"; ".nfo"; "poster.jpg"] /\
  ("poster.jpg" ∉ (claim_pass hidden_tree "/A" ["A"; "Show"] []
                     ["x.S01E01.mkv"; ".nfo"; "poster.jpg"] new_series).1) /\
  String.prefix "." "poster.jpg" = false /\
  mkArtifact (["A"; "Show"] ++ ["poster.jpg"]) "/A" []
    (get_file_info hidden_tree (["A"; "Show"] ++ ["poster.jpg"]))
  ∈ artifacts (scan_dir hidden_tree "/A" ["A"; "Show"] []
                 ["x.S01E01.mkv"; ".nfo"; "poster.jpg"] new_series).
Proof.
  assert ("poster.jpg" ∈ ["x.S01E01.mkv"; ".nfo"; "poster.jpg"]) as H1
    by (do 2 apply list_elem_of_further; apply list_elem_of_here).
  assert ("poster.jpg" ∉ (claim_pass hidden_tree "/A" ["A"; "Show"] []
                            ["x.S01E01.mkv"; ".nfo"; "poster.jpg"] new_series).1) as H2.
  { apply (bool_decide_eq_false_1
             ("poster.jpg" ∈ (claim_pass hidden_tree "/A" ["A"; "Show"] []
                                ["x.S01E01.mkv"; ".nfo"; "poster.jpg"] new_series).1)).
    vm_compute. reflexivity. }
  assert (String.prefix "." "poster.jpg" = false) as H3 by reflexivity.
  split; [exact H1|]. split; [exact H2|]. split; [exact H3|].
  exact (proj1 (proj2 (proj2 (proj2
    (unclaimed_visible_files_become_artifacts hidden_tree "/A" ["A"; "Show"] []
       ["x.S01E01.mkv"; ".nfo"; "poster.jpg"] new_series)))) "poster.jpg" H1 H2 H3).
Defined.


Lemma scan_dir_copies t root_path dirpath rel_dir filenames lib_entry k :
  copies_of k (scan_dir t root_path dirpath rel_dir filenames lib_entry)
  = copies_of k lib_entry
    ++ option_list (entry_of_group root_path rel_dir (matches_of t dirpath k filenames)).
Proof.
  destruct (PassFacts.claim_pass_spec t root_path dirpath rel_dir filenames lib_entry)
    as (_ & Hc & _).
  rewrite <- Hc. unfold scan_dir, copies_of.
  destruct (claim_pass t root_path dirpath rel_dir filenames lib_entry) as [cl lib1].
  destruct (PassFacts.fold_artifact_step t root_path dirpath rel_dir cl filenames lib1)
    as (_ & He & _).
  cbn zeta in He. by rewrite He.
Qed.



(* ===================================================================== *)
(** * Scanned inventories *)
(* ===================================================================== *)

Lemma fold_left_inv {A B} (P : A -> Prop) (f : A -> B -> A) (l : list B) :
  (forall a x, P a -> P (f a x)) -> forall a, P a -> P (fold_left f l a).
Proof. intros Hf. induction l as [|x l IH]; intros a Ha; simpl; auto. Qed.

Lemma add_episode_filled k e s : slots_filled s -> slots_filled (add_episode k e s).
Proof.
  unfold slots_filled, add_episode. simpl. generalize (episodes s).
  intros eps Hf. induction Hf as [|[k' c] eps Hc Heps IH]; simpl.
  - by repeat constructor.
  - case_decide.
    + constructor; [|done]. simpl. by destruct c.
    + by constructor.
Qed.

Lemma groups_step_filled t root_path dirpath rel_dir unmatched st g :
  slots_filled st.2 ->
  slots_filled (groups_step t root_path dirpath rel_dir unmatched st g).2.
Proof.
  destruct st as [cl lib]. unfold groups_step. simpl. intros Hf.
  destruct (process_group t root_path dirpath rel_dir unmatched cl g.2) as [cl' [e|]];
    simpl; [|done].
  by apply add_episode_filled.
Qed.

Lemma scan_dir_filled t root_path dirpath rel_dir filenames s :
  slots_filled s -> slots_filled (scan_dir t root_path dirpath rel_dir filenames s).
Proof.
  intros Hf. unfold scan_dir, claim_pass.
  destruct (group_files t dirpath filenames) as [G U].
  pose proof (fold_left_inv (fun st : gset string * Series => slots_filled st.2)
                (groups_step t root_path dirpath rel_dir U) G
                (fun a x => groups_step_filled t root_path dirpath rel_dir U a x)
                (∅, s) Hf) as H1.
  destruct (fold_left (groups_step t root_path dirpath rel_dir U) G (∅, s)) as [cl lib1].
  simpl in H1. apply fold_left_inv; [|done].
  intros a f Ha. unfold artifact_step. by repeat case_match.
Qed.

Lemma scan_series_filled t root_path real_root folder_name s :
  slots_filled s -> slots_filled (scan_series t root_path real_root folder_name s).
Proof.
  intros Hf. unfold scan_series. apply fold_left_inv; [|done].
  intros a [[dirpath dirs] files] Ha. by apply scan_dir_filled.
Qed.

Lemma upd_series_filled (lib : library) key f :
  (forall s, slots_filled s -> slots_filled (f s)) ->
  Forall (fun kv : string * Series => slots_filled kv.2) lib ->
  Forall (fun kv : string * Series => slots_filled kv.2) (OD.upd key f new_series lib).
Proof.
  intros Hf Hl. induction Hl as [|[k' s] lib Hs Hlib IH]; simpl.
  - repeat constructor. simpl. apply Hf. constructor.
  - case_decide; constructor; simpl; auto.
Qed.

(** Every slot of a scanned inventory has at least one copy, so the
    consolidation pass never indexes an empty list. *)
Lemma scan_library_filled roots t key data :
  (key, data) ∈ scan_library roots t -> slots_filled data.
Proof.
  intros Hin.
  assert (Forall (fun kv : string * Series => slots_filled kv.2) (scan_library roots t))
    as Hall.
  { unfold scan_library. apply fold_left_inv; [|constructor].
    intros lib root_path Hlib. unfold scan_root.
    destruct (negb (FS.exists_ t (FS.resolve root_path))); [done|].
    destruct (FS.listdir t (FS.resolve root_path)) as [names|]; [|done].
    apply fold_left_inv; [|done].
    intros lib' folder Hlib'. apply upd_series_filled; [|done].
    intros s. apply scan_series_filled. }
  rewrite Forall_forall in Hall. by apply (Hall (key, data)).
Qed.

Example pattern_examples :
  Pattern.search "Foo.S01E01.mkv" = Some (1%N, 1%N, 10%nat) /\
  Pattern.search "xSS12e034abc" = Some (12%N, 34%N, 9%nat) /\
  Pattern.search "s01e02e03" = Some (1%N, 2%N, 6%nat) /\
  Pattern.search "S1E" = None /\
  Pattern.search "poster.jpg" = None.
Proof. repeat split; vm_compute; reflexivity. Qed.

Example resolve_examples :
  FS.resolve "/mnt//a/./b/../c/" = ["mnt"; "a"; "c"] /\
  FS.resolve "" = [] /\
  FS.resolve "/A" = ["A"].
Proof. repeat split; vm_compute; reflexivity. Qed.

Example normalize_examples :
  normalize_name "The.Homers" = "the homers" /\
  normalize_name "  The__Big..Show  " = "the big show".
Proof. split; vm_compute; reflexivity. Qed.

(* ===================================================================== *)
(** * Reasoning about computations *)
(* ===================================================================== *)

Ltac unfold_M :=
  unfold mbind, M_bind, mret, M_ret, print, raise, lift_option,
    result_of, tree_of, log_of in *.

Lemma bind_run {A B} (m : M A) (f : A -> M B) t :
  (m ≫= f) t =
  match m t with
  | (Some a, t1, l1) => (result_of (f a t1), tree_of (f a t1), l1 ++ log_of (f a t1))
  | (None, t1, l1) => (None, t1, l1)
  end.
Proof.
  unfold_M. destruct (m t) as [[[a|] t1] l1]; [|done].
  by destruct (f a t1) as [[b t2] l2].
Qed.

Lemma result_bind {A B} (m : M A) (f : A -> M B) t :
  result_of ((m ≫= f) t) =
  match m t with
  | (Some a, t1, _) => result_of (f a t1)
  | (None, _, _) => None
  end.
Proof. rewrite bind_run. by destruct (m t) as [[[a|] t1] l1]. Qed.

Lemma result_print {B} e (f : unit -> M B) t :
  result_of ((print e ≫= f) t) = result_of (f tt t).
Proof. by rewrite result_bind. Qed.

Lemma readonly_ret {A} (a : A) : readonly (mret a).
Proof. by intros t. Qed.

Lemma readonly_print e : readonly (print e).
Proof. by intros t. Qed.

Lemma readonly_raise {A} : readonly (@raise A).
Proof. by intros t. Qed.

Lemma readonly_bind {A B} (m : M A) (f : A -> M B) :
  readonly m -> (forall a, readonly (f a)) -> readonly (m ≫= f).
Proof.
  intros Hm Hf t. rewrite bind_run. specialize (Hm t).
  destruct (m t) as [[[a|] t1] l1]; simpl in *; [|done].
  unfold tree_of in *. simpl in *. subst t1. apply Hf.
Qed.

Lemma readonly_for_each {A} (l : list A) (body : A -> M unit) :
  (forall x, readonly (body x)) -> readonly (for_each l body).
Proof.
  intros Hb. induction l as [|x l IH]; simpl.
  - apply readonly_ret.
  - apply readonly_bind; [apply Hb | by intros _].
Qed.

Lemma total_ret {A} (a : A) : total (mret a).
Proof. intros t. by eexists. Qed.

Lemma total_print e : total (print e).
Proof. intros t. by eexists. Qed.

Lemma total_bind {A B} (m : M A) (f : A -> M B) :
  total m -> (forall a, total (f a)) -> total (m ≫= f).
Proof.
  intros Hm Hf t. rewrite bind_run. destruct (Hm t) as [a Ha].
  unfold result_of in *. destruct (m t) as [[[a'|] t1] l1]; simpl in *; [|done].
  apply Hf.
Qed.

Lemma total_for_each {A} (l : list A) (body : A -> M unit) :
  (forall x, x ∈ l -> total (body x)) -> total (for_each l body).
Proof.
  induction l as [|x l IH]; intros Hb; simpl.
  - apply total_ret.
  - apply total_bind; [apply Hb; by left|].
    intros _. apply IH. intros y Hy. apply Hb. by right.
Qed.

(** The result of a sequence whose first part never raises. *)
Lemma bind_result {A B} (m : M A) (f : A -> M B) (v : option B) :
  total m -> (forall a t, result_of (f a t) = v) ->
  forall t, result_of ((m ≫= f) t) = v.
Proof.
  intros Hm Hf t. rewrite bind_run. destruct (Hm t) as [a Ha].
  unfold result_of in *. destruct (m t) as [[[a'|] t1] l1]; simpl in *; [|done].
  apply Hf.
Qed.

Lemma emits_ret {A} P (a : A) : emits P (mret a).
Proof. intros t. constructor. Qed.

Lemma emits_raise {A} P : emits P (@raise A).
Proof. intros t. constructor. Qed.

Lemma emits_print (P : event -> Prop) e : P e -> emits P (print e).
Proof. intros He t. by repeat constructor. Qed.

Lemma emits_bind {A B} P (m : M A) (f : A -> M B) :
  emits P m -> (forall a, emits P (f a)) -> emits P (m ≫= f).
Proof.
  intros Hm Hf t. rewrite bind_run. specialize (Hm t). unfold log_of in *.
  destruct (m t) as [[[a|] t1] l1]; simpl in *; [|done].
  apply Forall_app. split; [done | apply Hf].
Qed.

Lemma emits_for_each {A} P (l : list A) (body : A -> M unit) :
  (forall x, emits P (body x)) -> emits P (for_each l body).
Proof.
  intros Hb. induction l as [|x l IH]; simpl.
  - apply emits_ret.
  - apply emits_bind; [apply Hb | by intros _].
Qed.

Lemma emits_impl {A} (P Q : event -> Prop) (m : M A) :
  (forall e, P e -> Q e) -> emits P m -> emits Q m.
Proof. intros H Hm t. eapply Forall_impl; [apply Hm | done]. Qed.

(* ===================================================================== *)
(** * The platform primitives *)
(* ===================================================================== *)

Module FSFacts.
Import FS.

Lemma assoc_put_eq x n es : assoc x (put x n es) = Some n.
Proof.
  induction es as [|[k v] es IH]; simpl.
  - by rewrite decide_True.
  - destruct (decide (k = x)) as [->|Hne]; simpl.
    + by rewrite decide_True.
    + by rewrite decide_False.
Qed.

Lemma assoc_put_ne x y n es : x <> y -> assoc y (put x n es) = assoc y es.
Proof.
  intros Hne. induction es as [|[k v] es IH]; simpl.
  - by rewrite decide_False.
  - destruct (decide (k = x)) as [->|Hk]; simpl.
    + by rewrite !decide_False.
    + by rewrite IH.
Qed.

Lemma assoc_del_eq x es : assoc x (del x es) = None.
Proof.
  unfold del. induction es as [|[k v] es IH]; simpl; [done|].
  rewrite filter_cons. simpl. destruct (decide (k <> x)) as [Hne|Heq]; simpl; [|done].
  by rewrite decide_False.
Qed.

Lemma assoc_del_ne x y es : x <> y -> assoc y (del x es) = assoc y es.
Proof.
  intros Hne. unfold del. induction es as [|[k v] es IH]; simpl; [done|].
  rewrite filter_cons. simpl. destruct (decide (k <> x)) as [Hk|Hk]; simpl.
  - by rewrite IH.
  - apply dec_stable in Hk. subst k. by rewrite decide_False.
Qed.

Lemma lookup_app t p q :
  lookup t (p ++ q) = n ← lookup t p; lookup n q.
Proof.
  revert t. induction p as [|x p IH]; intros t; simpl; [done|].
  destruct t as [sz|es]; [done|]. destruct (assoc x es); [apply IH | done].
Qed.

Lemma lookup_file_below sz q : q <> [] -> lookup (File sz) q = None.
Proof. by destruct q. Qed.

Lemma split_last_snoc d x : split_last (d ++ [x]) = Some (d, x).
Proof. unfold split_last. by rewrite last_snoc, removelast_last. Qed.

Lemma split_last_Some p d x : split_last p = Some (d, x) -> p = d ++ [x].
Proof.
  unfold split_last. destruct (last p) as [y|] eqn:E; [|done].
  intros H. inversion H; subst. apply last_Some in E as [l' ->].
  by rewrite removelast_last.
Qed.

(** What [with_dir] leaves alone: a path that is neither the directory nor
    one of its ancestors, and that [k] does not affect. *)
Lemma with_dir_lookup d k : forall t t' q,
  with_dir d k t = Some t' ->
  ~ q `prefix_of` d ->
  (forall es es' x q',
      lookup t d = Some (Dir es) -> k es = Some es' -> q = d ++ x :: q' ->
      lookup (Dir es') (x :: q') = lookup (Dir es) (x :: q')) ->
  lookup t' q = lookup t q.
Proof.
  induction d as [|y d IH]; intros t t' q Hw Hpre Hk.
  - destruct t as [sz|es]; simpl in Hw; [done|].
    destruct (k es) as [es'|] eqn:E; simpl in Hw; [|done].
    inversion Hw; subst t'. destruct q as [|x q'].
    + exfalso. apply Hpre. apply prefix_nil.
    + by apply (Hk es es' x q').
  - destruct t as [sz|es]; simpl in Hw; [done|].
    destruct (assoc y es) as [c|] eqn:Ec; simpl in Hw; [|done].
    destruct (with_dir d k c) as [c'|] eqn:Ew; simpl in Hw; [|done].
    inversion Hw; subst t'. destruct q as [|x q'].
    + exfalso. apply Hpre. apply prefix_nil.
    + simpl. destruct (decide (y = x)) as [->|Hne].
      * rewrite assoc_put_eq, Ec. apply (IH c c' q' Ew).
        -- intros Hp. apply Hpre. by apply prefix_cons.
        -- intros es0 es0' x0 q0 Hl Hk0 ->.
           apply (Hk es0 es0' x0 q0); [|done|done]. simpl. by rewrite Ec.
      * by rewrite assoc_put_ne.
Qed.

(** The directory [with_dir] worked on, before and after. *)
Lemma with_dir_inv d k : forall t t',
  with_dir d k t = Some t' ->
  exists es es', lookup t d = Some (Dir es) /\ k es = Some es' /\
                 lookup t' d = Some (Dir es').
Proof.
  induction d as [|y d IH]; intros t t' Hw.
  - destruct t as [sz|es]; simpl in Hw; [done|].
    destruct (k es) as [es'|] eqn:E; simpl in Hw; [|done].
    inversion Hw; subst. by exists es, es'.
  - destruct t as [sz|es]; simpl in Hw; [done|].
    destruct (assoc y es) as [c|] eqn:Ec; simpl in Hw; [|done].
    destruct (with_dir d k c) as [c'|] eqn:Ew; simpl in Hw; [|done].
    inversion Hw; subst t'.
    destruct (IH c c' Ew) as (es0 & es0' & H1 & H2 & H3).
    exists es0, es0'. simpl. by rewrite Ec, assoc_put_eq.
Qed.

(** Every ancestor of an existing path is a directory. *)
Lemma lookup_prefix_dir t p q n :
  lookup t p = Some n -> q `prefix_of` p -> q <> p ->
  exists es, lookup t q = Some (Dir es).
Proof.
  intros Hl [r ->] Hne. rewrite lookup_app in Hl.
  destruct (lookup t q) as [[sz|es]|]; simpl in Hl; [| by eauto | done].
  destruct r; [by rewrite app_nil_r in Hne | done].
Qed.

Lemma remove_lookup t p t' q :
  remove t p = Some t' -> ~ q `prefix_of` p -> lookup t' q = lookup t q.
Proof.
  unfold remove. intros Hr Hpre.
  destruct (split_last p) as [[d name]|] eqn:Es; simpl in Hr; [|done].
  apply split_last_Some in Es. subst p.
  eapply with_dir_lookup; [exact Hr | |].
  - intros Hp. apply Hpre. by apply prefix_app_r.
  - intros es es' x q' _ Hk ->. cbv beta in Hk.
    destruct (assoc name es) as [[sz|]|] eqn:Ea; try done.
    injection Hk as <-. simpl.
    destruct (decide (name = x)) as [->|Hne].
    + rewrite assoc_del_eq, Ea. destruct q'; [|done].
      exfalso. by apply Hpre.
    + by rewrite assoc_del_ne.
Qed.

Lemma remove_gone t p t' : remove t p = Some t' -> lookup t' p = None.
Proof.
  unfold remove. intros Hr.
  destruct (split_last p) as [[d name]|] eqn:Es; simpl in Hr; [|done].
  apply split_last_Some in Es. subst p.
  apply with_dir_inv in Hr as (es & es' & H1 & H2 & H3). cbv beta in H2.
  rewrite lookup_app, H3. simpl.
  destruct (assoc name es) as [[sz|]|]; try done.
  injection H2 as <-. by rewrite assoc_del_eq.
Qed.

Lemma remove_was_file t p t' :
  remove t p = Some t' -> exists sz, lookup t p = Some (File sz).
Proof.
  unfold remove. intros Hr.
  destruct (split_last p) as [[d name]|] eqn:Es; simpl in Hr; [|done].
  apply split_last_Some in Es. subst p.
  apply with_dir_inv in Hr as (es & es' & H1 & H2 & H3). cbv beta in H2.
  rewrite lookup_app, H1. simpl.
  destruct (assoc name es) as [[sz|]|]; try done. by exists sz.
Qed.

Lemma rmdir_lookup t p t' q :
  rmdir t p = Some t' -> ~ q `prefix_of` p -> lookup t' q = lookup t q.
Proof.
  unfold rmdir. intros Hr Hpre.
  destruct (split_last p) as [[d name]|] eqn:Es; simpl in Hr; [|done].
  apply split_last_Some in Es. subst p.
  eapply with_dir_lookup; [exact Hr | |].
  - intros Hp. apply Hpre. by apply prefix_app_r.
  - intros es es' x q' _ Hk ->. cbv beta in Hk.
    destruct (assoc name es) as [[sz|[|e l]]|] eqn:Ea; try done.
    injection Hk as <-. simpl.
    destruct (decide (name = x)) as [->|Hne].
    + rewrite assoc_del_eq, Ea. destruct q'; [|done].
      exfalso. by apply Hpre.
    + by rewrite assoc_del_ne.
Qed.

Lemma rmdir_was_empty t p t' :
  rmdir t p = Some t' -> lookup t p = Some (Dir []) /\ lookup t' p = None.
Proof.
  unfold rmdir. intros Hr.
  destruct (split_last p) as [[d name]|] eqn:Es; simpl in Hr; [|done].
  apply split_last_Some in Es. subst p.
  apply with_dir_inv in Hr as (es & es' & H1 & H2 & H3). cbv beta in H2.
  rewrite !lookup_app, H1, H3. simpl.
  destruct (assoc name es) as [[sz|[|e l]]|]; try done.
  injection H2 as <-. by rewrite assoc_del_eq.
Qed.

(** A file is never an ancestor, so these primitives keep every other file. *)
Lemma file_not_prefix t p q sz n :
  lookup t q = Some (File sz) -> lookup t p = Some n -> q <> p -> ~ q `prefix_of` p.
Proof.
  intros Hq Hp Hne Hpre.
  destruct (lookup_prefix_dir t p q n Hp Hpre Hne) as [es Hes]. congruence.
Qed.

Lemma remove_keeps_file t p t' q sz :
  remove t p = Some t' -> q <> p ->
  lookup t q = Some (File sz) -> lookup t' q = Some (File sz).
Proof.
  intros Hr Hne Hq. rewrite <- Hq. eapply remove_lookup; [done|].
  destruct (remove_was_file t p t' Hr) as [sz' Hp].
  by eapply file_not_prefix.
Qed.

Lemma rmdir_keeps_file t p t' q sz :
  rmdir t p = Some t' ->
  lookup t q = Some (File sz) -> lookup t' q = Some (File sz).
Proof.
  intros Hr Hq. rewrite <- Hq. eapply rmdir_lookup; [done|].
  destruct (rmdir_was_empty t p t' Hr) as [Hp _].
  eapply file_not_prefix; [done..|]. intros ->. congruence.
Qed.

End FSFacts.

Module MoveFacts.
Import FS FSFacts.

Lemma makedirs_lookup p : forall t t' q,
  makedirs p t = Some t' -> ~ q `prefix_of` p -> lookup t' q = lookup t q.
Proof.
  induction p as [|x p IH]; intros t t' q Hm Hpre.
  - destruct t; simpl in Hm; by simplify_eq.
  - destruct t as [sz|es]; simpl in Hm; [done|].
    destruct (makedirs p (default (Dir []) (assoc x es))) as [c'|] eqn:Ec; simpl in Hm; [|done].
    injection Hm as <-. destruct q as [|y q'].
    { exfalso. apply Hpre, prefix_nil. }
    simpl. destruct (decide (x = y)) as [->|Hne].
    + rewrite assoc_put_eq.
      assert (~ q' `prefix_of` p) as Hpre' by (intros Hp; by apply Hpre, prefix_cons).
      rewrite (IH _ _ q' Ec Hpre').
      destruct (assoc y es) as [c0|]; simpl; [done|].
      destruct q' as [|z q'']; [|done].
      exfalso. apply Hpre'. apply prefix_nil.
    + by rewrite assoc_put_ne.
Qed.

Lemma makedirs_keeps_file p t t' q sz :
  makedirs p t = Some t' ->
  lookup t q = Some (File sz) -> lookup t' q = Some (File sz).
Proof.
  revert t t' q. induction p as [|x p IH]; intros t t' q Hm Hq.
  - destruct t; simpl in Hm; by simplify_eq.
  - destruct t as [sz0|es]; simpl in Hm; [done|].
    destruct (makedirs p (default (Dir []) (assoc x es))) as [c'|] eqn:Ec; simpl in Hm; [|done].
    injection Hm as <-. destruct q as [|y q']; [done|].
    simpl in *. destruct (decide (x = y)) as [->|Hne].
    + rewrite assoc_put_eq. destruct (assoc y es) as [c0|]; [|done].
      simpl in Ec. by eapply IH.
    + by rewrite assoc_put_ne.
Qed.

Lemma with_dir_ancestors d k t t' q :
  with_dir d k t = Some t' -> q `prefix_of` d -> is_Some (lookup t q).
Proof.
  intros Hw [r ->]. apply with_dir_inv in Hw as (es & _ & Hl & _).
  rewrite lookup_app in Hl. destruct (lookup t q); [by eexists | done].
Qed.

Lemma unlink_gone t d x t' :
  unlink_entry (d ++ [x]) t = Some t' -> lookup t' (d ++ [x]) = None.
Proof.
  unfold unlink_entry. rewrite split_last_snoc. simpl. intros Hw.
  apply with_dir_inv in Hw as (es & es' & H1 & H2 & H3).
  injection H2 as <-. rewrite lookup_app, H3. simpl. by rewrite assoc_del_eq.
Qed.

Lemma link_lookup t d x n t' :
  link_entry (d ++ [x]) n t = Some t' -> lookup t' (d ++ [x]) = Some n.
Proof.
  unfold link_entry. rewrite split_last_snoc. simpl. intros Hw.
  apply with_dir_inv in Hw as (es & es' & H1 & H2 & H3).
  injection H2 as <-. rewrite lookup_app, H3. simpl. by rewrite assoc_put_eq.
Qed.

(** Linking a file at a path keeps what is absent elsewhere absent. *)
Lemma link_keeps_none t d x sz t' q :
  link_entry (d ++ [x]) (File sz) t = Some t' ->
  q <> d ++ [x] -> lookup t q = None -> lookup t' q = None.
Proof.
  unfold link_entry. rewrite split_last_snoc. simpl. intros Hw Hne Hq.
  destruct (decide (q `prefix_of` d)) as [Hpre|Hpre].
  { destruct (with_dir_ancestors _ _ _ _ q Hw Hpre) as [n Hn]. congruence. }
  rewrite <- Hq. eapply with_dir_lookup; [exact Hw | done |].
  intros es es' y q' Hd Hk ->. injection Hk as <-.
  simpl. destruct (decide (x = y)) as [->|Hxy].
  - rewrite assoc_put_eq.
    rewrite lookup_app, Hd in Hq. simpl in Hq. rewrite Hq.
    by destruct q'.
  - by rewrite assoc_put_ne.
Qed.

(** [shutil.move] of a file onto a path that is not a directory. *)
Lemma move_file t d x dst_dir y sz t' :
  lookup t (d ++ [x]) = Some (File sz) ->
  isdir t (dst_dir ++ [y]) = false ->
  d ++ [x] <> dst_dir ++ [y] ->
  move t (d ++ [x]) (dst_dir ++ [y]) = Some t' ->
  lookup t' (dst_dir ++ [y]) = Some (File sz) /\ lookup t' (d ++ [x]) = None.
Proof.
  intros Hsrc Hnd Hne. unfold move. rewrite Hsrc, Hnd. simpl.
  rewrite decide_False by done.
  destruct (unlink_entry (d ++ [x]) t) as [t1|] eqn:Hu; simpl; [|done].
  intros Hl. split; [by eapply link_lookup|].
  eapply link_keeps_none; [exact Hl | done | by eapply unlink_gone].
Qed.

End MoveFacts.

(* ===================================================================== *)
(** * The action functions *)
(* ===================================================================== *)

Lemma safe_move_total src d dry : total (safe_move src d dry).
Proof.
  intros t. unfold safe_move, result_of.
  repeat (case_match; simpl; try by eexists).
Qed.

Lemma force_move_total src d dry : total (force_move src d dry).
Proof.
  intros t. unfold force_move, result_of.
  repeat (case_match; simpl; try by eexists).
Qed.

Lemma safe_delete_total src dry : total (safe_delete src dry).
Proof.
  intros t. unfold safe_delete, result_of.
  repeat (case_match; simpl; try by eexists).
Qed.

Lemma safe_move_dry src d : readonly (safe_move src d true).
Proof. intros t. unfold safe_move, tree_of. repeat (case_match; simpl; try done). Qed.

Lemma force_move_dry src d : readonly (force_move src d true).
Proof. intros t. unfold force_move, tree_of. repeat (case_match; simpl; try done). Qed.

Lemma safe_delete_dry src : readonly (safe_delete src true).
Proof. intros t. unfold safe_delete, tree_of. repeat (case_match; simpl; try done). Qed.

Lemma junk_pass_dry root files b : readonly (junk_pass root files true b).
Proof.
  revert b. induction files as [|f files IH]; intros b; simpl.
  - apply readonly_ret.
  - destruct (is_junk f); [|apply IH].
    apply readonly_bind; [apply safe_delete_dry | intros _; apply IH].
Qed.

Lemma junk_pass_total root files dry b : total (junk_pass root files dry b).
Proof.
  revert b. induction files as [|f files IH]; intros b; simpl.
  - apply total_ret.
  - destruct (is_junk f); [|apply IH].
    apply total_bind; [apply safe_delete_total | intros _; apply IH].
Qed.

Lemma try_rmdir_total root : total (try_rmdir root).
Proof. intros t. unfold try_rmdir, result_of. repeat (case_match; simpl; try by eexists). Qed.

Lemma cleanup_dir_dry root files : readonly (cleanup_dir true root files).
Proof.
  unfold cleanup_dir. apply readonly_bind; [apply junk_pass_dry|].
  intros []; simpl; [apply readonly_print | apply readonly_ret].
Qed.

Lemma cleanup_dir_total dry root files : total (cleanup_dir dry root files).
Proof.
  unfold cleanup_dir. apply total_bind; [apply junk_pass_total|].
  intros []; [destruct dry; simpl|]; auto using total_print, try_rmdir_total, total_ret.
Qed.

Lemma cleanup_folder_tree_dry p : readonly (cleanup_folder_tree p true).
Proof.
  intros t. unfold cleanup_folder_tree.
  destruct (negb (FS.exists_ t p)); [done|].
  apply readonly_for_each. intros [[root dirs] files]. apply cleanup_dir_dry.
Qed.

Lemma cleanup_folder_tree_total p dry : total (cleanup_folder_tree p dry).
Proof.
  intros t. unfold cleanup_folder_tree.
  destruct (negb (FS.exists_ t p)); [by eexists|].
  apply total_for_each. intros [[root dirs] files] _. apply cleanup_dir_total.
Qed.

Lemma safe_move_emits src d dry : emits (step_line dry) (safe_move src d dry).
Proof.
  intros t. unfold safe_move, log_of, step_line.
  repeat (case_match; simpl); repeat constructor; simpl; try done;
    intros; simplify_eq; done.
Qed.

Lemma force_move_emits src d dry : emits (step_line dry) (force_move src d dry).
Proof.
  intros t. unfold force_move, log_of, step_line.
  repeat (case_match; simpl); repeat constructor; simpl; try done;
    intros; simplify_eq; done.
Qed.

Lemma safe_delete_emits src dry : emits (step_line dry) (safe_delete src dry).
Proof.
  intros t. unfold safe_delete, log_of, step_line.
  repeat (case_match; simpl); repeat constructor; simpl; try done;
    intros; simplify_eq; done.
Qed.

Lemma junk_pass_emits root files dry b : emits (step_line dry) (junk_pass root files dry b).
Proof.
  revert b. induction files as [|f files IH]; intros b; simpl.
  - apply emits_ret.
  - destruct (is_junk f); [|apply IH].
    apply emits_bind; [apply safe_delete_emits | intros _; apply IH].
Qed.

Lemma cleanup_dir_emits dry root files : emits (step_line dry) (cleanup_dir dry root files).
Proof.
  unfold cleanup_dir. apply emits_bind; [apply junk_pass_emits|].
  intros [|]; [|apply emits_ret].
  destruct dry; simpl.
  - apply emits_print. by split.
  - intros t. unfold try_rmdir, log_of, step_line.
    repeat (case_match; simpl); repeat constructor; simpl; done.
Qed.

Lemma cleanup_folder_tree_emits p dry : emits (step_line dry) (cleanup_folder_tree p dry).
Proof.
  intros t. unfold cleanup_folder_tree.
  destruct (negb (FS.exists_ t p)); [constructor|].
  apply emits_for_each. intros [[root dirs] files]. apply cleanup_dir_emits.
Qed.

Lemma delete_copy_emits dry c : emits (step_line dry) (delete_copy dry c).
Proof.
  unfold delete_copy. apply emits_bind; [apply safe_delete_emits|]. intros _.
  apply emits_for_each. intros comp.
  apply emits_bind; [apply safe_delete_emits | intros _; apply emits_ret].
Qed.

Lemma consolidate_episode_emits execute target full kv :
  emits (step_line (negb execute)) (consolidate_episode execute target full kv).
Proof.
  unfold consolidate_episode.
  destruct (filter (fun c => ep_disk c = target) kv.2).
  - destruct (filter (fun c => ep_disk c <> target) kv.2) as [|src redundant];
      [apply emits_raise|].
    apply emits_bind; [apply safe_move_emits|].
    intros []; [|apply emits_print; by split].
    apply emits_bind.
    + apply emits_for_each. intros comp.
      apply emits_bind; [apply force_move_emits | intros _; apply emits_ret].
    + intros _. apply emits_for_each. intros c. apply delete_copy_emits.
  - apply emits_for_each. intros c. apply delete_copy_emits.
Qed.

Lemma consolidate_artifact_emits execute target full art :
  emits (step_line (negb execute)) (consolidate_artifact execute target full art).
Proof.
  unfold consolidate_artifact. case_decide; [|apply emits_ret].
  apply emits_bind; [apply force_move_emits | intros _; apply emits_ret].
Qed.

Lemma clean_source_emits execute data target d :
  emits (step_line (negb execute)) (clean_source execute data target d).
Proof.
  unfold clean_source. case_decide; [apply emits_ret|].
  apply emits_bind; [apply emits_print; by split|]. intros _.
  apply cleanup_folder_tree_emits.
Qed.

(** [safe_move] leaves the tree alone whenever something is at the
    destination path, in either mode and whether or not the source exists. *)
Lemma safe_move_never_overwrites src dest_dir dry t :
  FS.exists_ t (dest_dir ++ FS.basename src) = true ->
  result_of (safe_move src dest_dir dry t) = Some false /\
  tree_of (safe_move src dest_dir dry t) = t /\
  Forall (fun e => is_action e = false) (log_of (safe_move src dest_dir dry t)).
Proof.
  intros Hd. unfold safe_move, result_of, tree_of, log_of.
  destruct (FS.exists_ t src); simpl; [rewrite Hd; simpl|]; repeat constructor.
Qed.

(** A successful [safe_move] found nothing at the destination path. *)
Lemma safe_move_success src dest_dir dry t :
  result_of (safe_move src dest_dir dry t) = Some true ->
  FS.exists_ t src = true /\ FS.exists_ t (dest_dir ++ FS.basename src) = false.
Proof.
  unfold safe_move, result_of.
  destruct (FS.exists_ t src); simpl; [|done].
  destruct (FS.exists_ t (dest_dir ++ FS.basename src)); simpl; [done|]. done.
Qed.

(* ===================================================================== *)
(** * The cleaner *)
(* ===================================================================== *)

Module CleanerFacts.
Import FS FSFacts.

Lemma remove_keeps_none t p t' q :
  remove t p = Some t' -> lookup t q = None -> lookup t' q = None.
Proof.
  intros Hr Hq. destruct (decide (q `prefix_of` p)) as [[r ->]|Hpre].
  - destruct (remove_was_file t _ t' Hr) as [sz Hp].
    rewrite lookup_app, Hq in Hp. done.
  - rewrite <- Hq. by eapply remove_lookup.
Qed.

Lemma safe_delete_keeps_file p dry t q sz :
  q <> p -> lookup t q = Some (File sz) ->
  lookup (tree_of (safe_delete p dry t)) q = Some (File sz).
Proof.
  intros Hne Hq. unfold safe_delete, tree_of.
  destruct dry; simpl; [done|].
  destruct (exists_ t p); simpl; [|done].
  destruct (remove t p) as [t'|] eqn:Hr; simpl; [|done].
  by eapply remove_keeps_file.
Qed.

Lemma safe_delete_keeps_none p dry t q :
  lookup t q = None -> lookup (tree_of (safe_delete p dry t)) q = None.
Proof.
  intros Hq. unfold safe_delete, tree_of.
  destruct dry; simpl; [done|].
  destruct (exists_ t p); simpl; [|done].
  destruct (remove t p) as [t'|] eqn:Hr; simpl; [|done].
  by eapply remove_keeps_none.
Qed.

Lemma with_dir_succeeds d k : forall t es,
  lookup t d = Some (Dir es) -> is_Some (k es) -> is_Some (with_dir d k t).
Proof.
  induction d as [|y d IH]; intros t es Hl [es' Hk]; simpl in *.
  - injection Hl as ->. rewrite Hk. by eexists.
  - destruct t as [|es0]; [done|].
    destruct (assoc y es0) as [c|]; [|done]. simpl.
    destruct (IH c es Hl (ex_intro _ es' Hk)) as [c' ->]. by eexists.
Qed.

Lemma remove_succeeds t d x sz :
  lookup t (d ++ [x]) = Some (File sz) -> is_Some (remove t (d ++ [x])).
Proof.
  intros Hp. unfold remove. rewrite split_last_snoc. simpl.
  rewrite lookup_app in Hp.
  destruct (lookup t d) as [[|es]|] eqn:Hd; simpl in Hp; try done.
  eapply with_dir_succeeds; [exact Hd|]. simpl.
  destruct (assoc x es) as [c|]; [|done]. injection Hp as ->. by eexists.
Qed.

(** In live mode a file handed to [safe_delete] is gone afterwards. *)
Lemma safe_delete_gone d x t sz :
  lookup t (d ++ [x]) = Some (File sz) ->
  result_of (safe_delete (d ++ [x]) false t) = Some true /\
  log_of (safe_delete (d ++ [x]) false t) = [EvDeleted (d ++ [x])] /\
  lookup (tree_of (safe_delete (d ++ [x]) false t)) (d ++ [x]) = None.
Proof.
  intros Hp. unfold safe_delete, tree_of, result_of, log_of, exists_. simpl. rewrite Hp.
  destruct (remove_succeeds t d x sz Hp) as [t' Hr]. rewrite Hr. simpl.
  repeat split. by eapply remove_gone.
Qed.

Lemma junk_not_last q f g :
  is_junk f = false -> is_junk g = true -> forall root, q ++ [f] <> root ++ [g].
Proof.
  intros Hf Hg root Heq. apply app_inj_tail in Heq as [_ ->]. congruence.
Qed.

Lemma junk_pass_keeps_file root files dry b t q f sz :
  is_junk f = false ->
  lookup t (q ++ [f]) = Some (File sz) ->
  lookup (tree_of (junk_pass root files dry b t)) (q ++ [f]) = Some (File sz).
Proof.
  intros Hf. revert b t. induction files as [|g files IH]; intros b t Hq; simpl; [done|].
  destruct (is_junk g) eqn:Hg; [|by apply IH].
  rewrite bind_run.
  destruct (safe_delete_total (root ++ [g]) dry t) as [r Hr].
  pose proof (safe_delete_keeps_file (root ++ [g]) dry t (q ++ [f]) sz
                (junk_not_last q f g Hf Hg root) Hq) as Hk.
  unfold result_of, tree_of in *.
  destruct (safe_delete (root ++ [g]) dry t) as [[[r'|] t1] l1]; simpl in *; [|done].
  by apply IH.
Qed.

Lemma try_rmdir_keeps_file root t q sz :
  lookup t q = Some (File sz) ->
  lookup (tree_of (try_rmdir root t)) q = Some (File sz).
Proof.
  intros Hq. unfold try_rmdir, tree_of.
  destruct (listdir t root) as [[|x l]|]; simpl; try done.
  destruct (rmdir t root) as [t'|] eqn:Hr; simpl; [|done].
  by eapply rmdir_keeps_file.
Qed.

Lemma cleanup_dir_keeps_file dry root files t q f sz :
  is_junk f = false ->
  lookup t (q ++ [f]) = Some (File sz) ->
  lookup (tree_of (cleanup_dir dry root files t)) (q ++ [f]) = Some (File sz).
Proof.
  intros Hf Hq. unfold cleanup_dir. rewrite bind_run.
  pose proof (junk_pass_keeps_file root files dry true t q f sz Hf Hq) as Hk.
  unfold tree_of in *.
  destruct (junk_pass root files dry true t) as [[[e|] t1] l1]; simpl in *; [|done].
  destruct e; [|done].
  destruct dry; simpl; [done|].
  by apply try_rmdir_keeps_file.
Qed.

Lemma for_each_keeps {A} (l : list A) (body : A -> M unit) (P : node -> Prop) :
  (forall x t, P t -> P (tree_of (body x t))) ->
  forall t, P t -> P (tree_of (for_each l body t)).
Proof.
  intros Hb. induction l as [|x l IH]; intros t Ht; simpl; [done|].
  rewrite bind_run. specialize (Hb x t Ht). unfold tree_of in *.
  destruct (body x t) as [[[[]|] t1] l1]; simpl in *; [by apply IH | done].
Qed.

Lemma cleanup_keeps_file p dry t q f sz :
  is_junk f = false ->
  lookup t (q ++ [f]) = Some (File sz) ->
  lookup (tree_of (cleanup_folder_tree p dry t)) (q ++ [f]) = Some (File sz).
Proof.
  intros Hf Hq. unfold cleanup_folder_tree.
  destruct (negb (exists_ t p)); [done|].
  apply (for_each_keeps _ _ (fun t => lookup t (q ++ [f]) = Some (File sz))); [|done].
  intros [[root dirs] files] t0 Ht0. by apply cleanup_dir_keeps_file.
Qed.

(** The junk pass is one [safe_delete] per junk name, whatever else the
    directory holds; its result says whether all names were junk. *)
Lemma junk_pass_deletes_all root files dry : forall b t,
  junk_pass root files dry b t =
  let r := for_each (filter (fun f => is_junk f = true) files)
             (fun f => safe_delete (root ++ [f]) dry;; mret tt) t in
  (Some (b && forallb is_junk files), tree_of r, log_of r).
Proof.
  induction files as [|f files IH]; intros b t; simpl.
  - by rewrite andb_true_r.
  - rewrite filter_cons. destruct (is_junk f) eqn:Hf; simpl.
    + rewrite !bind_run.
      destruct (safe_delete_total (root ++ [f]) dry t) as [r Hr].
      unfold result_of in Hr.
      destruct (safe_delete (root ++ [f]) dry t) as [[[r'|] t1] l1]; simpl in *; [|done].
      rewrite IH. unfold tree_of, log_of, result_of. simpl.
      by rewrite app_nil_r.
    + rewrite IH. simpl. by rewrite andb_false_r.
Qed.

Lemma cleanup_dir_tree dry root files t :
  tree_of (cleanup_dir dry root files t) =
  let mid := tree_of (junk_pass root files dry true t) in
  if forallb is_junk files && negb dry then tree_of (try_rmdir root mid) else mid.
Proof.
  unfold cleanup_dir. rewrite bind_run, junk_pass_deletes_all.
  cbv zeta. unfold tree_of at 1 2 4 5. simpl.
  destruct (forallb is_junk files); [|done]. by destruct dry.
Qed.

(** A directory disappears only through the guarded [rmdir] of live mode. *)
Lemma cleanup_dir_removal dry root files t :
  let mid := junk_pass root files dry true t in
  tree_of (cleanup_dir dry root files t) = tree_of mid \/
  (dry = false /\
   Forall (fun f => is_junk f = true) files /\
   listdir (tree_of mid) root = Some [] /\
   rmdir (tree_of mid) root = Some (tree_of (cleanup_dir dry root files t))).
Proof.
  intros mid. subst mid. rewrite cleanup_dir_tree. cbv zeta.
  generalize (tree_of (junk_pass root files dry true t)). intros m.
  destruct (forallb is_junk files) eqn:Hall; [|by left].
  destruct dry; simpl; [by left|].
  unfold try_rmdir.
  destruct (listdir m root) as [[|x l]|] eqn:Hl; try by left.
  destruct (rmdir m root) as [t'|] eqn:Hr; [|by left].
  right. repeat split; try done.
  apply Forall_forall. intros f Hin.
  rewrite forallb_forall in Hall. apply Hall. by apply list_elem_of_In.
Qed.

Lemma junk_pass_keeps_none root files dry b t q :
  lookup t q = None -> lookup (tree_of (junk_pass root files dry b t)) q = None.
Proof.
  revert b t. induction files as [|g files IH]; intros b t Hq; simpl; [done|].
  destruct (is_junk g); [|by apply IH].
  rewrite bind_run.
  destruct (safe_delete_total (root ++ [g]) dry t) as [r Hr].
  pose proof (safe_delete_keeps_none (root ++ [g]) dry t q Hq) as Hk.
  unfold result_of, tree_of in *.
  destruct (safe_delete (root ++ [g]) dry t) as [[[r'|] t1] l1]; simpl in *; [|done].
  by apply IH.
Qed.

(** In live mode every junk file of the listing is gone after the pass. *)
Lemma junk_pass_removes root files f : forall b t sz,
  f ∈ files -> is_junk f = true ->
  lookup t (root ++ [f]) = Some (File sz) ->
  lookup (tree_of (junk_pass root files false b t)) (root ++ [f]) = None.
Proof.
  induction files as [|g files IH]; intros b t sz Hin Hf Hp; simpl.
  - by apply elem_of_nil in Hin.
  - destruct (decide (g = f)) as [->|Hne].
    + rewrite Hf, bind_run.
      destruct (safe_delete_gone root f t sz Hp) as (Hr & _ & Hgone).
      unfold result_of, tree_of in *.
      destruct (safe_delete (root ++ [f]) false t) as [[[r'|] t1] l1]; simpl in *; [|done].
      by apply junk_pass_keeps_none.
    + apply elem_of_cons in Hin as [->|Hin]; [done|].
      destruct (is_junk g) eqn:Hg; [|by eapply IH].
      rewrite bind_run.
      destruct (safe_delete_total (root ++ [g]) false t) as [r Hr].
      assert (root ++ [f] <> root ++ [g]) as Hd.
      { intros Heq. apply app_inj_tail in Heq as [_ ->]. done. }
      pose proof (safe_delete_keeps_file (root ++ [g]) false t (root ++ [f]) sz Hd Hp) as Hk.
      unfold result_of, tree_of in *.
      destruct (safe_delete (root ++ [g]) false t) as [[[r'|] t1] l1]; simpl in *; [|done].
      by eapply IH.
Qed.

Lemma above_file_is_dir t d q f sz :
  lookup t (d ++ q ++ [f]) = Some (File sz) -> isdir t d = true.
Proof.
  intros H. rewrite lookup_app in H. unfold isdir.
  destruct (lookup t d) as [[sz'|es]|]; simpl in H; [|done|done].
  by destruct q.
Qed.

End CleanerFacts.

(** C4.  The cleaner, in either mode, leaves every file whose lower-cased
    name is not a junk name where it is, so every directory above such a
    file is still a directory afterwards; a simulated pass changes nothing
    at all.  In each walked directory the pass over the files is one
    [safe_delete] per junk name, whatever else is there (in live mode each
    such file is gone afterwards), and the directory itself goes only in
    live mode, only when every listed file was junk, and only through an
    [rmdir] issued when the directory lists no entry at all. *)
Theorem cleaner_spares_non_junk p dry t :
  (forall d q f sz,
      FS.lookup t (d ++ q ++ [f]) = Some (File sz) -> is_junk f = false ->
      FS.lookup (tree_of (cleanup_folder_tree p dry t)) (d ++ q ++ [f]) = Some (File sz) /\
      FS.isdir (tree_of (cleanup_folder_tree p dry t)) d = true) /\
  (dry = true -> tree_of (cleanup_folder_tree p dry t) = t) /\
  (forall root files t0,
      let mid := junk_pass root files dry true t0 in
      mid = (let r := for_each (filter (fun f => is_junk f = true) files)
                        (fun f => safe_delete (root ++ [f]) dry;; mret tt) t0 in
             (Some (forallb is_junk files), tree_of r, log_of r)) /\
      (dry = false -> forall f sz,
          f ∈ files -> is_junk f = true ->
          FS.lookup t0 (root ++ [f]) = Some (File sz) ->
          FS.lookup (tree_of mid) (root ++ [f]) = None) /\
      (tree_of (cleanup_dir dry root files t0) = tree_of mid \/
       (dry = false /\
        Forall (fun f => is_junk f = true) files /\
        FS.listdir (tree_of mid) root = Some [] /\
        FS.rmdir (tree_of mid) root = Some (tree_of (cleanup_dir dry root files t0))))).
Proof.
  split; [|split].
  - intros d q f sz Hq Hf.
    assert (FS.lookup (tree_of (cleanup_folder_tree p dry t)) (d ++ q ++ [f])
            = Some (File sz)) as Hk.
    { rewrite app_assoc. apply CleanerFacts.cleanup_keeps_file; [done|].
      by rewrite <- app_assoc. }
    split; [done|]. by eapply CleanerFacts.above_file_is_dir.
  - intros ->. apply cleanup_folder_tree_dry.
  - intros root files t0 mid. subst mid. split; [|split].
    + apply CleanerFacts.junk_pass_deletes_all.
    + intros -> f sz Hin Hf Hp. by eapply CleanerFacts.junk_pass_removes.
    + apply CleanerFacts.cleanup_dir_removal.
Qed.

Lemma cleaner_spares_non_junk_witness :
  FS.lookup leftover_tree (["A"] ++ ["Foo"] ++ ["notes.txt"]) = Some (File 7) /\
  is_junk "notes.txt" = false /\
  FS.lookup (tree_of (cleanup_folder_tree ["A"; "Foo"] false leftover_tree))
    (["A"] ++ ["Foo"] ++ ["notes.txt"]) = Some (File 7) /\
  FS.isdir (tree_of (cleanup_folder_tree ["A"; "Foo"] false leftover_tree)) ["A"] = true.
Proof.
  assert (FS.lookup leftover_tree (["A"] ++ ["Foo"] ++ ["notes.txt"]) = Some (File 7))
    as H1 by reflexivity.
  assert (is_junk "notes.txt" = false) as H2 by (vm_compute; reflexivity).
  split; [exact H1|]. split; [exact H2|].
  exact (proj1 (cleaner_spares_non_junk ["A"; "Foo"] false leftover_tree)
           ["A"] ["Foo"] "notes.txt" 7 H1 H2).
Defined.

Example leftover_cleaned :
  cleanup_folder_tree ["A"; "Foo"] false leftover_tree =
    (Some tt,
     Dir [("A", Dir [("Foo", Dir [("notes.txt", File 7)])])],
     [EvDeleted ["A"; "Foo"; "S1"; ".DS_Store"]; EvCleanup ["A"; "Foo"; "S1"];
      EvDeleted ["A"; "Foo"; "Thumbs.db"]]).
Proof. vm_compute. reflexivity. Qed.

(* ===================================================================== *)
(** * Live transfers and deletions *)
(* ===================================================================== *)

Module TransferFacts.
Import FS FSFacts MoveFacts CleanerFacts.

Lemma basename_snoc d x : basename (d ++ [x]) = [x].
Proof. unfold basename. by rewrite last_snoc. Qed.

Lemma snoc_not_prefix (d : path) (x : string) : ~ (d ++ [x]) `prefix_of` d.
Proof.
  intros Hp. apply prefix_length in Hp. rewrite length_app in Hp. simpl in Hp. lia.
Qed.

Lemma makedirs_file_fails p sz : p <> [] -> makedirs p (File sz) = None.
Proof. by destruct p. Qed.

(** A live [safe_move] of a file that reports success: the destination path
    was free, holds the file afterwards, and the source is gone. *)
Lemma safe_move_moves p dest_dir t sz :
  lookup t p = Some (File sz) ->
  result_of (safe_move p dest_dir false t) = Some true ->
  lookup t (dest_dir ++ basename p) = None /\
  lookup (tree_of (safe_move p dest_dir false t)) (dest_dir ++ basename p) = Some (File sz) /\
  lookup (tree_of (safe_move p dest_dir false t)) p = None /\
  log_of (safe_move p dest_dir false t) = [EvMoved p (dest_dir ++ basename p)].
Proof.
  intros Hsrc. unfold safe_move, result_of, tree_of, log_of, exists_, do_move.
  rewrite Hsrc. simpl.
  destruct (lookup t (dest_dir ++ basename p)) as [n|] eqn:Hdst; simpl; [done|].
  destruct (makedirs dest_dir t) as [t1|] eqn:Hm; simpl; [|done].
  destruct (move t1 p (dest_dir ++ basename p)) as [t2|] eqn:Hmv; simpl; [|done].
  intros _. split; [done|].
  destruct p as [|x d _] using rev_ind.
  { simpl in Hsrc. injection Hsrc as ->. destruct dest_dir; simpl in *; done. }
  rewrite basename_snoc in *.
  pose proof (makedirs_keeps_file _ _ _ _ _ Hm Hsrc) as Hsrc1.
  assert (lookup t1 (dest_dir ++ [x]) = None) as Hdst1.
  { rewrite <- Hdst. eapply makedirs_lookup; [done|]. apply snoc_not_prefix. }
  assert (d ++ [x] <> dest_dir ++ [x]) as Hne by congruence.
  assert (isdir t1 (dest_dir ++ [x]) = false) as Hnd by (unfold isdir; by rewrite Hdst1).
  destruct (move_file t1 d x dest_dir x sz t2 Hsrc1 Hnd Hne Hmv) as [H1 H2].
  by repeat split.
Qed.

(** A live [force_move] of a file that reports success: the destination
    path holds the file afterwards, whatever was there before. *)
Lemma force_move_merges p dest_dir t sz :
  lookup t p = Some (File sz) ->
  result_of (force_move p dest_dir false t) = Some true ->
  lookup (tree_of (force_move p dest_dir false t)) (dest_dir ++ basename p) = Some (File sz) /\
  log_of (force_move p dest_dir false t) = [EvMerged p dest_dir].
Proof.
  intros Hsrc.
  assert (exists_ t p = true) as Hex0 by (unfold exists_; by rewrite Hsrc).
  unfold force_move, result_of, tree_of, log_of, do_merge.
  rewrite Hex0. simpl.
  destruct (makedirs dest_dir t) as [t1|] eqn:Hm; simpl; [|done].
  destruct p as [|x d _] using rev_ind.
  { simpl in Hsrc. injection Hsrc as ->. destruct dest_dir; simpl in *; done. }
  rewrite basename_snoc in *.
  pose proof (makedirs_keeps_file _ _ _ _ _ Hm Hsrc) as Hsrc1.
  destruct (exists_ t1 (dest_dir ++ [x])) eqn:Hex.
  - destruct (remove t1 (dest_dir ++ [x])) as [t2|] eqn:Hr; simpl; [|done].
    destruct (move t2 (d ++ [x]) (dest_dir ++ [x])) as [t3|] eqn:Hmv; simpl; [|done].
    intros _.
    pose proof (remove_gone _ _ _ Hr) as Hgone.
    destruct (decide (d ++ [x] = dest_dir ++ [x])) as [Heq|Hne].
    { exfalso. unfold move in Hmv. rewrite Heq, Hgone in Hmv. done. }
    pose proof (remove_keeps_file _ _ _ _ _ Hr Hne Hsrc1) as Hsrc2.
    assert (isdir t2 (dest_dir ++ [x]) = false) as Hnd by (unfold isdir; by rewrite Hgone).
    destruct (move_file t2 d x dest_dir x sz t3 Hsrc2 Hnd Hne Hmv) as [H1 _].
    by split.
  - destruct (move t1 (d ++ [x]) (dest_dir ++ [x])) as [t3|] eqn:Hmv; simpl; [|done].
    intros _.
    assert (lookup t1 (dest_dir ++ [x]) = None) as Hdst1.
    { unfold exists_ in Hex. by destruct (lookup t1 (dest_dir ++ [x])). }
    assert (d ++ [x] <> dest_dir ++ [x]) as Hne by congruence.
    assert (isdir t1 (dest_dir ++ [x]) = false) as Hnd by (unfold isdir; by rewrite Hdst1).
    destruct (move_file t1 d x dest_dir x sz t3 Hsrc1 Hnd Hne Hmv) as [H1 _].
    by split.
Qed.

(** After a live [delete_copy] the copy's file is gone. *)
Lemma delete_copy_gone c t sz :
  ep_path c <> [] ->
  lookup t (ep_path c) = Some (File sz) ->
  lookup (tree_of (delete_copy false c t)) (ep_path c) = None.
Proof.
  intros Hne Hp. unfold delete_copy. rewrite bind_run.
  destruct (ep_path c) as [|x d _] eqn:E using rev_ind; [done|].
  destruct (safe_delete_gone d x t sz Hp) as (Hr & _ & Hgone).
  unfold result_of, tree_of in *.
  destruct (safe_delete (d ++ [x]) false t) as [[[r|] t1] l1]; simpl in *; [|done].
  apply (for_each_keeps _ _ (fun t => lookup t (d ++ [x]) = None)); [|done].
  intros comp t0 Ht0. rewrite bind_run.
  pose proof (safe_delete_keeps_none (comp_path comp) false t0 (d ++ [x]) Ht0) as Hk.
  unfold tree_of in *.
  by destruct (safe_delete (comp_path comp) false t0) as [[[r'|] t2] l2].
Qed.

End TransferFacts.

(* ===================================================================== *)
(** * The conflict gate *)
(* ===================================================================== *)

Lemma size_list_to_set_gt1 (l : list Z) :
  (1 < size (list_to_set l : gset Z))%nat <->
  exists x y, x ∈ l /\ y ∈ l /\ x <> y.
Proof.
  split.
  - intros Hsz. destruct l as [|x l]; [by vm_compute in Hsz; lia|].
    destruct (decide (Forall (fun y => y = x) l)) as [Hall|Hnot].
    + exfalso.
      assert ((list_to_set (x :: l) : gset Z) ⊆ {[x]}) as Hsub.
      { intros y Hy. apply elem_of_list_to_set in Hy.
        apply elem_of_singleton. apply elem_of_cons in Hy as [->|Hy]; [done|].
        rewrite Forall_forall in Hall. by apply Hall. }
      apply subseteq_size in Hsub. rewrite size_singleton in Hsub. lia.
    + apply not_Forall_Exists in Hnot; [|intros y; apply _].
      apply Exists_exists in Hnot as (y & Hy & Hne).
      exists x, y. repeat split; [by left | by right | congruence].
  - intros (x & y & Hx & Hy & Hne).
    assert (({[x]} ∪ {[y]} : gset Z) ⊆ list_to_set l) as Hsub.
    { intros z Hz. apply elem_of_list_to_set.
      apply elem_of_union in Hz as [Hz|Hz]; apply elem_of_singleton in Hz; by subst. }
    apply subseteq_size in Hsub.
    rewrite size_union in Hsub by set_solver.
    rewrite !size_singleton in Hsub. lia.
Qed.

Lemma bad_dupe_true (copies : list EpisodeCopy) :
  bad_dupe copies = true <->
  exists c1 c2, c1 ∈ copies /\ c2 ∈ copies /\ ep_size c1 <> ep_size c2.
Proof.
  unfold bad_dupe. rewrite andb_true_iff, !Nat.ltb_lt, size_list_to_set_gt1.
  split.
  - intros [_ (x & y & Hx & Hy & Hne)].
    apply list_elem_of_fmap in Hx as (c1 & -> & H1).
    apply list_elem_of_fmap in Hy as (c2 & -> & H2). eauto.
  - intros (c1 & c2 & H1 & H2 & Hne). split.
    + destruct copies as [|a [|b l]]; simpl; [| |lia].
      * by apply elem_of_nil in H1.
      * apply list_elem_of_singleton in H1, H2. congruence.
    + exists (ep_size c1), (ep_size c2).
      repeat split; [by apply list_elem_of_fmap_2 ..| done].
Qed.

Lemma has_bad_dupe_true (eps : list (slot * list EpisodeCopy)) :
  has_bad_dupe eps = true <->
  exists k copies, (k, copies) ∈ eps /\ bad_dupe copies = true.
Proof.
  unfold has_bad_dupe. rewrite existsb_exists. split.
  - intros ([k copies] & Hin & Hb). exists k, copies.
    split; [by apply list_elem_of_In | done].
  - intros (k & copies & Hin & Hb). exists (k, copies).
    split; [by apply list_elem_of_In | done].
Qed.

Lemma keys_length {K V} (d : list (K * V)) : length (OD.keys d) = length d.
Proof. apply length_map. Qed.

(** The run of [consolidate_series] when the gate fires: nothing but the two
    lines is printed and the tree is the one it was given. *)
Lemma conflict_run disk_free execute data t :
  (1 < length (disks data))%nat ->
  has_bad_dupe (episodes data) = true ->
  consolidate_series disk_free execute data t =
    (Some (Skipped (conflict_msg (display_name data))), t,
     [EvProcessing (shown (display_name data)) (length (disks data));
      EvSkipped (conflict_msg (display_name data))]).
Proof.
  intros Hd Hb. unfold consolidate_series.
  rewrite keys_length.
  destruct (length (disks data) <=? 1)%nat eqn:E; [apply Nat.leb_le in E; lia|].
  rewrite Hb. reflexivity.
Qed.

Lemma append_inj_l (s a b : string) : s +:+ a = s +:+ b -> a = b.
Proof. induction s as [|c s IH]; simpl; [done|]. intros H. inversion H. auto. Qed.

Lemma conflict_msg_ne display : no_space_msg display <> conflict_msg display.
Proof.
  unfold no_space_msg, conflict_msg. intros H.
  apply append_inj_l, append_inj_l in H. discriminate.
Qed.

(** When the gate does not fire the outcome is decided by what follows it. *)
Lemma no_conflict_run disk_free execute data t :
  has_bad_dupe (episodes data) = false ->
  result_of (consolidate_series disk_free execute data t)
  <> Some (Skipped (conflict_msg (display_name data))).
Proof.
  intros Hb. unfold consolidate_series.
  destruct (length (OD.keys (disks data)) <=? 1)%nat; [done|].
  rewrite Hb. unfold mbind, M_bind, print, mret, M_ret, result_of. simpl.
  destruct (select_target disk_free data (candidates_of data) t) as [[[tg|] t1] l1];
    simpl; [|done].
  destruct (no_target tg) eqn:Hn; simpl.
  - intros H. apply (conflict_msg_ne (display_name data)). congruence.
  - destruct tg as [[[d f] n]|]; [|done]. simpl.
    repeat match goal with
           | |- context [match ?m ?x with _ => _ end] =>
               let r := fresh "r" in destruct (m x) as [[[r|] ?] ?]; simpl; try done
           end.
Qed.

(** C10.  The gate does not ask on which roots the copies lie: two copies of
    a slot found in different subdirectories of the same root, with
    different recorded sizes, skip a series that is on more than one root. *)
Theorem same_root_conflict_skips disk_free execute data t k copies c1 c2 :
  (1 < length (disks data))%nat ->
  (k, copies) ∈ episodes data ->
  c1 ∈ copies -> c2 ∈ copies ->
  ep_disk c1 = ep_disk c2 ->
  ep_rel_dir c1 <> ep_rel_dir c2 ->
  ep_size c1 <> ep_size c2 ->
  consolidate_series disk_free execute data t =
    (Some (Skipped (conflict_msg (display_name data))), t,
     [EvProcessing (shown (display_name data)) (length (disks data));
      EvSkipped (conflict_msg (display_name data))]).
Proof.
  intros Hd Hin H1 H2 _ _ Hne.
  apply conflict_run; [done|].
  apply has_bad_dupe_true. exists k, copies. split; [done|].
  apply bad_dupe_true. eauto.
Qed.

Lemma same_root_conflict_skips_witness :
  episodes twice_series =
    [((1%N, 1%N),
      [mkEpisodeCopy ["A"; "Show"; "S1"; "x.S01E01.mkv"] (60 * MiB) (60 * MiB) "/A" ["S1"] [];
       mkEpisodeCopy ["A"; "Show"; "S2"; "x.S01E01.mkv"] (70 * MiB) (70 * MiB) "/A" ["S2"] []]);
     ((1%N, 2%N),
      [mkEpisodeCopy ["B"; "show"; "x.S01E02.mkv"] (80 * MiB) (80 * MiB) "/B" [] []])] /\
  consolidate_series roomy true twice_series twice_tree =
    (Some (Skipped "SKIPPED Show: Conflicting duplicates (different sizes) found."),
     twice_tree,
     [EvProcessing "Show" 2;
      EvSkipped "SKIPPED Show: Conflicting duplicates (different sizes) found."]).
Proof.
  assert (episodes twice_series =
    [((1%N, 1%N),
      [mkEpisodeCopy ["A"; "Show"; "S1"; "x.S01E01.mkv"] (60 * MiB) (60 * MiB) "/A" ["S1"] [];
       mkEpisodeCopy ["A"; "Show"; "S2"; "x.S01E01.mkv"] (70 * MiB) (70 * MiB) "/A" ["S2"] []]);
     ((1%N, 2%N),
      [mkEpisodeCopy ["B"; "show"; "x.S01E02.mkv"] (80 * MiB) (80 * MiB) "/B" [] []])])
    as Heps by (vm_compute; reflexivity).
  split; [exact Heps|].
  eapply (same_root_conflict_skips roomy true twice_series twice_tree (1%N, 1%N)).
  - vm_compute. lia.
  - rewrite Heps. apply list_elem_of_here.
  - apply list_elem_of_here.
  - apply list_elem_of_further, list_elem_of_here.
  - reflexivity.
  - discriminate.
  - vm_compute. discriminate.
Defined.

(* ===================================================================== *)
(** * The consolidation pass *)
(* ===================================================================== *)

Lemma on_disk_false d copies :
  existsb (on_disk d) copies = false <-> Forall (fun c => ep_disk c <> d) copies.
Proof.
  induction copies as [|c copies IH]; simpl.
  - split; [constructor | done].
  - rewrite orb_false_iff, IH, Forall_cons. unfold on_disk.
    rewrite bool_decide_eq_false. done.
Qed.

Lemma episode_bytes_spec d copies :
  copies <> [] ->
  episode_bytes d copies
  = Some (if decide (Forall (fun c => ep_disk c <> d) copies) then slot_size copies else 0).
Proof.
  intros Hne. unfold episode_bytes.
  destruct (existsb (on_disk d) copies) eqn:E.
  - rewrite decide_False; [done|]. rewrite <- on_disk_false. congruence.
  - rewrite decide_True by (by apply on_disk_false).
    by destruct copies.
Qed.

Lemma episodes_fold_spec d (eps : list (slot * list EpisodeCopy)) acc :
  Forall (fun kv : slot * list EpisodeCopy => kv.2 <> []) eps ->
  fold_left
    (fun acc kv => a ← acc; b ← episode_bytes d kv.2; Some (a + b)) eps (Some acc)
  = Some (acc + sumZ (fun kv : slot * list EpisodeCopy => slot_size kv.2)
                  (filter (fun kv => Forall (fun c => ep_disk c <> d) kv.2) eps)).
Proof.
  intros Hne. revert acc.
  induction Hne as [|kv eps Hkv _ IH]; intros acc; simpl.
  - f_equal. lia.
  - rewrite episode_bytes_spec by done. simpl. rewrite IH.
    rewrite filter_cons. f_equal.
    destruct (decide (Forall (fun c => ep_disk c <> d) kv.2)); simpl; lia.
Qed.

Lemma artifacts_fold_spec d (arts : list Artifact) acc :
  fold_left (fun acc art => acc + artifact_bytes d art) arts acc
  = acc + sumZ art_size (filter (fun a => art_disk a <> d) arts).
Proof.
  revert acc. induction arts as [|a arts IH]; intros acc; simpl; [lia|].
  rewrite IH, filter_cons. unfold artifact_bytes.
  destruct (decide (art_disk a <> d)); simpl; lia.
Qed.

Lemma bytes_needed_spec data d :
  slots_filled data ->
  bytes_needed (episodes data) (artifacts data) d = Some (import_size data d).
Proof.
  intros Hf. unfold bytes_needed, import_size.
  rewrite episodes_fold_spec by done. simpl.
  rewrite artifacts_fold_spec. f_equal.
Qed.

(** An empty slot makes the computation of [bytes_needed] fail. *)
Lemma episodes_fold_None d (eps : list (slot * list EpisodeCopy)) :
  fold_left
    (fun acc kv => a ← acc; b ← episode_bytes d kv.2; Some (a + b)) eps None = None.
Proof. induction eps as [|kv eps IH]; simpl; [done|]. apply IH. Qed.

Lemma bytes_needed_Some data d n :
  bytes_needed (episodes data) (artifacts data) d = Some n -> slots_filled data.
Proof.
  unfold bytes_needed, slots_filled. generalize (episodes data) as eps. intros eps.
  generalize 0 as acc. induction eps as [|kv eps IH]; intros acc H; [constructor|].
  simpl in H.
  destruct (episode_bytes d kv.2) as [b|] eqn:E; simpl in H.
  - constructor; [|by eapply IH].
    unfold episode_bytes in E. destruct kv.2; [|done]. by simpl in E.
  - by rewrite episodes_fold_None in H.
Qed.

Section SelectionFacts.
Variable disk_free : node -> path -> option Z.

(** The selection loop reads and never writes; with every slot filled it
    returns the first candidate that has room, or none when none has. *)
Lemma select_target_spec data t cands :
  slots_filled data ->
  exists r,
    select_target disk_free data cands t = (Some r, t, []) /\
    match r with
    | Some (d, folder, n) =>
        exists pre meta post,
          cands = pre ++ (d, meta) :: post /\
          folder = real_folder meta /\
          n = import_size data d /\
          has_room disk_free t data d /\
          Forall (fun c : string * DiskStat => ~ has_room disk_free t data c.1) pre
    | None =>
        Forall (fun c : string * DiskStat => ~ has_room disk_free t data c.1) cands
    end.
Proof.
  intros Hf. induction cands as [|[d meta] cands (r & Hr & IH)]; simpl.
  - exists None. split; [done | constructor].
  - unfold mbind, M_bind. rewrite bytes_needed_spec by done. simpl.
    destruct (default 0 (disk_free t (FS.resolve d)) - import_size data d
              >? MIN_FREE_BUFFER) eqn:E.
    + exists (Some (d, real_folder meta, import_size data d)). split; [done|].
      exists [], meta, cands. repeat split; [|constructor].
      unfold has_room. by apply Z.gtb_gt.
    + exists r. rewrite Hr. split; [done|].
      assert (~ has_room disk_free t data d) as Hno.
      { unfold has_room. rewrite Z.gtb_ltb in E. apply Z.ltb_ge in E. lia. }
      destruct r as [[[d' f'] n']|].
      * destruct IH as (pre & meta' & post & -> & ? & ? & ? & ?).
        exists ((d, meta) :: pre), meta', post.
        repeat split; try done. by constructor.
      * by constructor.
Qed.

Lemma no_space_run execute data t :
  (1 < length (disks data))%nat ->
  has_bad_dupe (episodes data) = false ->
  slots_filled data ->
  Forall (fun c : string * DiskStat => ~ has_room disk_free t data c.1)
    (candidates_of data) ->
  consolidate_series disk_free execute data t =
    (Some (Skipped (no_space_msg (display_name data))), t,
     [EvProcessing (shown (display_name data)) (length (disks data));
      EvSkipped (no_space_msg (display_name data))]).
Proof.
  intros Hd Hb Hf Hno. unfold consolidate_series.
  rewrite keys_length.
  destruct (length (disks data) <=? 1)%nat eqn:E; [apply Nat.leb_le in E; lia|].
  rewrite Hb.
  destruct (select_target_spec data t (candidates_of data) Hf) as (r & Hr & Hspec).
  unfold mbind, M_bind, print. simpl. rewrite Hr.
  destruct r as [[[d f] n]|]; [|done].
  exfalso. destruct Hspec as (pre & meta & post & Hc & _ & _ & Hroom & _).
  rewrite Hc in Hno. apply Forall_app in Hno as [_ Hno].
  apply Forall_cons in Hno as [Hno _]. by apply Hno.
Qed.

End SelectionFacts.

Section ConsolidationFacts.
Variable disk_free : node -> path -> option Z.

Lemma lift_option_readonly {A} (o : option A) : readonly (lift_option o).
Proof. destruct o; [apply readonly_ret | apply readonly_raise]. Qed.

Lemma get_free_space_readonly d : readonly (get_free_space disk_free d).
Proof. by intros t. Qed.

Lemma select_target_readonly data cands : readonly (select_target disk_free data cands).
Proof.
  induction cands as [|[d meta] cands IH]; simpl; [apply readonly_ret|].
  apply readonly_bind; [apply lift_option_readonly|]. intros n.
  apply readonly_bind; [apply get_free_space_readonly|]. intros free.
  destruct (free - n >? MIN_FREE_BUFFER); [apply readonly_ret | apply IH].
Qed.

Lemma delete_copy_dry c : readonly (delete_copy true c).
Proof.
  unfold delete_copy. apply readonly_bind; [apply safe_delete_dry|]. intros _.
  apply readonly_for_each. intros comp.
  apply readonly_bind; [apply safe_delete_dry | intros _; apply readonly_ret].
Qed.

Lemma delete_copy_total dry c : total (delete_copy dry c).
Proof.
  unfold delete_copy. apply total_bind; [apply safe_delete_total|]. intros _.
  apply total_for_each. intros comp _.
  apply total_bind; [apply safe_delete_total | intros _; apply total_ret].
Qed.

Lemma consolidate_episode_dry target full kv :
  readonly (consolidate_episode false target full kv).
Proof.
  unfold consolidate_episode. simpl.
  destruct (filter (fun c => ep_disk c = target) kv.2).
  - destruct (filter (fun c => ep_disk c <> target) kv.2) as [|src redundant];
      [apply readonly_raise|].
    apply readonly_bind; [apply safe_move_dry|].
    intros []; [|apply readonly_print].
    apply readonly_bind.
    + apply readonly_for_each. intros comp.
      apply readonly_bind; [apply force_move_dry | intros _; apply readonly_ret].
    + intros _. apply readonly_for_each. intros c. apply delete_copy_dry.
  - apply readonly_for_each. intros c. apply delete_copy_dry.
Qed.

Lemma filter_nil_neg {A} (P : A -> Prop) `{!forall x, Decision (P x)} (l : list A) :
  filter P l = [] -> filter (fun x => ~ P x) l = l.
Proof.
  induction l as [|x l IH]; [done|].
  rewrite !filter_cons. destruct (decide (P x)); [done|].
  intros Hnil. rewrite decide_True by done. by rewrite IH.
Qed.

Lemma consolidate_episode_total execute target full kv :
  kv.2 <> [] -> total (consolidate_episode execute target full kv).
Proof.
  intros Hne. unfold consolidate_episode.
  destruct (filter (fun c => ep_disk c = target) kv.2) eqn:E.
  - rewrite (filter_nil_neg _ _ E).
    destruct kv.2 as [|src redundant]; [done|].
    apply total_bind; [apply safe_move_total|].
    intros []; [|apply total_print].
    apply total_bind.
    + apply total_for_each. intros comp _.
      apply total_bind; [apply force_move_total | intros _; apply total_ret].
    + intros _. apply total_for_each. intros c _. apply delete_copy_total.
  - apply total_for_each. intros c _. apply delete_copy_total.
Qed.

Lemma consolidate_artifact_dry target full art :
  readonly (consolidate_artifact false target full art).
Proof.
  unfold consolidate_artifact. case_decide; [|apply readonly_ret].
  apply readonly_bind; [apply force_move_dry | intros _; apply readonly_ret].
Qed.

Lemma consolidate_artifact_total execute target full art :
  total (consolidate_artifact execute target full art).
Proof.
  unfold consolidate_artifact. case_decide; [|apply total_ret].
  apply total_bind; [apply force_move_total | intros _; apply total_ret].
Qed.

Lemma clean_source_dry data target d : readonly (clean_source false data target d).
Proof.
  unfold clean_source. case_decide; [apply readonly_ret|].
  apply readonly_bind; [apply readonly_print|]. intros _.
  apply cleanup_folder_tree_dry.
Qed.

Lemma clean_source_total execute data target d :
  total (clean_source execute data target d).
Proof.
  unfold clean_source. case_decide; [apply total_ret|].
  apply total_bind; [apply total_print|]. intros _.
  apply cleanup_folder_tree_total.
Qed.

Lemma consolidate_series_dry data : readonly (consolidate_series disk_free false data).
Proof.
  unfold consolidate_series.
  destruct (length (OD.keys (disks data)) <=? 1)%nat; [apply readonly_ret|].
  apply readonly_bind; [apply readonly_print|]. intros _.
  destruct (has_bad_dupe (episodes data)).
  { apply readonly_bind; [apply readonly_print | intros _; apply readonly_ret]. }
  apply readonly_bind; [apply select_target_readonly|]. intros target.
  destruct (no_target target).
  { apply readonly_bind; [apply readonly_print | intros _; apply readonly_ret]. }
  destruct target as [[[d f] n]|]; [|apply readonly_ret].
  apply readonly_bind; [apply readonly_print|]. intros _.
  apply readonly_bind.
  { apply readonly_for_each. intros kv. apply consolidate_episode_dry. }
  intros _. apply readonly_bind.
  { apply readonly_for_each. intros a. apply consolidate_artifact_dry. }
  intros _. apply readonly_bind.
  { apply readonly_for_each. intros a. apply clean_source_dry. }
  intros _. apply readonly_ret.
Qed.

Lemma consolidate_all_dry lib keys skipped :
  readonly (consolidate_all disk_free false lib keys skipped).
Proof.
  revert skipped. induction keys as [|k keys IH]; intros skipped; simpl.
  - apply readonly_ret.
  - apply readonly_bind; [apply consolidate_series_dry | intros o; apply IH].
Qed.

Lemma process_consolidation_dry lib : readonly (process_consolidation disk_free lib false).
Proof.
  unfold process_consolidation.
  apply readonly_bind; [apply readonly_print | intros _; apply consolidate_all_dry].
Qed.

(** A selection that returned saw every slot filled. *)
Lemma select_target_filled data cands t x t' l :
  select_target disk_free data cands t = (Some (Some x), t', l) -> slots_filled data.
Proof.
  revert t' l. induction cands as [|[d meta] cands IH]; intros t' l; simpl; [done|].
  rewrite bind_run.
  destruct (bytes_needed (episodes data) (artifacts data) d) as [n|] eqn:E; simpl; [|done].
  intros _. by eapply bytes_needed_Some.
Qed.

(** The work on a series once a target is chosen never raises. *)
Lemma consolidate_body_result execute data d f t :
  slots_filled data ->
  result_of
    ((print (EvConsolidating d f);;
      for_each (episodes data) (consolidate_episode execute d (root_join d f));;
      for_each (artifacts data) (consolidate_artifact execute d (root_join d f));;
      for_each (OD.keys (disks data)) (clean_source execute data d);;
      mret (Consolidated d f)) t)
  = Some (Consolidated d f).
Proof.
  intros Hf. revert t.
  apply bind_result; [apply total_print|]. intros _.
  apply bind_result.
  { apply total_for_each. intros kv Hkv. apply consolidate_episode_total.
    unfold slots_filled in Hf. rewrite Forall_forall in Hf. by apply Hf. }
  intros _. apply bind_result.
  { apply total_for_each. intros a _. apply consolidate_artifact_total. }
  intros _. apply bind_result.
  { apply total_for_each. intros a _. apply clean_source_total. }
  done.
Qed.

(** The decision for a series is taken before anything is done to the
    tree, so it is the same in both modes. *)
Lemma consolidate_series_decision data t :
  result_of (consolidate_series disk_free true data t)
  = result_of (consolidate_series disk_free false data t).
Proof.
  unfold consolidate_series.
  destruct (length (OD.keys (disks data)) <=? 1)%nat; [done|].
  rewrite !result_print.
  destruct (has_bad_dupe (episodes data)); [done|].
  rewrite !(result_bind (select_target _ _ _)).
  destruct (select_target disk_free data (candidates_of data) t)
    as [[[target|] t1] l1] eqn:Hsel; [|done].
  destruct (no_target target); [done|].
  destruct target as [[[d f] n]|]; [|done].
  apply select_target_filled in Hsel.
  by rewrite !consolidate_body_result.
Qed.

End ConsolidationFacts.

Section PrintedFacts.
Variable disk_free : node -> path -> option Z.

Lemma select_target_emits P data cands : emits P (select_target disk_free data cands).
Proof.
  induction cands as [|[d meta] cands IH]; simpl; [apply emits_ret|].
  apply emits_bind.
  { destruct (bytes_needed _ _ _); [apply emits_ret | apply emits_raise]. }
  intros n. apply emits_bind; [intros t; constructor|]. intros free.
  destruct (free - n >? MIN_FREE_BUFFER); [apply emits_ret | apply IH].
Qed.

(** The lines of one series: the decision lines, and step lines. *)
Lemma consolidate_series_emits execute data (Q : event -> Prop) :
  (forall e, step_line (negb execute) e -> Q e) ->
  (forall n, Q (EvProcessing (shown (display_name data)) n)) ->
  (has_bad_dupe (episodes data) = true -> Q (EvSkipped (conflict_msg (display_name data)))) ->
  Q (EvSkipped (no_space_msg (display_name data))) ->
  (forall d f, Q (EvConsolidating d f)) ->
  emits Q (consolidate_series disk_free execute data).
Proof.
  intros Hstep Hproc Hconf Hspace Hcons. unfold consolidate_series.
  destruct (length (OD.keys (disks data)) <=? 1)%nat; [apply emits_ret|].
  apply emits_bind; [by apply emits_print|]. intros _.
  destruct (has_bad_dupe (episodes data)).
  { apply emits_bind; [apply emits_print; by apply Hconf | intros _; apply emits_ret]. }
  apply emits_bind; [apply select_target_emits|]. intros target.
  destruct (no_target target).
  { apply emits_bind; [by apply emits_print | intros _; apply emits_ret]. }
  destruct target as [[[d f] n]|]; [|apply emits_ret].
  apply emits_bind; [by apply emits_print|]. intros _.
  apply emits_bind.
  { apply emits_for_each. intros kv.
    eapply emits_impl; [exact Hstep | apply consolidate_episode_emits]. }
  intros _. apply emits_bind.
  { apply emits_for_each. intros a.
    eapply emits_impl; [exact Hstep | apply consolidate_artifact_emits]. }
  intros _. apply emits_bind.
  { apply emits_for_each. intros a.
    eapply emits_impl; [exact Hstep | apply clean_source_emits]. }
  intros _. apply emits_ret.
Qed.

(** A simulated pass prints no line of an action carried out. *)
Lemma consolidate_series_plans data :
  emits (fun e => is_done e = false) (consolidate_series disk_free false data).
Proof.
  apply consolidate_series_emits; try done.
  intros e [_ He]. by apply He.
Qed.

Lemma consolidate_all_plans lib keys skipped :
  emits (fun e => is_done e = false) (consolidate_all disk_free false lib keys skipped).
Proof.
  revert skipped. induction keys as [|k keys IH]; intros skipped; simpl.
  - apply emits_ret.
  - apply emits_bind; [apply consolidate_series_plans | intros o; apply IH].
Qed.

Lemma process_consolidation_plans lib :
  emits (fun e => is_done e = false) (process_consolidation disk_free lib false).
Proof.
  unfold process_consolidation.
  apply emits_bind; [by apply emits_print | intros _; apply consolidate_all_plans].
Qed.

End PrintedFacts.

(* ===================================================================== *)
(** * Series found on several roots *)
(* ===================================================================== *)

(** C1.  For a series on more than one root: when some slot has more than one
    copy and more than one distinct recorded size, the series is skipped
    with the conflicting-duplicates message, the tree is untouched and no
    action line is printed; when the copies of every slot with more than
    one copy all have the same size, the outcome is not that skip and that
    skip is not printed. *)
Theorem conflict_gate disk_free execute data t :
  (1 < length (disks data))%nat ->
  ((exists k copies,
       (k, copies) ∈ episodes data /\ (1 < length copies)%nat /\
       (1 < size (list_to_set (map ep_size copies) : gset Z))%nat) ->
   consolidate_series disk_free execute data t =
     (Some (Skipped (conflict_msg (display_name data))), t,
      [EvProcessing (shown (display_name data)) (length (disks data));
       EvSkipped (conflict_msg (display_name data))]))
  /\
  ((forall k copies,
       (k, copies) ∈ episodes data -> (1 < length copies)%nat ->
       forall c1 c2, c1 ∈ copies -> c2 ∈ copies -> ep_size c1 = ep_size c2) ->
   result_of (consolidate_series disk_free execute data t)
   <> Some (Skipped (conflict_msg (display_name data))) /\
   Forall (fun e => e <> EvSkipped (conflict_msg (display_name data)))
     (log_of (consolidate_series disk_free execute data t))).
Proof.
  intros Hd. split.
  - intros (k & copies & Hin & Hlen & Hsz).
    apply conflict_run; [done|].
    apply has_bad_dupe_true. exists k, copies. split; [done|].
    unfold bad_dupe. apply andb_true_iff. by rewrite !Nat.ltb_lt.
  - intros Hall.
    assert (has_bad_dupe (episodes data) = false) as Hb.
    { apply not_true_is_false. intros Hb.
      apply has_bad_dupe_true in Hb as (k & copies & Hin & Hb).
      pose proof Hb as Hb'.
      apply bad_dupe_true in Hb as (c1 & c2 & H1 & H2 & Hne).
      unfold bad_dupe in Hb'. apply andb_true_iff in Hb' as [Hlen _].
      apply Nat.ltb_lt in Hlen. by apply Hne, (Hall k copies). }
    split; [by apply no_conflict_run|].
    apply consolidate_series_emits; try done.
    + intros e [He _] ->. done.
    + congruence.
    + intros Heq. apply (conflict_msg_ne (display_name data)). congruence.
Qed.

Lemma conflict_gate_witness :
  (1 < length (disks bar_series))%nat /\
  consolidate_series roomy true bar_series bar_tree =
    (Some (Skipped "SKIPPED Bar: Conflicting duplicates (different sizes) found."),
     bar_tree,
     [EvProcessing "Bar" 2;
      EvSkipped "SKIPPED Bar: Conflicting duplicates (different sizes) found."]).
Proof.
  assert (1 < length (disks bar_series))%nat as Hd by (vm_compute; lia).
  split; [exact Hd|].
  apply (proj1 (conflict_gate roomy true bar_series bar_tree Hd)).
  eexists (1%N, 1%N), _. split; [|split].
  - vm_compute. apply list_elem_of_here.
  - vm_compute. lia.
  - vm_compute. lia.
Defined.

(* ===================================================================== *)
(** * Target selection *)
(* ===================================================================== *)

(** Once a root other than the empty string is selected, the series is
    consolidated onto it whatever happens to the single transfers. *)
Lemma selected_run disk_free execute data t d folder n l :
  (1 < length (disks data))%nat ->
  has_bad_dupe (episodes data) = false ->
  select_target disk_free data (candidates_of data) t = (Some (Some (d, folder, n)), t, l) ->
  d <> "" ->
  result_of (consolidate_series disk_free execute data t) = Some (Consolidated d folder).
Proof.
  intros Hd Hb Hsel Hne. unfold consolidate_series. rewrite keys_length.
  destruct (length (disks data) <=? 1)%nat eqn:E; [apply Nat.leb_le in E; lia|].
  rewrite result_print, Hb, result_bind, Hsel. simpl.
  rewrite bool_decide_eq_false_2 by done.
  apply consolidate_body_result. by eapply select_target_filled.
Qed.

(** C2.  For a series that passed the conflict gate: the candidates are the
    series' roots in descending order of their total, ties in enumeration
    order; the selection returns the first candidate whose free space minus
    the bytes it would take in exceeds the buffer, so the root it selects
    has room, and the series is consolidated onto that root; and when no
    candidate has room the series is skipped with the no-space message,
    with the tree untouched and no action line. *)
Theorem target_selection disk_free execute data t :
  (1 < length (disks data))%nat ->
  has_bad_dupe (episodes data) = false ->
  slots_filled data ->
  let cands := candidates_of data in
  cands ≡ₚ disks data /\
  StronglySorted (key_ge (fun x : string * DiskStat => total_size x.2)) cands /\
  (forall v, filter (fun x : string * DiskStat => total_size x.2 = v) cands
             = filter (fun x : string * DiskStat => total_size x.2 = v) (disks data)) /\
  (exists r,
     select_target disk_free data cands t = (Some r, t, []) /\
     match r with
     | Some (d, folder, n) =>
         exists pre meta post,
           cands = pre ++ (d, meta) :: post /\
           folder = real_folder meta /\
           n = import_size data d /\
           default 0 (disk_free t (FS.resolve d)) - n > MIN_FREE_BUFFER /\
           Forall (fun c : string * DiskStat => ~ has_room disk_free t data c.1) pre /\
           (d <> "" ->
            result_of (consolidate_series disk_free execute data t)
            = Some (Consolidated d folder))
     | None =>
         Forall (fun c : string * DiskStat => ~ has_room disk_free t data c.1) cands
     end) /\
  (Forall (fun c : string * DiskStat => ~ has_room disk_free t data c.1) cands ->
   consolidate_series disk_free execute data t =
     (Some (Skipped (no_space_msg (display_name data))), t,
      [EvProcessing (shown (display_name data)) (length (disks data));
       EvSkipped (no_space_msg (display_name data))])).
Proof.
  intros Hd Hb Hf cands. subst cands. unfold candidates_of.
  split; [apply sort_desc_perm|].
  split; [apply sort_desc_sorted|].
  split; [intros v; apply sort_desc_stable|].
  split.
  - destruct (select_target_spec disk_free data t
                (sort_desc (fun x : string * DiskStat => total_size x.2) (disks data)) Hf)
      as (r & Hr & Hspec).
    exists r. split; [done|].
    destruct r as [[[d f] n]|]; [|done].
    destruct Hspec as (pre & meta & post & ? & ? & -> & Hroom & ?).
    exists pre, meta, post. repeat split; try done.
    intros Hne. by eapply selected_run.
  - intros Hno. by apply no_space_run.
Qed.

Lemma target_selection_witness :
  (1 < length (disks srt_series))%nat /\
  has_bad_dupe (episodes srt_series) = false /\
  slots_filled srt_series /\
  exists r,
    select_target a_is_full srt_series (candidates_of srt_series) srt_tree
      = (Some r, srt_tree, []) /\
    r = Some ("/B", "bar", 100 * MiB + 10).
Proof.
  assert (1 < length (disks srt_series))%nat as H1 by (vm_compute; lia).
  assert (has_bad_dupe (episodes srt_series) = false) as H2 by (vm_compute; reflexivity).
  assert (slots_filled srt_series) as H3 by (vm_compute; repeat constructor; discriminate).
  split; [exact H1|]. split; [exact H2|]. split; [exact H3|].
  destruct (target_selection a_is_full true srt_series srt_tree H1 H2 H3)
    as (_ & _ & _ & (r & Hr & _) & _).
  exists r. split; [exact Hr|].
  assert (select_target a_is_full srt_series (candidates_of srt_series) srt_tree
          = (Some (Some ("/B", "bar", 100 * MiB + 10)), srt_tree, [])) as Hc
    by (vm_compute; reflexivity).
  rewrite Hc in Hr. by injection Hr as <-.
Defined.

(* ===================================================================== *)
(** * Episode transfers *)
(* ===================================================================== *)

Lemma consolidate_episode_missing execute target full k copies src redundant :
  filter (fun c => ep_disk c = target) copies = [] ->
  copies = src :: redundant ->
  consolidate_episode execute target full (k, copies) =
    (safe_move (ep_path src) (full ++ ep_rel_dir src) (negb execute) ≫= fun moved : bool =>
     if moved then
       for_each (ep_companions src)
         (fun comp => force_move (comp_path comp) (full ++ ep_rel_dir src) (negb execute);;
                      mret tt);;
       for_each redundant (delete_copy (negb execute))
     else print (EvAbortMove k.1 k.2)).
Proof.
  intros Hon ->. unfold consolidate_episode. simpl snd.
  rewrite Hon. by rewrite (filter_nil_neg _ _ Hon).
Qed.

(** C5.  When the copy to transfer exists and a file of its name is already
    in the destination directory, [safe_move] reports the collision and
    returns failure; the episode's step prints the abort and nothing else,
    so neither the copy nor its companions nor the redundant copies are
    moved or deleted and the file at the destination is the one that was
    there; the loop goes on with the remaining episodes from the same
    tree. *)
Theorem collision_aborts_one_episode execute target full k copies src redundant rest t :
  filter (fun c => ep_disk c = target) copies = [] ->
  copies = src :: redundant ->
  FS.exists_ t (ep_path src) = true ->
  FS.exists_ t ((full ++ ep_rel_dir src) ++ FS.basename (ep_path src)) = true ->
  let dst := (full ++ ep_rel_dir src) ++ FS.basename (ep_path src) in
  safe_move (ep_path src) (full ++ ep_rel_dir src) (negb execute) t
    = (Some false, t, [EvAbortCollision dst]) /\
  consolidate_episode execute target full (k, copies) t
    = (Some tt, t, [EvAbortCollision dst; EvAbortMove k.1 k.2]) /\
  for_each ((k, copies) :: rest) (consolidate_episode execute target full) t
    = (let r := for_each rest (consolidate_episode execute target full) t in
       (result_of r, tree_of r,
        [EvAbortCollision dst; EvAbortMove k.1 k.2] ++ log_of r)).
Proof.
  intros Hon Hc Hsrc Hdst dst.
  assert (safe_move (ep_path src) (full ++ ep_rel_dir src) (negb execute) t
          = (Some false, t, [EvAbortCollision dst])) as Hsm.
  { unfold safe_move. rewrite Hsrc. simpl. by rewrite Hdst. }
  assert (consolidate_episode execute target full (k, copies) t
          = (Some tt, t, [EvAbortCollision dst; EvAbortMove k.1 k.2])) as Hep.
  { rewrite (consolidate_episode_missing execute target full k copies src redundant Hon Hc).
    rewrite bind_run, Hsm. reflexivity. }
  split; [exact Hsm|]. split; [exact Hep|].
  simpl. rewrite bind_run, Hep. reflexivity.
Qed.

Lemma collision_aborts_one_episode_witness :
  episodes blocked_series =
    [((1%N, 1%N),
      [mkEpisodeCopy ["A"; "Baz"; "Baz.S01E01.mkv"] (100 * MiB) (100 * MiB) "/A" [] []]);
     ((1%N, 2%N),
      [mkEpisodeCopy ["A"; "Baz"; "Baz.S01E02.mkv"] (110 * MiB) (110 * MiB) "/A" [] []])] /\
  for_each (episodes blocked_series)
    (consolidate_episode true "/B" ["B"; "Baz"]) blocked_tree
  = (Some tt,
     Dir [("A", Dir [("Baz", Dir [("Baz.S01E01.mkv", File (100 * MiB))])]);
          ("B", Dir [("Baz", Dir [("Baz.S01E01.mkv", File 5);
                                  ("Baz.S01E02.mkv", File (110 * MiB))])])],
     [EvAbortCollision ["B"; "Baz"; "Baz.S01E01.mkv"]; EvAbortMove 1 1;
      EvMoved ["A"; "Baz"; "Baz.S01E02.mkv"] ["B"; "Baz"; "Baz.S01E02.mkv"]]).
Proof.
  assert (episodes blocked_series =
    [((1%N, 1%N),
      [mkEpisodeCopy ["A"; "Baz"; "Baz.S01E01.mkv"] (100 * MiB) (100 * MiB) "/A" [] []]);
     ((1%N, 2%N),
      [mkEpisodeCopy ["A"; "Baz"; "Baz.S01E02.mkv"] (110 * MiB) (110 * MiB) "/A" [] []])])
    as Heps by (vm_compute; reflexivity).
  split; [exact Heps|]. rewrite Heps.
  pose proof (collision_aborts_one_episode true "/B" ["B"; "Baz"] (1%N, 1%N)
    [mkEpisodeCopy ["A"; "Baz"; "Baz.S01E01.mkv"] (100 * MiB) (100 * MiB) "/A" [] []]
    (mkEpisodeCopy ["A"; "Baz"; "Baz.S01E01.mkv"] (100 * MiB) (100 * MiB) "/A" [] [])
    []
    [((1%N, 2%N),
      [mkEpisodeCopy ["A"; "Baz"; "Baz.S01E02.mkv"] (110 * MiB) (110 * MiB) "/A" [] []])]
    blocked_tree eq_refl eq_refl eq_refl eq_refl) as (_ & _ & Hloop).
  etrans; [exact Hloop|]. vm_compute. reflexivity.
Defined.




(* ===================================================================== *)
(** * Simulation *)
(* ===================================================================== *)

(** The components of a run that is given as a triple. *)
Ltac proj_run :=
  repeat match goal with
    | |- context [log_of (?a, ?b, ?c)] => change (log_of (a, b, c)) with c
    | |- context [result_of (?a, ?b, ?c)] => change (result_of (a, b, c)) with a
    | |- context [tree_of (?a, ?b, ?c)] => change (tree_of (a, b, c)) with b
    end.

Section RunFacts.
Variable disk_free : node -> path -> option Z.

Lemma select_target_run data cands t :
  select_target disk_free data cands t
  = (result_of (select_target disk_free data cands t), t, []).
Proof.
  induction cands as [|[d meta] cands IH]; simpl; [done|].
  rewrite !bind_run.
  destruct (bytes_needed (episodes data) (artifacts data) d) as [n|]; simpl; [|done].
  rewrite !bind_run. unfold get_free_space at 1 2 3. simpl.
  destruct (default 0 (disk_free t (FS.resolve d)) - n >? MIN_FREE_BUFFER); [done|].
  rewrite IH. done.
Qed.

(** One series, by cases on what the selection returned. *)
Lemma consolidate_series_shape execute data t :
  consolidate_series disk_free execute data t =
  let n := length (OD.keys (disks data)) in
  let shown_name := shown (display_name data) in
  if (n <=? 1)%nat then (Some Untouched, t, [])
  else if has_bad_dupe (episodes data)
  then (Some (Skipped (conflict_msg (display_name data))), t,
        [EvProcessing shown_name n; EvSkipped (conflict_msg (display_name data))])
  else
    match result_of (select_target disk_free data (candidates_of data) t) with
    | None => (None, t, [EvProcessing shown_name n])
    | Some target =>
        if no_target target
        then (Some (Skipped (no_space_msg (display_name data))), t,
              [EvProcessing shown_name n; EvSkipped (no_space_msg (display_name data))])
        else
          match target with
          | None => (Some Untouched, t, [EvProcessing shown_name n])
          | Some (d, f, _) =>
              let r := series_body execute data d f t in
              (result_of r, tree_of r,
               EvProcessing shown_name n :: EvConsolidating d f :: log_of r)
          end
    end.
Proof.
  unfold consolidate_series. cbv zeta.
  destruct (length (OD.keys (disks data)) <=? 1)%nat; [done|].
  rewrite bind_run. unfold print at 1. cbv iota beta.
  destruct (has_bad_dupe (episodes data)); [done|].
  rewrite bind_run.
  pose proof (select_target_run data (candidates_of data) t) as Hsel.
  destruct (select_target disk_free data (candidates_of data) t) as [[r t1] l1].
  injection Hsel as -> ->.
  change (result_of (r, t, [])) with r.
  destruct r as [target|]; [|done].
  destruct (no_target target); [done|].
  destruct target as [[[d f] n]|]; [|done].
  change (print (EvConsolidating d f) ≫= _)
    with (print (EvConsolidating d f) ≫= fun _ => series_body execute data d f).
  rewrite bind_run. unfold print, result_of, tree_of, log_of. simpl.
  by destruct (series_body execute data d f t) as [[r t'] l].
Qed.

Lemma series_body_result execute data d f t :
  slots_filled data ->
  result_of (series_body execute data d f t) = Some (Consolidated d f).
Proof.
  intros Hf. revert t. unfold series_body. cbv zeta.
  apply bind_result.
  { apply total_for_each. intros kv Hkv. apply consolidate_episode_total.
    unfold slots_filled in Hf. rewrite Forall_forall in Hf. by apply Hf. }
  intros _. apply bind_result.
  { apply total_for_each. intros a _. apply consolidate_artifact_total. }
  intros _. apply bind_result.
  { apply total_for_each. intros a _. apply clean_source_total. }
  done.
Qed.

Lemma series_body_steps execute data d f :
  emits (fun e => is_step e = true) (series_body execute data d f).
Proof.
  unfold series_body. cbv zeta.
  apply emits_bind.
  { apply emits_for_each. intros kv.
    eapply emits_impl; [|apply consolidate_episode_emits]. by intros e [He _]. }
  intros _. apply emits_bind.
  { apply emits_for_each. intros a.
    eapply emits_impl; [|apply consolidate_artifact_emits]. by intros e [He _]. }
  intros _. apply emits_bind.
  { apply emits_for_each. intros a.
    eapply emits_impl; [|apply clean_source_emits]. by intros e [He _]. }
  intros _. apply emits_ret.
Qed.

Lemma selected_filled data cands t x :
  result_of (select_target disk_free data cands t) = Some (Some x) -> slots_filled data.
Proof.
  intros Hr. pose proof (select_target_run data cands t) as Hrun.
  rewrite Hr in Hrun. by eapply select_target_filled.
Qed.

Lemma decisions_app l1 l2 : decisions (l1 ++ l2) = decisions l1 ++ decisions l2.
Proof. apply filter_app. Qed.

Lemma decisions_steps l :
  Forall (fun e => is_step e = true) l -> decisions l = [].
Proof.
  induction 1 as [|e l He _ IH]; [done|].
  unfold decisions. rewrite filter_cons_False; [exact IH|].
  by destruct e.
Qed.

Lemma upto_consolidating_app a b b' :
  upto_consolidating b = upto_consolidating b' ->
  upto_consolidating (a ++ b) = upto_consolidating (a ++ b').
Proof.
  intros Hb. induction a as [|e a IH]; [done|].
  destruct e; simpl; by rewrite ?IH.
Qed.

(** The two modes on one series from the same tree: either nothing is
    consolidated and they do the same, or both print the same target and
    step lines follow. *)
Lemma consolidate_series_modes data t :
  (consolidate_series disk_free true data t = consolidate_series disk_free false data t
   /\ tree_of (consolidate_series disk_free false data t) = t)
  \/ exists n name d f (r1 r2 : option outcome * node * list event),
       consolidate_series disk_free true data t
       = (Some (Consolidated d f), tree_of r1,
          EvProcessing name n :: EvConsolidating d f :: log_of r1) /\
       consolidate_series disk_free false data t
       = (Some (Consolidated d f), tree_of r2,
          EvProcessing name n :: EvConsolidating d f :: log_of r2) /\
       Forall (fun e => is_step e = true) (log_of r1) /\
       Forall (fun e => is_step e = true) (log_of r2).
Proof.
  rewrite !consolidate_series_shape. cbv zeta.
  destruct (length (OD.keys (disks data)) <=? 1)%nat; [by left|].
  destruct (has_bad_dupe (episodes data)); [by left|].
  destruct (result_of (select_target disk_free data (candidates_of data) t))
    as [target|] eqn:Hsel; [|by left].
  destruct (no_target target); [by left|].
  destruct target as [[[d f] n]|]; [|by left].
  right. apply selected_filled in Hsel.
  exists (length (OD.keys (disks data))), (shown (display_name data)), d, f,
    (series_body true data d f t), (series_body false data d f t).
  rewrite !series_body_result by done.
  repeat split; apply series_body_steps.
Qed.

(** Up to the first target line the two modes print the same decisions. *)
Lemma consolidate_all_prefix lib keys : forall skipped t,
  upto_consolidating (decisions (log_of (consolidate_all disk_free true lib keys skipped t)))
  = upto_consolidating
      (decisions (log_of (consolidate_all disk_free false lib keys skipped t))).
Proof.
  induction keys as [|k keys IH]; intros skipped t; [done|].
  cbn [consolidate_all]. rewrite !bind_run.
  destruct (consolidate_series_modes (default new_series (OD.get k lib)) t)
    as [[Heq Hro]|(n & name & d & f & r1 & r2 & -> & -> & _ & _)].
  - rewrite Heq in *.
    destruct (consolidate_series disk_free false _ t) as [[[o|] t1] l1]; [|done].
    unfold tree_of in Hro. simpl in Hro. subst t1.
    proj_run. rewrite !decisions_app.
    apply upto_consolidating_app, IH.
  - done.
Qed.

Section Steady.
(** The free space of a volume as a value that the run does not change. *)
Hypothesis Hsteady : forall t1 t2 p, disk_free t1 p = disk_free t2 p.

Lemma select_target_steady data cands t t' :
  result_of (select_target disk_free data cands t)
  = result_of (select_target disk_free data cands t').
Proof.
  induction cands as [|[d meta] cands IH]; simpl; [done|].
  rewrite !result_bind.
  destruct (bytes_needed (episodes data) (artifacts data) d) as [n|]; simpl; [|done].
  rewrite !result_bind. unfold get_free_space. cbv iota beta.
  rewrite (Hsteady t t').
  by destruct (default 0 (disk_free t' (FS.resolve d)) - n >? MIN_FREE_BUFFER).
Qed.

Lemma consolidate_series_steady e e' data t t' :
  result_of (consolidate_series disk_free e data t)
  = result_of (consolidate_series disk_free e' data t') /\
  decisions (log_of (consolidate_series disk_free e data t))
  = decisions (log_of (consolidate_series disk_free e' data t')).
Proof.
  rewrite !consolidate_series_shape. cbv zeta.
  destruct (length (OD.keys (disks data)) <=? 1)%nat; [done|].
  destruct (has_bad_dupe (episodes data)); [done|].
  rewrite (select_target_steady _ _ t t').
  destruct (result_of (select_target disk_free data (candidates_of data) t'))
    as [target|] eqn:Hsel; [|done].
  destruct (no_target target); [done|].
  destruct target as [[[d f] n]|]; [|done].
  apply selected_filled in Hsel.
  rewrite !series_body_result by done. proj_run. split; [done|].
  change (?a :: ?b :: ?l) with ([a; b] ++ l).
  rewrite !decisions_app.
  rewrite (decisions_steps (log_of (series_body e data d f t)))
    by apply series_body_steps.
  rewrite (decisions_steps (log_of (series_body e' data d f t')))
    by apply series_body_steps.
  done.
Qed.

Lemma consolidate_all_steady lib keys : forall skipped t t',
  result_of (consolidate_all disk_free true lib keys skipped t)
  = result_of (consolidate_all disk_free false lib keys skipped t') /\
  decisions (log_of (consolidate_all disk_free true lib keys skipped t))
  = decisions (log_of (consolidate_all disk_free false lib keys skipped t')).
Proof.
  induction keys as [|k keys IH]; intros skipped t t'; [done|].
  cbn [consolidate_all]. rewrite !bind_run.
  destruct (consolidate_series_steady true false (default new_series (OD.get k lib)) t t')
    as [Hr Hl].
  destruct (consolidate_series disk_free true _ t) as [[[o1|] t1] l1],
           (consolidate_series disk_free false _ t') as [[[o2|] t2] l2];
    unfold result_of, log_of in Hr, Hl; simpl in Hr, Hl; try done.
  injection Hr as ->.
  destruct (IH (skipped ++ skipped_of o2) t1 t2) as [Hr' Hl'].
  proj_run. by rewrite !decisions_app, Hl, Hr', Hl'.
Qed.

End Steady.

End RunFacts.

(** C6, as stated, fails in both halves.  The count of actions: on the
    spec's first scenario the simulated run plans one action and the live
    run performs two, because the cleaner of the simulated run still finds
    the episode that was not deleted.  The target: the free space of a root
    is read when its series is reached, so what a live run has moved for an
    earlier series counts; on [two_series_tree], with volumes that report
    what is left of their capacity, the simulated run picks [/B] for both
    series, while the live run moves the first series to [/B], after which
    [/B] has no room for the second, which it skips. *)
Lemma simulate_and_apply_differ :
  (filter (fun e => is_action e = true) (log_of (main roomy ["/A"; "/B"] false foo_tree))
     = [EvDryRm ["A"; "Foo"; "Foo.S01E01.mkv"]] /\
   filter (fun e => is_action e = true) (log_of (main roomy ["/A"; "/B"] true foo_tree))
     = [EvDeleted ["A"; "Foo"; "Foo.S01E01.mkv"]; EvCleanup ["A"; "Foo"]] /\
   length (filter (fun e => is_action e = true)
             (log_of (main roomy ["/A"; "/B"] false foo_tree)))
   <> length (filter (fun e => is_action e = true)
                (log_of (main roomy ["/A"; "/B"] true foo_tree)))) /\
  (decisions (log_of (main metered ["/A"; "/B"] false two_series_tree))
   = [EvProcessing "Aaa" 2; EvConsolidating "/B" "Aaa";
      EvProcessing "Bbb" 2; EvConsolidating "/B" "Bbb"] /\
   decisions (log_of (main metered ["/A"; "/B"] true two_series_tree))
   = [EvProcessing "Aaa" 2; EvConsolidating "/B" "Aaa";
      EvProcessing "Bbb" 2; EvSkipped (no_space_msg (Some "Bbb"))] /\
   result_of (main metered ["/A"; "/B"] false two_series_tree) = Some [] /\
   result_of (main metered ["/A"; "/B"] true two_series_tree)
   = Some [no_space_msg (Some "Bbb")]).
Proof. repeat split; vm_compute; (reflexivity || discriminate). Qed.

(** C6, amended.  A simulated run leaves the tree exactly as it was and
    prints no line of an action carried out.  For a series met in the same
    tree both modes take the same decision: the same skip with the same
    message, or the same target root and folder.  For a whole run from the
    same tree, the decision lines of the two modes are the same up to and
    including the first target line; and when the free space the platform
    reports for a path does not depend on the state of the tree, the two
    runs return the same list of skipped series and print the same
    decision lines throughout. *)
Theorem simulation_reads_only_and_decides_alike disk_free :
  (forall roots t,
      tree_of (main disk_free roots false t) = t /\
      Forall (fun e => is_done e = false) (log_of (main disk_free roots false t))) /\
  (forall lib t,
      tree_of (process_consolidation disk_free lib false t) = t /\
      Forall (fun e => is_done e = false)
        (log_of (process_consolidation disk_free lib false t))) /\
  (forall data t,
      tree_of (consolidate_series disk_free false data t) = t /\
      result_of (consolidate_series disk_free true data t)
      = result_of (consolidate_series disk_free false data t)) /\
  (forall roots t,
      upto_consolidating (decisions (log_of (main disk_free roots true t)))
      = upto_consolidating (decisions (log_of (main disk_free roots false t)))) /\
  ((forall t1 t2 p, disk_free t1 p = disk_free t2 p) ->
   forall roots t,
      result_of (main disk_free roots true t)
      = result_of (main disk_free roots false t) /\
      decisions (log_of (main disk_free roots true t))
      = decisions (log_of (main disk_free roots false t))).
Proof.
  split; [|split; [|split; [|split]]].
  - intros roots t. unfold main. split.
    + apply process_consolidation_dry.
    + apply process_consolidation_plans.
  - intros lib t. split.
    + apply process_consolidation_dry.
    + apply process_consolidation_plans.
  - intros data t. split.
    + apply consolidate_series_dry.
    + apply consolidate_series_decision.
  - intros roots t. unfold main, process_consolidation.
    rewrite !bind_run. unfold print. cbv iota beta. proj_run.
    rewrite !decisions_app.
    change (decisions [EvBanner true]) with (decisions [EvBanner false]).
    apply upto_consolidating_app, consolidate_all_prefix.
  - intros Hsteady roots t. unfold main, process_consolidation.
    rewrite !bind_run. unfold print. cbv iota beta. proj_run.
    destruct (consolidate_all_steady disk_free Hsteady (scan_library roots t)
                (sort_strings (OD.keys (scan_library roots t))) [] t t) as [Hr Hl].
    split; [exact Hr|].
    rewrite !decisions_app, Hl. done.
Qed.

Lemma simulation_reads_only_and_decides_alike_witness :
  (forall t1 t2 p, roomy t1 p = roomy t2 p) /\
  result_of (main roomy ["/A"; "/B"] true foo_tree)
  = result_of (main roomy ["/A"; "/B"] false foo_tree) /\
  decisions (log_of (main roomy ["/A"; "/B"] true foo_tree))
  = decisions (log_of (main roomy ["/A"; "/B"] false foo_tree)).
Proof.
  split; [reflexivity|].
  apply (proj2 (proj2 (proj2 (proj2 (simulation_reads_only_and_decides_alike roomy))))).
  reflexivity.
Defined.

(* ===================================================================== *)
(** * The shape of a normalised name *)
(* ===================================================================== *)

Module ShapeFacts.
Import NamesFacts.

Lemma collapse_plain l : forall b,
  Forall (fun c => is_space c = true -> c = " "%char) (collapse b l).
Proof.
  induction l as [|c l IH]; intros b; simpl; [constructor|].
  destruct (is_space c) eqn:Hc.
  - destruct b; [apply IH|]. constructor; [done|apply IH].
  - constructor; [congruence|apply IH].
Qed.

(** After a whitespace character the collapsed rest does not start with
    one. *)
Lemma collapse_in_run l c r : collapse true l = c :: r -> is_space c = false.
Proof.
  induction l as [|a l IH]; simpl; [done|].
  destruct (is_space a) eqn:Ha; [apply IH|]. by intros [= <- _].
Qed.

Lemma collapse_no_double l : forall b i a c,
  collapse b l !! i = Some a -> collapse b l !! S i = Some c ->
  is_space a = true -> is_space c = false.
Proof.
  induction l as [|x l IH]; intros b i a c; simpl; [done|].
  destruct (is_space x) eqn:Hx.
  - destruct b; [apply IH|].
    destruct i as [|i]; simpl; [|apply IH].
    intros [= <-] Hc _. destruct (collapse true l) as [|y r] eqn:E; [done|].
    simpl in Hc. injection Hc as <-. by eapply collapse_in_run.
  - destruct i as [|i]; simpl; [|apply IH].
    intros [= <-] _ Ha. congruence.
Qed.

Lemma collapse_nil l b : collapse b l = [] -> all_space l.
Proof.
  revert b. induction l as [|c l IH]; intros b; simpl; [constructor|].
  destruct (is_space c) eqn:Hc; [|done].
  destruct b; [|done]. intros H. constructor; [done|by eapply IH].
Qed.

Lemma strip_nil l : strip l = [] <-> all_space l.
Proof.
  split.
  - unfold strip. intros H.
    destruct (lstrip_suffix l) as (w & Hw & Hl).
    destruct (lstrip_head l) as [E | (c & l' & E & Hc)].
    + rewrite E, app_nil_r in Hl. by subst.
    + rewrite E in H. rewrite rstrip_cons_nonspace in H by done. done.
  - intros H. unfold strip.
    pose proof (lstrip_app_space l [] H) as Hn. rewrite app_nil_r in Hn.
    by rewrite Hn.
Qed.

Lemma is_blank_sep c : is_space (sep_to_space c) = is_blank c.
Proof. by_cases_on_char c. Qed.

Lemma normalize_chars_nil l :
  normalize_chars l = [] <-> Forall (fun c => is_blank c = true) l.
Proof.
  rewrite normalize_chars_alt. split.
  - intros H. destruct (strip (lower (map sep_to_space l))) as [|c r] eqn:E.
    + apply strip_nil in E. unfold all_space, lower in E.
      rewrite !Forall_map in E. eapply Forall_impl; [exact E|].
      intros c Hc. simpl in Hc. by rewrite is_space_lower, is_blank_sep in Hc.
    + exfalso. pose proof (strip_trimmed (lower (map sep_to_space l))) as [H1 _].
      rewrite E in H1. simpl in H, H1.
      destruct (is_space c) eqn:Hc; [|done].
      destruct (lstrip_suffix r) as [w [_ Hw]].
      rewrite H1 in Hw. apply (f_equal length) in Hw.
      rewrite length_app in Hw. simpl in Hw. lia.
  - intros H.
    assert (strip (lower (map sep_to_space l)) = []) as ->; [|done].
    apply strip_nil. unfold all_space, lower. rewrite !Forall_map.
    eapply Forall_impl; [exact H|]. intros c Hc. simpl.
    by rewrite is_space_lower, is_blank_sep.
Qed.

Lemma string_of_list_nil l : string_of_list_ascii l = "" <-> l = [].
Proof. destruct l; simpl; split; congruence. Qed.

End ShapeFacts.


(** A name normalises to the empty key exactly when it consists of
    separators and whitespace only (the empty name included); all such
    folders fall into one series. *)
Theorem normalize_name_empty_iff name :
  normalize_name name = "" <->
  Forall (fun c => is_blank c = true) (list_ascii_of_string name).
Proof.
  unfold normalize_name.
  rewrite ShapeFacts.string_of_list_nil. apply ShapeFacts.normalize_chars_nil.
Qed.

(* ===================================================================== *)
(** * Trees with unique names and what a walk lists *)
(* ===================================================================== *)

Module TreeFacts.
Import FS FSFacts.

Lemma node_ind' (P : node -> Prop) :
  (forall sz, P (File sz)) ->
  (forall es, Forall (fun e : string * node => P e.2) es -> P (Dir es)) ->
  forall t, P t.
Proof.
  intros Hf Hd. fix IH 1. intros [sz|es]; [apply Hf|].
  apply Hd. induction es as [|[x c] es IHes]; constructor; [apply IH|apply IHes].
Qed.

Lemma unique_names_dir es :
  unique_names (Dir es) = true <->
  NoDup (map fst es) /\ Forall (fun e : string * node => unique_names e.2 = true) es.
Proof.
  simpl. rewrite andb_true_iff, bool_decide_eq_true.
  apply and_iff_compat_l.
  induction es as [|[x c] es IH]; simpl.
  - split; [constructor|done].
  - rewrite andb_true_iff, IH, Forall_cons. done.
Qed.

Lemma assoc_elem x c es : NoDup (map fst es) -> (x, c) ∈ es -> assoc x es = Some c.
Proof.
  induction es as [|[k v] es IH]; simpl; intros Hnd Hin.
  - by apply elem_of_nil in Hin.
  - apply NoDup_cons in Hnd as [Hk Hnd].
    apply elem_of_cons in Hin as [[= <- <-]|Hin].
    + by rewrite decide_True.
    + destruct (decide (k = x)) as [->|]; [|by apply IH].
      exfalso. apply Hk. apply list_elem_of_fmap. by exists (x, c).
Qed.

Lemma assoc_Some_elem x c es : assoc x es = Some c -> (x, c) ∈ es.
Proof.
  induction es as [|[k v] es IH]; simpl; [done|].
  destruct (decide (k = x)) as [->|].
  - intros [= ->]. apply list_elem_of_here.
  - intros H. apply list_elem_of_further. by apply IH.
Qed.

Lemma unique_names_lookup p : forall t n,
  unique_names t = true -> lookup t p = Some n -> unique_names n = true.
Proof.
  induction p as [|x p IH]; intros t n Hu; simpl.
  - by intros [= <-].
  - destruct t as [sz|es]; [done|].
    destruct (assoc x es) as [c|] eqn:E; [|done].
    apply unique_names_dir in Hu as [_ Hall].
    rewrite Forall_forall in Hall. apply assoc_Some_elem in E.
    apply IH. by apply (Hall (x, c)).
Qed.

Lemma walk_node_dir b dirpath es :
  walk_node b dirpath (Dir es) =
  let here := (dirpath, dirnames es, filenames es) in
  let below := flat_map (fun e : string * node => walk_node b (dirpath ++ [e.1]) e.2) es in
  if b then here :: below else below ++ [here].
Proof.
  simpl.
  assert ((fix go (l : list (string * node)) :
            list (path * list string * list string) :=
             match l with
             | [] => []
             | (name, c) :: l' => walk_node b (dirpath ++ [name]) c ++ go l'
             end) es
          = flat_map (fun e : string * node => walk_node b (dirpath ++ [e.1]) e.2) es) as ->; [|done].
  induction es as [|[x c] es IH]; simpl; [done|]. by rewrite IH.
Qed.

(** Every triple of a walk is a directory below the top, with its own
    listing. *)
Lemma walk_node_elem b t : forall top dirpath dirs files,
  unique_names t = true ->
  (dirpath, dirs, files) ∈ walk_node b top t ->
  exists rel es,
    dirpath = top ++ rel /\ lookup t rel = Some (Dir es) /\
    dirs = dirnames es /\ files = filenames es.
Proof.
  induction t as [sz|es IH] using node_ind'; intros top dirpath dirs files Hu Hin.
  - by apply elem_of_nil in Hin.
  - rewrite walk_node_dir in Hin. cbv zeta in Hin.
    assert ((dirpath, dirs, files) = (top, dirnames es, filenames es) \/
            (dirpath, dirs, files)
            ∈ flat_map (fun e : string * node => walk_node b (top ++ [e.1]) e.2) es)
      as [[= -> -> ->]|Hbelow].
    { destruct b.
      - apply elem_of_cons in Hin as [?|?]; auto.
      - apply elem_of_app in Hin as [?|Hh]; [auto|].
        apply list_elem_of_singleton in Hh. auto. }
    + exists [], es. by rewrite app_nil_r.
    + apply list_elem_of_In, in_flat_map in Hbelow as ([x c] & Hxc & Hw).
      apply list_elem_of_In in Hxc, Hw. simpl in Hw.
      apply unique_names_dir in Hu as [Hnd Hall].
      rewrite Forall_forall in IH, Hall.
      destruct (IH _ Hxc (top ++ [x]) dirpath dirs files (Hall _ Hxc) Hw)
        as (rel & es' & -> & Hl & -> & ->).
      exists (x :: rel), es'. rewrite <- app_assoc. simpl.
      by rewrite (assoc_elem x c es Hnd Hxc).
Qed.

Lemma walk_elem t top b dirpath dirs files :
  unique_names t = true ->
  (dirpath, dirs, files) ∈ walk t top b ->
  exists rel es,
    dirpath = top ++ rel /\ lookup t dirpath = Some (Dir es) /\
    dirs = dirnames es /\ files = filenames es.
Proof.
  intros Hu. unfold walk. destruct (lookup t top) as [n|] eqn:E.
  - intros Hin. apply walk_node_elem in Hin as (rel & es & -> & Hl & -> & ->);
      [|by eapply unique_names_lookup].
    exists rel, es. rewrite lookup_app, E. done.
  - intros Hin. by apply elem_of_nil in Hin.
Qed.

(** A walk lists directories below its top, whatever the tree. *)
Lemma walk_node_below b t : forall top dirpath dirs files,
  (dirpath, dirs, files) ∈ walk_node b top t -> exists rel, dirpath = top ++ rel.
Proof.
  induction t as [sz|es IH] using node_ind'; intros top dirpath dirs files Hin.
  - by apply elem_of_nil in Hin.
  - rewrite walk_node_dir in Hin. cbv zeta in Hin.
    assert ((dirpath, dirs, files) = (top, dirnames es, filenames es) \/
            (dirpath, dirs, files)
            ∈ flat_map (fun e : string * node => walk_node b (top ++ [e.1]) e.2) es)
      as [[= -> -> ->]|Hbelow].
    { destruct b.
      - apply elem_of_cons in Hin as [?|?]; auto.
      - apply elem_of_app in Hin as [?|Hh]; [auto|].
        apply list_elem_of_singleton in Hh. auto. }
    + exists []. by rewrite app_nil_r.
    + apply list_elem_of_In, in_flat_map in Hbelow as ([x c] & Hxc & Hw).
      apply list_elem_of_In in Hxc, Hw. simpl in Hw.
      rewrite Forall_forall in IH.
      destruct (IH _ Hxc (top ++ [x]) dirpath dirs files Hw) as (rel & ->).
      exists (x :: rel). by rewrite <- app_assoc.
Qed.

Lemma walk_below t top b dirpath dirs files :
  (dirpath, dirs, files) ∈ walk t top b -> exists rel, dirpath = top ++ rel.
Proof.
  unfold walk. destruct (lookup t top) as [n|].
  - apply walk_node_below.
  - intros Hin. by apply elem_of_nil in Hin.
Qed.

Lemma filenames_elem f es :
  f ∈ filenames es -> exists sz, (f, File sz) ∈ es.
Proof.
  unfold filenames. intros Hin.
  apply list_elem_of_fmap in Hin as ([x c] & -> & Hin).
  apply list_elem_of_filter in Hin as [Hd Hin]. simpl in *.
  destruct c as [sz|]; [|done]. by exists sz.
Qed.

(** A file name listed by a walk names a file of the tree. *)
Lemma walk_lists_files t top b dirpath dirs files f :
  unique_names t = true ->
  (dirpath, dirs, files) ∈ walk t top b -> f ∈ files ->
  exists sz, lookup t (dirpath ++ [f]) = Some (File sz).
Proof.
  intros Hu Hin Hf.
  destruct (walk_elem _ _ _ _ _ _ Hu Hin) as (rel & es & -> & Hl & -> & ->).
  apply filenames_elem in Hf as [sz Hf]. exists sz.
  rewrite lookup_app, Hl. simpl.
  apply unique_names_lookup in Hl; [|done].
  apply unique_names_dir in Hl as [Hnd _].
  by rewrite (assoc_elem f (File sz) es Hnd Hf).
Qed.

End TreeFacts.

(* ===================================================================== *)
(** * Invariants of a scanned inventory *)
(* ===================================================================== *)

Module InventoryFacts.
Import ODFacts.

Lemma fold_left_inv_in {A B} (P : A -> Prop) (f : A -> B -> A) (l : list B) :
  (forall a x, x ∈ l -> P a -> P (f a x)) -> forall a, P a -> P (fold_left f l a).
Proof.
  induction l as [|x l IH]; intros Hf a Ha; simpl; [done|].
  apply IH.
  - intros a' y Hy. apply Hf. by apply list_elem_of_further.
  - apply Hf; [apply list_elem_of_here | done].
Qed.

(** The loop over the series folders of one root. *)
Lemma scan_root_fold t lib root_path :
  scan_root t lib root_path =
  fold_left
    (fun lib folder_name =>
       OD.upd (normalize_name folder_name)
         (scan_series t root_path (FS.resolve root_path) folder_name) new_series lib)
    (series_dirs t root_path) lib.
Proof.
  unfold scan_root, series_dirs, FS.exists_, FS.listdir.
  destruct (FS.lookup t (FS.resolve root_path)) as [[sz|es]|]; done.
Qed.

Lemma upd_library_inv (P : string -> Series -> Prop) (f : Series -> Series) key
    (lib : library) :
  P key (f new_series) -> (forall s, P key s -> P key (f s)) ->
  Forall (fun kv : string * Series => P kv.1 kv.2) lib ->
  Forall (fun kv : string * Series => P kv.1 kv.2) (OD.upd key f new_series lib).
Proof.
  intros H0 Hf Hl. induction Hl as [|[k' s] lib Hs Hlib IH]; simpl.
  - by repeat constructor.
  - case_decide; constructor; simpl in *; subst; auto.
Qed.

(** A property of inventory entries that holds after any scan of a series
    folder holds for every entry of a scanned library. *)
Lemma scan_library_inv t roots (P : string -> Series -> Prop) :
  (forall root_path folder s,
      root_path ∈ roots -> folder ∈ series_dirs t root_path ->
      s = new_series \/ P (normalize_name folder) s ->
      P (normalize_name folder)
        (scan_series t root_path (FS.resolve root_path) folder s)) ->
  forall key data, OD.get key (scan_library roots t) = Some data -> P key data.
Proof.
  intros Hstep key data Hget.
  assert (Forall (fun kv : string * Series => P kv.1 kv.2) (scan_library roots t)) as Hall.
  { unfold scan_library. apply fold_left_inv_in; [|constructor].
    intros lib root_path Hroot Hlib. rewrite scan_root_fold.
    apply fold_left_inv_in; [|done].
    intros lib' folder Hfolder Hlib'. apply upd_library_inv; [| |done].
    - apply Hstep; auto.
    - intros s Hs. apply Hstep; auto. }
  rewrite Forall_forall in Hall.
  by apply (Hall (key, data)), get_Some_elem.
Qed.

Lemma scan_series_inv t root_path real_root folder (Q : Series -> Prop) s :
  Q (entry0 root_path folder s) ->
  (forall dirpath dirs files s',
      (dirpath, dirs, files) ∈ FS.walk t (real_root ++ [folder]) true -> Q s' ->
      Q (scan_dir t root_path dirpath
           (drop (length (real_root ++ [folder])) dirpath) files s')) ->
  Q (scan_series t root_path real_root folder s).
Proof.
  intros H0 Hstep. unfold scan_series. apply fold_left_inv_in; [|exact H0].
  intros a [[dirpath dirs] files] Hin Ha. by eapply Hstep.
Qed.

Lemma scan_dir_artifacts t root_path dirpath rel_dir filenames lib_entry :
  exists claimed,
    artifacts (scan_dir t root_path dirpath rel_dir filenames lib_entry)
    = artifacts lib_entry
      ++ map (artifact_of t root_path dirpath rel_dir) (kept_files claimed filenames).
Proof.
  destruct (PassFacts.claim_pass_spec t root_path dirpath rel_dir filenames lib_entry)
    as (_ & _ & Ha & _).
  unfold scan_dir.
  destruct (claim_pass t root_path dirpath rel_dir filenames lib_entry) as [cl lib1].
  destruct (PassFacts.fold_artifact_step t root_path dirpath rel_dir cl filenames lib1)
    as (Hart & _).
  cbn zeta in Hart. exists cl. rewrite Hart. simpl in Ha. by rewrite Ha.
Qed.

(** Every copy of a scanned library is the entry of a group of matching
    files in one walked directory of one series folder. *)
Lemma scan_library_copies t roots (R : string -> slot -> EpisodeCopy -> Prop) :
  (forall root_path folder dirpath dirs files k e,
      root_path ∈ roots -> folder ∈ series_dirs t root_path ->
      (dirpath, dirs, files) ∈ FS.walk t (FS.resolve root_path ++ [folder]) true ->
      entry_of_group root_path
        (drop (length (FS.resolve root_path ++ [folder])) dirpath)
        (matches_of t dirpath k files) = Some e ->
      R (normalize_name folder) k e) ->
  forall key data k c,
    OD.get key (scan_library roots t) = Some data -> c ∈ copies_of k data -> R key k c.
Proof.
  intros Hstep key data k c Hget.
  revert k c.
  apply (scan_library_inv t roots
           (fun key data => forall k c, c ∈ copies_of k data -> R key k c));
    [|exact Hget].
  intros root_path folder s Hroot Hfolder Hs.
  apply scan_series_inv.
  - intros k c. unfold copies_of, entry0. simpl.
    destruct Hs as [->|Hs]; [by intros ?%elem_of_nil|apply Hs].
  - intros dirpath dirs files s' Hw Hs' k c.
    rewrite scan_dir_copies. intros [Hc|Hc]%elem_of_app; [by apply Hs'|].
    destruct (entry_of_group _ _ _) as [e|] eqn:E; simpl in Hc;
      [|by apply elem_of_nil in Hc].
    apply list_elem_of_singleton in Hc as ->. by eapply Hstep.
Qed.

(** Every artifact of a scanned library is a visible file of one walked
    directory of one series folder. *)
Lemma scan_library_artifacts t roots (R : string -> Artifact -> Prop) :
  (forall root_path folder dirpath dirs files f,
      root_path ∈ roots -> folder ∈ series_dirs t root_path ->
      (dirpath, dirs, files) ∈ FS.walk t (FS.resolve root_path ++ [folder]) true ->
      f ∈ files -> String.prefix "." f = false ->
      R (normalize_name folder)
        (artifact_of t root_path dirpath
           (drop (length (FS.resolve root_path ++ [folder])) dirpath) f)) ->
  forall key data a,
    OD.get key (scan_library roots t) = Some data -> a ∈ artifacts data -> R key a.
Proof.
  intros Hstep key data a Hget.
  revert a.
  apply (scan_library_inv t roots
           (fun key data => forall a, a ∈ artifacts data -> R key a));
    [|exact Hget].
  intros root_path folder s Hroot Hfolder Hs.
  apply scan_series_inv.
  - intros a. unfold entry0. simpl.
    destruct Hs as [->|Hs]; [by intros ?%elem_of_nil|apply Hs].
  - intros dirpath dirs files s' Hw Hs' a.
    destruct (scan_dir_artifacts t root_path dirpath
                (drop (length (FS.resolve root_path ++ [folder])) dirpath) files s')
      as [cl ->].
    intros [Ha|Ha]%elem_of_app; [by apply Hs'|].
    apply list_elem_of_fmap in Ha as (f & -> & Hf).
    unfold kept_files in Hf. apply list_elem_of_filter in Hf as [[_ Hvis] Hf].
    by eapply Hstep.
Qed.

(** The entry of a group: the largest match with the others as its
    companions. *)
Lemma entry_of_group_inv root_path rel_dir g e :
  entry_of_group root_path rel_dir g = Some e ->
  exists cand others,
    cand :: others ≡ₚ g /\
    fm_size cand > MIN_VIDEO_SIZE /\
    (forall m, m ∈ others -> fm_size m <= fm_size cand) /\
    e = mkEpisodeCopy (fm_path cand) (fm_size cand)
          (fm_size cand + sumZ fm_size others) root_path rel_dir
          (map companion_of others).
Proof.
  unfold entry_of_group.
  destruct (sort_desc fm_size g) as [|cand others] eqn:E; [done|].
  destruct (fm_size cand >? MIN_VIDEO_SIZE) eqn:Hsz; [|done].
  intros [= <-]. exists cand, others.
  split; [rewrite <- E; apply sort_desc_perm|].
  split; [lia|]. split; [|done].
  intros m Hm. apply (GroupFacts.sort_desc_head fm_size g cand others E).
  rewrite <- (sort_desc_perm fm_size g), E. by apply list_elem_of_further.
Qed.

Lemma matches_of_elem t dirpath k files m :
  m ∈ matches_of t dirpath k files <->
  exists f, f ∈ files /\ slot_of f = Some k /\ m = file_record t dirpath f.
Proof.
  unfold matches_of. rewrite list_elem_of_fmap. split.
  - intros (f & -> & Hf). apply list_elem_of_filter in Hf as [Hk Hf]. by exists f.
  - intros (f & Hf & Hk & ->). exists f. split; [done|].
    by apply list_elem_of_filter.
Qed.

End InventoryFacts.

Module RecordFacts.
Import InventoryFacts TreeFacts.

(** A match recorded for a walked directory names a file with the recorded
    size. *)
Lemma match_is_file t top b dirpath dirs files k m :
  unique_names t = true ->
  (dirpath, dirs, files) ∈ FS.walk t top b ->
  m ∈ matches_of t dirpath k files ->
  FS.lookup t (fm_path m) = Some (File (fm_size m)).
Proof.
  intros Hu Hw Hm. apply matches_of_elem in Hm as (f & Hf & _ & ->).
  destruct (walk_lists_files _ _ _ _ _ _ _ Hu Hw Hf) as [sz Hsz].
  unfold file_record, get_file_info, FS.getsize. simpl. by rewrite Hsz.
Qed.

Lemma match_path t dirpath k files m :
  m ∈ matches_of t dirpath k files ->
  exists f, fm_path m = dirpath ++ [f] /\ slot_of f = Some k /\ f ∈ files.
Proof.
  intros Hm. apply matches_of_elem in Hm as (f & Hf & Hk & ->). by exists f.
Qed.

Lemma drop_top (top rel : path) : drop (length top) (top ++ rel) = rel.
Proof. by rewrite drop_app_length. Qed.

Lemma total_on_add_total d r n s :
  total_on d (add_total r n s) = total_on d s + (if decide (r = d) then n else 0).
Proof.
  unfold total_on, add_total. simpl. case_decide as E.
  - subst. by rewrite ODFacts.get_upd_eq.
  - rewrite ODFacts.get_upd_ne by done. lia.
Qed.

Lemma held_on_add_total d r n s : held_on d (add_total r n s) = held_on d s.
Proof. done. Qed.

Lemma held_on_add_artifact d a s :
  held_on d (add_artifact a s)
  = held_on d s + (if decide (art_disk a = d) then art_size a else 0).
Proof.
  unfold held_on, add_artifact. simpl.
  rewrite filter_app, GroupFacts.sumZ_app. simpl.
  rewrite filter_cons, filter_nil. case_decide; simpl; lia.
Qed.

Lemma held_on_add_episode d k e s :
  held_on d (add_episode k e s)
  = held_on d s + (if decide (ep_disk e = d) then ep_total_size e else 0).
Proof.
  unfold held_on, add_episode. simpl.
  assert (forall eps : list (slot * list EpisodeCopy),
            sumZ (fun kv : slot * list EpisodeCopy =>
                    sumZ ep_total_size (filter (fun c => ep_disk c = d) kv.2))
              (OD.upd k (fun copies => copies ++ [e]) [] eps)
            = sumZ (fun kv : slot * list EpisodeCopy =>
                      sumZ ep_total_size (filter (fun c => ep_disk c = d) kv.2)) eps
              + (if decide (ep_disk e = d) then ep_total_size e else 0)) as H.
  { assert (sumZ ep_total_size (filter (fun c => ep_disk c = d) [e])
            = if decide (ep_disk e = d) then ep_total_size e else 0) as He.
    { rewrite filter_cons, filter_nil. case_decide; simpl; lia. }
    induction eps as [|[k' cs] eps IH]; simpl.
    - rewrite <- He. simpl. lia.
    - destruct (decide (k' = k)); simpl.
      + rewrite filter_app, GroupFacts.sumZ_app, He. lia.
      + rewrite IH. lia. }
  rewrite H. lia.
Qed.

Lemma total_on_entry0 d root_path folder s :
  total_on d (entry0 root_path folder s) = total_on d s.
Proof.
  unfold total_on, entry0. simpl.
  destruct (decide (root_path = d)) as [->|Hne].
  - by rewrite ODFacts.get_upd_eq.
  - by rewrite ODFacts.get_upd_ne.
Qed.

Lemma process_group_disk t root_path dirpath rel_dir unmatched claimed g cl e :
  process_group t root_path dirpath rel_dir unmatched claimed g = (cl, Some e) ->
  ep_disk e = root_path.
Proof.
  unfold process_group. destruct (sort_desc fm_size g) as [|cand others]; [done|].
  destruct (fm_size cand >? MIN_VIDEO_SIZE); [|done].
  destruct (fold_left _ unmatched _) as [[cl' comps] total].
  by intros [= _ <-].
Qed.

Lemma groups_step_balanced t root_path dirpath rel_dir unmatched st g :
  balanced st.2 ->
  balanced (groups_step t root_path dirpath rel_dir unmatched st g).2.
Proof.
  destruct st as [cl lib]. unfold groups_step. simpl. intros Hb.
  destruct (process_group t root_path dirpath rel_dir unmatched cl g.2)
    as [cl' [e|]] eqn:E; simpl; [|done].
  apply process_group_disk in E. intros d.
  rewrite total_on_add_total, held_on_add_total, held_on_add_episode, E.
  rewrite DirFacts.total_add_episode. rewrite (Hb d). done.
Qed.

Lemma artifact_step_balanced t root_path dirpath rel_dir claimed s f :
  balanced s -> balanced (artifact_step t root_path dirpath rel_dir claimed s f).
Proof.
  intros Hb. unfold artifact_step. case_decide; [done|].
  destruct (String.prefix "." f); [done|]. intros d.
  rewrite total_on_add_total, held_on_add_total, held_on_add_artifact. simpl.
  rewrite DirFacts.total_add_artifact, (Hb d). done.
Qed.

Lemma scan_dir_balanced t root_path dirpath rel_dir filenames s :
  balanced s -> balanced (scan_dir t root_path dirpath rel_dir filenames s).
Proof.
  intros Hb. unfold scan_dir, claim_pass.
  destruct (group_files t dirpath filenames) as [G U].
  pose proof (fold_left_inv (fun st : gset string * Series => balanced st.2)
                (groups_step t root_path dirpath rel_dir U) G
                (fun a x => groups_step_balanced t root_path dirpath rel_dir U a x)
                (∅, s) Hb) as H1.
  destruct (fold_left (groups_step t root_path dirpath rel_dir U) G (∅, s)) as [cl lib1].
  simpl in H1. apply fold_left_inv; [|done].
  intros a f Ha. by apply artifact_step_balanced.
Qed.

End RecordFacts.

(** Every recorded path lies in a series folder of its own root whose name
    normalises to the key of the series, at the recorded relative
    directory: root, folder, relative directory, file name.  Copies and
    their companions carry names that match the slot; artifacts carry
    names that do not start with a dot. *)
Theorem scanned_paths_mirror_folders roots t key data :
  OD.get key (scan_library roots t) = Some data ->
  (forall k c,
      c ∈ copies_of k data ->
      exists folder name,
        ep_disk c ∈ roots /\ folder ∈ series_dirs t (ep_disk c) /\
        normalize_name folder = key /\
        ep_path c = FS.resolve (ep_disk c) ++ folder :: ep_rel_dir c ++ [name] /\
        slot_of name = Some k /\
        forall comp, comp ∈ ep_companions c ->
          exists other,
            comp_path comp = FS.resolve (ep_disk c) ++ folder :: ep_rel_dir c ++ [other] /\
            slot_of other = Some k) /\
  (forall a,
      a ∈ artifacts data ->
      exists folder name,
        art_disk a ∈ roots /\ folder ∈ series_dirs t (art_disk a) /\
        normalize_name folder = key /\
        art_path a = FS.resolve (art_disk a) ++ folder :: art_rel_dir a ++ [name] /\
        String.prefix "." name = false).
Proof.
  intros Hget. split.
  - intros k c Hc. revert key data k c Hget Hc.
    apply (InventoryFacts.scan_library_copies t roots
             (fun key k c =>
                exists folder name,
                  ep_disk c ∈ roots /\ folder ∈ series_dirs t (ep_disk c) /\
                  normalize_name folder = key /\
                  ep_path c = FS.resolve (ep_disk c) ++ folder :: ep_rel_dir c ++ [name] /\
                  slot_of name = Some k /\
                  forall comp, comp ∈ ep_companions c ->
                    exists other,
                      comp_path comp
                      = FS.resolve (ep_disk c) ++ folder :: ep_rel_dir c ++ [other] /\
                      slot_of other = Some k)).
    intros root_path folder dirpath dirs files k e Hroot Hfolder Hw He.
    apply TreeFacts.walk_below in Hw as [rel ->].
    rewrite RecordFacts.drop_top in He.
    apply InventoryFacts.entry_of_group_inv in He as (cand & others & Hp & _ & _ & ->).
    simpl.
    assert (forall m, m ∈ cand :: others ->
              exists f, fm_path m = FS.resolve root_path ++ folder :: rel ++ [f] /\
                        slot_of f = Some k) as Hall.
    { intros m Hm. rewrite Hp in Hm.
      apply RecordFacts.match_path in Hm as (f & -> & Hk & _).
      exists f. split; [|done]. rewrite <- !app_assoc. done. }
    destruct (Hall cand) as (f & Hf & Hk); [apply list_elem_of_here|].
    exists folder, f. repeat split; try done.
    intros comp Hcomp. apply list_elem_of_fmap in Hcomp as (m & -> & Hm). simpl.
    apply Hall. by apply list_elem_of_further.
  - intros a Ha. revert key data a Hget Ha.
    apply (InventoryFacts.scan_library_artifacts t roots
             (fun key a =>
                exists folder name,
                  art_disk a ∈ roots /\ folder ∈ series_dirs t (art_disk a) /\
                  normalize_name folder = key /\
                  art_path a = FS.resolve (art_disk a) ++ folder :: art_rel_dir a ++ [name] /\
                  String.prefix "." name = false)).
    intros root_path folder dirpath dirs files f Hroot Hfolder Hw Hf Hvis.
    apply TreeFacts.walk_below in Hw as [rel ->].
    rewrite RecordFacts.drop_top. unfold artifact_of. simpl.
    exists folder, f. repeat split; try done. by rewrite <- !app_assoc.
Qed.

Lemma scanned_paths_mirror_folders_witness :
  OD.get "bar" (scan_library ["/A"; "/B"] srt_tree) = Some srt_series /\
  forall a,
    a ∈ artifacts srt_series ->
    exists folder name,
      art_disk a ∈ ["/A"; "/B"] /\ folder ∈ series_dirs srt_tree (art_disk a) /\
      normalize_name folder = "bar" /\
      art_path a = FS.resolve (art_disk a) ++ folder :: art_rel_dir a ++ [name] /\
      String.prefix "." name = false.
Proof.
  assert (OD.get "bar" (scan_library ["/A"; "/B"] srt_tree) = Some srt_series) as H
    by (vm_compute; reflexivity).
  split; [exact H|].
  exact (proj2 (scanned_paths_mirror_folders ["/A"; "/B"] srt_tree "bar" srt_series H)).
Defined.

(** No copy is recorded for a file at or below the size threshold; the
    aggregate size of a copy is its own size plus the sizes of its
    companions, none of which is larger than the copy. *)
Theorem scanned_copies_exceed_threshold roots t key data k c :
  OD.get key (scan_library roots t) = Some data ->
  c ∈ copies_of k data ->
  ep_size c > MIN_VIDEO_SIZE /\
  ep_total_size c = ep_size c + sumZ comp_size (ep_companions c) /\
  Forall (fun comp => comp_size comp <= ep_size c) (ep_companions c).
Proof.
  intros Hget Hc. revert key data k c Hget Hc.
  apply (InventoryFacts.scan_library_copies t roots
           (fun _ _ c =>
              ep_size c > MIN_VIDEO_SIZE /\
              ep_total_size c = ep_size c + sumZ comp_size (ep_companions c) /\
              Forall (fun comp => comp_size comp <= ep_size c) (ep_companions c))).
  intros root_path folder dirpath dirs files k e _ _ _ He.
  apply InventoryFacts.entry_of_group_inv in He as (cand & others & _ & Hsz & Hle & ->).
  simpl. split; [done|]. split.
  - by rewrite GroupFacts.sumZ_map.
  - apply Forall_map, Forall_forall. intros m Hm. simpl. by apply Hle.
Qed.

Lemma scanned_copies_exceed_threshold_witness :
  let c := mkEpisodeCopy ["A"; "Bar"; "S1"; "Bar.S01E01.mkv"] (100 * MiB) (100 * MiB + 10)
             "/A" ["S1"] [mkCompanion ["A"; "Bar"; "S1"; "Bar.S01E01.srt"] 10] in
  OD.get "bar" (scan_library ["/A"; "/B"] srt_tree) = Some srt_series /\
  c ∈ copies_of (1%N, 1%N) srt_series /\
  ep_size c > MIN_VIDEO_SIZE /\
  ep_total_size c = ep_size c + sumZ comp_size (ep_companions c).
Proof.
  intros c.
  assert (OD.get "bar" (scan_library ["/A"; "/B"] srt_tree) = Some srt_series) as H1
    by (vm_compute; reflexivity).
  assert (c ∈ copies_of (1%N, 1%N) srt_series) as H2
    by (vm_compute; apply list_elem_of_here).
  split; [exact H1|]. split; [exact H2|].
  destruct (scanned_copies_exceed_threshold ["/A"; "/B"] srt_tree "bar" srt_series
              (1%N, 1%N) c H1 H2) as (Ha & Hb & _).
  split; [exact Ha|exact Hb].
Defined.

(** The total recorded for a root is what the inventory holds on that root:
    the aggregate sizes of the copies recorded there plus the sizes of the
    artifacts recorded there (and zero for a root the series was not found
    on). *)
Theorem recorded_total_is_what_is_held roots t key data d :
  OD.get key (scan_library roots t) = Some data ->
  total_on d data = held_on d data.
Proof.
  intros Hget. revert d.
  refine (InventoryFacts.scan_library_inv t roots (fun _ s => balanced s) _ key data Hget).
  intros root_path folder s _ _ Hs.
  apply InventoryFacts.scan_series_inv.
  - intros d. rewrite RecordFacts.total_on_entry0.
    destruct Hs as [->|Hs]; [done|]. apply Hs.
  - intros dirpath dirs files s' _. apply RecordFacts.scan_dir_balanced.
Qed.

Lemma recorded_total_is_what_is_held_witness :
  OD.get "bar" (scan_library ["/A"; "/B"] srt_tree) = Some srt_series /\
  total_on "/A" srt_series = 100 * MiB + 10 /\
  held_on "/A" srt_series = 100 * MiB + 10.
Proof.
  assert (OD.get "bar" (scan_library ["/A"; "/B"] srt_tree) = Some srt_series) as H
    by (vm_compute; reflexivity).
  split; [exact H|].
  rewrite <- (recorded_total_is_what_is_held ["/A"; "/B"] srt_tree "bar" srt_series "/A" H).
  split; vm_compute; reflexivity.
Defined.

(* ===================================================================== *)
(** * Series, roots and folder names *)
(* ===================================================================== *)

Module RootFacts.
Import ODFacts InventoryFacts.

Lemma scan_dir_inv (Q : Series -> Prop) t root_path dirpath rel_dir filenames s :
  (forall s n, Q s -> Q (add_total root_path n s)) ->
  (forall s k e, Q s -> Q (add_episode k e s)) ->
  (forall s a, Q s -> Q (add_artifact a s)) ->
  Q s -> Q (scan_dir t root_path dirpath rel_dir filenames s).
Proof.
  intros Ht He Ha Hs. unfold scan_dir, claim_pass.
  destruct (group_files t dirpath filenames) as [G U].
  assert (Q (fold_left (groups_step t root_path dirpath rel_dir U) G (∅, s)).2) as H1.
  { apply (fold_left_inv (fun st : gset string * Series => Q st.2)); [|done].
    intros [cl lib] g Hq. unfold groups_step. simpl in *.
    destruct (process_group t root_path dirpath rel_dir U cl g.2) as [cl' [e|]];
      simpl; auto. }
  destruct (fold_left (groups_step t root_path dirpath rel_dir U) G (∅, s)) as [cl lib1].
  simpl in H1. apply fold_left_inv; [|done].
  intros a f Hq. unfold artifact_step. repeat case_match; auto.
Qed.

Lemma folder_on_add_total d r n s : folder_on d (add_total r n s) = folder_on d s.
Proof.
  unfold folder_on, add_total. simpl.
  destruct (decide (r = d)) as [->|Hne].
  - by rewrite get_upd_eq.
  - by rewrite get_upd_ne.
Qed.

Lemma keys_upd (d : list (string * DiskStat)) k f :
  OD.keys (OD.upd k f new_disk d)
  = if decide (k ∈ OD.keys d) then OD.keys d else OD.keys d ++ [k].
Proof. case_decide; [by apply keys_upd_in | by apply keys_upd_notin]. Qed.

Lemma scan_dir_disks t root_path dirpath rel_dir filenames s :
  root_path ∈ OD.keys (disks s) ->
  let out := scan_dir t root_path dirpath rel_dir filenames s in
  display_name out = display_name s /\
  OD.keys (disks out) = OD.keys (disks s) /\
  forall d, folder_on d out = folder_on d s.
Proof.
  intros Hin out. subst out.
  apply (scan_dir_inv
           (fun s' => display_name s' = display_name s /\
                      OD.keys (disks s') = OD.keys (disks s) /\
                      forall d, folder_on d s' = folder_on d s)); [| | |done].
  - intros s' n (H1 & H2 & H3). split; [done|]. split.
    + unfold add_total. simpl. rewrite keys_upd, H2. by rewrite decide_True.
    + intros d. by rewrite folder_on_add_total.
  - intros s' k e (H1 & H2 & H3). done.
  - intros s' a (H1 & H2 & H3). done.
Qed.

Lemma scan_series_disks t root_path real_root folder s :
  let out := scan_series t root_path real_root folder s in
  display_name out
  = (if name_unset (display_name s) then Some folder else display_name s) /\
  OD.keys (disks out)
  = (if decide (root_path ∈ OD.keys (disks s)) then OD.keys (disks s)
     else OD.keys (disks s) ++ [root_path]) /\
  forall d, folder_on d out = if decide (d = root_path) then folder else folder_on d s.
Proof.
  intros out. subst out.
  assert (OD.keys (disks (entry0 root_path folder s))
          = if decide (root_path ∈ OD.keys (disks s)) then OD.keys (disks s)
            else OD.keys (disks s) ++ [root_path]) as Hk.
  { unfold entry0. simpl. apply keys_upd. }
  assert (root_path ∈ OD.keys (disks (entry0 root_path folder s))) as Hin.
  { rewrite Hk. case_decide; [done|]. apply elem_of_app. right. apply list_elem_of_here. }
  assert (display_name (scan_series t root_path real_root folder s)
          = display_name (entry0 root_path folder s) /\
          OD.keys (disks (scan_series t root_path real_root folder s))
          = OD.keys (disks (entry0 root_path folder s)) /\
          forall d, folder_on d (scan_series t root_path real_root folder s)
                    = folder_on d (entry0 root_path folder s)) as (H1 & H2 & H3).
  { apply (scan_series_inv t root_path real_root folder
             (fun out =>
                display_name out = display_name (entry0 root_path folder s) /\
                OD.keys (disks out) = OD.keys (disks (entry0 root_path folder s)) /\
                forall d, folder_on d out = folder_on d (entry0 root_path folder s))).
    - done.
    - intros dirpath dirs files s' _ (H1 & H2 & H3).
      destruct (scan_dir_disks t root_path dirpath
                  (drop (length (real_root ++ [folder])) dirpath) files s')
        as (G1 & G2 & G3); [by rewrite H2|].
      split; [congruence|]. split; [congruence|]. intros d. by rewrite G3. }
  split; [done|]. split; [congruence|].
  intros d. rewrite H3. unfold folder_on, entry0. simpl.
  destruct (decide (d = root_path)) as [->|Hne].
  - by rewrite get_upd_eq.
  - by rewrite get_upd_ne.
Qed.

Lemma normalize_name_idem x : normalize_name (normalize_name x) = normalize_name x.
Proof.
  unfold normalize_name. rewrite list_ascii_of_string_of_list_ascii.
  by rewrite NamesFacts.normalize_chars_idem.
Qed.

Lemma NoDup_snoc {A} (l : list A) x : NoDup l -> x ∉ l -> NoDup (l ++ [x]).
Proof.
  intros Hl Hx. apply NoDup_app. split; [done|]. split; [|apply NoDup_singleton].
  intros y Hy ->%list_elem_of_singleton. done.
Qed.

(** A step that establishes a property which the later steps keep. *)
Lemma fold_left_reaches {A B} (P : A -> Prop) (f : A -> B -> A) (l : list B) x :
  x ∈ l -> (forall a, P (f a x)) -> (forall a y, P a -> P (f a y)) ->
  forall a, P (fold_left f l a).
Proof.
  intros Hin Hx Hkeep. induction l as [|y l IH]; intros a.
  - by apply elem_of_nil in Hin.
  - simpl. apply elem_of_cons in Hin as [<-|Hin].
    + apply fold_left_inv; [apply Hkeep|apply Hx].
    + by apply IH.
Qed.

Lemma get_upd_other (lib : library) k k0 f :
  k <> k0 -> OD.get k0 (OD.upd k f new_series lib) = OD.get k0 lib.
Proof. apply get_upd_ne. Qed.

Lemma library_roots roots t key data :
  OD.get key (scan_library roots t) = Some data ->
  normalize_name key = key /\
  disks data <> [] /\
  NoDup (OD.keys (disks data)) /\
  (forall d, d ∈ OD.keys (disks data) ->
     d ∈ roots /\
     real_folder (default new_disk (OD.get d (disks data))) ∈ series_dirs t d /\
     normalize_name (real_folder (default new_disk (OD.get d (disks data)))) = key) /\
  (exists root_path folder,
     root_path ∈ roots /\ folder ∈ series_dirs t root_path /\
     normalize_name folder = key /\ display_name data = Some folder).
Proof.
  intros Hget.
  refine (InventoryFacts.scan_library_inv t roots
            (fun key data =>
               normalize_name key = key /\
               disks data <> [] /\
               NoDup (OD.keys (disks data)) /\
               (forall d, d ∈ OD.keys (disks data) ->
                  d ∈ roots /\
                  folder_on d data ∈ series_dirs t d /\
                  normalize_name (folder_on d data) = key) /\
               (exists root_path folder,
                  root_path ∈ roots /\ folder ∈ series_dirs t root_path /\
                  normalize_name folder = key /\ display_name data = Some folder))
            _ key data Hget).
  clear key data Hget.
  intros root_path folder s Hroot Hfolder Hs.
  destruct (scan_series_disks t root_path (FS.resolve root_path) folder s)
    as (H1 & H2 & H3).
  set (out := scan_series t root_path (FS.resolve root_path) folder s) in *.
  assert (NoDup (OD.keys (disks s)) /\
          (forall d, d ∈ OD.keys (disks s) ->
             d ∈ roots /\ folder_on d s ∈ series_dirs t d /\
             normalize_name (folder_on d s) = normalize_name folder) /\
          (name_unset (display_name s) = false ->
           exists root_path folder',
             root_path ∈ roots /\ folder' ∈ series_dirs t root_path /\
             normalize_name folder' = normalize_name folder /\
             display_name s = Some folder')) as (Hnd & Hd & Hn).
  { destruct Hs as [->|(_ & _ & ? & ? & ?)].
    - split; [constructor|]. split; [by intros d ?%elem_of_nil|]. done.
    - done. }
  split; [apply normalize_name_idem|].
  split.
  { intros E. apply (f_equal OD.keys) in E. rewrite H2 in E. simpl in E.
    case_decide as Hin.
    - rewrite E in Hin. by apply elem_of_nil in Hin.
    - by destruct (OD.keys (disks s)). }
  split.
  { rewrite H2. case_decide; [done|]. by apply NoDup_snoc. }
  split.
  { intros d Hin. rewrite H3.
    destruct (decide (d = root_path)) as [->|Hne]; [done|].
    apply Hd. rewrite H2 in Hin. case_decide; [done|].
    apply elem_of_app in Hin as [?|Hx]; [done|].
    by apply list_elem_of_singleton in Hx. }
  rewrite H1. destruct (name_unset (display_name s)) eqn:E.
  - by exists root_path, folder.
  - by apply Hn.
Qed.

End RootFacts.

(** Scanning one series folder of a root keeps the display name unless none
    (or an empty one) was set, in which case the folder gives it; records
    the folder as the folder of the series on this root, replacing an
    earlier one; lists the root once among the roots of the series; and
    leaves the folder recorded for every other root alone. *)
Theorem scan_series_names t root_path real_root folder s :
  let out := scan_series t root_path real_root folder s in
  display_name out
  = (if name_unset (display_name s) then Some folder else display_name s) /\
  OD.keys (disks out)
  = (if decide (root_path ∈ OD.keys (disks s)) then OD.keys (disks s)
     else OD.keys (disks s) ++ [root_path]) /\
  real_folder (default new_disk (OD.get root_path (disks out))) = folder /\
  forall d, d <> root_path ->
    real_folder (default new_disk (OD.get d (disks out)))
    = real_folder (default new_disk (OD.get d (disks s))).
Proof.
  intros out. subst out.
  destruct (RootFacts.scan_series_disks t root_path real_root folder s) as (H1 & H2 & H3).
  split; [done|]. split; [done|]. split.
  - specialize (H3 root_path). rewrite decide_True in H3 by done. exact H3.
  - intros d Hd. specialize (H3 d). rewrite decide_False in H3 by done. exact H3.
Qed.

(** In a scanned library every key is a normalised name; every series is
    found on at least one root and lists each of its roots once; each of
    its roots was given on the command line and the folder recorded for it
    is a series folder of that root whose name normalises to the key; and
    the display name is the name of one such folder. *)
Theorem scanned_series_roots roots t key data :
  OD.get key (scan_library roots t) = Some data ->
  normalize_name key = key /\
  disks data <> [] /\
  NoDup (OD.keys (disks data)) /\
  (forall d, d ∈ OD.keys (disks data) ->
     d ∈ roots /\
     real_folder (default new_disk (OD.get d (disks data))) ∈ series_dirs t d /\
     normalize_name (real_folder (default new_disk (OD.get d (disks data)))) = key) /\
  (exists root_path folder,
     root_path ∈ roots /\ folder ∈ series_dirs t root_path /\
     normalize_name folder = key /\ display_name data = Some folder).
Proof. apply RootFacts.library_roots. Qed.

Lemma scanned_series_roots_witness :
  OD.get "bar" (scan_library ["/A"; "/B"] srt_tree) = Some srt_series /\
  OD.keys (disks srt_series) = ["/A"; "/B"] /\
  NoDup (OD.keys (disks srt_series)).
Proof.
  assert (OD.get "bar" (scan_library ["/A"; "/B"] srt_tree) = Some srt_series) as H
    by (vm_compute; reflexivity).
  split; [exact H|]. split; [vm_compute; reflexivity|].
  exact (proj1 (proj2 (proj2
    (scanned_series_roots ["/A"; "/B"] srt_tree "bar" srt_series H)))).
Defined.

(** A root that is not a directory (missing, or a file) adds nothing to the
    library: the scan goes on with the other roots. *)
Theorem unusable_root_is_skipped t pre r post :
  FS.isdir t (FS.resolve r) = false ->
  scan_library (pre ++ r :: post) t = scan_library (pre ++ post) t.
Proof.
  intros Hd. unfold scan_library. rewrite !fold_left_app. simpl.
  assert (forall lib, scan_root t lib r = lib) as ->; [|done].
  intros lib. rewrite InventoryFacts.scan_root_fold.
  assert (series_dirs t r = []) as ->; [|done].
  unfold series_dirs, FS.listdir. unfold FS.isdir in Hd.
  by destruct (FS.lookup t (FS.resolve r)) as [[sz|es]|].
Qed.

Lemma unusable_root_is_skipped_witness :
  FS.isdir srt_tree (FS.resolve "/missing") = false /\
  scan_library (["/A"] ++ "/missing" :: ["/B"]) srt_tree
  = scan_library (["/A"] ++ ["/B"]) srt_tree.
Proof.
  assert (FS.isdir srt_tree (FS.resolve "/missing") = false) as H by reflexivity.
  split; [exact H|].
  exact (unusable_root_is_skipped srt_tree ["/A"] "/missing" ["/B"] H).
Defined.

(** Every series folder of every root given is in the library, under the
    normalised name of the folder, with that root among its roots. *)
Theorem every_series_folder_is_scanned roots t root_path folder :
  root_path ∈ roots -> folder ∈ series_dirs t root_path ->
  exists data,
    OD.get (normalize_name folder) (scan_library roots t) = Some data /\
    root_path ∈ OD.keys (disks data).
Proof.
  intros Hroot Hfolder. unfold scan_library.
  set (P := fun lib : library =>
              exists data, OD.get (normalize_name folder) lib = Some data /\
                           root_path ∈ OD.keys (disks data)).
  assert (forall lib r f, P lib ->
            P (OD.upd (normalize_name f) (scan_series t r (FS.resolve r) f) new_series lib))
    as Hkeep.
  { intros lib r f (data & Hg & Hin).
    destruct (decide (normalize_name f = normalize_name folder)) as [E|NE].
    - rewrite E. eexists. split; [apply ODFacts.get_upd_eq|].
      rewrite Hg. simpl.
      destruct (RootFacts.scan_series_disks t r (FS.resolve r) f data) as (_ & -> & _).
      case_decide; [done|]. apply elem_of_app. by left.
    - exists data. by rewrite ODFacts.get_upd_ne. }
  apply (RootFacts.fold_left_reaches P (scan_root t) roots root_path Hroot).
  - intros lib. rewrite InventoryFacts.scan_root_fold.
    apply (RootFacts.fold_left_reaches P _ (series_dirs t root_path) folder Hfolder).
    + intros lib'. eexists. split; [apply ODFacts.get_upd_eq|].
      destruct (RootFacts.scan_series_disks t root_path (FS.resolve root_path) folder
                  (default new_series (OD.get (normalize_name folder) lib')))
        as (_ & -> & _).
      case_decide; [done|]. apply elem_of_app. right. apply list_elem_of_here.
    + intros lib' f. apply Hkeep.
  - intros lib r Hp. rewrite InventoryFacts.scan_root_fold.
    apply fold_left_inv; [|done]. intros lib' f. apply Hkeep.
Qed.

Lemma every_series_folder_is_scanned_witness :
  "/B" ∈ ["/A"; "/B"] /\ "bar" ∈ series_dirs srt_tree "/B" /\
  exists data,
    OD.get (normalize_name "bar") (scan_library ["/A"; "/B"] srt_tree) = Some data /\
    "/B" ∈ OD.keys (disks data).
Proof.
  assert ("/B" ∈ ["/A"; "/B"]) as H1
    by (apply list_elem_of_further, list_elem_of_here).
  assert ("bar" ∈ series_dirs srt_tree "/B") as H2
    by (vm_compute; apply list_elem_of_here).
  split; [exact H1|]. split; [exact H2|].
  exact (every_series_folder_is_scanned ["/A"; "/B"] srt_tree "/B" "bar" H1 H2).
Defined.

(* ===================================================================== *)
(** * When the platform primitives succeed *)
(* ===================================================================== *)

Module PlatformFacts.
Import FS FSFacts MoveFacts CleanerFacts.

Lemma put_same x c es : assoc x es = Some c -> put x c es = es.
Proof.
  induction es as [|[k v] es IH]; simpl; [done|].
  destruct (decide (k = x)) as [->|Hne].
  - by intros [= ->].
  - intros H. by rewrite IH.
Qed.

Lemma makedirs_existing p : forall t, isdir t p = true -> makedirs p t = Some t.
Proof.
  unfold isdir. induction p as [|x p IH]; intros t Hd.
  - simpl in Hd. by destruct t.
  - destruct t as [sz|es]; simpl in *; [done|].
    destruct (assoc x es) as [c|] eqn:E; [|done]. simpl.
    rewrite (IH c Hd). simpl. by rewrite put_same.
Qed.

Lemma makedirs_isdir p : forall t t', makedirs p t = Some t' -> isdir t' p = true.
Proof.
  unfold isdir. induction p as [|x p IH]; intros t t' Hm.
  - destruct t; simpl in Hm; by simplify_eq.
  - destruct t as [sz|es]; simpl in Hm; [done|].
    destruct (makedirs p (default (Dir []) (assoc x es))) as [c'|] eqn:Ec;
      simpl in Hm; [|done].
    injection Hm as <-. simpl. rewrite assoc_put_eq. by eapply IH.
Qed.

(** [os.makedirs] fails only on a file in the way. *)
Lemma makedirs_succeeds p : forall t,
  (forall q sz, q `prefix_of` p -> lookup t q <> Some (File sz)) ->
  is_Some (makedirs p t).
Proof.
  induction p as [|x p IH]; intros t Hfree.
  - destruct t as [sz|es]; simpl; [|by eexists].
    exfalso. by apply (Hfree [] sz).
  - destruct t as [sz|es]; simpl.
    { exfalso. apply (Hfree [] sz); [apply prefix_nil|done]. }
    destruct (IH (default (Dir []) (assoc x es))) as [c' Hc'].
    { intros q sz Hq Hl. destruct (assoc x es) as [c|] eqn:E; simpl in Hl.
      - apply (Hfree (x :: q) sz); [by apply prefix_cons|]. simpl. by rewrite E.
      - by destruct q. }
    rewrite Hc'. simpl. by eexists.
Qed.

Lemma with_dir_ext d k1 k2 : forall t,
  (forall es, lookup t d = Some (Dir es) -> k1 es = k2 es) ->
  with_dir d k1 t = with_dir d k2 t.
Proof.
  induction d as [|x d IH]; intros t Hk.
  - destruct t as [sz|es]; simpl; [done|]. by rewrite (Hk es).
  - destruct t as [sz|es]; simpl; [done|].
    destruct (assoc x es) as [c|] eqn:E; simpl; [|done].
    rewrite (IH c); [done|]. intros es' Hl. apply Hk. simpl. by rewrite E.
Qed.

(** Unlinking a file is removing it. *)
Lemma unlink_file t d x sz :
  lookup t (d ++ [x]) = Some (File sz) ->
  unlink_entry (d ++ [x]) t = remove t (d ++ [x]).
Proof.
  intros Hl. unfold unlink_entry, remove. rewrite split_last_snoc. simpl.
  apply with_dir_ext. intros es Hd.
  rewrite lookup_app, Hd in Hl. simpl in Hl.
  by destruct (assoc x es) as [[sz'|]|].
Qed.

Lemma parent_is_dir t d x n : lookup t (d ++ [x]) = Some n -> isdir t d = true.
Proof.
  unfold isdir. rewrite lookup_app.
  destruct (lookup t d) as [[sz|es]|]; simpl; done.
Qed.

Lemma isdir_lookup t q : isdir t q = true <-> exists es, lookup t q = Some (Dir es).
Proof.
  unfold isdir. destruct (lookup t q) as [[sz|es]|]; split; try done.
  - by intros [? ?].
  - by eexists.
  - by intros [? ?].
Qed.

Lemma remove_keeps_dir t p t' q :
  remove t p = Some t' -> isdir t q = true -> isdir t' q = true.
Proof.
  intros Hr Hq.
  destruct (remove_was_file t p t' Hr) as [sz Hp].
  destruct (decide (q `prefix_of` p)) as [Hpre|Hpre].
  - assert (q <> p) as Hne.
    { intros ->. apply isdir_lookup in Hq as [es Hes]. congruence. }
    unfold remove in Hr.
    destruct (split_last p) as [[d name]|] eqn:Es; simpl in Hr; [|done].
    apply split_last_Some in Es. subst p.
    apply with_dir_inv in Hr as (es & es' & H1 & H2 & H3).
    assert (q `prefix_of` d) as [r ->].
    { destruct Hpre as [r Hr]. destruct (decide (r = [])) as [->|Hnil].
      - rewrite app_nil_r in Hr. by subst.
      - destruct (exists_last Hnil) as (r' & y & ->).
        rewrite app_assoc in Hr. apply app_inj_tail in Hr as [-> _].
        by exists r'. }
    apply isdir_lookup. rewrite lookup_app in H3.
    destruct (lookup t' q) as [[sz'|es0]|]; simpl in H3; [|by eexists|done].
    destruct r; simpl in H3; [done|done].
  - unfold isdir in *. by rewrite (remove_lookup t p t' q Hr Hpre).
Qed.

Lemma link_succeeds t d x n : isdir t d = true -> is_Some (link_entry (d ++ [x]) n t).
Proof.
  intros Hd. apply isdir_lookup in Hd as [es Hes].
  unfold link_entry. rewrite split_last_snoc. simpl.
  by eapply with_dir_succeeds.
Qed.

Lemma link_lookup_other t d x n t' q :
  link_entry (d ++ [x]) n t = Some t' ->
  lookup t (d ++ [x]) = None ->
  ~ q `prefix_of` d -> ~ (d ++ [x]) `prefix_of` q ->
  lookup t' q = lookup t q.
Proof.
  unfold link_entry. rewrite split_last_snoc. simpl. intros Hw Hfree Hpre Hnot.
  eapply with_dir_lookup; [exact Hw | done |].
  intros es es' y q' Hd Hk ->. injection Hk as <-. simpl.
  destruct (decide (x = y)) as [->|Hxy].
  - exfalso. apply Hnot. exists q'. by rewrite <- app_assoc.
  - by rewrite assoc_put_ne.
Qed.

Lemma link_keeps_file t d x n t' q sz :
  link_entry (d ++ [x]) n t = Some t' ->
  lookup t (d ++ [x]) = None ->
  lookup t q = Some (File sz) -> lookup t' q = Some (File sz).
Proof.
  intros Hw Hfree Hq. rewrite <- Hq.
  eapply link_lookup_other; [exact Hw | done | |].
  - intros Hpre.
    assert (isdir t d = true) as Hd.
    { unfold link_entry in Hw. rewrite split_last_snoc in Hw. simpl in Hw.
      apply with_dir_inv in Hw as (es & _ & Hl & _). apply isdir_lookup. by eexists. }
    apply isdir_lookup in Hd as [es Hes].
    destruct (decide (q = d)) as [->|Hne]; [congruence|].
    destruct (lookup_prefix_dir t d q _ Hes Hpre Hne) as [es' Hes']. congruence.
  - intros [r ->]. rewrite lookup_app, Hfree in Hq. done.
Qed.

Lemma link_keeps_dir t d x n t' q :
  link_entry (d ++ [x]) n t = Some t' ->
  lookup t (d ++ [x]) = None ->
  isdir t q = true -> isdir t' q = true.
Proof.
  intros Hw Hfree Hq.
  destruct (decide (q `prefix_of` d)) as [[r ->]|Hpre].
  - unfold link_entry in Hw. rewrite split_last_snoc in Hw. simpl in Hw.
    apply with_dir_inv in Hw as (es & es' & H1 & H2 & H3).
    apply isdir_lookup. rewrite lookup_app in H3.
    destruct (lookup t' q) as [[sz'|es0]|]; simpl in H3; [|by eexists|done].
    by destruct r.
  - unfold isdir in *. rewrite (link_lookup_other t d x n t' q Hw Hfree Hpre); [done|].
    intros [r ->]. rewrite lookup_app, Hfree in Hq. done.
Qed.

(** [shutil.move] of a file to a free name in an existing directory. *)
Lemma move_file_succeeds t d x dd y sz :
  lookup t (d ++ [x]) = Some (File sz) ->
  lookup t (dd ++ [y]) = None ->
  isdir t dd = true ->
  exists t',
    move t (d ++ [x]) (dd ++ [y]) = Some t' /\
    lookup t' (dd ++ [y]) = Some (File sz) /\
    lookup t' (d ++ [x]) = None /\
    (forall q sz', q <> d ++ [x] -> lookup t q = Some (File sz') ->
       lookup t' q = Some (File sz')) /\
    (forall q, q <> dd ++ [y] -> lookup t q = None -> lookup t' q = None) /\
    (forall q, isdir t q = true -> isdir t' q = true).
Proof.
  intros Hsrc Hfree Hdd.
  assert (d ++ [x] <> dd ++ [y]) as Hne by (intros E; congruence).
  assert (isdir t (dd ++ [y]) = false) as Hnd by (unfold isdir; by rewrite Hfree).
  destruct (remove_succeeds t d x sz Hsrc) as [t1 Hrm].
  assert (unlink_entry (d ++ [x]) t = Some t1) as Hun
    by (by rewrite (unlink_file t d x sz Hsrc)).
  assert (lookup t1 (dd ++ [y]) = None) as Hfree1
    by (by eapply remove_keeps_none).
  destruct (link_succeeds t1 dd y (File sz)) as [t' Hl];
    [by eapply remove_keeps_dir|].
  exists t'.
  assert (move t (d ++ [x]) (dd ++ [y]) = Some t') as Hmv.
  { unfold move. rewrite Hsrc, Hnd. simpl. rewrite decide_False by done.
    rewrite Hun. simpl. exact Hl. }
  split; [exact Hmv|].
  destruct (move_file t d x dd y sz t' Hsrc Hnd Hne Hmv) as [H1 H2].
  split; [exact H1|]. split; [exact H2|]. split; [|split].
  - intros q sz' Hq Hl'. eapply link_keeps_file; [exact Hl | done |].
    by eapply remove_keeps_file.
  - intros q Hq Hn. eapply link_keeps_none; [exact Hl | done |].
    by eapply remove_keeps_none.
  - intros q Hq. eapply link_keeps_dir; [exact Hl | done |].
    by eapply remove_keeps_dir.
Qed.

Lemma makedirs_keeps_none p t t' q :
  makedirs p t = Some t' -> ~ q `prefix_of` p -> lookup t q = None -> lookup t' q = None.
Proof. intros Hm Hpre Hq. by rewrite (makedirs_lookup p t t' q Hm Hpre). Qed.

Lemma makedirs_keeps_dir p : forall t t' q,
  makedirs p t = Some t' -> isdir t q = true -> isdir t' q = true.
Proof.
  unfold isdir. induction p as [|x p IH]; intros t t' q Hm Hq.
  - destruct t; simpl in Hm; by simplify_eq.
  - destruct t as [sz0|es]; simpl in Hm; [done|].
    destruct (makedirs p (default (Dir []) (assoc x es))) as [c'|] eqn:Ec;
      simpl in Hm; [|done].
    injection Hm as <-. destruct q as [|y q']; [done|].
    simpl in *. destruct (decide (x = y)) as [->|Hne].
    + rewrite assoc_put_eq. destruct (assoc y es) as [c0|]; [|done].
      simpl in Ec. by eapply IH.
    + by rewrite assoc_put_ne.
Qed.

End PlatformFacts.

(* ===================================================================== *)
(** * The action functions in live mode *)
(* ===================================================================== *)

Module ActionFacts.
Import FS FSFacts MoveFacts CleanerFacts TransferFacts PlatformFacts.

Lemma makedirs_blocked p : forall t q sz,
  q `prefix_of` p -> lookup t q = Some (File sz) -> makedirs p t = None.
Proof.
  induction p as [|x p IH]; intros t q sz Hq Hl.
  - apply prefix_nil_inv in Hq as ->. simpl in Hl. by injection Hl as ->.
  - destruct t as [sz0|es]; simpl; [done|].
    destruct q as [|y q]; [done|].
    apply prefix_cons_inv_1 in Hq as Hxy. apply prefix_cons_inv_2 in Hq as Hq'.
    subst y. simpl in Hl.
    destruct (assoc x es) as [c|] eqn:E; [|done]. simpl.
    by rewrite (IH c q sz Hq' Hl).
Qed.

(** The tree after the [try] body of a live [safe_move] that found the
    source and a free destination name. *)
Lemma do_move_succeeds d x dest_dir sz t :
  lookup t (d ++ [x]) = Some (File sz) ->
  lookup t (dest_dir ++ [x]) = None ->
  (forall q sz', q `prefix_of` dest_dir -> lookup t q <> Some (File sz')) ->
  exists t',
    do_move (d ++ [x]) dest_dir (dest_dir ++ [x]) t = (Some t', t') /\
    lookup t' (dest_dir ++ [x]) = Some (File sz) /\
    lookup t' (d ++ [x]) = None /\
    isdir t' dest_dir = true /\
    (forall q sz', q <> d ++ [x] -> lookup t q = Some (File sz') ->
       lookup t' q = Some (File sz')) /\
    (forall q, isdir t q = true -> isdir t' q = true).
Proof.
  intros Hsrc Hfree Hway.
  destruct (makedirs_succeeds dest_dir t Hway) as [t1 Hm].
  pose proof (makedirs_keeps_file _ _ _ _ _ Hm Hsrc) as Hsrc1.
  assert (lookup t1 (dest_dir ++ [x]) = None) as Hfree1.
  { eapply makedirs_keeps_none; [exact Hm | apply snoc_not_prefix | done]. }
  pose proof (makedirs_isdir _ _ _ Hm) as Hdir1.
  destruct (move_file_succeeds t1 d x dest_dir x sz Hsrc1 Hfree1 Hdir1)
    as (t' & Hmv & H1 & H2 & H3 & H4 & H5).
  exists t'. unfold do_move. rewrite Hm, Hmv.
  split; [done|]. split; [done|]. split; [done|]. split; [by apply H5|].
  split.
  - intros q sz' Hq Hl. apply H3; [done|]. by eapply makedirs_keeps_file.
  - intros q Hq. apply H5. by eapply makedirs_keeps_dir.
Qed.

Lemma force_move_live d x dest_dir sz t :
  lookup t (d ++ [x]) = Some (File sz) ->
  d <> dest_dir ->
  isdir t (dest_dir ++ [x]) = false ->
  (forall q sz', q `prefix_of` dest_dir -> lookup t q <> Some (File sz')) ->
  let r := force_move (d ++ [x]) dest_dir false t in
  result_of r = Some true /\
  log_of r = [EvMerged (d ++ [x]) dest_dir] /\
  lookup (tree_of r) (dest_dir ++ [x]) = Some (File sz) /\
  lookup (tree_of r) (d ++ [x]) = None /\
  (forall q sz', q <> d ++ [x] -> q <> dest_dir ++ [x] ->
     lookup t q = Some (File sz') -> lookup (tree_of r) q = Some (File sz')).
Proof.
  intros Hsrc Hd Hnd Hway r. subst r.
  assert (d ++ [x] <> dest_dir ++ [x]) as Hne.
  { intros E. by apply app_inj_tail in E as [? _]. }
  unfold force_move, exists_. rewrite Hsrc, basename_snoc. simpl.
  unfold do_merge.
  destruct (makedirs_succeeds dest_dir t Hway) as [t1 Hm]. rewrite Hm.
  pose proof (makedirs_keeps_file _ _ _ _ _ Hm Hsrc) as Hsrc1.
  pose proof (makedirs_isdir _ _ _ Hm) as Hdir1.
  assert (lookup t1 (dest_dir ++ [x]) = lookup t (dest_dir ++ [x])) as Hsame.
  { eapply makedirs_lookup; [exact Hm | apply snoc_not_prefix]. }
  unfold exists_. rewrite Hsame.
  destruct (lookup t (dest_dir ++ [x])) as [[sz0|es]|] eqn:Hdst.
  - destruct (remove_succeeds t1 dest_dir x sz0 Hsame) as [t2 Hrm].
    rewrite Hrm.
    pose proof (remove_gone _ _ _ Hrm) as Hgone.
    pose proof (remove_keeps_file _ _ _ _ _ Hrm Hne Hsrc1) as Hsrc2.
    pose proof (remove_keeps_dir _ _ _ _ Hrm Hdir1) as Hdir2.
    destruct (move_file_succeeds t2 d x dest_dir x sz Hsrc2 Hgone Hdir2)
      as (t' & -> & H1 & H2 & H3 & _).
    unfold result_of, log_of, tree_of. simpl. repeat split; try done.
    intros q sz' Hq1 Hq2 Hl. apply H3; [done|].
    eapply remove_keeps_file; [exact Hrm | done |].
    by eapply makedirs_keeps_file.
  - unfold isdir in Hnd. by rewrite Hdst in Hnd.
  - destruct (move_file_succeeds t1 d x dest_dir x sz Hsrc1 Hsame Hdir1)
      as (t' & -> & H1 & H2 & H3 & _).
    unfold result_of, log_of, tree_of. simpl. repeat split; try done.
    intros q sz' Hq1 Hq2 Hl. apply H3; [done|].
    by eapply makedirs_keeps_file.
Qed.

End ActionFacts.

(** A live [safe_move] of a file to a directory where its name is free:
    if no component of the directory path is a file, the move succeeds, the
    file is at the destination with its size, the source is gone, the
    destination directory exists, every other file is where and what it
    was, and no directory disappears; if a file is in the way of the
    directory path, the call reports a critical error, returns [False] and
    changes nothing. *)
Theorem safe_move_succeeds d x dest_dir sz t :
  FS.lookup t (d ++ [x]) = Some (File sz) ->
  FS.lookup t (dest_dir ++ [x]) = None ->
  let r := safe_move (d ++ [x]) dest_dir false t in
  ((forall q sz', q `prefix_of` dest_dir -> FS.lookup t q <> Some (File sz')) ->
   result_of r = Some true /\
   log_of r = [EvMoved (d ++ [x]) (dest_dir ++ [x])] /\
   FS.lookup (tree_of r) (dest_dir ++ [x]) = Some (File sz) /\
   FS.lookup (tree_of r) (d ++ [x]) = None /\
   FS.isdir (tree_of r) dest_dir = true /\
   (forall q sz', q <> d ++ [x] -> FS.lookup t q = Some (File sz') ->
      FS.lookup (tree_of r) q = Some (File sz')) /\
   (forall q, FS.isdir t q = true -> FS.isdir (tree_of r) q = true)) /\
  ((exists q sz', q `prefix_of` dest_dir /\ FS.lookup t q = Some (File sz')) ->
   r = (Some false, t, [EvCritical (d ++ [x])])).
Proof.
  intros Hsrc Hfree r. subst r.
  unfold safe_move, FS.exists_. rewrite Hsrc, TransferFacts.basename_snoc, Hfree. simpl.
  split.
  - intros Hway.
    destruct (ActionFacts.do_move_succeeds d x dest_dir sz t Hsrc Hfree Hway)
      as (t' & -> & H1 & H2 & H3 & H4 & H5).
    by unfold result_of, log_of, tree_of.
  - intros (q & sz' & Hq & Hl). unfold do_move.
    by rewrite (ActionFacts.makedirs_blocked dest_dir t q sz' Hq Hl).
Qed.

Lemma safe_move_succeeds_witness :
  FS.lookup blocked_tree (["A"; "Baz"] ++ ["Baz.S01E02.mkv"]) = Some (File (110 * MiB)) /\
  FS.lookup blocked_tree (["B"; "Baz"] ++ ["Baz.S01E02.mkv"]) = None /\
  (forall q sz', q `prefix_of` ["B"; "Baz"] -> FS.lookup blocked_tree q <> Some (File sz')) /\
  FS.lookup (tree_of (safe_move (["A"; "Baz"] ++ ["Baz.S01E02.mkv"]) ["B"; "Baz"] false
                        blocked_tree))
    (["B"; "Baz"] ++ ["Baz.S01E02.mkv"]) = Some (File (110 * MiB)).
Proof.
  assert (FS.lookup blocked_tree (["A"; "Baz"] ++ ["Baz.S01E02.mkv"])
          = Some (File (110 * MiB))) as H1 by reflexivity.
  assert (FS.lookup blocked_tree (["B"; "Baz"] ++ ["Baz.S01E02.mkv"]) = None) as H2
    by reflexivity.
  assert (forall q sz', q `prefix_of` ["B"; "Baz"] ->
            FS.lookup blocked_tree q <> Some (File sz')) as H3.
  { intros q sz' [r Hr].
    destruct q as [|a [|b [|c q]]]; simpl in Hr; simplify_eq; vm_compute; discriminate. }
  split; [exact H1|]. split; [exact H2|]. split; [exact H3|].
  exact (proj1 (proj2 (proj2
    (proj1 (safe_move_succeeds ["A"; "Baz"] "Baz.S01E02.mkv" ["B"; "Baz"] (110 * MiB)
              blocked_tree H1 H2) H3)))).
Defined.

(** A live [force_move] of a file into another directory, where its name
    is free or names a file: if no component of the directory path is a
    file, the call succeeds, the destination holds the moved file (whatever
    file was there is replaced), the source is gone and every file other
    than these two is where and what it was. *)
Theorem force_move_replaces d x dest_dir sz t :
  FS.lookup t (d ++ [x]) = Some (File sz) ->
  d <> dest_dir ->
  FS.isdir t (dest_dir ++ [x]) = false ->
  (forall q sz', q `prefix_of` dest_dir -> FS.lookup t q <> Some (File sz')) ->
  let r := force_move (d ++ [x]) dest_dir false t in
  result_of r = Some true /\
  log_of r = [EvMerged (d ++ [x]) dest_dir] /\
  FS.lookup (tree_of r) (dest_dir ++ [x]) = Some (File sz) /\
  FS.lookup (tree_of r) (d ++ [x]) = None /\
  (forall q sz', q <> d ++ [x] -> q <> dest_dir ++ [x] ->
     FS.lookup t q = Some (File sz') -> FS.lookup (tree_of r) q = Some (File sz')).
Proof. apply ActionFacts.force_move_live. Qed.

Lemma force_move_replaces_witness :
  let t := tree_of (safe_move ["A"; "Bar"; "S1"; "Bar.S01E01.mkv"] ["B"; "bar"; "S1"]
                      false srt_tree) in
  FS.lookup t (["A"; "Bar"; "S1"] ++ ["Bar.S01E01.srt"]) = Some (File 10) /\
  FS.lookup t (["B"; "bar"; "S1"] ++ ["Bar.S01E01.srt"]) = Some (File 20) /\
  FS.lookup (tree_of (force_move (["A"; "Bar"; "S1"] ++ ["Bar.S01E01.srt"])
                        ["B"; "bar"; "S1"] false t))
    (["B"; "bar"; "S1"] ++ ["Bar.S01E01.srt"]) = Some (File 10).
Proof.
  intros t.
  assert (FS.lookup t (["A"; "Bar"; "S1"] ++ ["Bar.S01E01.srt"]) = Some (File 10)) as H1
    by (vm_compute; reflexivity).
  assert (FS.lookup t (["B"; "bar"; "S1"] ++ ["Bar.S01E01.srt"]) = Some (File 20)) as H0
    by (vm_compute; reflexivity).
  assert (["A"; "Bar"; "S1"] <> ["B"; "bar"; "S1"]) as H2 by discriminate.
  assert (FS.isdir t (["B"; "bar"; "S1"] ++ ["Bar.S01E01.srt"]) = false) as H3
    by (vm_compute; reflexivity).
  assert (forall q sz', q `prefix_of` ["B"; "bar"; "S1"] ->
            FS.lookup t q <> Some (File sz')) as H4.
  { intros q sz' [r Hr].
    destruct q as [|a [|b [|c [|e q]]]]; simpl in Hr; simplify_eq; vm_compute; discriminate. }
  split; [exact H1|]. split; [exact H0|].
  exact (proj1 (proj2 (proj2
    (force_move_replaces ["A"; "Bar"; "S1"] "Bar.S01E01.srt" ["B"; "bar"; "S1"] 10 t
       H1 H2 H3 H4)))).
Defined.

(** A live [force_move] of a file into the directory it is already in
    destroys it: the destination, which is the file itself, is removed
    first, the move then fails, and the call returns [False] after
    reporting an error.  [safe_move] refuses the same call and changes
    nothing. *)
Theorem force_move_onto_itself d x sz t :
  FS.lookup t (d ++ [x]) = Some (File sz) ->
  result_of (force_move (d ++ [x]) d false t) = Some false /\
  log_of (force_move (d ++ [x]) d false t) = [EvErrMoving (d ++ [x])] /\
  FS.lookup (tree_of (force_move (d ++ [x]) d false t)) (d ++ [x]) = None /\
  safe_move (d ++ [x]) d false t = (Some false, t, [EvAbortCollision (d ++ [x])]).
Proof.
  intros Hsrc.
  assert (safe_move (d ++ [x]) d false t = (Some false, t, [EvAbortCollision (d ++ [x])]))
    as Hsafe.
  { unfold safe_move, FS.exists_. by rewrite TransferFacts.basename_snoc, Hsrc. }
  unfold force_move, FS.exists_. rewrite Hsrc, TransferFacts.basename_snoc. simpl.
  unfold do_merge.
  rewrite (PlatformFacts.makedirs_existing d t (PlatformFacts.parent_is_dir t d x _ Hsrc)).
  unfold FS.exists_. rewrite Hsrc.
  destruct (CleanerFacts.remove_succeeds t d x sz Hsrc) as [t2 Hrm]. rewrite Hrm.
  pose proof (FSFacts.remove_gone _ _ _ Hrm) as Hgone.
  unfold FS.move. rewrite Hgone. simpl.
  by unfold result_of, log_of, tree_of.
Qed.

Lemma force_move_onto_itself_witness :
  FS.lookup srt_tree (["A"; "Bar"; "S1"] ++ ["Bar.S01E01.srt"]) = Some (File 10) /\
  FS.lookup (tree_of (force_move (["A"; "Bar"; "S1"] ++ ["Bar.S01E01.srt"])
                        ["A"; "Bar"; "S1"] false srt_tree))
    (["A"; "Bar"; "S1"] ++ ["Bar.S01E01.srt"]) = None.
Proof.
  assert (FS.lookup srt_tree (["A"; "Bar"; "S1"] ++ ["Bar.S01E01.srt"]) = Some (File 10))
    as H by reflexivity.
  split; [exact H|].
  exact (proj1 (proj2 (proj2
    (force_move_onto_itself ["A"; "Bar"; "S1"] "Bar.S01E01.srt" 10 srt_tree H)))).
Defined.

(** A live [safe_delete]: a path that does not exist is passed over in
    silence and counts as success; a directory is refused with an error and
    [False]; a file is removed, and every path that is neither the file nor
    one of its ancestors is left as it was. *)
Theorem safe_delete_live_cases p t :
  match FS.lookup t p with
  | None => safe_delete p false t = (Some true, t, [])
  | Some (Dir _) => safe_delete p false t = (Some false, t, [EvErrDeleting p])
  | Some (File _) =>
      match p with
      | [] => safe_delete p false t = (Some false, t, [EvErrDeleting p])
      | _ :: _ =>
          result_of (safe_delete p false t) = Some true /\
          log_of (safe_delete p false t) = [EvDeleted p] /\
          FS.lookup (tree_of (safe_delete p false t)) p = None /\
          forall q, ~ q `prefix_of` p ->
            FS.lookup (tree_of (safe_delete p false t)) q = FS.lookup t q
      end
  end.
Proof.
  unfold safe_delete, FS.exists_. simpl.
  destruct (FS.lookup t p) as [[sz|es]|] eqn:Hl; [| |done].
  - destruct p as [|a p']; [done|].
    destruct (exists_last (l := a :: p')) as (d & x & E); [done|]. rewrite E in *.
    destruct (CleanerFacts.remove_succeeds t d x sz Hl) as [t' Hrm]. rewrite Hrm.
    unfold result_of, log_of, tree_of. simpl.
    split; [done|]. split; [done|]. split; [by eapply FSFacts.remove_gone|].
    intros q Hq. by eapply FSFacts.remove_lookup.
  - destruct (FS.remove t p) as [t'|] eqn:Hrm; [|done].
    apply FSFacts.remove_was_file in Hrm as [sz Hsz]. congruence.
Qed.

(* ===================================================================== *)
(** * The pass as a whole *)
(* ===================================================================== *)

Module LoopFacts.

Lemma returns_ret {A} (Q : A -> Prop) a : Q a -> returns Q (mret a).
Proof. intros Ha t b. unfold_M. simpl. by intros [= <-]. Qed.

Lemma returns_bind {A B} (Q : B -> Prop) (m : M A) (f : A -> M B) :
  (forall a, returns Q (f a)) -> returns Q (m ≫= f).
Proof.
  intros Hf t b. rewrite result_bind.
  destruct (m t) as [[[a|] t1] l1]; [apply Hf | done].
Qed.

Lemma for_each_keeps_in {A} (l : list A) (body : A -> M unit) (P : node -> Prop) :
  (forall x t, x ∈ l -> P t -> P (tree_of (body x t))) ->
  forall t, P t -> P (tree_of (for_each l body t)).
Proof.
  induction l as [|x l IH]; intros Hb t Ht; simpl; [done|].
  rewrite bind_run.
  pose proof (Hb x t (list_elem_of_here _ _) Ht) as Hx. unfold tree_of in *.
  destruct (body x t) as [[[[]|] t1] l1]; simpl in *; [|done].
  apply IH; [|done]. intros y t' Hy. apply Hb. by apply list_elem_of_further.
Qed.

Lemma emits_for_each_in {A} P (l : list A) (body : A -> M unit) :
  (forall x, x ∈ l -> emits P (body x)) -> emits P (for_each l body).
Proof.
  induction l as [|x l IH]; intros Hb; simpl; [apply emits_ret|].
  apply emits_bind; [apply Hb, list_elem_of_here|].
  intros _. apply IH. intros y Hy. apply Hb. by apply list_elem_of_further.
Qed.

(** In a loop whose bodies all return, a state property that every body
    keeps and one body establishes holds at the end. *)
Lemma for_each_reaches {A} (l : list A) (body : A -> M unit) (G N : node -> Prop) x :
  x ∈ l ->
  (forall y t, is_Some (result_of (body y t))) ->
  (forall y t, G t -> G (tree_of (body y t))) ->
  (forall y t, N t -> N (tree_of (body y t))) ->
  (forall t, G t -> N (tree_of (body x t))) ->
  forall t, G t -> N (tree_of (for_each l body t)).
Proof.
  intros Hin Htot HG HN Hx. induction l as [|y l IH]; intros t Ht.
  - by apply elem_of_nil in Hin.
  - simpl. rewrite bind_run.
    pose proof (Htot y t) as [[] Hr].
    pose proof (HG y t Ht) as HGy.
    destruct (body y t) as [[[[]|] t1] l1] eqn:E; [|done].
    change (N (tree_of (for_each l body t1))).
    apply elem_of_cons in Hin as [->|Hin].
    + apply (CleanerFacts.for_each_keeps l body N); [exact HN|].
      specialize (Hx t Ht). by rewrite E in Hx.
    + by apply IH.
Qed.

(** One turn of a loop whose body returns. *)
Lemma for_each_cons_total {A} (body : A -> M unit) x l t :
  is_Some (result_of (body x t)) ->
  result_of (for_each (x :: l) body t)
  = result_of (for_each l body (tree_of (body x t))) /\
  tree_of (for_each (x :: l) body t)
  = tree_of (for_each l body (tree_of (body x t))).
Proof.
  intros [[] Hr].
  change (for_each (x :: l) body t) with ((body x ≫= fun _ => for_each l body) t).
  rewrite (bind_run (body x) (fun _ => for_each l body) t).
  unfold result_of, tree_of in *.
  by destruct (body x t) as [[[[]|] t1] l1].
Qed.

Lemma insert_sorted_perm {A} (le : A -> A -> bool) x l : insert_sorted le x l ≡ₚ x :: l.
Proof.
  induction l as [|y l IH]; simpl; [done|].
  destruct (le x y); [done|]. rewrite IH. apply Permutation_swap.
Qed.

Lemma sorted_by_perm {A} (le : A -> A -> bool) l : sorted_by le l ≡ₚ l.
Proof.
  induction l as [|x l IH]; simpl; [done|].
  by rewrite insert_sorted_perm, IH.
Qed.

Lemma get_of_key {V} (lib : list (string * V)) key :
  key ∈ OD.keys lib -> is_Some (OD.get key lib).
Proof.
  intros Hin. destruct (OD.get key lib) eqn:E; [by eexists|].
  by apply ODFacts.get_None_keys in E.
Qed.

End LoopFacts.

Module DeleteFacts.
Import FS FSFacts CleanerFacts LoopFacts.

Lemma safe_delete_step q sz p t :
  there_or_gone q sz t ->
  there_or_gone q sz (tree_of (safe_delete p false t)) /\
  (p = q -> q <> [] -> lookup (tree_of (safe_delete p false t)) q = None).
Proof.
  intros [Hf|Hn].
  - destruct (decide (p = q)) as [->|Hne].
    + destruct q as [|a q'] eqn:E.
      * split; [|done]. left. simpl in Hf. injection Hf as ->. done.
      * destruct (exists_last (l := a :: q')) as (d & x & E'); [done|].
        rewrite E' in *.
        destruct (safe_delete_gone d x t sz Hf) as (_ & _ & Hg).
        split; [by right|done].
    + split; [|done]. left. by apply safe_delete_keeps_file.
  - split; [right|intros _ _]; by apply safe_delete_keeps_none.
Qed.

Lemma step_tree p t :
  tree_of ((safe_delete p false;; mret tt) t) = tree_of (safe_delete p false t).
Proof.
  rewrite bind_run. unfold tree_of.
  by destruct (safe_delete p false t) as [[[r|] t1] l1].
Qed.

Lemma step_total p t : is_Some (result_of ((safe_delete p false;; mret tt) t)).
Proof.
  apply (total_bind (safe_delete p false) (fun _ => mret tt));
    [apply safe_delete_total | intros _; apply total_ret].
Qed.

Lemma delete_copy_tree c t :
  tree_of (delete_copy false c t)
  = tree_of (for_each (ep_companions c)
               (fun comp => safe_delete (comp_path comp) false;; mret tt)
               (tree_of (safe_delete (ep_path c) false t))).
Proof.
  unfold delete_copy. rewrite bind_run.
  pose proof (safe_delete_total (ep_path c) false t) as [r Hr].
  unfold result_of, tree_of in *.
  by destruct (safe_delete (ep_path c) false t) as [[[r'|] t1] l1].
Qed.

Lemma delete_copy_keeps c (P : node -> Prop) :
  (forall p t, p ∈ paths_of c -> P t -> P (tree_of (safe_delete p false t))) ->
  forall t, P t -> P (tree_of (delete_copy false c t)).
Proof.
  intros Hp t Ht. rewrite delete_copy_tree.
  apply for_each_keeps_in.
  - intros comp t' Hin Ht'. rewrite step_tree. apply Hp; [|done].
    apply list_elem_of_further, list_elem_of_fmap. by exists comp.
  - apply Hp; [apply list_elem_of_here | done].
Qed.

Lemma delete_copy_removes c q sz t :
  q ∈ paths_of c -> q <> [] -> there_or_gone q sz t ->
  lookup (tree_of (delete_copy false c t)) q = None.
Proof.
  intros Hin Hne Ht. rewrite delete_copy_tree.
  destruct (safe_delete_step q sz (ep_path c) t Ht) as [Hg Hgone].
  apply elem_of_cons in Hin as [->|Hin].
  - apply (for_each_keeps _ _ (fun t => lookup t (ep_path c) = None)); [|by apply Hgone].
    intros comp t' Ht'. rewrite step_tree. by apply safe_delete_keeps_none.
  - apply list_elem_of_fmap in Hin as (comp & -> & Hcomp).
    apply (for_each_reaches _ _ (there_or_gone (comp_path comp) sz)
             (fun t => lookup t (comp_path comp) = None) comp Hcomp); [| | | |done].
    + intros y t'. apply step_total.
    + intros y t' Ht'. rewrite step_tree. by apply safe_delete_step.
    + intros y t' Ht'. rewrite step_tree. by apply safe_delete_keeps_none.
    + intros t' Ht'. rewrite step_tree.
      by apply (safe_delete_step (comp_path comp) sz (comp_path comp) t' Ht').
Qed.

Lemma safe_delete_lines p :
  emits (fun e => e = EvDeleted p \/ e = EvErrDeleting p) (safe_delete p false).
Proof.
  intros t. unfold safe_delete, log_of. simpl.
  destruct (exists_ t p); [|constructor].
  destruct (remove t p); simpl; (constructor; [auto|constructor]).
Qed.

Lemma delete_copy_lines c :
  emits (fun e => exists p, p ∈ paths_of c /\ (e = EvDeleted p \/ e = EvErrDeleting p))
    (delete_copy false c).
Proof.
  unfold delete_copy. apply emits_bind.
  - eapply emits_impl; [|apply safe_delete_lines].
    intros e He. exists (ep_path c). split; [apply list_elem_of_here | done].
  - intros _. apply emits_for_each_in. intros comp Hcomp.
    apply emits_bind; [|intros _; apply emits_ret].
    eapply emits_impl; [|apply safe_delete_lines].
    intros e He. exists (comp_path comp). split; [|done].
    apply list_elem_of_further, list_elem_of_fmap. by exists comp.
Qed.

Lemma in_doomed (cs : list EpisodeCopy) q :
  q ∈ flat_map paths_of cs <-> exists c, c ∈ cs /\ q ∈ paths_of c.
Proof.
  rewrite list_elem_of_In, in_flat_map. split.
  - intros (c & Hc & Hq). exists c. by rewrite !list_elem_of_In.
  - intros (c & Hc & Hq). exists c. by rewrite <- !list_elem_of_In.
Qed.

End DeleteFacts.

(** A slot with a copy on the target, in live mode: the copies on the
    other roots are deleted with their companions and nothing else happens.
    The step returns; a file at one of their recorded paths is gone
    afterwards; every other file is where and what it was (the copies on
    the target among them, unless they share a path with a deleted copy);
    nothing is created; and every line printed reports the deletion of one
    of those paths, done or failed. *)
Theorem copies_off_target_are_deleted target full k copies t :
  filter (fun c => ep_disk c = target) copies <> [] ->
  let r := consolidate_episode true target full (k, copies) t in
  let doomed := flat_map paths_of (filter (fun c => ep_disk c <> target) copies) in
  result_of r = Some tt /\
  (forall q sz, q ∈ doomed -> q <> [] -> FS.lookup t q = Some (File sz) ->
     FS.lookup (tree_of r) q = None) /\
  (forall q sz, q ∉ doomed -> FS.lookup t q = Some (File sz) ->
     FS.lookup (tree_of r) q = Some (File sz)) /\
  (forall q, FS.lookup t q = None -> FS.lookup (tree_of r) q = None) /\
  Forall (fun e => exists p, p ∈ doomed /\ (e = EvDeleted p \/ e = EvErrDeleting p))
    (log_of r).
Proof.
  intros Hon r doomed. subst r doomed.
  unfold consolidate_episode. simpl.
  destruct (filter (fun c => ep_disk c = target) copies) as [|c0 on_target]; [done|].
  clear Hon. set (others := filter (fun c => ep_disk c <> target) copies).
  split; [|split; [|split; [|split]]].
  - destruct (total_for_each others (delete_copy (negb true))
                (fun c _ => delete_copy_total (negb true) c) t) as [[] Hr].
    exact Hr.
  - intros q sz Hq Hne Hl. apply DeleteFacts.in_doomed in Hq as (c & Hc & Hq).
    apply (LoopFacts.for_each_reaches _ _ (there_or_gone q sz)
             (fun t => FS.lookup t q = None) c Hc); [| | | |by left].
    + intros y t'. apply delete_copy_total.
    + intros y t' Ht'. apply (DeleteFacts.delete_copy_keeps y); [|done].
      intros p t0 _ Ht0. by apply DeleteFacts.safe_delete_step.
    + intros y t' Ht'. apply (DeleteFacts.delete_copy_keeps y); [|done].
      intros p t0 _ Ht0. by apply CleanerFacts.safe_delete_keeps_none.
    + intros t' Ht'. by eapply DeleteFacts.delete_copy_removes.
  - intros q sz Hq Hl.
    apply (LoopFacts.for_each_keeps_in _ _ (fun t => FS.lookup t q = Some (File sz)));
      [|done].
    intros c t' Hc Ht'. apply (DeleteFacts.delete_copy_keeps c); [|done].
    intros p t0 Hp Ht0. apply CleanerFacts.safe_delete_keeps_file; [|done].
    intros ->. apply Hq, DeleteFacts.in_doomed. by exists c.
  - intros q Hl.
    apply (CleanerFacts.for_each_keeps _ _ (fun t => FS.lookup t q = None)); [|done].
    intros c t' Ht'. apply (DeleteFacts.delete_copy_keeps c); [|done].
    intros p t0 _ Ht0. by apply CleanerFacts.safe_delete_keeps_none.
  - apply (LoopFacts.emits_for_each_in
             (fun e => exists p, p ∈ flat_map paths_of others /\
                                 (e = EvDeleted p \/ e = EvErrDeleting p))).
    intros c Hc. eapply emits_impl; [|apply DeleteFacts.delete_copy_lines].
    intros e (p & Hp & He). exists p. split; [|done].
    apply DeleteFacts.in_doomed. by exists c.
Qed.

Lemma copies_off_target_are_deleted_witness :
  let copies := copies_of (1%N, 1%N) foo_series in
  filter (fun c => ep_disk c = "/B") copies <> [] /\
  FS.lookup foo_tree ["A"; "Foo"; "Foo.S01E01.mkv"] = Some (File (100 * MiB)) /\
  FS.lookup (tree_of (consolidate_episode true "/B" ["B"; "foo"] ((1%N, 1%N), copies)
                        foo_tree))
    ["A"; "Foo"; "Foo.S01E01.mkv"] = None.
Proof.
  intros copies.
  assert (filter (fun c => ep_disk c = "/B") copies <> []) as H1
    by (vm_compute; discriminate).
  assert (FS.lookup foo_tree ["A"; "Foo"; "Foo.S01E01.mkv"] = Some (File (100 * MiB)))
    as H2 by reflexivity.
  assert (["A"; "Foo"; "Foo.S01E01.mkv"]
          ∈ flat_map paths_of (filter (fun c => ep_disk c <> "/B") copies)) as H3
    by (vm_compute; apply list_elem_of_here).
  split; [exact H1|]. split; [exact H2|].
  exact (proj1 (proj2
    (copies_off_target_are_deleted "/B" ["B"; "foo"] (1%N, 1%N) copies foo_tree H1))
    ["A"; "Foo"; "Foo.S01E01.mkv"] (100 * MiB) H3 ltac:(discriminate) H2).
Defined.

Section WholePassFacts.
Variable disk_free : node -> path -> option Z.

Lemma select_target_total data cands :
  slots_filled data -> total (select_target disk_free data cands).
Proof.
  intros Hf t.
  destruct (select_target_spec disk_free data t cands Hf) as (r & -> & _).
  by eexists.
Qed.

Lemma consolidate_series_total execute data :
  slots_filled data -> total (consolidate_series disk_free execute data).
Proof.
  intros Hf. unfold consolidate_series.
  destruct (length (OD.keys (disks data)) <=? 1)%nat; [apply total_ret|].
  apply total_bind; [apply total_print|]. intros _.
  destruct (has_bad_dupe (episodes data)).
  { apply total_bind; [apply total_print | intros _; apply total_ret]. }
  apply total_bind; [by apply select_target_total|]. intros target.
  destruct (no_target target).
  { apply total_bind; [apply total_print | intros _; apply total_ret]. }
  destruct target as [[[d f] n]|]; [|apply total_ret].
  apply total_bind; [apply total_print|]. intros _.
  apply total_bind.
  { apply total_for_each. intros kv Hkv. apply consolidate_episode_total.
    unfold slots_filled in Hf. rewrite Forall_forall in Hf. by apply Hf. }
  intros _. apply total_bind.
  { apply total_for_each. intros a _. apply consolidate_artifact_total. }
  intros _. apply total_bind.
  { apply total_for_each. intros a _. apply clean_source_total. }
  intros _. apply total_ret.
Qed.

Lemma consolidate_series_skips execute data :
  returns (fun o => forall msg, msg ∈ skipped_of o -> skip_message data msg)
    (consolidate_series disk_free execute data).
Proof.
  unfold consolidate_series.
  destruct (length (OD.keys (disks data)) <=? 1)%nat.
  { apply LoopFacts.returns_ret. by intros msg ?%elem_of_nil. }
  apply LoopFacts.returns_bind. intros _.
  destruct (has_bad_dupe (episodes data)).
  { apply LoopFacts.returns_bind. intros _. apply LoopFacts.returns_ret.
    intros msg ->%list_elem_of_singleton. by left. }
  apply LoopFacts.returns_bind. intros target.
  destruct (no_target target).
  { apply LoopFacts.returns_bind. intros _. apply LoopFacts.returns_ret.
    intros msg ->%list_elem_of_singleton. by right. }
  destruct target as [[[d f] n]|].
  - do 4 (apply LoopFacts.returns_bind; intros _).
    apply LoopFacts.returns_ret. by intros msg ?%elem_of_nil.
  - apply LoopFacts.returns_ret. by intros msg ?%elem_of_nil.
Qed.

Lemma new_series_filled : slots_filled new_series.
Proof. constructor. Qed.

Lemma entry_filled (lib : library) key :
  Forall (fun kv : string * Series => slots_filled kv.2) lib ->
  slots_filled (default new_series (OD.get key lib)).
Proof.
  intros Hall. destruct (OD.get key lib) as [data|] eqn:E; simpl.
  - apply ODFacts.get_Some_elem in E. rewrite Forall_forall in Hall.
    by apply (Hall (key, data)).
  - apply new_series_filled.
Qed.

Lemma consolidate_all_report execute (lib : library) keys : forall skipped_log t,
  Forall (fun kv : string * Series => slots_filled kv.2) lib ->
  exists msgs,
    result_of (consolidate_all disk_free execute lib keys skipped_log t)
    = Some (skipped_log ++ msgs) /\
    Forall (fun msg => exists key, key ∈ keys /\
                         skip_message (default new_series (OD.get key lib)) msg) msgs.
Proof.
  induction keys as [|key keys IH]; intros skipped_log t Hall; simpl.
  - exists []. by rewrite app_nil_r.
  - rewrite result_bind.
    destruct (consolidate_series_total execute _ (entry_filled lib key Hall) t) as [o Ho].
    pose proof (consolidate_series_skips execute _ t o Ho) as Hmsg.
    unfold result_of in Ho.
    destruct (consolidate_series disk_free execute
                (default new_series (OD.get key lib)) t) as [[r t1] l1].
    simpl in Ho. subst r.
    destruct (IH (skipped_log ++ skipped_of o) t1 Hall) as (msgs & -> & Hm).
    exists (skipped_of o ++ msgs). split; [by rewrite app_assoc|].
    apply Forall_app. split.
    + apply Forall_forall. intros msg Hin. exists key.
      split; [apply list_elem_of_here|by apply Hmsg].
    + eapply Forall_impl; [exact Hm|]. intros msg (k' & Hk' & Hs).
      exists k'. split; [by apply list_elem_of_further|done].
Qed.

(** A series on at most one root is passed over. *)
Lemma single_root_series execute data t :
  (length (disks data) <= 1)%nat ->
  consolidate_series disk_free execute data t = (Some Untouched, t, []).
Proof.
  intros Hle. unfold consolidate_series. rewrite keys_length.
  by destruct (Nat.leb_spec (length (disks data)) 1); [|lia].
Qed.

Lemma consolidate_all_idle execute (lib : library) keys : forall skipped_log t,
  (forall key, (length (disks (default new_series (OD.get key lib))) <= 1)%nat) ->
  consolidate_all disk_free execute lib keys skipped_log t = (Some skipped_log, t, []).
Proof.
  induction keys as [|key keys IH]; intros skipped_log t Hall; simpl; [done|].
  rewrite bind_run, single_root_series by apply Hall.
  rewrite IH by done. simpl. unfold result_of, tree_of, log_of. simpl.
  by rewrite app_nil_r.
Qed.

End WholePassFacts.


(** Where no series is found on more than one root, the pass prints its
    banner and does nothing else, in either mode; in particular a run on a
    single root never changes anything. *)
Theorem nothing_to_consolidate disk_free execute t :
  (forall lib : library,
      (forall key data, OD.get key lib = Some data -> (length (disks data) <= 1)%nat) ->
      process_consolidation disk_free lib execute t = (Some [], t, [EvBanner execute])) /\
  (forall root_path,
      main disk_free [root_path] execute t = (Some [], t, [EvBanner execute])).
Proof.
  assert (forall lib : library,
            (forall key data, OD.get key lib = Some data -> (length (disks data) <= 1)%nat) ->
            process_consolidation disk_free lib execute t = (Some [], t, [EvBanner execute]))
    as Hgen.
  { intros lib Hall. unfold process_consolidation. rewrite bind_run.
    unfold print. rewrite consolidate_all_idle; [done|].
    intros key. destruct (OD.get key lib) as [data|] eqn:E; simpl; [by eapply Hall|lia]. }
  split; [exact Hgen|].
  intros root_path. unfold main. apply Hgen.
  intros key data Hget.
  destruct (RootFacts.library_roots [root_path] t key data Hget)
    as (_ & _ & Hnd & Hin & _).
  rewrite <- keys_length.
  assert (OD.keys (disks data) ⊆ [root_path]) as Hsub.
  { intros d Hd. by apply Hin. }
  destruct (OD.keys (disks data)) as [|a [|b l]]; simpl; [lia|lia|].
  exfalso. apply NoDup_cons in Hnd as [Hab _].
  assert (a = root_path) as -> by (apply list_elem_of_singleton, Hsub, list_elem_of_here).
  assert (b = root_path) as ->
    by (apply list_elem_of_singleton, Hsub, list_elem_of_further, list_elem_of_here).
  apply Hab, list_elem_of_here.
Qed.

(** A root whose free space cannot be read is never selected: when the
    selection returns a root for an inventory whose import size for that
    root is not negative, the platform reported the free space of the root,
    and it exceeds the import size by more than the safety margin. *)
Theorem selected_root_reported_its_space disk_free data cands t d folder n :
  slots_filled data ->
  result_of (select_target disk_free data cands t) = Some (Some (d, folder, n)) ->
  0 <= import_size data d ->
  n = import_size data d /\
  exists free,
    disk_free t (FS.resolve d) = Some free /\ free - n > MIN_FREE_BUFFER.
Proof.
  intros Hf Hr Hpos.
  destruct (select_target_spec disk_free data t cands Hf) as (r & Hsel & Hspec).
  rewrite Hsel in Hr. unfold result_of in Hr. simpl in Hr. injection Hr as ->.
  destruct Hspec as (pre & meta & post & _ & _ & -> & Hroom & _).
  split; [done|]. unfold has_room in Hroom.
  destruct (disk_free t (FS.resolve d)) as [free|]; simpl in Hroom.
  - by exists free.
  - exfalso. unfold MIN_FREE_BUFFER in Hroom. lia.
Qed.

Lemma selected_root_reported_its_space_witness :
  slots_filled srt_series /\
  result_of (select_target a_is_full srt_series (candidates_of srt_series) srt_tree)
  = Some (Some ("/B", "bar", 100 * MiB + 10)) /\
  0 <= import_size srt_series "/B" /\
  exists free,
    a_is_full srt_tree (FS.resolve "/B") = Some free /\
    free - (100 * MiB + 10) > MIN_FREE_BUFFER.
Proof.
  assert (slots_filled srt_series) as H1 by (vm_compute; repeat constructor; discriminate).
  assert (result_of (select_target a_is_full srt_series (candidates_of srt_series) srt_tree)
          = Some (Some ("/B", "bar", 100 * MiB + 10))) as H2 by (vm_compute; reflexivity).
  assert (0 <= import_size srt_series "/B") as H3 by (vm_compute; discriminate).
  split; [exact H1|]. split; [exact H2|]. split; [exact H3|].
  exact (proj2 (selected_root_reported_its_space a_is_full srt_series
                  (candidates_of srt_series) srt_tree "/B" "bar" (100 * MiB + 10)
                  H1 H2 H3)).
Defined.

(* ===================================================================== *)
(** * What the cleaner reaches *)
(* ===================================================================== *)

Module ReachFacts.
Import FS FSFacts MoveFacts CleanerFacts TransferFacts PlatformFacts TreeFacts LoopFacts.

Lemma rmdir_keeps_dir t p t' q :
  rmdir t p = Some t' -> q <> p -> isdir t q = true -> isdir t' q = true.
Proof.
  intros Hr Hne Hq.
  destruct (rmdir_was_empty t p t' Hr) as [Hp _].
  destruct (decide (q `prefix_of` p)) as [Hpre|Hpre].
  - unfold rmdir in Hr.
    destruct (split_last p) as [[d name]|] eqn:Es; simpl in Hr; [|done].
    apply split_last_Some in Es. subst p.
    apply with_dir_inv in Hr as (es & es' & H1 & H2 & H3).
    assert (q `prefix_of` d) as [r ->].
    { destruct Hpre as [r Hr]. destruct (decide (r = [])) as [->|Hnil].
      - rewrite app_nil_r in Hr. by subst.
      - destruct (exists_last Hnil) as (r' & y & ->).
        rewrite app_assoc in Hr. apply app_inj_tail in Hr as [-> _].
        by exists r'. }
    apply isdir_lookup. rewrite lookup_app in H3.
    destruct (lookup t' q) as [[sz'|es0]|]; simpl in H3; [|by eexists|done].
    by destruct r.
  - unfold isdir in *. by rewrite (rmdir_lookup t p t' q Hr Hpre).
Qed.

Lemma rmdir_keeps_none t p t' q :
  rmdir t p = Some t' -> lookup t q = None -> lookup t' q = None.
Proof.
  intros Hr Hq.
  destruct (decide (q `prefix_of` p)) as [Hpre|Hpre].
  - destruct (rmdir_was_empty t p t' Hr) as [Hp _].
    destruct Hpre as [r ->]. rewrite lookup_app, Hq in Hp. done.
  - by rewrite (rmdir_lookup t p t' q Hr Hpre).
Qed.

Lemma safe_delete_keeps_dir p dry t q :
  isdir t q = true -> isdir (tree_of (safe_delete p dry t)) q = true.
Proof.
  intros Hq. unfold safe_delete, tree_of.
  destruct dry; simpl; [done|].
  destruct (exists_ t p); simpl; [|done].
  destruct (remove t p) as [t'|] eqn:Hr; simpl; [|done].
  by eapply remove_keeps_dir.
Qed.

Lemma try_rmdir_keeps_dir root t q :
  q <> root -> isdir t q = true -> isdir (tree_of (try_rmdir root t)) q = true.
Proof.
  intros Hne Hq. unfold try_rmdir, tree_of.
  destruct (listdir t root) as [[|x l]|]; simpl; try done.
  destruct (rmdir t root) as [t'|] eqn:Hr; simpl; [|done].
  by eapply rmdir_keeps_dir.
Qed.

Lemma try_rmdir_keeps_none root t q :
  lookup t q = None -> lookup (tree_of (try_rmdir root t)) q = None.
Proof.
  intros Hq. unfold try_rmdir, tree_of.
  destruct (listdir t root) as [[|x l]|]; simpl; try done.
  destruct (rmdir t root) as [t'|] eqn:Hr; simpl; [|done].
  by eapply rmdir_keeps_none.
Qed.

(** What the body of the loop keeps, for a property that the deletions of
    the directory's files and its removal keep. *)
Lemma cleanup_dir_keeps dry root files (P : node -> Prop) :
  (forall f t, f ∈ files -> P t -> P (tree_of (safe_delete (root ++ [f]) dry t))) ->
  (forall t, P t -> P (tree_of (try_rmdir root t))) ->
  forall t, P t -> P (tree_of (cleanup_dir dry root files t)).
Proof.
  intros Hdel Hrm t Ht. rewrite cleanup_dir_tree. cbv zeta.
  assert (P (tree_of (junk_pass root files dry true t))) as Hmid.
  { rewrite junk_pass_deletes_all. cbv zeta. unfold tree_of at 1. simpl.
    apply for_each_keeps_in; [|done].
    intros f t' Hf Ht'. rewrite bind_run.
    pose proof (Hdel f t') as Hd. unfold tree_of in *.
    destruct (safe_delete (root ++ [f]) dry t') as [[[r|] t1] l1]; simpl in *.
    - apply Hd; [|done]. by apply list_elem_of_filter in Hf as [_ ?].
    - apply Hd; [|done]. by apply list_elem_of_filter in Hf as [_ ?]. }
  destruct (forallb is_junk files && negb dry); [by apply Hrm|done].
Qed.

Lemma below_not_outside (p rel : path) (f : string) q :
  ~ p `prefix_of` q -> q <> (p ++ rel) ++ [f].
Proof. intros Hq ->. apply Hq. exists (rel ++ [f]). by rewrite app_assoc. Qed.

Lemma cleaner_frame p dry t :
  let r := cleanup_folder_tree p dry t in
  (forall q sz, ~ p `prefix_of` q -> FS.lookup t q = Some (File sz) ->
     FS.lookup (tree_of r) q = Some (File sz)) /\
  (forall q, ~ p `prefix_of` q -> FS.isdir t q = true -> FS.isdir (tree_of r) q = true) /\
  (forall q, FS.lookup t q = None -> FS.lookup (tree_of r) q = None) /\
  (FS.exists_ t p = false -> r = (Some tt, t, [])).
Proof.
  intros r. subst r. unfold cleanup_folder_tree.
  destruct (FS.exists_ t p) eqn:Hex; simpl; [|done].
  split; [|split; [|split; [|done]]].
  - intros q sz Hq Hl.
    apply (for_each_keeps_in _ _ (fun t => FS.lookup t q = Some (File sz)));
      [|done].
    intros [[root dirs] files] t' Hw Ht'.
    apply walk_below in Hw as [rel ->].
    apply cleanup_dir_keeps; [| |done].
    + intros f t0 _ Ht0. apply safe_delete_keeps_file; [|done].
      by apply below_not_outside.
    + intros t0 Ht0. by apply try_rmdir_keeps_file.
  - intros q Hq Hd.
    apply (for_each_keeps_in _ _ (fun t => FS.isdir t q = true)); [|done].
    intros [[root dirs] files] t' Hw Ht'.
    apply walk_below in Hw as [rel ->].
    apply cleanup_dir_keeps; [| |done].
    + intros f t0 _ Ht0. by apply safe_delete_keeps_dir.
    + intros t0 Ht0. apply try_rmdir_keeps_dir; [|done].
      intros ->. apply Hq. by exists rel.
  - intros q Hl.
    apply (for_each_keeps_in _ _ (fun t => FS.lookup t q = None)); [|done].
    intros [[root dirs] files] t' Hw Ht'.
    apply cleanup_dir_keeps; [| |done].
    + intros f t0 _ Ht0. by apply safe_delete_keeps_none.
    + intros t0 Ht0. by apply try_rmdir_keeps_none.
Qed.

End ReachFacts.

(** The cleaner works inside the folder it is given: a file that is not
    below that folder is where and what it was, junk or not; a directory
    that is not below it is still a directory; nothing is created; and a
    folder that does not exist is passed over without a line. *)
Theorem cleaner_stays_inside p dry t :
  let r := cleanup_folder_tree p dry t in
  (forall q sz, ~ p `prefix_of` q -> FS.lookup t q = Some (File sz) ->
     FS.lookup (tree_of r) q = Some (File sz)) /\
  (forall q, ~ p `prefix_of` q -> FS.isdir t q = true -> FS.isdir (tree_of r) q = true) /\
  (forall q, FS.lookup t q = None -> FS.lookup (tree_of r) q = None) /\
  (FS.exists_ t p = false -> r = (Some tt, t, [])).
Proof. apply ReachFacts.cleaner_frame. Qed.

(* ===================================================================== *)
(** * A folder with nothing but junk *)
(* ===================================================================== *)

Module HuskFacts.
Import FS FSFacts MoveFacts CleanerFacts TransferFacts PlatformFacts TreeFacts LoopFacts.

Lemma put_put x a b es : put x b (put x a es) = put x b es.
Proof.
  induction es as [|[k v] es IH]; simpl.
  - by rewrite decide_True.
  - destruct (decide (k = x)) as [->|Hne]; simpl.
    + by rewrite decide_True.
    + rewrite decide_False by done. by rewrite IH.
Qed.

Lemma del_put x n es : del x (put x n es) = del x es.
Proof.
  unfold del. induction es as [|[k v] es IH]; simpl.
  - rewrite filter_cons. simpl. by rewrite decide_False by (by intros ?).
  - destruct (decide (k = x)) as [->|Hne]; simpl.
    + rewrite !filter_cons. simpl. by rewrite !decide_False by (by intros ?).
    + rewrite !filter_cons. simpl. rewrite !decide_True by done. by rewrite IH.
Qed.

Lemma del_head x n es : x ∉ map fst es -> del x ((x, n) :: es) = es.
Proof.
  intros Hx. unfold del. rewrite filter_cons. simpl.
  rewrite decide_False by (by intros ?).
  induction es as [|[k v] es IH]; [done|].
  rewrite filter_cons. simpl in *.
  rewrite decide_True.
  - f_equal. apply IH. intros Hin. apply Hx. by apply list_elem_of_further.
  - intros ->. apply Hx. apply list_elem_of_here.
Qed.

Lemma del_middle x n l1 l2 :
  x ∉ map fst l1 -> x ∉ map fst l2 -> del x (l1 ++ (x, n) :: l2) = l1 ++ l2.
Proof.
  intros H1 H2. unfold del. rewrite filter_app. f_equal.
  - clear H2. induction l1 as [|[k v] l1 IH]; [done|].
    rewrite filter_cons. simpl in *. rewrite decide_True.
    + f_equal. apply IH. intros Hin. apply H1. by apply list_elem_of_further.
    + intros ->. apply H1. apply list_elem_of_here.
  - by apply del_head.
Qed.

(** Two passes over the same directory are one. *)
Lemma with_dir_compose d k1 k2 : forall t,
  with_dir d k1 t ≫= with_dir d k2 = with_dir d (fun es => k1 es ≫= k2) t.
Proof.
  induction d as [|x d IH]; intros t.
  - destruct t as [sz|es]; simpl; [done|].
    destruct (k1 es) as [es1|]; simpl; [|done]. by destruct (k2 es1).
  - destruct t as [sz|es]; simpl; [done|].
    destruct (assoc x es) as [c|] eqn:E; simpl; [|done].
    rewrite <- (IH c).
    destruct (with_dir d k1 c) as [c1|]; simpl; [|done].
    rewrite assoc_put_eq. simpl.
    destruct (with_dir d k2 c1) as [c2|]; simpl; [|done].
    by rewrite put_put.
Qed.

Lemma with_dir_snoc d x k : forall t,
  with_dir (d ++ [x]) k t
  = with_dir d (fun es => c ← assoc x es; c' ← with_dir [] k c; Some (put x c' es)) t.
Proof.
  induction d as [|y d IH]; intros t.
  - destruct t as [sz|es]; simpl; [done|].
    destruct (assoc x es) as [c|]; simpl; [|done].
    destruct c as [sz|es0]; simpl; [done|]. by destruct (k es0).
  - destruct t as [sz|es]; simpl; [done|].
    destruct (assoc y es) as [c|]; simpl; [|done]. by rewrite IH.
Qed.

Lemma set_entries_same p es t : lookup t p = Some (Dir es) -> set_entries p es t = Some t.
Proof.
  unfold set_entries. revert t. induction p as [|x p IH]; intros t Hl.
  - simpl in Hl. by injection Hl as ->.
  - destruct t as [sz|es0]; simpl in *; [done|].
    destruct (assoc x es0) as [c|] eqn:E; [|done]. simpl.
    rewrite (IH c Hl). simpl. by rewrite put_same.
Qed.

Lemma set_entries_lookup p es t t' :
  set_entries p es t = Some t' -> lookup t' p = Some (Dir es).
Proof.
  unfold set_entries. intros H.
  apply with_dir_inv in H as (es0 & es' & _ & H2 & H3). by injection H2 as <-.
Qed.

Lemma set_entries_again p es1 es2 t t1 :
  set_entries p es1 t = Some t1 -> set_entries p es2 t1 = set_entries p es2 t.
Proof.
  unfold set_entries. intros H1.
  pose proof (with_dir_compose p (fun _ => Some es1) (fun _ => Some es2) t) as Hc.
  rewrite H1 in Hc. simpl in Hc. exact Hc.
Qed.

(** A pass over a directory whose entries were set, seen from the start. *)
Lemma with_dir_after_set p es k t t1 :
  set_entries p es t = Some t1 ->
  with_dir p k t1 = es' ← k es; set_entries p es' t.
Proof.
  unfold set_entries. intros H1.
  pose proof (with_dir_compose p (fun _ => Some es) k t) as Hc.
  rewrite H1 in Hc. simpl in Hc. rewrite Hc.
  destruct (k es) as [es'|] eqn:E.
  - simpl. apply with_dir_ext. intros es0 _. done.
  - simpl. clear -H1. revert t t1 H1. induction p as [|x p IH]; intros t t1 H1.
    + by destruct t.
    + destruct t as [sz|es0]; simpl in *; [done|].
      destruct (assoc x es0) as [c|]; simpl in *; [|done].
      destruct (with_dir p (fun _ => Some es) c) as [c1|] eqn:Ec; simpl in *; [|done].
      by rewrite (IH c c1 Ec).
Qed.

Lemma set_entries_Some p es1 es2 t :
  is_Some (set_entries p es1 t) -> is_Some (set_entries p es2 t).
Proof.
  unfold set_entries. intros [t1 H1].
  apply with_dir_inv in H1 as (es0 & _ & Hl & _).
  by eapply with_dir_succeeds.
Qed.

(** Removing a directory that was emptied is unlinking it. *)
Lemma rmdir_emptied d x t t1 :
  set_entries (d ++ [x]) [] t = Some t1 ->
  rmdir t1 (d ++ [x]) = unlink_entry (d ++ [x]) t.
Proof.
  unfold set_entries, rmdir, unlink_entry. rewrite split_last_snoc. simpl.
  rewrite with_dir_snoc. intros H1.
  pose proof (with_dir_compose d
                (fun es => c ← assoc x es; c' ← with_dir [] (fun _ => Some []) c;
                           Some (put x c' es))
                (fun es => match assoc x es with
                           | Some (Dir []) => Some (del x es)
                           | _ => None
                           end) t) as Hc.
  rewrite H1 in Hc. simpl in Hc. rewrite Hc.
  apply with_dir_ext. intros es Hes.
  apply with_dir_inv in H1 as (es0 & es1 & Hl & Hk & _).
  rewrite Hes in Hl. injection Hl as <-.
  destruct (assoc x es) as [[sz|es']|]; simpl in *; try done.
  by rewrite assoc_put_eq, del_put.
Qed.

Lemma junk_only_dir es :
  junk_only (Dir es) = true <->
  Forall (fun e : string * node =>
            match e.2 with
            | File _ => is_junk e.1 = true
            | Dir _ => junk_only e.2 = true
            end) es.
Proof.
  simpl. induction es as [|[x c] es IH]; simpl.
  - split; [constructor|done].
  - rewrite andb_true_iff, IH, Forall_cons. simpl. by destruct c.
Qed.

Lemma runs_nil {A} (body : A -> M unit) t : runs (for_each [] body) t t.
Proof. by exists []. Qed.

Lemma runs_app {A} (l1 l2 : list A) (body : A -> M unit) t t1 t2 :
  runs (for_each l1 body) t t1 -> runs (for_each l2 body) t1 t2 ->
  runs (for_each (l1 ++ l2) body) t t2.
Proof.
  revert t. induction l1 as [|x l1 IH]; intros t [log1 H1] H2.
  - simpl in H1. unfold mret, M_ret in H1. by simplify_eq.
  - simpl in *. rewrite bind_run in H1.
    destruct (body x t) as [[[[]|] tx] lx] eqn:Ex; [|done].
    unfold result_of, tree_of, log_of in H1.
    destruct (for_each l1 body tx) as [[r1 t1'] l1'] eqn:E1. simpl in H1.
    injection H1 as -> -> <-.
    destruct (IH tx) as [log Hlog]; [by eexists|done|].
    exists (lx ++ log). rewrite bind_run, Ex, Hlog. done.
Qed.

Lemma runs_one {A} (x : A) (body : A -> M unit) t t' :
  runs (body x) t t' -> runs (for_each [x] body) t t'.
Proof.
  intros [log H]. exists (log ++ []). simpl. rewrite bind_run, H. done.
Qed.

Section Husk.
Variable p : path.

(** The files of the directory, once its subdirectories are gone: each is
    junk and is deleted, and the directory is left empty. *)
Lemma junk_pass_empties t0 : forall kept t,
  set_entries p kept t0 = Some t ->
  NoDup (map fst kept) ->
  Forall (fun e : string * node => is_dir_node e.2 = false /\ is_junk e.1 = true) kept ->
  exists t' log,
    junk_pass p (map fst kept) false true t = (Some true, t', log) /\
    set_entries p [] t0 = Some t'.
Proof.
  induction kept as [|[f c] kept IH]; intros t Ht Hnd Hall.
  - exists t, []. done.
  - apply NoDup_cons in Hnd as [Hf Hnd]. apply Forall_cons in Hall as [[Hc Hj] Hall].
    simpl in Hc, Hj. destruct c as [sz|]; [|done].
    simpl. rewrite Hj.
    assert (lookup t (p ++ [f]) = Some (File sz)) as Hl.
    { rewrite lookup_app, (set_entries_lookup _ _ _ _ Ht). simpl.
      by rewrite decide_True. }
    destruct (set_entries_Some p ((f, File sz) :: kept) kept t0) as [t1 Ht1];
      [by eexists|].
    assert (remove t (p ++ [f]) = Some t1) as Hrm.
    { unfold remove. rewrite split_last_snoc. simpl.
      rewrite (with_dir_after_set p _ _ t0 t Ht). simpl.
      rewrite decide_True by done. simpl. by rewrite del_head. }
    destruct (IH t1 Ht1 Hnd Hall) as (t' & log & Hjp & Hset).
    exists t', (EvDeleted (p ++ [f]) :: log).
    rewrite bind_run. unfold safe_delete, exists_. simpl. rewrite Hl, Hrm.
    rewrite Hjp. done.
Qed.

End Husk.

(** The subdirectories of a directory, each of which the loop unlinks: what
    is left of the listing are the files. *)
Lemma children_loop p t0 : forall l kept t1,
  NoDup (map fst (kept ++ l)) ->
  Forall (fun e : string * node =>
            match e.2 with
            | File _ => True
            | Dir _ =>
                forall t, lookup t (p ++ [e.1]) = Some e.2 ->
                  exists t',
                    unlink_entry (p ++ [e.1]) t = Some t' /\
                    runs (for_each (walk_node false (p ++ [e.1]) e.2)
                            (cleanup_body false)) t t'
            end) l ->
  set_entries p (kept ++ l) t0 = Some t1 ->
  exists t2,
    runs (for_each
            (flat_map (fun e : string * node => walk_node false (p ++ [e.1]) e.2) l)
            (cleanup_body false)) t1 t2 /\
    set_entries p (kept ++ filter (fun e : string * node => is_dir_node e.2 = false) l) t0
    = Some t2.
Proof.
  induction l as [|[name c] l IHl]; intros kept t1 Hnd Hall Ht1.
  - exists t1. split; [apply runs_nil|done].
  - apply Forall_cons in Hall as [Hc Hall]. simpl in Hc.
    destruct c as [sz|es'].
    + destruct (IHl (kept ++ [(name, File sz)]) t1) as (t2 & Hr & Hset).
      * by rewrite <- app_assoc.
      * done.
      * by rewrite <- app_assoc.
      * exists t2. split; [exact Hr|].
        rewrite filter_cons_True by done.
        by rewrite <- app_assoc in Hset.
    + assert ((name ∉ map fst kept) /\ (name ∉ map fst l)) as [Hk1 Hk2].
      { rewrite map_app in Hnd. simpl in Hnd.
        apply NoDup_app in Hnd as (_ & Hdisj & Hnd2).
        apply NoDup_cons in Hnd2 as [? _]. split; [|done].
        intros Hin'. apply (Hdisj name Hin'). apply list_elem_of_here. }
      assert (lookup t1 (p ++ [name]) = Some (Dir es')) as Hl1.
      { rewrite lookup_app, (set_entries_lookup _ _ _ _ Ht1). simpl.
        rewrite (assoc_elem name (Dir es') (kept ++ (name, Dir es') :: l)); [done|done|].
        apply elem_of_app. right. apply list_elem_of_here. }
      destruct (Hc t1 Hl1) as (t1' & Hun & Hrun).
      assert (set_entries p (kept ++ l) t0 = Some t1') as Ht1'.
      { rewrite <- Hun. unfold unlink_entry. rewrite split_last_snoc. simpl.
        rewrite (with_dir_after_set p _ _ t0 t1 Ht1). simpl.
        by rewrite del_middle. }
      destruct (IHl kept t1') as (t2 & Hr & Hset); [|done|done|].
      { rewrite map_app in *. simpl in Hnd.
        apply NoDup_app in Hnd as (H1 & H2 & H3).
        apply NoDup_cons in H3 as [_ H3]. apply NoDup_app. split; [done|].
        split; [|done]. intros y Hy1 Hy2. apply (H2 y Hy1).
        by apply list_elem_of_further. }
      exists t2. split.
      * simpl. by eapply runs_app.
      * by rewrite filter_cons_False by done.
Qed.

Lemma unlink_succeeds t d x n :
  lookup t (d ++ [x]) = Some n -> is_Some (unlink_entry (d ++ [x]) t).
Proof.
  intros Hl. apply parent_is_dir, isdir_lookup in Hl as [es Hes].
  unfold unlink_entry. rewrite split_last_snoc. simpl.
  by eapply with_dir_succeeds.
Qed.

(** The loop of the cleaner on a directory below which every file is junk:
    it returns and leaves the tree with the directory unlinked. *)
Lemma husk_is_unlinked n : forall d x t,
  unique_names n = true -> junk_only n = true -> is_dir_node n = true ->
  lookup t (d ++ [x]) = Some n ->
  exists t',
    unlink_entry (d ++ [x]) t = Some t' /\
    runs (for_each (walk_node false (d ++ [x]) n) (cleanup_body false)) t t'.
Proof.
  induction n as [sz|es IH] using node_ind'; intros d x t Hu Hj Hdir Hl; [done|].
  set (p := d ++ [x]) in *.
  apply unique_names_dir in Hu as [Hnd Hus]. apply junk_only_dir in Hj.
  rewrite walk_node_dir. cbv zeta.
  destruct (unlink_succeeds t d x _ Hl) as [t' Hun]. exists t'. split; [done|].
  destruct (children_loop p t es [] t) as (t2 & Hrun & Hset).
  { done. }
  { rewrite Forall_forall in IH, Hus, Hj. apply Forall_forall. intros e He.
    specialize (IH e He). specialize (Hus e He). specialize (Hj e He).
    destruct e as [name c]. simpl in *. destruct c as [sz|es']; [done|].
    intros t0 Hl0. by apply IH. }
  { by apply set_entries_same. }
  simpl in Hset.
  eapply runs_app; [exact Hrun|]. apply runs_one.
  set (kept := filter (fun e : string * node => is_dir_node e.2 = false) es) in *.
  destruct (junk_pass_empties p t kept t2 Hset) as (t3 & log & Hjp & Hempty).
  { unfold kept. clear -Hnd. induction es as [|[k v] es IHes]; [constructor|].
    simpl in Hnd. apply NoDup_cons in Hnd as [Hk Hnd].
    rewrite filter_cons. case_decide; [|by apply IHes].
    simpl. apply NoDup_cons. split; [|by apply IHes].
    intros Hin. apply Hk. apply list_elem_of_fmap in Hin as (e & -> & He).
    apply list_elem_of_filter in He as [_ He]. apply list_elem_of_fmap. by exists e. }
  { apply Forall_forall. intros e He. apply list_elem_of_filter in He as [Hf He].
    rewrite Forall_forall in Hj. specialize (Hj e He).
    split; [done|]. by destruct e.2. }
  unfold cleanup_body, cleanup_dir.
  change (filenames es) with (map fst kept).
  exists (log ++ [EvCleanup p]).
  rewrite bind_run, Hjp. simpl.
  unfold try_rmdir, listdir. rewrite (set_entries_lookup _ _ _ _ Hempty). simpl.
  unfold p. rewrite (rmdir_emptied d x t t3 Hempty), Hun. done.
Qed.

End HuskFacts.

(** A live clean-up of a folder below which every file has a junk name
    removes the folder: the junk is deleted, every directory below is
    removed from the bottom up, and the tree is left as it was with the
    folder unlinked; nothing outside the folder changes.  (A tree in which
    no directory lists a name twice.) *)
Theorem junk_only_folder_is_removed d x t n :
  unique_names t = true ->
  FS.lookup t (d ++ [x]) = Some n ->
  FS.is_dir_node n = true ->
  junk_only n = true ->
  let r := cleanup_folder_tree (d ++ [x]) false t in
  result_of r = Some tt /\
  FS.unlink_entry (d ++ [x]) t = Some (tree_of r) /\
  FS.lookup (tree_of r) (d ++ [x]) = None /\
  (forall q, ~ (d ++ [x]) `prefix_of` q -> ~ q `prefix_of` d ->
     FS.lookup (tree_of r) q = FS.lookup t q).
Proof.
  intros Hu Hl Hdir Hj r. subst r.
  destruct (HuskFacts.husk_is_unlinked n d x t) as (t' & Hun & log & Hrun);
    [by eapply TreeFacts.unique_names_lookup|done..|].
  unfold cleanup_folder_tree, FS.exists_, FS.walk. rewrite Hl. simpl.
  change (fun w : path * list string * list string =>
            let '(root, _, files) := w in cleanup_dir false root files)
    with (cleanup_body false).
  rewrite Hrun. unfold result_of, tree_of. simpl.
  split; [done|]. split; [done|]. split; [by eapply MoveFacts.unlink_gone|].
  intros q Hq1 Hq2. unfold FS.unlink_entry in Hun.
  rewrite FSFacts.split_last_snoc in Hun. simpl in Hun.
  eapply FSFacts.with_dir_lookup; [exact Hun | done |].
  intros es es' y q' _ [= <-] ->. simpl.
  rewrite FSFacts.assoc_del_ne; [done|].
  intros ->. apply Hq1. exists q'. by rewrite <- app_assoc.
Qed.

Lemma junk_only_folder_is_removed_witness :
  unique_names husk_tree = true /\
  FS.lookup husk_tree (["A"] ++ ["Old"])
  = Some (Dir [("Thumbs.db", File 3);
               ("S1", Dir [(".DS_Store", File 1); ("desktop.ini", File 2)]);
               ("S2", Dir [])]) /\
  FS.lookup (tree_of (cleanup_folder_tree (["A"] ++ ["Old"]) false husk_tree))
    (["A"] ++ ["Old"]) = None.
Proof.
  assert (unique_names husk_tree = true) as H1 by (vm_compute; reflexivity).
  assert (FS.lookup husk_tree (["A"] ++ ["Old"])
          = Some (Dir [("Thumbs.db", File 3);
                       ("S1", Dir [(".DS_Store", File 1); ("desktop.ini", File 2)]);
                       ("S2", Dir [])])) as H2 by reflexivity.
  split; [exact H1|]. split; [exact H2|].
  exact (proj1 (proj2 (proj2
    (junk_only_folder_is_removed ["A"] "Old" husk_tree _ H1 H2 eq_refl
       ltac:(vm_compute; reflexivity))))).
Defined.

(* ===================================================================== *)
(** * An episode that has to move is not lost *)
(* ===================================================================== *)

Module SurvivalFacts.
Import FS FSFacts MoveFacts CleanerFacts TransferFacts PlatformFacts LoopFacts.

(** A live [safe_move] that does not move keeps every file. *)
Lemma safe_move_failed_keeps src dest_dir t q sz :
  result_of (safe_move src dest_dir false t) = Some false ->
  lookup t q = Some (File sz) ->
  lookup (tree_of (safe_move src dest_dir false t)) q = Some (File sz).
Proof.
  unfold safe_move, result_of, tree_of, do_move.
  destruct (exists_ t src); simpl; [|done].
  destruct (exists_ t (dest_dir ++ basename src)); simpl; [done|].
  destruct (makedirs dest_dir t) as [t1|] eqn:Hm; simpl; [|done].
  destruct (move t1 src (dest_dir ++ basename src)) as [t2|]; simpl; [done|].
  intros _ Hq. by eapply makedirs_keeps_file.
Qed.

(** A live [safe_move] of a file that moves it keeps every other file. *)
Lemma safe_move_keeps_others d x dest_dir t sz0 q sz :
  lookup t (d ++ [x]) = Some (File sz0) ->
  result_of (safe_move (d ++ [x]) dest_dir false t) = Some true ->
  q <> d ++ [x] -> lookup t q = Some (File sz) ->
  lookup (tree_of (safe_move (d ++ [x]) dest_dir false t)) q = Some (File sz).
Proof.
  intros Hsrc. unfold safe_move, result_of, tree_of, do_move, exists_.
  rewrite Hsrc, basename_snoc. simpl.
  destruct (lookup t (dest_dir ++ [x])) as [n|] eqn:Hdst; simpl; [done|].
  destruct (makedirs dest_dir t) as [t1|] eqn:Hm; simpl; [|done].
  destruct (move t1 (d ++ [x]) (dest_dir ++ [x])) as [t2|] eqn:Hmv; simpl; [|done].
  intros _ Hne Hq.
  pose proof (makedirs_keeps_file _ _ _ _ _ Hm Hsrc) as Hsrc1.
  assert (lookup t1 (dest_dir ++ [x]) = None) as Hdst1.
  { eapply makedirs_keeps_none; [exact Hm | apply snoc_not_prefix | done]. }
  destruct (move_file_succeeds t1 d x dest_dir x sz0 Hsrc1 Hdst1 (makedirs_isdir _ _ _ Hm))
    as (t' & Hmv' & _ & _ & Hkeep & _).
  rewrite Hmv in Hmv'. injection Hmv' as <-.
  apply Hkeep; [done|]. by eapply makedirs_keeps_file.
Qed.

(** A live [force_move] of a file keeps every file other than its source
    and its destination, whatever it returns. *)
Lemma force_move_keeps_others d x dest_dir t sz0 q sz :
  lookup t (d ++ [x]) = Some (File sz0) ->
  q <> d ++ [x] -> q <> dest_dir ++ [x] ->
  lookup t q = Some (File sz) ->
  lookup (tree_of (force_move (d ++ [x]) dest_dir false t)) q = Some (File sz).
Proof.
  intros Hsrc Hq1 Hq2 Hq. unfold force_move, tree_of, do_merge, exists_.
  rewrite Hsrc, basename_snoc. simpl.
  destruct (makedirs dest_dir t) as [t1|] eqn:Hm; simpl; [|done].
  pose proof (makedirs_keeps_file _ _ _ _ _ Hm Hsrc) as Hsrc1.
  pose proof (makedirs_keeps_file _ _ _ _ _ Hm Hq) as Hq1'.
  pose proof (makedirs_isdir _ _ _ Hm) as Hdir1.
  assert (forall t2,
            lookup t2 (d ++ [x]) = Some (File sz0) -> lookup t2 (dest_dir ++ [x]) = None ->
            isdir t2 dest_dir = true -> lookup t2 q = Some (File sz) ->
            lookup (match move t2 (d ++ [x]) (dest_dir ++ [x]) with
                    | Some t3 => (Some t3, t3)
                    | None => (None, t2)
                    end).2 q = Some (File sz)) as Hmove.
  { intros t2 Hs2 Hd2 Hdir2 Hq2'.
    destruct (move_file_succeeds t2 d x dest_dir x sz0 Hs2 Hd2 Hdir2)
      as (t' & -> & _ & _ & Hkeep & _).
    simpl. by apply Hkeep. }
  destruct (lookup t1 (dest_dir ++ [x])) as [n|] eqn:Hdst1.
  - destruct (remove t1 (dest_dir ++ [x])) as [t2|] eqn:Hrm; simpl; [|done].
    destruct (decide (d ++ [x] = dest_dir ++ [x])) as [Heq|Hne].
    + pose proof (remove_gone _ _ _ Hrm) as Hgone.
      unfold move. rewrite Heq, Hgone. simpl.
      by eapply remove_keeps_file.
    + specialize (Hmove t2).
      destruct (move t2 (d ++ [x]) (dest_dir ++ [x])) as [t3|]; simpl in *.
      * apply Hmove; [by eapply remove_keeps_file | by eapply remove_gone
                      | by eapply remove_keeps_dir | by eapply remove_keeps_file].
      * by eapply remove_keeps_file.
  - specialize (Hmove t1 Hsrc1 Hdst1 Hdir1 Hq1').
    by destruct (move t1 (d ++ [x]) (dest_dir ++ [x])) as [t3|].
Qed.

Lemma force_move_step_tree src dest_dir t :
  tree_of ((force_move src dest_dir false;; mret tt) t)
  = tree_of (force_move src dest_dir false t).
Proof.
  rewrite bind_run. unfold tree_of.
  by destruct (force_move src dest_dir false t) as [[[r|] t1] l1].
Qed.

Lemma force_move_step_total src dest_dir t :
  is_Some (result_of ((force_move src dest_dir false;; mret tt) t)).
Proof.
  apply (total_bind (force_move src dest_dir false) (fun _ => mret tt));
    [apply force_move_total | intros _; apply total_ret].
Qed.

(** The companions of a moved copy, each a file of the source directory
    under a name of its own, are merged without touching the copy at the
    destination. *)
Lemma companions_keep_the_copy d x dest_dir sz : forall comps t,
  NoDup (map comp_path comps) ->
  (forall comp, comp ∈ comps ->
     exists x' sz', x' <> x /\ comp_path comp = d ++ [x'] /\
                    lookup t (comp_path comp) = Some (File sz')) ->
  lookup t (dest_dir ++ [x]) = Some (File sz) ->
  is_Some (result_of
             (for_each comps
                (fun comp => force_move (comp_path comp) dest_dir false;; mret tt) t)) /\
  lookup (tree_of
            (for_each comps
               (fun comp => force_move (comp_path comp) dest_dir false;; mret tt) t))
    (dest_dir ++ [x]) = Some (File sz).
Proof.
  induction comps as [|comp comps IH]; intros t Hnd Hall Hdst.
  - split; [by eexists|done].
  - simpl in Hnd. apply NoDup_cons in Hnd as [Hfresh Hnd].
    destruct (Hall comp) as (x' & sz' & Hx & Hp & Hl); [apply list_elem_of_here|].
    destruct (for_each_cons_total
                (fun comp => force_move (comp_path comp) dest_dir false;; mret tt)
                comp comps t (force_move_step_total _ _ _)) as [-> ->].
    rewrite force_move_step_tree.
    rewrite Hp in *.
    assert (forall q szq, q <> d ++ [x'] -> q <> dest_dir ++ [x'] ->
              lookup t q = Some (File szq) ->
              lookup (tree_of (force_move (d ++ [x']) dest_dir false t)) q
              = Some (File szq)) as Hkeep.
    { intros q szq H1 H2 H3. by eapply force_move_keeps_others. }
    apply IH; [done| |].
    + intros c Hc.
      destruct (Hall c) as (y & szy & Hy & Hpc & Hlc); [by apply list_elem_of_further|].
      exists y. 
      assert (comp_path c <> d ++ [x']) as Hne.
      { intros Heq. apply Hfresh. apply list_elem_of_fmap. exists c.
        split; [by rewrite Heq|done]. }
      destruct (decide (comp_path c = dest_dir ++ [x'])) as [Heq|Hne2].
      * assert (y = x') as ->.
        { rewrite Hpc in Heq. by apply app_inj_tail in Heq as [_ ?]. }
        exfalso. apply Hne. rewrite Hpc in *. done.
      * exists szy. split; [done|]. split; [done|]. by apply Hkeep.
    + apply Hkeep; [| |done].
      * intros Heq. apply app_inj_tail in Heq as [_ ?]. by subst.
      * intros Heq. apply app_inj_tail in Heq as [_ ?]. by subst.
Qed.

End SurvivalFacts.

(** A slot without a copy on the target, in live mode.  The first copy, a
    file, is moved by [safe_move]; its companions are files of its
    directory under names of their own; the destination is not a path
    recorded for one of the redundant copies.  Then the episode is not
    lost: either it is at the destination with its size, or the move did
    not take place and every file of the tree is where and what it was. *)
Theorem moved_episode_is_not_lost target full k src redundant d x sz t :
  filter (fun c => ep_disk c = target) (src :: redundant) = [] ->
  ep_path src = d ++ [x] ->
  FS.lookup t (ep_path src) = Some (File sz) ->
  NoDup (map comp_path (ep_companions src)) ->
  (forall comp, comp ∈ ep_companions src ->
     exists x' sz', x' <> x /\ comp_path comp = d ++ [x'] /\
                    FS.lookup t (comp_path comp) = Some (File sz')) ->
  ((full ++ ep_rel_dir src) ++ [x]) ∉ flat_map paths_of redundant ->
  let r := consolidate_episode true target full (k, src :: redundant) t in
  result_of r = Some tt /\
  (FS.lookup (tree_of r) ((full ++ ep_rel_dir src) ++ [x]) = Some (File sz) \/
   forall q sz', FS.lookup t q = Some (File sz') ->
     FS.lookup (tree_of r) q = Some (File sz')).
Proof.
  intros Hoff Hp Hsrc Hnd Hcomps Hdst r. subst r.
  rewrite (consolidate_episode_missing true target full k (src :: redundant)
             src redundant Hoff eq_refl).
  set (dest_dir := full ++ ep_rel_dir src) in *. rewrite Hp in *. simpl negb.
  rewrite result_bind, bind_run.
  pose proof (safe_move_total (d ++ [x]) dest_dir false t) as [moved Hmoved].
  pose proof (SurvivalFacts.safe_move_failed_keeps (d ++ [x]) dest_dir t) as Hfail.
  pose proof (TransferFacts.safe_move_moves (d ++ [x]) dest_dir t sz Hsrc) as Hok.
  pose proof (SurvivalFacts.safe_move_keeps_others d x dest_dir t sz) as Hothers.
  rewrite TransferFacts.basename_snoc in Hok.
  unfold result_of, tree_of in Hmoved, Hfail, Hok, Hothers.
  destruct (safe_move (d ++ [x]) dest_dir false t) as [[r1 t1] l1]. simpl in *.
  subst r1. destruct moved.
  - (* moved *)
    destruct (Hok eq_refl) as (_ & Hat & _ & _).
    destruct (SurvivalFacts.companions_keep_the_copy d x dest_dir sz
                (ep_companions src) t1 Hnd) as [[[] Hr2] Hkept]; [|done|].
    { intros comp Hc. destruct (Hcomps comp Hc) as (x' & sz' & Hx & Hpc & Hl).
      exists x', sz'. split; [done|]. split; [done|].
      apply Hothers; [done|done| |done].
      rewrite Hpc. intros Heq. apply app_inj_tail in Heq as [_ ?]. by subst. }
    rewrite result_bind, bind_run.
    unfold result_of, tree_of in Hr2, Hkept.
    destruct (for_each (ep_companions src)
                (fun comp => force_move (comp_path comp) dest_dir false;; mret tt) t1)
      as [[r2 t2] l2]. simpl in *. subst r2.
    split.
    + destruct (total_for_each redundant (delete_copy false)
                  (fun c _ => delete_copy_total false c) t2) as [[] Hr3].
      exact Hr3.
    + left.
      change (FS.lookup (tree_of (for_each redundant (delete_copy false) t2))
                (dest_dir ++ [x]) = Some (File sz)).
      apply (LoopFacts.for_each_keeps_in _ _
               (fun t => FS.lookup t (dest_dir ++ [x]) = Some (File sz))); [|done].
      intros c t' Hc Ht'. apply (DeleteFacts.delete_copy_keeps c); [|done].
      intros p t0 Hin Ht0. apply CleanerFacts.safe_delete_keeps_file; [|done].
      intros Heq. apply Hdst, DeleteFacts.in_doomed. exists c. by rewrite Heq.
  - (* not moved *)
    split; [done|]. right. intros q sz' Hq. simpl. by apply Hfail.
Qed.

Lemma moved_episode_is_not_lost_witness :
  let src := mkEpisodeCopy ["A"; "Bar"; "S1"; "Bar.S01E01.mkv"] (100 * MiB) (100 * MiB + 10)
               "/A" ["S1"] [mkCompanion ["A"; "Bar"; "S1"; "Bar.S01E01.srt"] 10] in
  filter (fun c => ep_disk c = "/B") [src] = [] /\
  FS.lookup srt_tree (ep_path src) = Some (File (100 * MiB)) /\
  FS.lookup (tree_of (consolidate_episode true "/B" ["B"; "bar"] ((1%N, 1%N), [src]) srt_tree))
    ["B"; "bar"; "S1"; "Bar.S01E01.mkv"] = Some (File (100 * MiB)).
Proof.
  intros src.
  assert (filter (fun c => ep_disk c = "/B") [src] = []) as H1 by reflexivity.
  assert (ep_path src = ["A"; "Bar"; "S1"] ++ ["Bar.S01E01.mkv"]) as H2 by reflexivity.
  assert (FS.lookup srt_tree (ep_path src) = Some (File (100 * MiB))) as H3 by reflexivity.
  assert (NoDup (map comp_path (ep_companions src))) as H4
    by (apply NoDup_singleton).
  assert (forall comp, comp ∈ ep_companions src ->
            exists x' sz', x' <> "Bar.S01E01.mkv" /\
                           comp_path comp = ["A"; "Bar"; "S1"] ++ [x'] /\
                           FS.lookup srt_tree (comp_path comp) = Some (File sz')) as H5.
  { intros comp Hc. apply list_elem_of_singleton in Hc as ->.
    exists "Bar.S01E01.srt", 10. split; [discriminate|]. split; reflexivity. }
  assert (((["B"; "bar"] ++ ep_rel_dir src) ++ ["Bar.S01E01.mkv"])
          ∉ flat_map paths_of (@nil EpisodeCopy)) as H6
    by (simpl; apply not_elem_of_nil).
  split; [exact H1|]. split; [exact H3|].
  destruct (proj2 (moved_episode_is_not_lost "/B" ["B"; "bar"] (1%N, 1%N) src []
                     ["A"; "Bar"; "S1"] "Bar.S01E01.mkv" (100 * MiB) srt_tree
                     H1 H2 H3 H4 H5 H6)) as [Hat|Hall].
  - exact Hat.
  - vm_compute. reflexivity.
Defined.

(* ===================================================================== *)
(** * Plans and what becomes of them *)
(* ===================================================================== *)

(** The plan of a transfer and the transfer, for a file and a destination
    directory whose path no file blocks: [safe_move] returns the same in
    both modes, and so does [force_move] when the file is not already in
    that directory and its name there is not that of a directory.  When a
    file does block the path of the destination directory, the simulated
    [safe_move] announces a move that the live one then fails to make. *)
Theorem plan_matches_transfer d x dest_dir sz t :
  FS.lookup t (d ++ [x]) = Some (File sz) ->
  ((forall q sz', q `prefix_of` dest_dir -> FS.lookup t q <> Some (File sz')) ->
   result_of (safe_move (d ++ [x]) dest_dir true t)
   = result_of (safe_move (d ++ [x]) dest_dir false t) /\
   (d <> dest_dir -> FS.isdir t (dest_dir ++ [x]) = false ->
    result_of (force_move (d ++ [x]) dest_dir true t)
    = result_of (force_move (d ++ [x]) dest_dir false t))) /\
  ((exists q sz', q `prefix_of` dest_dir /\ FS.lookup t q = Some (File sz')) ->
   safe_move (d ++ [x]) dest_dir true t = (Some true, t, [EvDryMv (d ++ [x]) dest_dir]) /\
   safe_move (d ++ [x]) dest_dir false t = (Some false, t, [EvCritical (d ++ [x])])).
Proof.
  intros Hsrc. split.
  - intros Hway. split.
    + unfold safe_move, FS.exists_. rewrite Hsrc, TransferFacts.basename_snoc. simpl.
      destruct (FS.lookup t (dest_dir ++ [x])) as [n|] eqn:Hdst; simpl; [done|].
      destruct (ActionFacts.do_move_succeeds d x dest_dir sz t Hsrc Hdst Hway)
        as (t' & -> & _).
      done.
    + intros Hd Hnd.
      destruct (ActionFacts.force_move_live d x dest_dir sz t Hsrc Hd Hnd Hway)
        as (-> & _).
      unfold force_move, FS.exists_. rewrite Hsrc. simpl.
      by destruct (FS.lookup t (dest_dir ++ FS.basename (d ++ [x]))).
  - intros (q & sz' & [r ->] & Hq).
    assert (FS.lookup t ((q ++ r) ++ [x]) = None) as Hdst.
    { rewrite <- app_assoc, FSFacts.lookup_app, Hq. simpl.
      apply FSFacts.lookup_file_below. by destruct r. }
    unfold safe_move, FS.exists_, do_move.
    rewrite Hsrc, TransferFacts.basename_snoc, Hdst. simpl.
    rewrite (ActionFacts.makedirs_blocked (q ++ r) t q sz'); [done| |done].
    by exists r.
Qed.

Lemma plan_matches_transfer_witness :
  FS.lookup blocked_tree (["A"; "Baz"] ++ ["Baz.S01E02.mkv"]) = Some (File (110 * MiB)) /\
  (exists q sz', q `prefix_of` ["B"; "Baz"; "Baz.S01E01.mkv"; "extras"] /\
                 FS.lookup blocked_tree q = Some (File sz')) /\
  safe_move (["A"; "Baz"] ++ ["Baz.S01E02.mkv"]) ["B"; "Baz"; "Baz.S01E01.mkv"; "extras"]
    true blocked_tree
  = (Some true, blocked_tree,
     [EvDryMv (["A"; "Baz"] ++ ["Baz.S01E02.mkv"])
        ["B"; "Baz"; "Baz.S01E01.mkv"; "extras"]]) /\
  safe_move (["A"; "Baz"] ++ ["Baz.S01E02.mkv"]) ["B"; "Baz"; "Baz.S01E01.mkv"; "extras"]
    false blocked_tree
  = (Some false, blocked_tree, [EvCritical (["A"; "Baz"] ++ ["Baz.S01E02.mkv"])]).
Proof.
  assert (FS.lookup blocked_tree (["A"; "Baz"] ++ ["Baz.S01E02.mkv"])
          = Some (File (110 * MiB))) as H1 by reflexivity.
  assert (exists q sz', q `prefix_of` ["B"; "Baz"; "Baz.S01E01.mkv"; "extras"] /\
                        FS.lookup blocked_tree q = Some (File sz')) as H2.
  { exists ["B"; "Baz"; "Baz.S01E01.mkv"], 5. split; [by exists ["extras"]|reflexivity]. }
  split; [exact H1|]. split; [exact H2|].
  exact (proj2 (plan_matches_transfer ["A"; "Baz"] "Baz.S01E02.mkv"
                  ["B"; "Baz"; "Baz.S01E01.mkv"; "extras"] (110 * MiB) blocked_tree H1) H2).
Defined.

(* ===================================================================== *)
(** * One directory given as two roots *)
(* ===================================================================== *)

(** Roots are told apart by the strings given on the command line, not by
    the directories they name.  With one directory given under two
    spellings every file is recorded once per spelling; the first spelling
    becomes the target, the copies "on the other root" are deleted, the
    artifacts are merged onto themselves, and the emptied folder is
    removed: a live run loses the series.  The same spelling given twice
    is one root, and nothing happens. *)
Example aliased_roots_lose_the_series :
  FS.resolve "/A" = FS.resolve "/A/" /\
  main roomy ["/A"; "/A/"] true alias_tree =
    (Some [], Dir [("A", Dir [])],
     [EvBanner true; EvProcessing "Foo" 2; EvConsolidating "/A" "Foo";
      EvDeleted ["A"; "Foo"; "Foo.S01E01.mkv"];
      EvErrMoving ["A"; "Foo"; "poster.jpg"];
      EvCleaning ["A"; "Foo"]; EvCleanup ["A"; "Foo"]]) /\
  main roomy ["/A"; "/A"] true alias_tree = (Some [], alias_tree, [EvBanner true]).
Proof. vm_compute. repeat split. Qed.

(* ===================================================================== *)
(** * Artifacts on their way to the target *)
(* ===================================================================== *)

(** An artifact that is not on the target, in live mode, when a file of its
    name is already in the target folder at its relative directory: the
    artifact replaces that file, whatever it was.  The step returns and
    prints the merge, the destination holds the artifact with its size, the
    source is gone, and every file other than these two is where and what
    it was. *)
Theorem artifact_merge_replaces target full art d x sz sz0 t :
  art_disk art <> target ->
  art_path art = d ++ [x] ->
  FS.lookup t (art_path art) = Some (File sz) ->
  d <> full ++ art_rel_dir art ->
  FS.lookup t ((full ++ art_rel_dir art) ++ [x]) = Some (File sz0) ->
  let r := consolidate_artifact true target full art t in
  result_of r = Some tt /\
  log_of r = [EvMerged (art_path art) (full ++ art_rel_dir art)] /\
  FS.lookup (tree_of r) ((full ++ art_rel_dir art) ++ [x]) = Some (File sz) /\
  FS.lookup (tree_of r) (art_path art) = None /\
  (forall q sz', q <> art_path art -> q <> (full ++ art_rel_dir art) ++ [x] ->
     FS.lookup t q = Some (File sz') -> FS.lookup (tree_of r) q = Some (File sz')).
Proof.
  intros Hdisk Hp Hsrc Hd Hdst r. subst r.
  unfold consolidate_artifact. rewrite decide_True by done. simpl negb.
  rewrite Hp in *. set (dest_dir := full ++ art_rel_dir art) in *.
  destruct (ActionFacts.force_move_live d x dest_dir sz t Hsrc Hd)
    as (Hr & Hlog & Hat & Hgone & Hkeep).
  { unfold FS.isdir. by rewrite Hdst. }
  { intros q sz' [rest Hq] Hl.
    rewrite Hq, <- app_assoc, FSFacts.lookup_app, Hl in Hdst. simpl in Hdst.
    rewrite FSFacts.lookup_file_below in Hdst; [done|by destruct rest]. }
  rewrite bind_run. unfold result_of, log_of, tree_of in *.
  destruct (force_move (d ++ [x]) dest_dir false t) as [[r1 t1] l1]. simpl in *.
  subst r1 l1. simpl. by repeat split.
Qed.

Lemma artifact_merge_replaces_witness :
  let art := mkArtifact ["A"; "Show"; "x.S01E01.mkv"] "/A" [] (10 * MiB) in
  artifacts (default new_series (OD.get "show" (scan_library ["/A"; "/B"] stub_tree)))
  = [art] /\
  FS.lookup stub_tree ((["B"; "Show"] ++ art_rel_dir art) ++ ["x.S01E01.mkv"])
  = Some (File (100 * MiB)) /\
  FS.lookup (tree_of (consolidate_artifact true "/B" ["B"; "Show"] art stub_tree))
    ((["B"; "Show"] ++ art_rel_dir art) ++ ["x.S01E01.mkv"]) = Some (File (10 * MiB)).
Proof.
  intros art.
  assert (art_disk art <> "/B") as H1 by discriminate.
  assert (art_path art = ["A"; "Show"] ++ ["x.S01E01.mkv"]) as H2 by reflexivity.
  assert (FS.lookup stub_tree (art_path art) = Some (File (10 * MiB))) as H3 by reflexivity.
  assert (["A"; "Show"] <> ["B"; "Show"] ++ art_rel_dir art) as H4 by discriminate.
  assert (FS.lookup stub_tree ((["B"; "Show"] ++ art_rel_dir art) ++ ["x.S01E01.mkv"])
          = Some (File (100 * MiB))) as H5 by reflexivity.
  split; [vm_compute; reflexivity|]. split; [exact H5|].
  exact (proj1 (proj2 (proj2
    (artifact_merge_replaces "/B" ["B"; "Show"] art ["A"; "Show"] "x.S01E01.mkv"
       (10 * MiB) (100 * MiB) stub_tree H1 H2 H3 H4 H5)))).
Defined.

(** The whole run on that tree: the small file on [/A] is an artifact, the
    series passes the conflict check, [/B] is the target, and the merge of
    the artifact replaces the episode there. *)
Example small_file_replaces_episode :
  main roomy ["/A"; "/B"] true stub_tree =
    (Some [],
     Dir [("A", Dir []);
          ("B", Dir [("Show", Dir [("x.S01E01.mkv", File (10 * MiB))])])],
     [EvBanner true; EvProcessing "Show" 2; EvConsolidating "/B" "Show";
      EvMerged ["A"; "Show"; "x.S01E01.mkv"] ["B"; "Show"];
      EvCleaning ["A"; "Show"]; EvCleanup ["A"; "Show"]]).
Proof. vm_compute. reflexivity. Qed.

(* ===================================================================== *)
(** * Junk below the cleaned folder, and what a simulation announces *)
(* ===================================================================== *)

Module SweepFacts.
Import FS FSFacts CleanerFacts TreeFacts LoopFacts ReachFacts.

(** A walk reaches every directory below its top. *)
Lemma walk_node_complete b : forall rel t top es,
  lookup t rel = Some (Dir es) ->
  (top ++ rel, dirnames es, filenames es) ∈ walk_node b top t.
Proof.
  induction rel as [|x rel IH]; intros t top es Hl.
  - simpl in Hl. injection Hl as ->. rewrite walk_node_dir, app_nil_r. cbv zeta.
    destruct b; [apply list_elem_of_here|].
    apply elem_of_app. right. apply list_elem_of_here.
  - destruct t as [sz|es0]; simpl in Hl; [done|].
    destruct (assoc x es0) as [c|] eqn:E; [|done].
    rewrite walk_node_dir. cbv zeta.
    assert ((top ++ x :: rel, dirnames es, filenames es)
            ∈ flat_map (fun e : string * node => walk_node b (top ++ [e.1]) e.2) es0)
      as Hin.
    { apply list_elem_of_In, in_flat_map. exists (x, c).
      split; [by apply list_elem_of_In, assoc_Some_elem|].
      apply list_elem_of_In. simpl.
      replace (top ++ x :: rel) with ((top ++ [x]) ++ rel) by (by rewrite <- app_assoc).
      by apply IH. }
    destruct b; [by apply list_elem_of_further|].
    apply elem_of_app. by left.
Qed.

Lemma filenames_of_file f sz es : assoc f es = Some (File sz) -> f ∈ filenames es.
Proof.
  intros H. apply assoc_Some_elem in H. unfold filenames.
  apply list_elem_of_fmap. exists (f, File sz). split; [done|].
  by apply list_elem_of_filter.
Qed.

Lemma try_rmdir_there_or_gone root q sz t :
  there_or_gone q sz t -> there_or_gone q sz (tree_of (try_rmdir root t)).
Proof.
  intros [H|H]; [left; by apply try_rmdir_keeps_file
                | right; by apply try_rmdir_keeps_none].
Qed.

Lemma cleanup_body_total dry w t : is_Some (result_of (cleanup_body dry w t)).
Proof. destruct w as [[root dirs] files]. apply cleanup_dir_total. Qed.

(** The simulated deletions of one directory. *)
Lemma dry_deletions root : forall files t,
  for_each files (fun f => safe_delete (root ++ [f]) true;; mret tt) t
  = (Some tt, t, map (fun f => EvDryRm (root ++ [f])) files).
Proof.
  induction files as [|f files IH]; intros t; [done|].
  cbn [for_each map].
  rewrite (bind_run (safe_delete (root ++ [f]) true;; mret tt)
             (fun _ => for_each files
                         (fun f => safe_delete (root ++ [f]) true;; mret tt)) t).
  rewrite (bind_run (safe_delete (root ++ [f]) true) (fun _ => mret tt) t).
  unfold safe_delete. simpl. rewrite IH. done.
Qed.

Lemma cleanup_dir_announces root dirs files t :
  cleanup_dir true root files t = (Some tt, t, announced (root, dirs, files)).
Proof.
  unfold cleanup_dir. rewrite bind_run, junk_pass_deletes_all. cbv zeta.
  rewrite dry_deletions. unfold tree_of, log_of, result_of, announced. simpl.
  destruct (forallb is_junk files); simpl; [done|]. by rewrite !app_nil_r.
Qed.

Lemma dry_walk (l : list (path * list string * list string)) : forall t,
  for_each l (cleanup_body true) t = (Some tt, t, flat_map announced l).
Proof.
  induction l as [|[[root dirs] files] l IH]; intros t; [done|].
  cbn [for_each flat_map].
  rewrite (bind_run (cleanup_body true (root, dirs, files))
             (fun _ => for_each l (cleanup_body true)) t).
  unfold cleanup_body at 1. rewrite (cleanup_dir_announces root dirs files t).
  by rewrite IH.
Qed.

End SweepFacts.

(** A live clean-up deletes every file with a junk name below the folder,
    at any depth, whatever else the folder holds. *)
Theorem cleaner_removes_all_junk p rel f sz t :
  FS.lookup t (p ++ rel ++ [f]) = Some (File sz) ->
  is_junk f = true ->
  FS.lookup (tree_of (cleanup_folder_tree p false t)) (p ++ rel ++ [f]) = None.
Proof.
  intros Hl Hj.
  assert (exists n es, FS.lookup t p = Some n /\ FS.lookup n rel = Some (Dir es) /\
                       FS.assoc f es = Some (File sz)) as (n & es & Hp & Hrel & Hf).
  { rewrite FSFacts.lookup_app in Hl. destruct (FS.lookup t p) as [n|]; [|done].
    simpl in Hl. rewrite FSFacts.lookup_app in Hl.
    destruct (FS.lookup n rel) as [[sz'|es]|] eqn:Hrel; simpl in Hl; [done| |done].
    exists n, es. split; [done|]. split; [done|].
    by destruct (FS.assoc f es). }
  unfold cleanup_folder_tree, FS.exists_, FS.walk. rewrite Hp. simpl.
  change (fun w : path * list string * list string =>
            let '(root, _, files) := w in cleanup_dir false root files)
    with (cleanup_body false).
  pose proof (SweepFacts.walk_node_complete false rel n p es Hrel) as Hin.
  rewrite app_assoc in *.
  apply (LoopFacts.for_each_reaches _ _ (there_or_gone ((p ++ rel) ++ [f]) sz)
           (fun t => FS.lookup t ((p ++ rel) ++ [f]) = None) _ Hin); [| | | |by left].
  - intros w t'. apply SweepFacts.cleanup_body_total.
  - intros [[root dirs] files] t' Ht'.
    apply (ReachFacts.cleanup_dir_keeps false root files
             (there_or_gone ((p ++ rel) ++ [f]) sz)); [| |done].
    + intros g t0 _ Ht0. by apply DeleteFacts.safe_delete_step.
    + intros t0 Ht0. by apply SweepFacts.try_rmdir_there_or_gone.
  - intros [[root dirs] files] t' Ht'.
    apply (ReachFacts.cleanup_dir_keeps false root files
             (fun t => FS.lookup t ((p ++ rel) ++ [f]) = None)); [| |done].
    + intros g t0 _ Ht0. by apply CleanerFacts.safe_delete_keeps_none.
    + intros t0 Ht0. by apply ReachFacts.try_rmdir_keeps_none.
  - intros t' Ht'. unfold cleanup_body. rewrite CleanerFacts.cleanup_dir_tree. cbv zeta.
    assert (FS.lookup (tree_of (junk_pass (p ++ rel) (FS.filenames es) false true t'))
              ((p ++ rel) ++ [f]) = None) as Hmid.
    { destruct Ht' as [Hfile|Hnone].
      - eapply CleanerFacts.junk_pass_removes; [|done|done].
        by eapply SweepFacts.filenames_of_file.
      - by apply CleanerFacts.junk_pass_keeps_none. }
    destruct (forallb is_junk (FS.filenames es) && negb false); [|done].
    by apply ReachFacts.try_rmdir_keeps_none.
Qed.

Lemma cleaner_removes_all_junk_witness :
  FS.lookup leftover_tree (["A"; "Foo"] ++ ["S1"] ++ [".DS_Store"]) = Some (File 1) /\
  is_junk ".DS_Store" = true /\
  FS.lookup (tree_of (cleanup_folder_tree ["A"; "Foo"] false leftover_tree))
    (["A"; "Foo"] ++ ["S1"] ++ [".DS_Store"]) = None.
Proof.
  assert (FS.lookup leftover_tree (["A"; "Foo"] ++ ["S1"] ++ [".DS_Store"])
          = Some (File 1)) as H1 by reflexivity.
  assert (is_junk ".DS_Store" = true) as H2 by (vm_compute; reflexivity).
  split; [exact H1|]. split; [exact H2|].
  exact (cleaner_removes_all_junk ["A"; "Foo"] ["S1"] ".DS_Store" 1 leftover_tree H1 H2).
Defined.

(** What the simulated cleaner prints, and nothing else happens: walking
    the folder bottom-up, for each directory one planned removal per junk
    file, followed by the planned removal of the directory whenever it
    lists no file other than junk; whether it has subdirectories, and
    whether these would go, is not looked at. *)
Theorem simulated_cleaner_announces p t :
  cleanup_folder_tree p true t
  = (Some tt, t, flat_map announced (FS.walk t p false)).
Proof.
  unfold cleanup_folder_tree, FS.exists_, FS.walk.
  destruct (FS.lookup t p) as [n|]; simpl; [|done].
  change (fun w : path * list string * list string =>
            let '(root, _, files) := w in cleanup_dir true root files)
    with (cleanup_body true).
  apply SweepFacts.dry_walk.
Qed.

(* ===================================================================== *)
(** * The clean-up of the source folders *)
(* ===================================================================== *)

(** The loop that cleans the source folders, in either mode, works only
    inside the folders recorded for the roots other than the target: a
    file that is below none of them is where and what it was, a directory
    that is below none of them is still a directory, and no path is
    created. *)
Theorem source_cleaning_stays_inside execute data target involved t :
  let r := for_each involved (clean_source execute data target) t in
  let cleaned q :=
    exists d, d ∈ involved /\ d <> target /\
              root_join d (folder_on d data) `prefix_of` q in
  (forall q sz, ~ cleaned q -> FS.lookup t q = Some (File sz) ->
     FS.lookup (tree_of r) q = Some (File sz)) /\
  (forall q, ~ cleaned q -> FS.isdir t q = true -> FS.isdir (tree_of r) q = true) /\
  (forall q, FS.lookup t q = None -> FS.lookup (tree_of r) q = None).
Proof.
  intros r cleaned. subst r.
  assert (forall d t0,
            tree_of (clean_source execute data target d t0)
            = if decide (d = target) then t0
              else tree_of (cleanup_folder_tree (root_join d (folder_on d data))
                              (negb execute) t0)) as Hstep.
  { intros d t0. unfold clean_source. case_decide; [done|].
    rewrite bind_run. unfold print, folder_on, tree_of. simpl.
    by destruct (cleanup_folder_tree _ (negb execute) t0) as [[r1 t1] l1]. }
  split; [|split].
  - intros q sz Hq Hl.
    apply (LoopFacts.for_each_keeps_in _ _ (fun t => FS.lookup t q = Some (File sz)));
      [|done].
    intros d t' Hd Ht'. rewrite Hstep. case_decide; [done|].
    apply ReachFacts.cleaner_frame; [|done].
    intros Hpre. apply Hq. by exists d.
  - intros q Hq Hl.
    apply (LoopFacts.for_each_keeps_in _ _ (fun t => FS.isdir t q = true)); [|done].
    intros d t' Hd Ht'. rewrite Hstep. case_decide; [done|].
    apply ReachFacts.cleaner_frame; [|done].
    intros Hpre. apply Hq. by exists d.
  - intros q Hl.
    apply (LoopFacts.for_each_keeps_in _ _ (fun t => FS.lookup t q = None)); [|done].
    intros d t' Hd Ht'. rewrite Hstep. case_decide; [done|].
    by apply ReachFacts.cleaner_frame.
Qed.

(* ===================================================================== *)
(** * Names beyond U+00FF: normalisation *)
(* ===================================================================== *)

Opaque Unicode.lower_table Unicode.White_Space Unicode.Cased Unicode.Case_Ignorable
  Unicode.Decimal_Zero.

Module UnicodeFacts.
Import Unicode.
Local Open Scope N_scope.

(** ** The table *)

Lemma u_table_checked : forallb entry_ok lower_table = true.
Proof. vm_compute. reflexivity. Qed.

Lemma u_find_elem c v table : find c table = Some v -> (c, v) ∈ table.
Proof.
  induction table as [|[k w] table IH]; simpl; [done|].
  destruct (k =? c) eqn:E.
  - apply N.eqb_eq in E as ->. intros [= ->]. apply list_elem_of_here.
  - intros H. apply list_elem_of_further. auto.
Qed.

Lemma u_found_ok c v : find c lower_table = Some v -> entry_ok (c, v) = true.
Proof.
  intros H. apply u_find_elem, list_elem_of_In in H.
  pose proof u_table_checked as Hc. rewrite forallb_forall in Hc. by apply Hc.
Qed.

Lemma u_unchanged_lower c : unchanged c -> to_lower_full c = [c].
Proof. unfold unchanged, to_lower_full. by intros ->. Qed.

Lemma u_sigma_changed : find 0x3A3 lower_table = Some [0x3C3].
Proof. vm_compute. reflexivity. Qed.

Lemma u_sigmas_unchanged : unchanged 0x3C2 /\ unchanged 0x3C3 /\ unchanged 0x20.
Proof. repeat split; vm_compute; reflexivity. Qed.

Lemma u_unchanged_not_sigma c : unchanged c -> c <> 0x3A3.
Proof. unfold unchanged. intros H ->. by rewrite u_sigma_changed in H. Qed.

(** What the check of an entry gives for a character the table changes. *)
Lemma u_changed_spec c v :
  find c lower_table = Some v ->
  to_lower_full c = v /\ v <> [] /\
  is_space c = false /\ is_sep c = false /\ is_digit c = false /\
  Forall (fun d => is_space d = false /\ is_sep d = false /\ d <> 0x3A3 /\
                   is_digit d = false /\ unchanged d) v.
Proof.
  intros Hf. pose proof (u_found_ok c v Hf) as Hok.
  unfold entry_ok in Hok.
  repeat (apply andb_true_iff in Hok as [Hok ?]).
  split; [unfold to_lower_full; by rewrite Hf|].
  split; [by destruct v|].
  repeat split; try by apply negb_true_iff.
  apply Forall_forall. intros d Hd.
  match goal with H : forallb out_ok v = true |- _ =>
    rewrite forallb_forall in H; apply list_elem_of_In, H in Hd end.
  unfold out_ok in Hd. repeat (apply andb_true_iff in Hd as [Hd ?]).
  repeat split; try by apply negb_true_iff.
  - match goal with H : negb (d =? _) = true |- _ =>
      apply negb_true_iff, N.eqb_neq in H; exact H end.
  - unfold unchanged. by destruct (find d lower_table).
Qed.

Lemma u_space_unchanged c : is_space c = true -> unchanged c.
Proof.
  intros Hc. unfold unchanged. destruct (find c lower_table) as [v|] eqn:E; [|done].
  apply u_changed_spec in E as (_ & _ & E & _). congruence.
Qed.

Lemma u_sep_unchanged c : is_sep c = true -> unchanged c.
Proof.
  intros Hc. unfold unchanged. destruct (find c lower_table) as [v|] eqn:E; [|done].
  apply u_changed_spec in E as (_ & _ & _ & E & _). congruence.
Qed.

Lemma u_digit_unchanged c : is_digit c = true -> unchanged c.
Proof.
  intros Hc. unfold unchanged. destruct (find c lower_table) as [v|] eqn:E; [|done].
  apply u_changed_spec in E as (_ & _ & _ & _ & E & _). congruence.
Qed.

(** What a character becomes: itself, or what its entry says. *)
Lemma u_to_lower_full_spec c :
  to_lower_full c <> [] /\
  Forall unchanged (to_lower_full c) /\
  (is_space c = true -> to_lower_full c = [c]) /\
  (is_space c = false -> Forall (fun d => is_space d = false) (to_lower_full c)) /\
  (is_sep c = true -> to_lower_full c = [c]) /\
  (is_sep c = false -> Forall (fun d => is_sep d = false) (to_lower_full c)).
Proof.
  destruct (find c lower_table) as [v|] eqn:E.
  - destruct (u_changed_spec c v E) as (-> & Hne & Hsp & Hse & _ & Hall).
    split; [done|]. split; [|split; [congruence|split; [|split; [congruence|]]]].
    + eapply Forall_impl; [exact Hall|]. by intros d (_ & _ & _ & _ & ?).
    + intros _. eapply Forall_impl; [exact Hall|]. by intros d (? & _).
    + intros _. eapply Forall_impl; [exact Hall|]. by intros d (_ & ? & _).
  - rewrite (u_unchanged_lower c E).
    split; [done|]. split; [by repeat constructor|]. split; [done|].
    split; [intros H; by repeat constructor|]. split; [done|].
    intros H; by repeat constructor.
Qed.

(** ** What [str.lower] does to a list, character by character *)

Lemma u_lower_from_pieces l : forall before,
  exists ps, Forall2 piece_ok l ps /\ lower_from before l = concat ps.
Proof.
  induction l as [|c l IH]; intros b; simpl.
  - exists []. split; [constructor | done].
  - destruct (IH (c :: b)) as (ps & Hps & ->).
    destruct (c =? 0x3A3) eqn:E.
    + apply N.eqb_eq in E as ->.
      exists ([if final_sigma b l then 0x3C2 else 0x3C3] :: ps).
      split; [|done]. constructor; [|done].
      left. split; [done|]. destruct (final_sigma b l); auto.
    + apply N.eqb_neq in E. exists (to_lower_full c :: ps).
      split; [|done]. constructor; [|done]. by right.
Qed.

Lemma u_sigma_class :
  is_space 0x3A3 = false /\ is_sep 0x3A3 = false /\
  is_space 0x3C2 = false /\ is_sep 0x3C2 = false /\
  is_space 0x3C3 = false /\ is_sep 0x3C3 = false.
Proof. repeat split; vm_compute; reflexivity. Qed.

Lemma u_piece_spec c p :
  piece_ok c p ->
  p <> [] /\ Forall unchanged p /\
  (is_space c = true -> p = [c]) /\
  (is_space c = false -> Forall (fun d => is_space d = false) p) /\
  (is_sep c = false -> Forall (fun d => is_sep d = false) p).
Proof.
  destruct u_sigma_class as (S1 & S2 & S3 & S4 & S5 & S6).
  destruct u_sigmas_unchanged as (U1 & U2 & _).
  intros [[-> [-> | ->]] | [Hc ->]].
  - split; [done|]. split; [by repeat constructor|]. split; [congruence|].
    split; intros _; by repeat constructor.
  - split; [done|]. split; [by repeat constructor|]. split; [congruence|].
    split; intros _; by repeat constructor.
  - destruct (u_to_lower_full_spec c) as (H1 & H2 & H3 & H4 & H5 & H6). done.
Qed.

Lemma u_Forall_concat_pieces (P : N -> Prop) l ps :
  Forall2 piece_ok l ps ->
  (forall c p, c ∈ l -> piece_ok c p -> Forall P p) ->
  Forall P (concat ps).
Proof.
  induction 1 as [|c p l ps Hp _ IH]; intros HP; simpl; [constructor|].
  apply Forall_app. split.
  - apply (HP c); [apply list_elem_of_here | done].
  - apply IH. intros c' p' Hc'. apply HP. by apply list_elem_of_further.
Qed.

Lemma u_lower_unchanged before l : Forall unchanged (lower_from before l).
Proof.
  destruct (u_lower_from_pieces l before) as (ps & Hps & ->).
  apply (u_Forall_concat_pieces _ l); [done|].
  intros c p _ Hp. by apply u_piece_spec in Hp as (_ & ? & _).
Qed.

Lemma u_lower_sep_free before l :
  Forall (fun c => is_sep c = false) l ->
  Forall (fun c => is_sep c = false) (lower_from before l).
Proof.
  intros Hl. destruct (u_lower_from_pieces l before) as (ps & Hps & ->).
  apply (u_Forall_concat_pieces _ l); [done|].
  intros c p Hc Hp. apply u_piece_spec in Hp as (_ & _ & _ & _ & H).
  apply H. rewrite Forall_forall in Hl. by apply Hl.
Qed.

Lemma u_lower_fixed l : forall before, Forall unchanged l -> lower_from before l = l.
Proof.
  induction l as [|c l IH]; intros b Hl; [done|].
  apply Forall_cons in Hl as [Hc Hl]. simpl.
  pose proof (u_unchanged_not_sigma c Hc) as Hn. apply N.eqb_neq in Hn. rewrite Hn.
  rewrite (u_unchanged_lower c Hc). simpl. by rewrite IH.
Qed.

Lemma u_lower_sigma_free l : forall before,
  Forall (fun c => c <> 0x3A3) l -> lower_from before l = flat_map to_lower_full l.
Proof.
  induction l as [|c l IH]; intros b Hl; [done|].
  apply Forall_cons in Hl as [Hc Hl]. simpl.
  apply N.eqb_neq in Hc. rewrite Hc. by rewrite IH.
Qed.

(** ** Stripping *)

Lemma u_lstrip_app_space w l : all_space w -> lstrip (w ++ l) = lstrip l.
Proof. induction 1 as [|c w Hc _ IH]; simpl; [done|]. by rewrite Hc. Qed.

Lemma u_rstrip_all_space w : all_space w -> rstrip w = [].
Proof. induction 1 as [|c w Hc _ IH]; simpl; [done|]. by rewrite IH, Hc. Qed.

Lemma u_rstrip_app_space l w : all_space w -> rstrip (l ++ w) = rstrip l.
Proof.
  intros Hw. induction l as [|c l IH]; simpl.
  - by apply u_rstrip_all_space.
  - by rewrite IH.
Qed.

Lemma u_lstrip_suffix l : exists w, all_space w /\ l = w ++ lstrip l.
Proof.
  induction l as [|c l [w [Hw IH]]]; simpl.
  - exists []. split; [constructor | done].
  - destruct (is_space c) eqn:Hc.
    + exists (c :: w). split; [by constructor | simpl; congruence].
    + exists []. split; [constructor | done].
Qed.

Lemma u_lstrip_head l :
  lstrip l = [] \/ exists c l', lstrip l = c :: l' /\ is_space c = false.
Proof.
  induction l as [|c l IH]; simpl; [by left|].
  destruct (is_space c) eqn:Hc; [done|]. right. eauto.
Qed.

Lemma u_strip_surrounded l w r :
  all_space l -> all_space r -> strip (l ++ w ++ r) = strip w.
Proof.
  intros Hl Hr. unfold strip. rewrite u_lstrip_app_space by done.
  destruct (u_lstrip_suffix w) as [u [Hu Hw]].
  destruct (u_lstrip_head w) as [E | (c & l' & E & Hc)].
  - rewrite E. rewrite Hw, E, app_nil_r.
    rewrite u_lstrip_app_space by done.
    pose proof (u_lstrip_app_space r [] Hr) as Hn. rewrite app_nil_r in Hn.
    by rewrite Hn.
  - assert (lstrip (w ++ r) = lstrip w ++ r) as ->.
    { rewrite Hw at 1. rewrite <- app_assoc, u_lstrip_app_space by done.
      rewrite E. simpl. by rewrite Hc. }
    by apply u_rstrip_app_space.
Qed.

Lemma u_lstrip_fixed c l : is_space c = false -> lstrip (c :: l) = c :: l.
Proof. intros Hc. simpl. by rewrite Hc. Qed.

Lemma u_rstrip_idem l : rstrip (rstrip l) = rstrip l.
Proof.
  induction l as [|c l IH]; simpl; [done|].
  destruct (rstrip l) as [|a r] eqn:E.
  - destruct (is_space c) eqn:Hc; simpl; [done|]. by rewrite Hc.
  - simpl in *. by rewrite IH.
Qed.

Lemma u_rstrip_cons_nonspace c l : is_space c = false -> rstrip (c :: l) = c :: rstrip l.
Proof. intros Hc. simpl. destruct (rstrip l); [by rewrite Hc|done]. Qed.

Lemma u_strip_trimmed l : trimmed (strip l).
Proof.
  unfold trimmed, strip. split; [|apply u_rstrip_idem].
  destruct (u_lstrip_head l) as [-> | (c & l' & -> & Hc)]; [done|].
  rewrite u_rstrip_cons_nonspace by done. by apply u_lstrip_fixed.
Qed.

Lemma u_trimmed_strip l : trimmed l -> strip l = l.
Proof. intros [H1 H2]. unfold strip. by rewrite H1. Qed.

Lemma u_Forall_lstrip (P : N -> Prop) l : Forall P l -> Forall P (lstrip l).
Proof. induction 1 as [|c l Hc Hl IH]; simpl; [done|]. destruct (is_space c); auto. Qed.

Lemma u_Forall_rstrip (P : N -> Prop) l : Forall P l -> Forall P (rstrip l).
Proof.
  induction 1 as [|c l Hc Hl IH]; simpl; [done|].
  destruct (rstrip l); [destruct (is_space c)|]; auto.
Qed.

(** A trimmed list starts with a character that is not whitespace. *)
Lemma u_trimmed_head c l : lstrip (c :: l) = c :: l -> is_space c = false.
Proof.
  simpl. destruct (is_space c); [|done]. intros H.
  destruct (u_lstrip_suffix l) as [w [_ Hw]].
  rewrite H in Hw. apply (f_equal length) in Hw.
  rewrite length_app in Hw. simpl in Hw. lia.
Qed.

Lemma u_rstrip_nonspace p : Forall (fun d => is_space d = false) p -> rstrip p = p.
Proof.
  induction 1 as [|c p Hc _ IH]; [done|].
  by rewrite u_rstrip_cons_nonspace, IH.
Qed.

Lemma u_rstrip_app_fixed p q : rstrip q = q -> q <> [] -> rstrip (p ++ q) = p ++ q.
Proof.
  intros Hq Hne. induction p as [|a p IH]; simpl; [done|].
  rewrite IH. by destruct (p ++ q) eqn:E; [destruct p, q|].
Qed.

Lemma u_rstrip_cons_inv c l :
  rstrip (c :: l) = c :: l ->
  (l = [] /\ is_space c = false) \/ (rstrip l = l /\ l <> []).
Proof.
  simpl. destruct (rstrip l) as [|a r] eqn:E.
  - destruct (is_space c); [done|]. intros [= <-]. by left.
  - intros [= <-]. by right.
Qed.

Lemma u_pieces_nonempty l ps : Forall2 piece_ok l ps -> l <> [] -> concat ps <> [].
Proof.
  intros [|c p l' ps' Hp _] Hne; [done|]. simpl.
  apply u_piece_spec in Hp as (Hp & _). by destruct p.
Qed.

Lemma u_rstrip_pieces l : forall ps,
  Forall2 piece_ok l ps -> rstrip l = l -> rstrip (concat ps) = concat ps.
Proof.
  induction l as [|c l IH]; intros ps Hps Hr.
  - by inversion Hps.
  - inversion Hps as [|? p ? ps' Hp Hps']; subst. simpl.
    destruct (u_rstrip_cons_inv c l Hr) as [[-> Hc] | [Hl Hne]].
    + inversion Hps'; subst. simpl. rewrite app_nil_r.
      apply u_rstrip_nonspace. by apply u_piece_spec in Hp as (_ & _ & _ & H & _); auto.
    + apply u_rstrip_app_fixed; [by apply IH | by eapply u_pieces_nonempty].
Qed.

Lemma u_lower_trimmed l : trimmed l -> trimmed (lower l).
Proof.
  intros [H1 H2]. unfold lower.
  destruct (u_lower_from_pieces l []) as (ps & Hps & ->).
  split; [|by eapply u_rstrip_pieces].
  destruct Hps as [|c p l' ps' Hp _]; [done|].
  apply u_trimmed_head in H1.
  apply u_piece_spec in Hp as (Hne & _ & _ & Hsp & _).
  specialize (Hsp H1). destruct p as [|d p]; [done|].
  apply Forall_cons in Hsp as [Hd _]. simpl. by rewrite Hd.
Qed.

(** ** Collapsing runs of whitespace *)

Lemma u_collapse_idem l : forall b, collapse b (collapse b l) = collapse b l.
Proof.
  assert (is_space 0x20 = true) as Hsp by (vm_compute; reflexivity).
  induction l as [|c l IH]; intros b; simpl; [done|].
  destruct (is_space c) eqn:Hc.
  - destruct b; [apply IH|]. simpl. by rewrite Hsp, IH.
  - simpl. by rewrite Hc, IH.
Qed.

Lemma u_collapse_Forall (P : N -> Prop) l :
  P 0x20 -> Forall P l -> forall b, Forall P (collapse b l).
Proof.
  intros Hsp. induction 1 as [|c l Hc _ IH]; intros b; simpl; [constructor|].
  destruct (is_space c); [destruct b|]; auto.
Qed.

Lemma u_rstrip_fixed_nonempty l b : rstrip l = l -> l <> [] -> collapse b l <> [].
Proof.
  revert b. induction l as [|c l IH]; intros b Hr Hne; [done|].
  destruct (u_rstrip_cons_inv c l Hr) as [[-> Hc] | [Hl Hne']]; simpl.
  - by rewrite Hc.
  - destruct (is_space c); [destruct b|]; try done. by apply IH.
Qed.

Lemma u_rstrip_collapse l : forall b, rstrip l = l -> rstrip (collapse b l) = collapse b l.
Proof.
  assert (is_space 0x20 = true) as Hsp by (vm_compute; reflexivity).
  induction l as [|c l IH]; intros b Hr; [done|].
  destruct (u_rstrip_cons_inv c l Hr) as [[-> Hc] | [Hl Hne]]; simpl.
  - rewrite Hc. simpl. by rewrite Hc.
  - destruct (is_space c) eqn:Hc.
    + destruct b; [by apply IH|].
      simpl. rewrite IH by done.
      pose proof (u_rstrip_fixed_nonempty l true Hl Hne) as Hn.
      by destruct (collapse true l).
    + rewrite u_rstrip_cons_nonspace by done. by rewrite IH.
Qed.

Lemma u_trimmed_collapse l : trimmed l -> trimmed (collapse false l).
Proof.
  intros [H1 H2]. split; [|by apply u_rstrip_collapse].
  destruct l as [|c l]; [done|].
  apply u_trimmed_head in H1. simpl. rewrite H1. by apply u_lstrip_fixed.
Qed.

(** ** The normal form *)

Lemma u_map_fixed (f : N -> N) l : Forall (fun c => f c = c) l -> map f l = l.
Proof. induction 1 as [|c l Hc _ IH]; simpl; by rewrite ?Hc, ?IH. Qed.

Lemma u_sep_to_space_clean c : is_sep (sep_to_space c) = false.
Proof.
  unfold sep_to_space, is_sep.
  destruct ((c =? 0x2E) || (c =? 0x5F)) eqn:E; [reflexivity | exact E].
Qed.

Lemma u_not_sep_fixed c : is_sep c = false -> sep_to_space c = c.
Proof. unfold sep_to_space, is_sep. by intros ->. Qed.

Lemma u_space_not_sep c : is_space c = true -> is_sep c = false.
Proof.
  intros Hc. destruct (is_sep c) eqn:E; [|done]. exfalso.
  unfold is_sep in E. apply orb_true_iff in E as [E|E];
    apply N.eqb_eq in E; subst c; vm_compute in Hc; discriminate.
Qed.

Lemma u_normalize_name_clean x :
  let y := normalize_name x in
  Forall (fun c => is_sep c = false) y /\ trimmed y /\ Forall unchanged y.
Proof.
  destruct u_sigmas_unchanged as (_ & _ & U).
  cbv zeta. unfold normalize_name. split; [|split].
  - apply u_collapse_Forall; [vm_compute; reflexivity|].
    apply u_lower_sep_free, u_Forall_rstrip, u_Forall_lstrip, Forall_map, Forall_forall.
    intros c _. apply u_sep_to_space_clean.
  - apply u_trimmed_collapse, u_lower_trimmed, u_strip_trimmed.
  - apply u_collapse_Forall; [exact U | apply u_lower_unchanged].
Qed.

Lemma u_normalize_name_idem x : normalize_name (normalize_name x) = normalize_name x.
Proof.
  destruct (u_normalize_name_clean x) as (Hsep & Htrim & Hun). cbv zeta in *.
  unfold normalize_name at 1.
  rewrite (u_map_fixed sep_to_space)
    by (eapply Forall_impl; [exact Hsep | intros c; apply u_not_sep_fixed]).
  rewrite u_trimmed_strip by done.
  unfold lower. rewrite u_lower_fixed by done.
  unfold normalize_name. apply u_collapse_idem.
Qed.

(** ** Names that differ by case, separators or surrounding whitespace *)

Lemma u_same_lower_space a b :
  to_lower_full a = to_lower_full b -> is_space a = is_space b.
Proof.
  assert (forall a b, to_lower_full a = to_lower_full b ->
                      is_space a = true -> is_space b = true) as H.
  { intros a' b' Hab Ha.
    destruct (u_to_lower_full_spec a') as (_ & _ & Hsp & _).
    destruct (u_to_lower_full_spec b') as (_ & _ & _ & Hns & _).
    destruct (is_space b') eqn:Hb; [done|].
    specialize (Hns eq_refl). rewrite <- Hab, (Hsp Ha) in Hns.
    apply Forall_cons in Hns as [Hns _]. congruence. }
  intros Hab. destruct (is_space a) eqn:Ha, (is_space b) eqn:Hb; try done.
  - by rewrite (H a b Hab Ha) in Hb.
  - by rewrite (H b a (eq_sym Hab) Hb) in Ha.
Qed.

Lemma u_same_lower_sep a b :
  to_lower_full a = to_lower_full b -> is_sep a = true -> a = b.
Proof.
  intros Hab Ha.
  destruct (u_to_lower_full_spec a) as (_ & _ & _ & _ & Hsa & _).
  destruct (u_to_lower_full_spec b) as (_ & _ & _ & _ & Hsb & Hnb).
  rewrite (Hsa Ha) in Hab.
  destruct (is_sep b) eqn:Hb.
  - rewrite (Hsb eq_refl) in Hab. by injection Hab.
  - specialize (Hnb eq_refl). rewrite <- Hab in Hnb.
    apply Forall_cons in Hnb as [Hnb _]. congruence.
Qed.

Lemma u_char_variant_clean a b :
  char_variant a b ->
  to_lower_full (sep_to_space a) = to_lower_full (sep_to_space b).
Proof.
  intros [a' b' H | a' b' Ha Hb].
  - destruct (is_sep a') eqn:Ea.
    { by rewrite <- (u_same_lower_sep a' b' H Ea). }
    destruct (is_sep b') eqn:Eb.
    { by rewrite <- (u_same_lower_sep b' a' (eq_sym H) Eb). }
    by rewrite !u_not_sep_fixed.
  - set_unfold. by destruct Ha as [->|[->|[->|[]]]], Hb as [->|[->|[->|[]]]].
Qed.

Lemma u_lstrip_same_lower a b :
  Forall2 (fun c d => to_lower_full c = to_lower_full d) a b ->
  Forall2 (fun c d => to_lower_full c = to_lower_full d) (lstrip a) (lstrip b).
Proof.
  induction 1 as [|c d a b Hcd Hab IH]; simpl; [constructor|].
  rewrite <- (u_same_lower_space c d Hcd).
  destruct (is_space c); [done | by constructor].
Qed.

Lemma u_rstrip_same_lower a b :
  Forall2 (fun c d => to_lower_full c = to_lower_full d) a b ->
  Forall2 (fun c d => to_lower_full c = to_lower_full d) (rstrip a) (rstrip b).
Proof.
  induction 1 as [|c d a b Hcd Hab IH]; simpl; [constructor|].
  rewrite <- (u_same_lower_space c d Hcd).
  destruct IH as [|c' d' a' b' Hcd' Hab'].
  - destruct (is_space c); repeat constructor; done.
  - by repeat constructor.
Qed.

Lemma u_flat_map_same_lower a b :
  Forall2 (fun c d => to_lower_full c = to_lower_full d) a b ->
  flat_map to_lower_full a = flat_map to_lower_full b.
Proof. induction 1 as [|c d a b Hcd _ IH]; simpl; [done|]. by rewrite Hcd, IH. Qed.

Lemma u_sep_to_space_sigma c : c <> 0x3A3 -> sep_to_space c <> 0x3A3.
Proof. unfold sep_to_space. by destruct ((c =? 0x2E) || (c =? 0x5F)). Qed.

Lemma u_clean_all_space w : all_space w -> all_space (map sep_to_space w).
Proof.
  intros H. apply Forall_map. eapply Forall_impl; [exact H|]. intros c Hc. simpl.
  by rewrite u_not_sep_fixed by by apply u_space_not_sep.
Qed.

Lemma u_name_variant_key x y :
  name_variant x y ->
  Forall (fun c => c <> 0x3A3) x -> Forall (fun c => c <> 0x3A3) y ->
  normalize_name x = normalize_name y.
Proof.
  intros (l1 & c1 & r1 & l2 & c2 & r2 & -> & -> & Hl1 & Hr1 & Hl2 & Hr2 & Hc) Hx Hy.
  unfold normalize_name. f_equal. rewrite !map_app.
  rewrite !u_strip_surrounded by (apply u_clean_all_space; assumption).
  apply Forall_app in Hx as [_ Hx]. apply Forall_app in Hx as [Hx _].
  apply Forall_app in Hy as [_ Hy]. apply Forall_app in Hy as [Hy _].
  unfold lower, strip.
  rewrite !u_lower_sigma_free.
  - apply u_flat_map_same_lower, u_rstrip_same_lower, u_lstrip_same_lower.
    clear -Hc. induction Hc as [|a b c1 c2 Hab _ IH]; simpl; constructor; [|done].
    by apply u_char_variant_clean.
  - apply u_Forall_rstrip, u_Forall_lstrip, Forall_map.
    eapply Forall_impl; [exact Hy | apply u_sep_to_space_sigma].
  - apply u_Forall_rstrip, u_Forall_lstrip, Forall_map.
    eapply Forall_impl; [exact Hx | apply u_sep_to_space_sigma].
Qed.

Lemma u_sep_variant_key x y : sep_variant x y -> normalize_name x = normalize_name y.
Proof.
  intros (l1 & c1 & r1 & l2 & c2 & r2 & -> & -> & Hl1 & Hr1 & Hl2 & Hr2 & Hc).
  unfold normalize_name. do 2 f_equal. rewrite !map_app.
  rewrite !u_strip_surrounded by (apply u_clean_all_space; assumption).
  f_equal. clear -Hc.
  induction Hc as [|a b c1 c2 [-> | [Ha Hb]] _ IH]; simpl; [done| |]; rewrite IH; [done|].
  f_equal. set_unfold. by destruct Ha as [->|[->|[->|[]]]], Hb as [->|[->|[->|[]]]].
Qed.

End UnicodeFacts.

(* ===================================================================== *)
(** * Names beyond U+00FF: the episode pattern *)
(* ===================================================================== *)

Module UnicodePatternFacts.
Import Unicode.
Local Open Scope N_scope.

Lemma u_is_E_not_digit c : is_E c = true -> is_digit c = false.
Proof.
  unfold is_E. intros H. apply orb_true_iff in H as [H|H];
    apply N.eqb_eq in H; subst c; vm_compute; reflexivity.
Qed.

Lemma u_span_digits_fst_app d rest :
  Forall (fun c => is_digit c = true) d ->
  (span_digits (d ++ rest)).1 = d ++ (span_digits rest).1.
Proof.
  induction 1 as [|c d Hc _ IH]; simpl; [done|].
  rewrite Hc. destruct (span_digits (d ++ rest)) as [d' r'] eqn:E. simpl in *.
  by rewrite IH.
Qed.

Lemma u_span_digits_stop d c r :
  Forall (fun c => is_digit c = true) d -> is_digit c = false ->
  span_digits (d ++ c :: r) = (d, c :: r).
Proof.
  intros Hd Hc. induction Hd as [|a d Ha _ IH]; simpl.
  - by rewrite Hc.
  - by rewrite Ha, IH.
Qed.

Lemma u_span_digits_spec l :
  l = (span_digits l).1 ++ (span_digits l).2 /\
  Forall (fun c => is_digit c = true) (span_digits l).1.
Proof.
  induction l as [|c l [IH1 IH2]]; simpl; [by split|].
  destruct (is_digit c) eqn:Hc; [|by split].
  destruct (span_digits l) as [d r]. simpl in *. split; [by f_equal | by constructor].
Qed.

Lemma u_span_digits_rest l c r : (span_digits l).2 = c :: r -> is_digit c = false.
Proof.
  induction l as [|a l IH]; simpl; [done|].
  destruct (is_digit a) eqn:Ha.
  - destruct (span_digits l) as [d r']. simpl in *. apply IH.
  - simpl. by intros [= <- _].
Qed.

Lemma u_match_here_inv l s e len :
  match_here l = Some (s, e, len) ->
  exists c1 d1 c2 d2 r,
    l = c1 :: d1 ++ c2 :: d2 ++ r /\
    is_S c1 = true /\ is_E c2 = true /\
    d1 <> [] /\ Forall (fun c => is_digit c = true) d1 /\
    d2 <> [] /\ Forall (fun c => is_digit c = true) d2 /\
    (forall c, head r = Some c -> is_digit c = false) /\
    s = int_of_digits d1 /\ e = int_of_digits d2 /\
    len = (2 + length d1 + length d2)%nat.
Proof.
  unfold match_here. destruct l as [|c1 l1]; [done|].
  destruct (is_S c1) eqn:HS; [|done].
  pose proof (u_span_digits_spec l1) as [Hl1 Hd1].
  destruct (span_digits l1) as [d1 r1]. simpl in *.
  destruct d1 as [|a d1]; [done|]. destruct r1 as [|c2 l2]; [done|].
  destruct (is_E c2) eqn:HE; [|done].
  pose proof (u_span_digits_spec l2) as [Hl2 Hd2].
  pose proof (u_span_digits_rest l2) as Hrest.
  destruct (span_digits l2) as [d2 r2]. simpl in *.
  destruct d2 as [|b d2]; [done|].
  intros H. injection H as <- <- <-.
  exists c1, (a :: d1), c2, (b :: d2), r2.
  split; [rewrite Hl1; simpl; do 2 f_equal; by rewrite Hl2|].
  repeat split; try done.
  intros c Hc. destruct r2 as [|x r2]; [done|]. simpl in Hc. injection Hc as ->.
  by eapply Hrest.
Qed.

Lemma u_token_matches l : token_at_head l -> is_Some (match_here l).
Proof.
  intros (c1 & d1 & c2 & d2 & rest & -> & HS & HE & Hn1 & Hd1 & Hn2 & Hd2).
  simpl. rewrite HS.
  rewrite u_span_digits_stop by auto using u_is_E_not_digit.
  destruct d1 as [|a d1]; [done|]. rewrite HE.
  pose proof (u_span_digits_fst_app d2 rest Hd2) as Hf.
  destruct (span_digits (d2 ++ rest)) as [d' r']. simpl in Hf. subst d'.
  destruct d2 as [|b d2]; [done|]. simpl. by eexists.
Qed.

Lemma u_match_here_token l : is_Some (match_here l) <-> token_at_head l.
Proof.
  split; [|apply u_token_matches].
  intros [[[s e] len] H]. apply u_match_here_inv in H
    as (c1 & d1 & c2 & d2 & r & -> & HS & HE & Hn1 & Hd1 & Hn2 & Hd2 & _).
  by exists c1, d1, c2, d2, r.
Qed.

Lemma u_search_from_cons off c l :
  search_from off (c :: l) =
  match match_here (c :: l) with
  | Some (s, e, len) => Some (s, e, (off + len)%nat)
  | None => search_from (S off) l
  end.
Proof. reflexivity. Qed.

Lemma u_search_from_exists i : forall l off,
  is_Some (match_here (drop i l)) -> is_Some (search_from off l).
Proof.
  induction i as [|i IH]; intros l off [[[s e] len] Hm].
  - rewrite drop_0 in Hm. destruct l as [|c l]; [done|].
    rewrite u_search_from_cons, Hm. by eexists.
  - destruct l as [|c l]; [done|]. simpl in Hm.
    rewrite u_search_from_cons.
    destruct (match_here (c :: l)) as [[[s' e'] len']|]; [by eexists|].
    apply IH. by eexists.
Qed.

Lemma u_search_from_leftmost l : forall off s e k,
  search_from off l = Some (s, e, k) ->
  exists i len,
    k = (off + i + len)%nat /\ match_here (drop i l) = Some (s, e, len) /\
    (i <= length l)%nat /\
    forall j, (j < i)%nat -> match_here (drop j l) = None.
Proof.
  induction l as [|c l IH]; intros off s e k H.
  - done.
  - rewrite u_search_from_cons in H.
    destruct (match_here (c :: l)) as [[[s' e'] len]|] eqn:Hm.
    + injection H as <- <- <-. exists 0%nat, len. rewrite drop_0.
      split; [lia|]. split; [done|]. split; [lia|]. intros j Hj. lia.
    + apply IH in H as (i & len & -> & Hm' & Hle & Hleft).
      exists (S i), len. simpl. split; [lia|]. split; [done|]. split; [lia|].
      intros [|j] Hj; [done|]. simpl. apply Hleft. lia.
Qed.

(** ** Characters that the pattern reads alike *)

Lemma u_is_digit_class c d : same_class c d -> is_digit d = is_digit c.
Proof. intros (_ & _ & H). unfold is_digit. by rewrite H. Qed.

Lemma u_span_digits_class l l' :
  Forall2 same_class l l' ->
  Forall2 same_class (span_digits l).1 (span_digits l').1 /\
  Forall2 same_class (span_digits l).2 (span_digits l').2.
Proof.
  induction 1 as [|c d l l' Hcd Hl [IH1 IH2]]; simpl; [by split|].
  rewrite (u_is_digit_class c d Hcd).
  destruct (is_digit c).
  - destruct (span_digits l) as [d1 r1], (span_digits l') as [d1' r1']. simpl in *.
    split; [by constructor | done].
  - split; [constructor | by constructor].
Qed.

Lemma u_int_of_digits_class l l' :
  Forall2 same_class l l' -> int_of_digits l = int_of_digits l'.
Proof.
  intros H. unfold int_of_digits.
  assert (forall n,
            fold_left (fun acc c => acc * 10 + default 0 (digit_value c)) l n
            = fold_left (fun acc c => acc * 10 + default 0 (digit_value c)) l' n)
    as Hn; [|apply Hn].
  induction H as [|c d l l' (_ & _ & Hcd) _ IH]; intros n; [done|].
  simpl. by rewrite Hcd, IH.
Qed.

Lemma u_match_here_class l l' : Forall2 same_class l l' -> match_here l' = match_here l.
Proof.
  intros [|c d l1 l1' Hcd Hl]; [done|]. simpl.
  destruct Hcd as (-> & _ & _). destruct (is_S c); [|done].
  destruct (u_span_digits_class l1 l1' Hl) as [H1 H2].
  destruct (span_digits l1) as [d1 r1], (span_digits l1') as [d1' r1']. simpl in *.
  destruct H1 as [|a a' d1 d1' Ha Hd1]; [done|].
  destruct H2 as [|e e' l2 l2' He Hl2]; [done|].
  destruct He as (_ & -> & _). destruct (is_E e); [|done].
  destruct (u_span_digits_class l2 l2' Hl2) as [H3 _].
  destruct (span_digits l2) as [d2 r2], (span_digits l2') as [d2' r2']. simpl in *.
  destruct H3 as [|b b' d2 d2' Hb Hd2]; [done|].
  rewrite (u_int_of_digits_class (a :: d1) (a' :: d1')) by by constructor.
  rewrite (u_int_of_digits_class (b :: d2) (b' :: d2')) by by constructor.
  simpl. by rewrite (Forall2_length _ _ _ Hd1), (Forall2_length _ _ _ Hd2).
Qed.

Lemma u_search_from_class l l' :
  Forall2 same_class l l' -> forall off, search_from off l' = search_from off l.
Proof.
  induction 1 as [|c d l l' Hcd Hl IH]; intros off; [done|].
  rewrite !u_search_from_cons.
  rewrite (u_match_here_class (c :: l) (d :: l')) by by constructor.
  destruct (match_here (c :: l)) as [[[s e] len]|]; [done | apply IH].
Qed.

(** What a character other than U+0130 becomes is one character of its
    class. *)
Lemma u_piece_class c p :
  piece_ok c p -> c <> 0x130 -> exists d, p = [d] /\ same_class c d.
Proof.
  intros [[-> [-> | ->]] | [Hc ->]] Hn.
  - eexists. split; [done|]. repeat split; vm_compute; reflexivity.
  - eexists. split; [done|]. repeat split; vm_compute; reflexivity.
  - destruct (find c lower_table) as [v|] eqn:E.
    + pose proof (UnicodeFacts.u_found_ok c v E) as Hok.
      destruct (UnicodeFacts.u_changed_spec c v E) as (-> & _ & _ & _ & Hdc & Hall).
      unfold entry_ok in Hok. repeat (apply andb_true_iff in Hok as [Hok ?]).
      destruct v as [|d [|d' v]].
      * match goal with H : (c =? _) = true |- _ => by apply N.eqb_eq in H end.
      * exists d. split; [done|].
        match goal with H : _ && _ = true |- _ =>
          apply andb_true_iff in H as [HS HE] end.
        apply Bool.eqb_prop in HS, HE.
        apply Forall_cons in Hall as [(_ & _ & _ & Hdd & _) _].
        repeat split; try done.
        unfold is_digit in Hdc, Hdd.
        by destruct (digit_value c), (digit_value d).
      * match goal with H : (c =? _) = true |- _ => by apply N.eqb_eq in H end.
    + rewrite (UnicodeFacts.u_unchanged_lower c E). by exists c.
Qed.

Lemma u_lower_from_class l : forall before,
  Forall (fun c => c <> 0x130) l ->
  Forall2 same_class l (lower_from before l).
Proof.
  intros b Hl. destruct (UnicodeFacts.u_lower_from_pieces l b) as (ps & Hps & ->).
  induction Hps as [|c p l ps Hp _ IH]; [constructor|].
  apply Forall_cons in Hl as [Hc Hl].
  destruct (u_piece_class c p Hp Hc) as (d & -> & Hd). simpl.
  constructor; [done | by apply IH].
Qed.

End UnicodePatternFacts.

(* ===================================================================== *)
(** * Names of code points below 256 *)
(* ===================================================================== *)

(** On a name of [Names], read as its code points, the functions of
    [Unicode] are those of [Names] and [Pattern]. *)
Module Below256.
Local Open Scope N_scope.

Lemma is_space_code c : Unicode.is_space (code c) = is_space c.
Proof. NamesFacts.by_cases_on_char c. Qed.

Lemma sep_to_space_code c : Unicode.sep_to_space (code c) = code (sep_to_space c).
Proof. NamesFacts.by_cases_on_char c. Qed.

Lemma to_lower_code c : Unicode.to_lower_full (code c) = [code (lower_char c)].
Proof. NamesFacts.by_cases_on_char c. Qed.

Lemma code_not_sigma c : (code c =? 0x3A3) = false.
Proof. NamesFacts.by_cases_on_char c. Qed.

Lemma is_S_code c : Unicode.is_S (code c) = Pattern.is_S c.
Proof. NamesFacts.by_cases_on_char c. Qed.

Lemma is_E_code c : Unicode.is_E (code c) = Pattern.is_E c.
Proof. NamesFacts.by_cases_on_char c. Qed.

Lemma digit_value_code c :
  Unicode.digit_value (code c)
  = if Pattern.is_digit c then Some (code c - 48) else None.
Proof. NamesFacts.by_cases_on_char c. Qed.

Lemma is_digit_code c : Unicode.is_digit (code c) = Pattern.is_digit c.
Proof.
  unfold Unicode.is_digit. rewrite digit_value_code. by destruct (Pattern.is_digit c).
Qed.

Lemma lower_from_code l : forall before,
  Unicode.lower_from before (map code l) = map code (lower l).
Proof.
  unfold lower. induction l as [|c l IH]; intros b; [done|].
  cbn [map Unicode.lower_from]. by rewrite code_not_sigma, to_lower_code, IH.
Qed.

Lemma string_lower_code f :
  Unicode.lower (Unicode.of_string f) = Unicode.of_string (string_lower f).
Proof.
  unfold Unicode.lower, Unicode.of_string, string_lower.
  by rewrite list_ascii_of_string_of_list_ascii, lower_from_code.
Qed.

Lemma lstrip_code l : Unicode.lstrip (map code l) = map code (lstrip l).
Proof.
  induction l as [|c l IH]; [done|]. cbn [map Unicode.lstrip lstrip].
  rewrite is_space_code. by destruct (is_space c).
Qed.

Lemma rstrip_code l : Unicode.rstrip (map code l) = map code (rstrip l).
Proof.
  induction l as [|c l IH]; [done|]. cbn [map Unicode.rstrip rstrip].
  rewrite IH, is_space_code. destruct (rstrip l); [by destruct (is_space c) | done].
Qed.

Lemma collapse_code l : forall b,
  Unicode.collapse b (map code l) = map code (collapse b l).
Proof.
  induction l as [|c l IH]; intros b; [done|]. cbn [map Unicode.collapse collapse].
  rewrite is_space_code, !IH. by destruct (is_space c), b.
Qed.

Lemma normalize_name_code s :
  Unicode.normalize_name (Unicode.of_string s) = Unicode.of_string (normalize_name s).
Proof.
  unfold Unicode.normalize_name, Unicode.of_string, normalize_name, normalize_chars.
  rewrite list_ascii_of_string_of_list_ascii.
  rewrite map_map.
  rewrite (map_ext (fun c => Unicode.sep_to_space (code c))
             (fun c => code (sep_to_space c))) by apply sep_to_space_code.
  rewrite <- (map_map sep_to_space code).
  unfold Unicode.strip, Unicode.lower, strip.
  by rewrite lstrip_code, rstrip_code, lower_from_code, collapse_code.
Qed.

Lemma span_digits_code l :
  Unicode.span_digits (map code l)
  = (map code (Pattern.span_digits l).1, map code (Pattern.span_digits l).2).
Proof.
  induction l as [|c l IH]; [done|]. cbn [map Unicode.span_digits Pattern.span_digits].
  rewrite is_digit_code. destruct (Pattern.is_digit c); [|done].
  rewrite IH. by destruct (Pattern.span_digits l).
Qed.

Lemma int_of_digits_code d :
  Forall (fun c => Pattern.is_digit c = true) d ->
  Unicode.int_of_digits (map code d) = Pattern.int_of_digits d.
Proof.
  intros H. unfold Unicode.int_of_digits, Pattern.int_of_digits.
  assert (forall n,
            fold_left (fun acc c => acc * 10 + default 0 (Unicode.digit_value c))
              (map code d) n
            = fold_left (fun acc c => acc * 10 + (code c - 48)) d n)
    as Hn; [|apply Hn].
  induction H as [|c d Hc _ IH]; intros n; [done|].
  simpl. by rewrite digit_value_code, Hc, IH.
Qed.

Lemma match_here_code l :
  Unicode.match_here (map code l) = Pattern.match_here l.
Proof.
  destruct l as [|c1 l1]; [done|].
  cbn [map Unicode.match_here Pattern.match_here].
  rewrite is_S_code. destruct (Pattern.is_S c1); [|done].
  rewrite span_digits_code.
  pose proof (PatternFacts.span_digits_spec l1) as [_ Hd1].
  destruct (Pattern.span_digits l1) as [d1 r1]. cbn [fst snd] in *.
  destruct d1 as [|a d1]; [done|]. destruct r1 as [|c2 l2]; [done|].
  cbn [map]. rewrite is_E_code. destruct (Pattern.is_E c2); [|done].
  rewrite span_digits_code.
  pose proof (PatternFacts.span_digits_spec l2) as [_ Hd2].
  destruct (Pattern.span_digits l2) as [d2 r2]. cbn [fst snd] in *.
  destruct d2 as [|b d2]; [done|].
  change (code a :: map code d1) with (map code (a :: d1)).
  change (code b :: map code d2) with (map code (b :: d2)).
  by rewrite !int_of_digits_code, !length_map.
Qed.

Lemma search_code f : Unicode.search (Unicode.of_string f) = Pattern.search f.
Proof.
  unfold Unicode.search, Unicode.of_string, Pattern.search.
  generalize 0%nat. induction (list_ascii_of_string f) as [|c l IH]; intros off.
  - done.
  - change (map code (c :: l)) with (code c :: map code l).
    rewrite UnicodePatternFacts.u_search_from_cons, PatternFacts.search_from_cons.
    change (code c :: map code l) with (map code (c :: l)).
    rewrite match_here_code.
    destruct (Pattern.match_here (c :: l)) as [[[s e] len]|]; [done | apply IH].
Qed.

End Below256.

(* ===================================================================== *)
(** * Names beyond U+00FF: what holds of every name *)
(* ===================================================================== *)


Lemma unicode_variant_example :
  Unicode.name_variant (Unicode.of_string "The.Homers")
    (Unicode.of_string "  the_HOMERS ").
Proof.
  exists [], (Unicode.of_string "The.Homers"), [].
  exists (Unicode.of_string "  "), (Unicode.of_string "the_HOMERS"),
    (Unicode.of_string " ").
  split; [reflexivity|]. split; [reflexivity|].
  do 4 (split; [apply (bool_decide_unpack _); vm_compute; exact I|]).
  vm_compute.
  repeat first
    [ apply List.Forall2_nil
    | apply List.Forall2_cons;
      [first [ apply Unicode.cv_case; vm_compute; reflexivity
             | apply Unicode.cv_sep; apply (bool_decide_unpack _); vm_compute; exact I ]|] ].
Defined.



(** [PATTERN.search] finds a name exactly when the name holds a token: an
    [S], an [s] or the long s U+017F, one or more decimal digits of any
    script, an [E] or [e], one or more decimal digits.  What it reports is
    the leftmost token read greedily: no token starts before it, both digit
    runs are maximal, the numbers are those of the two runs read in base
    ten and [match.end()] is the position after the second run.  ([int]
    refuses a run of more than 4300 digits; no file name is that long, and
    the numbers are stated of names of at most 4300 characters.) *)
Theorem search_reports_leftmost_token_unicode (f : list N) :
  (is_Some (Unicode.search f) <-> exists i, Unicode.token_at_head (drop i f)) /\
  (forall s e k,
      (length f <= 4300)%nat ->
      Unicode.search f = Some (s, e, k) ->
      exists pre c1 d1 c2 d2 rest,
        f = pre ++ c1 :: d1 ++ c2 :: d2 ++ rest /\
        Unicode.is_S c1 = true /\ Unicode.is_E c2 = true /\
        d1 <> [] /\ Forall (fun c => Unicode.is_digit c = true) d1 /\
        d2 <> [] /\ Forall (fun c => Unicode.is_digit c = true) d2 /\
        (forall c, head rest = Some c -> Unicode.is_digit c = false) /\
        s = Unicode.int_of_digits d1 /\ e = Unicode.int_of_digits d2 /\
        k = (length pre + 2 + length d1 + length d2)%nat /\
        (forall j, (j < length pre)%nat -> ~ Unicode.token_at_head (drop j f))).
Proof.
  unfold Unicode.search. split.
  - split.
    + intros [[[s e] k] H].
      apply UnicodePatternFacts.u_search_from_leftmost in H as (i & len & _ & Hm & _).
      exists i. apply UnicodePatternFacts.u_match_here_token. by eexists.
    + intros [i Hi]. apply (UnicodePatternFacts.u_search_from_exists i).
      by apply UnicodePatternFacts.u_match_here_token.
  - intros s e k _ H.
    apply UnicodePatternFacts.u_search_from_leftmost in H
      as (i & len & -> & Hm & Hle & Hleft).
    apply UnicodePatternFacts.u_match_here_inv in Hm
      as (c1 & d1 & c2 & d2 & r & Hl & HS & HE & Hn1 & Hd1 & Hn2 & Hd2 & Hr & -> & -> & ->).
    exists (take i f), c1, d1, c2, d2, r.
    rewrite <- Hl, take_drop, length_take.
    replace (i `min` length f)%nat with i by lia.
    repeat split; try done; try lia.
    intros j Hj Htok. apply UnicodePatternFacts.u_match_here_token in Htok as [x Hx].
    rewrite Hleft in Hx by done. done.
Qed.

Lemma search_reports_leftmost_token_unicode_witness :
  (length (Unicode.of_string "Foo.S01E02.mkv") <= 4300)%nat /\
  Unicode.search (Unicode.of_string "Foo.S01E02.mkv") = Some (1%N, 2%N, 10%nat) /\
  exists pre c1 d1 c2 d2 rest,
    Unicode.of_string "Foo.S01E02.mkv" = pre ++ c1 :: d1 ++ c2 :: d2 ++ rest /\
    Unicode.is_S c1 = true /\ Unicode.is_E c2 = true /\
    d1 <> [] /\ Forall (fun c => Unicode.is_digit c = true) d1 /\
    d2 <> [] /\ Forall (fun c => Unicode.is_digit c = true) d2 /\
    (forall c, head rest = Some c -> Unicode.is_digit c = false) /\
    1%N = Unicode.int_of_digits d1 /\ 2%N = Unicode.int_of_digits d2 /\
    10%nat = (length pre + 2 + length d1 + length d2)%nat /\
    (forall j, (j < length pre)%nat ->
       ~ Unicode.token_at_head (drop j (Unicode.of_string "Foo.S01E02.mkv"))).
Proof.
  assert (length (Unicode.of_string "Foo.S01E02.mkv") <= 4300)%nat as Hlen
    by (vm_compute; lia).
  assert (Unicode.search (Unicode.of_string "Foo.S01E02.mkv")
          = Some (1%N, 2%N, 10%nat)) as Hs by (vm_compute; reflexivity).
  split; [exact Hlen|]. split; [exact Hs|].
  exact (proj2 (search_reports_leftmost_token_unicode _) _ _ _ Hlen Hs).
Defined.

(** The long s and the digits of another script in a token: season 1,
    episode 2, and the match ends after four characters. *)
Example long_s_and_arabic_digits :
  Unicode.search [0x17F; 0x661; 0x65; 0x662; 0x2E; 0x6D]%N = Some (1%N, 2%N, 4%nat).
Proof. vm_compute. reflexivity. Qed.

(** The pattern ignores letter case: a name without U+0130 (of at most
    4300 characters, which [int] reads whatever its digits) and its
    lower-cased form give the same season, episode and end of match, or
    both give none. *)
Theorem search_ignores_case_unicode (f : list N) :
  0x130%N ∉ f -> (length f <= 4300)%nat ->
  Unicode.search (Unicode.lower f) = Unicode.search f.
Proof.
  intros Hf _. unfold Unicode.search, Unicode.lower.
  apply UnicodePatternFacts.u_search_from_class, UnicodePatternFacts.u_lower_from_class.
  apply Forall_forall. by intros c Hc ->.
Qed.

Lemma search_ignores_case_unicode_witness :
  (0x130%N ∉ Unicode.of_string "Foo.S01E02.MKV") /\
  (length (Unicode.of_string "Foo.S01E02.MKV") <= 4300)%nat /\
  Unicode.search (Unicode.lower (Unicode.of_string "Foo.S01E02.MKV"))
  = Unicode.search (Unicode.of_string "Foo.S01E02.MKV").
Proof.
  assert (0x130%N ∉ Unicode.of_string "Foo.S01E02.MKV") as H.
  { apply (bool_decide_unpack _). vm_compute. exact I. }
  assert (length (Unicode.of_string "Foo.S01E02.MKV") <= 4300)%nat as Hlen.
  { vm_compute. lia. }
  split; [exact H|]. split; [exact Hlen|].
  exact (search_ignores_case_unicode _ H Hlen).
Defined.

(** U+0130 becomes two characters in lower case, which moves the end of
    the match. *)
Example dotted_capital_i_moves_the_match :
  Unicode.search [0x130; 0x53; 0x30; 0x31; 0x45; 0x30; 0x32]%N
  = Some (1%N, 2%N, 7%nat) /\
  Unicode.search (Unicode.lower [0x130; 0x53; 0x30; 0x31; 0x45; 0x30; 0x32]%N)
  = Some (1%N, 2%N, 8%nat).
Proof. split; vm_compute; reflexivity. Qed.
